(** * Multi-channel subgraph matching: graph container and constrained LSAP

    A shallow embedding of [uclasm/graph.py] and [uclasm/matching/lsap.py].
    Python exceptions are values of an error monad, numpy arrays are lists
    with their shape written out, and [np.double] costs are the doubles
    that hold an integer, with the three IEEE specials, each addition
    rounded as a double rounds it.  The assignment solver
    [scipy.optimize.linear_sum_assignment] is a parameter of the LSAP
    functions. *)

From Stdlib Require Import String Ascii DecimalString DecimalNat.
From Stdlib Require Import ZArith List Bool Arith Lia.
From Stdlib Require Import Sorting.Sorted Sorting.Permutation.
Import ListNotations.
Open Scope string_scope.
Open Scope list_scope.
Open Scope nat_scope.

Set Implicit Arguments.

(* ===================================================================== *)
(** ** Python exceptions as an error monad *)
(* ===================================================================== *)

Inductive exn : Type :=
| ValueError (msg : string)
| IndexError (msg : string)
| TypeError (msg : string)
| KeyError (msg : string)
| AttributeError (msg : string)
| Exception_ (msg : string).

Definition result (A : Type) : Type := (exn + A)%type.

Definition ret {A : Type} (a : A) : result A := inr a.

Definition raise {A : Type} (e : exn) : result A := inl e.

Definition bind {A B : Type} (c : result A) (k : A -> result B) : result B :=
  match c with
  | inl e => inl e
  | inr a => k a
  end.

Declare Scope py_scope.
Delimit Scope py_scope with py.
Notation "x <- c ;; k" := (bind c (fun x => k))
  (at level 61, c at next level, right associativity) : py_scope.
Notation "' p <- c ;; k" := (bind c (fun x => match x with p => k end))
  (at level 61, p pattern, c at next level, right associativity) : py_scope.
Open Scope py_scope.

(** [for x in xs: st = body(x, st)], stopping at the first exception. *)
Fixpoint for_each {A S : Type} (xs : list A) (body : A -> S -> result S)
  (st : S) : result S :=
  match xs with
  | [] => ret st
  | x :: rest => st' <- body x st ;; for_each rest body st'
  end.

Fixpoint mapM {A B : Type} (f : A -> result B) (xs : list A) : result (list B) :=
  match xs with
  | [] => ret []
  | x :: rest => y <- f x ;; ys <- mapM f rest ;; ret (y :: ys)
  end.

(* ===================================================================== *)
(** ** [np.double], on its integer values and the IEEE specials *)
(* ===================================================================== *)

(** The doubles that hold an integer, and the specials.  Costs with a
    fractional part are outside this model, and what is proved of the
    arithmetic below is stated for matrices of integers. *)
Inductive cost : Type :=
| Fin (z : Z)
| PInf
| NInf
| NaN.

(** The double an operation returns for the exact integer result [z]: [z]
    itself up to [2^53 = 9007199254740992]; beyond, the nearest number
    with 53 significant bits, a tie going to the even significand; an
    infinity from [2^1024] on. *)
Definition round_double (z : Z) : cost :=
  let a := Z.abs z in
  if (a <=? 9007199254740992)%Z then Fin z
  else
    let e := (Z.log2 a - 52)%Z in
    let q := (a / 2 ^ e)%Z in
    let r := (a mod 2 ^ e)%Z in
    let half := (2 ^ (e - 1))%Z in
    let q' := if (r <? half)%Z then q
              else if (half <? r)%Z then (q + 1)%Z
              else if Z.even q then q else (q + 1)%Z in
    let m := (q' * 2 ^ e)%Z in
    if (2 ^ 1024 <=? m)%Z then (if (z <? 0)%Z then NInf else PInf)
    else Fin (Z.sgn z * m).

(** [a + b] on doubles: the exact sum, rounded. *)
Definition cadd (a b : cost) : cost :=
  match a, b with
  | NaN, _ | _, NaN => NaN
  | PInf, NInf | NInf, PInf => NaN
  | PInf, _ | _, PInf => PInf
  | NInf, _ | _, NInf => NInf
  | Fin x, Fin y => round_double (x + y)
  end.

Definition cneg (a : cost) : cost :=
  match a with
  | Fin x => Fin (- x)
  | PInf => NInf
  | NInf => PInf
  | NaN => NaN
  end.

Definition csub (a b : cost) : cost := cadd a (cneg b).

(** [a < b] on doubles: false as soon as one side is NaN. *)
Definition clt (a b : cost) : bool :=
  match a, b with
  | NaN, _ | _, NaN => false
  | Fin x, Fin y => (x <? y)%Z
  | NInf, NInf => false
  | NInf, _ => true
  | _, NInf => false
  | PInf, _ => false
  | Fin _, PInf => true
  end.

(** [a != b] on doubles: NaN differs from everything, itself included. *)
Definition cneq (a b : cost) : bool :=
  match a, b with
  | NaN, _ | _, NaN => true
  | Fin x, Fin y => negb (x =? y)%Z
  | PInf, PInf => false
  | NInf, NInf => false
  | _, _ => true
  end.

Definition cle (a b : cost) : bool := clt a b || negb (cneq a b).

(** [arr.sum()]: the entries added from the first to the last, each
    addition rounded; the empty sum is [0.0].  numpy keeps this order for
    arrays of fewer than 8 entries and adds longer ones in blocks; on the
    matrices of [exact_costs] below no addition rounds, and every order
    gives the same total ([csum_exact], [csum_any_order]). *)
Definition csum (l : list cost) : cost := fold_left cadd l (Fin 0).

Definition is_nan (a : cost) : bool :=
  match a with NaN => true | _ => false end.

(** [np.argmin] over one row: first position of the least entry, a NaN
    counting as least; an empty row is a [ValueError]. *)
Fixpoint argmin_from (l : list cost) (i : nat) (best : cost) (bi : nat) : nat :=
  match l with
  | [] => bi
  | x :: t =>
      if negb (is_nan best) && (is_nan x || clt x best)
      then argmin_from t (S i) x i
      else argmin_from t (S i) best bi
  end.

Definition argmin (l : list cost) : result Z :=
  match l with
  | [] => raise (ValueError "attempt to get argmin of an empty sequence")
  | x :: t => ret (Z.of_nat (argmin_from t 1 x 0))
  end.

(* ===================================================================== *)
(** ** numpy arrays *)
(* ===================================================================== *)

(** A 2-d array with its [shape]: dense for [np.ndarray], and the dense
    view of the entries for a scipy sparse matrix. *)
Record array2 (A : Type) : Type := mk_array2 {
  nrows : nat;
  ncols : nat;
  data : list (list A)
}.

(** Arrays of doubles. *)
Definition ndarray : Type := array2 cost.

Definition mk_ndarray (r c : nat) (d : list (list cost)) : ndarray := mk_array2 r c d.

Definition wf_array2 {A : Type} (a : array2 A) : Prop :=
  length (data a) = nrows a /\ Forall (fun r => length r = ncols a) (data a).

Definition wf_ndarray (a : ndarray) : Prop := wf_array2 a.

Definition arange (n : nat) : list Z := map Z.of_nat (seq 0 n).

(** Index normalisation of numpy: negative indices count from the end. *)
Definition norm_index (n : nat) (k : Z) : result nat :=
  if ((0 <=? k) && (k <? Z.of_nat n))%Z then ret (Z.to_nat k)
  else if ((- Z.of_nat n <=? k) && (k <? 0))%Z then ret (Z.to_nat (k + Z.of_nat n))
  else raise (IndexError "index out of bounds").

Definition list_get {A : Type} (l : list A) (k : Z) : result A :=
  k' <- norm_index (length l) k ;;
  match nth_error l k' with
  | Some x => ret x
  | None => raise (IndexError "index out of bounds")
  end.

Fixpoint list_upd {A : Type} (l : list A) (k : nat) (x : A) : list A :=
  match l, k with
  | [], _ => []
  | _ :: t, O => x :: t
  | y :: t, S k' => y :: list_upd t k' x
  end.

Definition list_set {A : Type} (l : list A) (k : Z) (x : A) : result (list A) :=
  k' <- norm_index (length l) k ;;
  ret (list_upd l k' x).

(** [a[i, j]] *)
Definition get2 {A : Type} (a : array2 A) (i j : Z) : result A :=
  i' <- norm_index (nrows a) i ;;
  j' <- norm_index (ncols a) j ;;
  match nth_error (data a) i' with
  | Some r =>
      match nth_error r j' with
      | Some c => ret c
      | None => raise (IndexError "index out of bounds")
      end
  | None => raise (IndexError "index out of bounds")
  end.

(** [a[i, j] = v] *)
Definition set2 {A : Type} (a : array2 A) (i j : Z) (v : A) : result (array2 A) :=
  i' <- norm_index (nrows a) i ;;
  j' <- norm_index (ncols a) j ;;
  match nth_error (data a) i' with
  | Some r => ret (mk_array2 (nrows a) (ncols a) (list_upd (data a) i' (list_upd r j' v)))
  | None => raise (IndexError "index out of bounds")
  end.

(** Broadcasting of two 1-d operands: equal lengths, or one of length 1;
    [e] is the exception numpy raises otherwise. *)
Definition broadcast2 {A B : Type} (e : exn) (xs : list A) (ys : list B)
  : result (list (A * B)) :=
  if length xs =? length ys then ret (combine xs ys)
  else match xs, ys with
       | [x], _ => ret (map (fun y => (x, y)) ys)
       | _, [y] => ret (map (fun x => (x, y)) xs)
       | _, _ => raise e
       end.

Definition index_mismatch : exn :=
  IndexError "shape mismatch: indexing arrays could not be broadcast together".

Definition operand_mismatch : exn :=
  ValueError "operands could not be broadcast together".

(** [a[rs, cs]] with two integer index arrays. *)
Definition fancy_get (a : ndarray) (rs cs : list Z) : result (list cost) :=
  idx <- broadcast2 index_mismatch rs cs ;;
  mapM (fun '(r, c) => get2 a r c) idx.

(** [a[rs, cs] = v] with a scalar [v]. *)
Definition fancy_set (a : ndarray) (rs cs : list Z) (v : cost) : result ndarray :=
  idx <- broadcast2 index_mismatch rs cs ;;
  for_each idx (fun '(r, c) acc => set2 acc r c v) a.

(** [a[i, :]] *)
Definition get_row (a : ndarray) (i : Z) : result (list cost) :=
  i' <- norm_index (nrows a) i ;;
  match nth_error (data a) i' with
  | Some r => ret r
  | None => raise (IndexError "index out of bounds")
  end.

(** [a[i, :] = r] *)
Definition set_row (a : ndarray) (i : Z) (r : list cost) : result ndarray :=
  i' <- norm_index (nrows a) i ;;
  if length r =? ncols a
  then ret (mk_ndarray (nrows a) (ncols a) (list_upd (data a) i' r))
  else raise operand_mismatch.

Definition enumerate {A : Type} (l : list A) : list (nat * A) :=
  combine (seq 0 (length l)) l.

(** [a.T]; [d] fills the cells a ragged input lacks. *)
Definition transpose_with {A : Type} (d : A) (a : array2 A) : array2 A :=
  mk_array2 (ncols a) (nrows a)
    (map (fun j => map (fun r => nth j r d) (data a)) (seq 0 (ncols a))).

Definition transpose (a : ndarray) : ndarray := transpose_with NaN a.

(** [np.zeros(shape); a[:] = v] *)
Definition full (r c : nat) (v : cost) : ndarray :=
  mk_ndarray r c (repeat (repeat v c) r).

(** Selection by a boolean mask, [l[mask]]. *)
Fixpoint mask_select {A : Type} (mask : list bool) (l : list A) : list A :=
  match mask, l with
  | b :: mask', x :: l' => if b then x :: mask_select mask' l' else mask_select mask' l'
  | _, _ => []
  end.

Definition count_true (mask : list bool) : nat := length (filter (fun b => b) mask).

(** [a[mask, :]] *)
Definition rows_by_mask {A : Type} (a : array2 A) (mask : list bool) : result (array2 A) :=
  if length mask =? nrows a
  then ret (mk_array2 (count_true mask) (ncols a) (mask_select mask (data a)))
  else raise (IndexError "boolean index did not match indexed array").

(** [a[:, mask]] *)
Definition cols_by_mask {A : Type} (a : array2 A) (mask : list bool) : result (array2 A) :=
  if length mask =? ncols a
  then ret (mk_array2 (nrows a) (count_true mask) (map (mask_select mask) (data a)))
  else raise (IndexError "boolean index did not match indexed array").

(** [a[:, idx]] with an integer index array; [d] fills the cells a ragged
    input lacks. *)
Definition cols_by_idx_with {A : Type} (d : A) (a : array2 A) (idx : list Z)
  : result (array2 A) :=
  idx' <- mapM (norm_index (ncols a)) idx ;;
  ret (mk_array2 (nrows a) (length idx)
         (map (fun r => map (fun j => nth j r d) idx') (data a))).

Definition cols_by_idx (a : ndarray) (idx : list Z) : result ndarray :=
  cols_by_idx_with NaN a idx.

(** [a[idx, :]] with an integer index array. *)
Definition rows_by_idx {A : Type} (a : array2 A) (idx : list Z) : result (array2 A) :=
  idx' <- mapM (norm_index (nrows a)) idx ;;
  ret (mk_array2 (length idx) (ncols a) (map (fun i => nth i (data a) []) idx')).

(** [a[:, j]] *)
Definition column (a : ndarray) (j : Z) : result (list cost) :=
  j' <- norm_index (ncols a) j ;;
  ret (map (fun r => nth j' r NaN) (data a)).

(** [l[mask] = vals] *)
Fixpoint mask_assign {A : Type} (mask : list bool) (l : list A) (vals : list A) : list A :=
  match mask, l with
  | b :: mask', x :: l' =>
      if b then match vals with
                | v :: vals' => v :: mask_assign mask' l' vals'
                | [] => x :: mask_assign mask' l' []
                end
      else x :: mask_assign mask' l' vals
  | _, _ => l
  end.

Definition set_by_mask {A : Type} (l : list A) (mask : list bool) (vals : list A) : result (list A) :=
  if negb (length mask =? length l)
  then raise (IndexError "boolean index did not match indexed array")
  else if count_true mask =? length vals then ret (mask_assign mask l vals)
  else match vals with
       | [v] => ret (mask_assign mask l (repeat v (count_true mask)))
       | _ => raise (ValueError "NumPy boolean array indexing assignment cannot assign input values")
       end.

(** [np.argmin(a, axis=1)] *)
Definition argmin_axis1 (a : ndarray) : result (list Z) :=
  if ncols a =? 0
  then raise (ValueError "attempt to get argmin of an empty sequence")
  else mapM argmin (data a).

(** Sorted, duplicate-free integer arrays, as [np.unique] returns them. *)
Fixpoint insert_uniq (x : Z) (l : list Z) : list Z :=
  match l with
  | [] => [x]
  | y :: t => if (x <? y)%Z then x :: l
              else if (x =? y)%Z then l
              else y :: insert_uniq x t
  end.

Definition np_unique (l : list Z) : list Z := fold_right insert_uniq [] l.

Definition memZ (x : Z) (l : list Z) : bool := existsb (Z.eqb x) l.

Definition setdiff1d (a b : list Z) : list Z :=
  filter (fun x => negb (memZ x b)) (np_unique a).

Definition union1d (a b : list Z) : list Z := np_unique (a ++ b).

(** [np.argwhere(arr == x)[0]] *)
Fixpoint find_index (x : Z) (l : list Z) (i : nat) : result nat :=
  match l with
  | [] => raise (IndexError "index 0 is out of bounds for axis 0 with size 0")
  | y :: t => if (y =? x)%Z then ret i else find_index x t (S i)
  end.

(** Modelled from the spec: [one_hot] lives in [uclasm/utils.py], which is
    not among the sources.  It is used as a boolean vector of the given
    length that is true exactly at [idx] (the node cover "marks" the chosen
    node with it, the solver drops one row or column with it); writing to
    a position outside the vector is an [IndexError]. *)
Definition one_hot (idx length : nat) : result (list bool) :=
  if idx <? length then ret (map (Nat.eqb idx) (seq 0 length))
  else raise (IndexError "index out of bounds").

Definition invert (mask : list bool) : list bool := map negb mask.

(* ===================================================================== *)
(** ** [uclasm/matching/lsap.py] *)
(* ===================================================================== *)

(** The matrix on which the solver is first run: the input, transposed
    when it has more rows than columns. *)
Definition normalized (costs : ndarray) : ndarray :=
  if ncols costs <? nrows costs then transpose costs else costs.

Definition infeasible_msg : string := "cost matrix is infeasible".

(** [total - lsap_costs[:, None] + costs], with numpy's broadcasting of the
    column vector against the matrix. *)
Definition base_total_costs (total : cost) (lsap_costs : list cost) (costs : ndarray)
  : result ndarray :=
  let shift (l : cost) (r : list cost) := map (fun c => cadd (csub total l) c) r in
  if length lsap_costs =? nrows costs
  then ret (mk_ndarray (nrows costs) (ncols costs)
              (map (fun '(l, r) => shift l r) (combine lsap_costs (data costs))))
  else match lsap_costs, data costs with
       | [l], _ => ret (mk_ndarray (nrows costs) (ncols costs) (map (shift l) (data costs)))
       | _, [r] => ret (mk_ndarray (length lsap_costs) (ncols costs)
                          (map (fun l => shift l r) lsap_costs))
       | _, _ => raise operand_mismatch
       end.

(** [costs[~one_hot(i, n_rows), :][:, ~one_hot(j, n_cols)]] *)
Definition constraint_submatrix (i j : nat) (costs : ndarray) : result ndarray :=
  mi <- one_hot i (nrows costs) ;;
  kept_rows <- rows_by_mask costs (invert mi) ;;
  mj <- one_hot j (ncols costs) ;;
  cols_by_mask kept_rows (invert mj).

Section Lsap.

(** [scipy.optimize.linear_sum_assignment]: the pair of index arrays
    [(row_ind, col_ind)], or the exception it raised. *)
Variable lap : ndarray -> result (list Z * list Z).

Definition constrained_lsap_cost (i j : nat) (costs : ndarray) : result cost :=
  (* Cost matrix omitting the row and column corresponding to the constraint. *)
  sub_costs <- constraint_submatrix i j costs ;;
  (* Lsap solution for the submatrix. *)
  match lap sub_costs with
  | inl (ValueError msg) =>
      if String.eqb msg infeasible_msg then ret PInf else raise (ValueError msg)
  | inl e => raise e
  | inr (sub_row_ind, sub_col_ind) =>
      (* Total cost is that of the submatrix lsap plus the cost of the constraint. *)
      picked <- fancy_get sub_costs sub_row_ind sub_col_ind ;;
      cij <- get2 costs (Z.of_nat i) (Z.of_nat j) ;;
      ret (cadd (csum picked) cij)
  end.

(** The reference implementation quoted in the docstring of
    [constrained_lsap_costs]: one constrained solve per entry. *)
Definition naive_constrained_lsap_costs (costs : ndarray) : result ndarray :=
  rows <- mapM (fun i => mapM (fun j => constrained_lsap_cost i j costs)
                              (seq 0 (ncols costs)))
               (seq 0 (nrows costs)) ;;
  ret (mk_ndarray (nrows costs) (ncols costs) rows).

(** One round of the inner loop [for other_i, stolen_j in enumerate(col_idxs)];
    the state is [(col_idxs, total_costs)]. *)
Definition steal_step (costs : ndarray) (row_idxs : list Z)
  (best_col_idxs second_best_col_idxs third_best_col_idxs potential_cols : list Z)
  (i other_i : nat) (st : list Z * ndarray) : result (list Z * ndarray) :=
  let '(col_idxs, total_costs) := st in
  stolen_j <- list_get col_idxs (Z.of_nat other_i) ;;
  if other_i =? i then ret st else
  (* Row i steals column stolen_j from other_i because of constraint. *)
  col_idxs <- list_set col_idxs (Z.of_nat i) stolen_j ;;
  col_idxs <- list_set col_idxs (Z.of_nat other_i) (-1)%Z ;;
  (* Row other_i must find a new column. What is its next best option? *)
  best_j <- list_get best_col_idxs (Z.of_nat other_i) ;;
  second_best_j <- list_get second_best_col_idxs (Z.of_nat other_i) ;;
  third_best_j <- list_get third_best_col_idxs (Z.of_nat other_i) ;;
  take_best <-
    (if negb (best_j =? stolen_j)%Z && negb (memZ best_j col_idxs)
     then a <- get2 costs (Z.of_nat other_i) best_j ;;
          b <- get2 costs (Z.of_nat other_i) second_best_j ;;
          ret (cneq a b || negb (memZ second_best_j col_idxs))
     else ret false) ;;
  '(col_idxs, total_costs) <-
    (if take_best : bool
     then
       col_idxs <- list_set col_idxs (Z.of_nat other_i) best_j ;;
       picked <- fancy_get costs row_idxs col_idxs ;;
       total_costs <- set2 total_costs (Z.of_nat i) stolen_j (csum picked) ;;
       ret (col_idxs, total_costs)
     else
       take_second <-
         (if negb (memZ second_best_j col_idxs)
          then a <- get2 costs (Z.of_nat other_i) second_best_j ;;
               b <- get2 costs (Z.of_nat other_i) third_best_j ;;
               ret (cneq a b || negb (memZ third_best_j col_idxs))
          else ret false) ;;
       if take_second : bool
       then
         col_idxs <- list_set col_idxs (Z.of_nat other_i) second_best_j ;;
         picked <- fancy_get costs row_idxs col_idxs ;;
         total_costs <- set2 total_costs (Z.of_nat i) stolen_j (csum picked) ;;
         ret (col_idxs, total_costs)
       else
         sub_costs <- cols_by_idx costs potential_cols ;;
         sub_j <- find_index stolen_j potential_cols 0 ;;
         total_cost <- constrained_lsap_cost i sub_j sub_costs ;;
         total_costs <- set2 total_costs (Z.of_nat i) stolen_j total_cost ;;
         ret (col_idxs, total_costs)) ;;
  (* Give other_i its column back in preparation for the next round. *)
  col_idxs <- list_set col_idxs (Z.of_nat other_i) stolen_j ;;
  col_idxs <- list_set col_idxs (Z.of_nat i) (-1)%Z ;;
  ret (col_idxs, total_costs).

(** One round of the outer loop [for i, freed_j in enumerate(lsap_col_idxs)];
    the state is [total_costs]. *)
Definition constrain_row (costs : ndarray) (row_idxs lsap_col_idxs : list Z)
  (lsap_costs : list cost)
  (best_col_idxs second_best_col_idxs third_best_col_idxs potential_cols : list Z)
  (i_freed_j : nat * Z) (total_costs : ndarray) : result ndarray :=
  let '(i, freed_j) := i_freed_j in
  let n_rows := nrows costs in
  col_idxs <- list_set lsap_col_idxs (Z.of_nat i) (-1)%Z ;;
  (* When row i is constrained to another column, can column j be
     reassigned to improve the assignment cost of one of the other rows? *)
  freed_col_costs <- column costs freed_j ;;
  cmp <- broadcast2 operand_mismatch freed_col_costs lsap_costs ;;
  '(col_idxs, total_costs) <-
    (if existsb (fun '(a, b) => clt a b) cmp
     then
       (* Solve the lsap with row i omitted. *)
       mi <- one_hot i n_rows ;;
       let sub_ind := invert mi in
       kept_rows <- rows_by_mask costs sub_ind ;;
       sub_costs <- cols_by_idx kept_rows lsap_col_idxs ;;
       '(sub_row_ind, sub_col_ind) <- lap sub_costs ;;
       picked <- fancy_get sub_costs sub_row_ind sub_col_ind ;;
       let sub_total_cost := csum picked in
       vals <- mapM (list_get lsap_col_idxs) sub_col_ind ;;
       col_idxs <- set_by_mask col_idxs sub_ind vals ;;
       row_i <- get_row costs (Z.of_nat i) ;;
       total_costs <- set_row total_costs (Z.of_nat i)
                        (map (fun c => cadd c sub_total_cost) row_i) ;;
       ret (col_idxs, total_costs)
     else ret (col_idxs, total_costs)) ;;
  (* col_idxs now contains the optimal assignment columns ignoring row i. *)
  free_j <- list_get (setdiff1d lsap_col_idxs col_idxs) 0%Z ;;
  col_idxs <- list_set col_idxs (Z.of_nat i) free_j ;;
  picked <- fancy_get costs row_idxs col_idxs ;;
  col_i <- list_get col_idxs (Z.of_nat i) ;;
  total_costs <- set2 total_costs (Z.of_nat i) col_i (csum picked) ;;
  col_idxs <- list_set col_idxs (Z.of_nat i) (-1)%Z ;;
  '(_, total_costs) <-
    for_each (seq 0 (length col_idxs))
      (steal_step costs row_idxs best_col_idxs second_best_col_idxs
         third_best_col_idxs potential_cols i)
      (col_idxs, total_costs) ;;
  ret total_costs.

(** The body of [constrained_lsap_costs] below the transposition guard. *)
Definition constrained_lsap_costs_wide (costs : ndarray) : result ndarray :=
  let n_rows := nrows costs in
  let n_cols := ncols costs in
  (* Find the best lsap assignment from rows to columns without constrains. *)
  match lap costs with
  | inl (ValueError msg) =>
      if String.eqb msg infeasible_msg then ret (full n_rows n_cols PInf)
      else raise (ValueError msg)
  | inl e => raise e
  | inr (row_idxs, lsap_col_idxs) =>
      (* Column vector of costs of each assignment in the lsap solution. *)
      lsap_costs <- fancy_get costs row_idxs lsap_col_idxs ;;
      let lsap_total_cost := csum lsap_costs in
      (* Find the two minimum-cost columns for each row *)
      best_col_idxs <- argmin_axis1 costs ;;
      _costs <- fancy_set costs row_idxs best_col_idxs PInf ;;
      second_best_col_idxs <- argmin_axis1 _costs ;;
      _costs <- fancy_set _costs row_idxs second_best_col_idxs PInf ;;
      third_best_col_idxs <- argmin_axis1 _costs ;;
      potential_cols <-
        (if n_rows <? n_cols
         then
           let unused := setdiff1d (arange n_cols) lsap_col_idxs in
           unused_costs <- cols_by_idx costs unused ;;
           first_unused <- argmin_axis1 unused_costs ;;
           picked <- mapM (list_get unused) first_unused ;;
           ret (union1d lsap_col_idxs picked)
         else ret (arange n_cols)) ;;
      total_costs <- base_total_costs lsap_total_cost lsap_costs costs ;;
      total_costs <-
        for_each (enumerate lsap_col_idxs)
          (constrain_row costs row_idxs lsap_col_idxs lsap_costs best_col_idxs
             second_best_col_idxs third_best_col_idxs potential_cols)
          total_costs ;;
      (* For those constraints which are compatible with the unconstrained lsap: *)
      fancy_set total_costs row_idxs lsap_col_idxs lsap_total_cost
  end.

(** [constrained_lsap_costs]: the recursive call is on the transposed
    matrix, which has fewer rows than columns, so it reaches the body. *)
Definition constrained_lsap_costs (costs : ndarray) : result ndarray :=
  if ncols costs <? nrows costs
  then t <- constrained_lsap_costs_wide (transpose costs) ;; ret (transpose t)
  else constrained_lsap_costs_wide costs.

End Lsap.

(* ===================================================================== *)
(** ** The contract of the assignment solver *)
(* ===================================================================== *)

(** [a[r][c]] for indices known to be in range. *)
Definition cell (a : ndarray) (r c : Z) : cost :=
  nth (Z.to_nat c) (nth (Z.to_nat r) (data a) []) NaN.

Definition in_range (n : nat) (k : Z) : Prop := (0 <= k < Z.of_nat n)%Z.

(** An assignment of a [r x c] problem pairs [min r c] rows with as many
    pairwise-distinct columns; scipy reports the rows in increasing order. *)
Record is_assignment (a : ndarray) (rs cs : list Z) : Prop := {
  asg_size : length rs = Nat.min (nrows a) (ncols a);
  asg_cols : length cs = length rs;
  asg_rows_sorted : StronglySorted Z.lt rs;
  asg_rows_range : Forall (in_range (nrows a)) rs;
  asg_cols_nodup : NoDup cs;
  asg_cols_range : Forall (in_range (ncols a)) cs
}.

(** The sum of two costs as numbers, with no rounding, and the total of a
    list of costs: what "total cost" means in the contract of the solver
    and in the statement of the constrained problem. *)
Definition tadd (a b : cost) : cost :=
  match a, b with
  | NaN, _ | _, NaN => NaN
  | PInf, NInf | NInf, PInf => NaN
  | PInf, _ | _, PInf => PInf
  | NInf, _ | _, NInf => NInf
  | Fin x, Fin y => Fin (x + y)
  end.

Definition total (l : list cost) : cost := fold_right tadd (Fin 0) l.

Definition assignment_cost (a : ndarray) (rs cs : list Z) : cost :=
  total (map (fun rc => cell a (fst rc) (snd rc)) (combine rs cs)).

(** scipy rejects NaN and -inf entries. *)
Definition valid_entry (c : cost) : bool :=
  match c with
  | Fin _ | PInf => true
  | NInf | NaN => false
  end.

Definition valid_costs (a : ndarray) : bool := forallb (forallb valid_entry) (data a).

(** A matrix on which the arithmetic of the code is exact.  The code adds
    up at most one entry per assigned row, [n = min(r, c)] of them, and
    two more; when every finite entry [z] has [|z| * (n + 2) <= 2^53], each
    of its sums and differences is an integer that a double holds, so no
    addition rounds. *)
Definition exact_entry (n : nat) (c : cost) : bool :=
  match c with
  | Fin z => (Z.abs z * (Z.of_nat n + 2) <=? 9007199254740992)%Z
  | _ => true
  end.

Definition exact_costs (a : ndarray) : bool :=
  forallb (forallb (exact_entry (Nat.min (nrows a) (ncols a)))) (data a).

(** A cost of magnitude at most [B], and a matrix of such costs. *)
Definition within (B : Z) (c : cost) : Prop :=
  match c with
  | Fin z => (Z.abs z <= B)%Z
  | _ => True
  end.

Definition cells_within (B : Z) (a : ndarray) : Prop :=
  forall r c, in_range (nrows a) r -> in_range (ncols a) c -> within B (cell a r c).

Definition invalid_msg : string := "matrix contains invalid numeric entries".

(** What the code relies on from [linear_sum_assignment]: a least-cost
    assignment when one of finite cost exists, the "infeasible"
    [ValueError] when none does, and another [ValueError] on entries that
    are not costs. *)
Record lap_spec (lap : ndarray -> result (list Z * list Z)) : Prop := {
  lap_invalid : forall a, wf_ndarray a -> valid_costs a = false ->
    lap a = raise (ValueError invalid_msg);
  lap_optimal : forall a rs cs, wf_ndarray a -> valid_costs a = true ->
    lap a = ret (rs, cs) ->
    is_assignment a rs cs /\
    assignment_cost a rs cs <> PInf /\
    forall rs' cs', is_assignment a rs' cs' ->
      cle (assignment_cost a rs cs) (assignment_cost a rs' cs') = true;
  lap_infeasible : forall a e, wf_ndarray a -> valid_costs a = true ->
    lap a = raise e ->
    e = ValueError infeasible_msg /\
    forall rs' cs', is_assignment a rs' cs' -> assignment_cost a rs' cs' = PInf
}.

(** The constrained problem, as the specification words it: [v] is the
    least total cost among the assignments that pair row [i] with column
    [j]. *)
Definition includes (i j : nat) (rs cs : list Z) : Prop :=
  In (Z.of_nat i, Z.of_nat j) (combine rs cs).

Definition is_min_constrained (costs : ndarray) (i j : nat) (v : cost) : Prop :=
  (exists rs cs, is_assignment costs rs cs /\ includes i j rs cs
                 /\ assignment_cost costs rs cs = v)
  /\ (forall rs cs, is_assignment costs rs cs -> includes i j rs cs ->
       cle v (assignment_cost costs rs cs) = true).

(** An assignment in which every row has a column of its own. *)
Definition assigns_all_rows (costs : ndarray) (rs cs : list Z) : Prop :=
  rs = arange (nrows costs) /\ length cs = nrows costs
  /\ NoDup cs /\ Forall (in_range (ncols costs)) cs.

(** Indices of the full matrix and of the matrix without row or column
    [k]: those from [k] on move by one. *)
Definition shift_up (k : nat) (x : Z) : Z :=
  if (x <? Z.of_nat k)%Z then x else (x + 1)%Z.

Definition shift_down (k : nat) (x : Z) : Z :=
  if (x <? Z.of_nat k)%Z then x else (x - 1)%Z.

(** [l] without its element at position [k]. *)
Definition drop_at {A : Type} (k : nat) (l : list A) : list A :=
  firstn k l ++ skipn (S k) l.

(** The value of [constraint_submatrix] on a well-formed matrix. *)
Definition without_row_col (i j : nat) (costs : ndarray) : ndarray :=
  mk_ndarray (nrows costs - 1) (ncols costs - 1)
    (map (drop_at j) (drop_at i (data costs))).

(** The pairs of an assignment of an [nr x nc] problem, whatever their
    number: rows increasing, columns distinct, all within the matrix. *)
Definition matching (nr nc : nat) (ps : list (Z * Z)) : Prop :=
  StronglySorted Z.lt (map fst ps) /\ Forall (in_range nr) (map fst ps)
  /\ NoDup (map snd ps) /\ Forall (in_range nc) (map snd ps).

Definition pairs_cost (a : ndarray) (ps : list (Z * Z)) : cost :=
  total (map (fun rc => cell a (fst rc) (snd rc)) ps).

(** A pair put at its place in a list of pairs ordered by row. *)
Fixpoint insert_pair (p : Z * Z) (ps : list (Z * Z)) : list (Z * Z) :=
  match ps with
  | [] => [p]
  | q :: t => if (fst p <? fst q)%Z then p :: ps else q :: insert_pair p t
  end.

(** From an assignment of the matrix without row [i] and column [j] to one
    of the full matrix that pairs [i] with [j], and back. *)
Definition lift_pairs (i j : nat) (ps : list (Z * Z)) : list (Z * Z) :=
  insert_pair (Z.of_nat i, Z.of_nat j)
    (map (fun rc => (shift_up i (fst rc), shift_up j (snd rc))) ps).

Definition lower_pairs (i j : nat) (ps : list (Z * Z)) : list (Z * Z) :=
  map (fun rc => (shift_down i (fst rc), shift_down j (snd rc)))
      (filter (fun rc => negb (fst rc =? Z.of_nat i)%Z) ps).

(** *** A reference solver by exhaustive search *)

(** Increasing subsequences of length [k]. *)
Fixpoint subseqs (l : list Z) (k : nat) : list (list Z) :=
  match l with
  | [] => match k with O => [[]] | S _ => [] end
  | x :: t =>
      match k with
      | O => [[]]
      | S k' => map (cons x) (subseqs t k') ++ subseqs t k
      end
  end.

(** Duplicate-free lists of length [k] drawn from [l]. *)
Fixpoint injections (k : nat) (l : list Z) : list (list Z) :=
  match k with
  | O => [[]]
  | S k' => flat_map (fun x => map (cons x) (injections k' (remove Z.eq_dec x l))) l
  end.

Definition all_assignments (a : ndarray) : list (list Z * list Z) :=
  let k := Nat.min (nrows a) (ncols a) in
  flat_map (fun rs => map (pair rs) (injections k (arange (ncols a))))
           (subseqs (arange (nrows a)) k).

Fixpoint least_by {X : Type} (f : X -> cost) (best : X) (l : list X) : X :=
  match l with
  | [] => best
  | x :: t => if clt (f x) (f best) then least_by f x t else least_by f best t
  end.

Definition lap_exhaustive (a : ndarray) : result (list Z * list Z) :=
  if negb (valid_costs a) then raise (ValueError invalid_msg)
  else match all_assignments a with
       | [] => raise (ValueError infeasible_msg)
       | x :: t =>
           let best := least_by (fun rc => assignment_cost a (fst rc) (snd rc)) x t in
           match assignment_cost a (fst best) (snd best) with
           | Fin _ => ret best
           | _ => raise (ValueError infeasible_msg)
           end
       end.

(** *** Assignments and the steps of the fast solver *)

Unset Implicit Arguments.

(** [a] with its entry [(i, j)] replaced by [v]. *)
Definition upd2 {A : Type} (a : array2 A) (i j : nat) (v : A) : array2 A :=
  mk_array2 (nrows a) (ncols a) (list_upd (data a) i (list_upd (nth i (data a) []) j v)).

(** [l] with [x] put in at position [k]. *)
Definition ins {A : Type} (k : nat) (x : A) (l : list A) : list A :=
  firstn k l ++ x :: skipn k l.

(** [a[:, idx]] and [a] without its row [i], for indices in range. *)
Definition take_cols (a : ndarray) (idx : list Z) : ndarray :=
  mk_ndarray (nrows a) (length idx)
    (map (fun r => map (fun j => nth j r NaN) (map Z.to_nat idx)) (data a)).

Definition drop_row (i : nat) (a : ndarray) : ndarray :=
  mk_ndarray (nrows a - 1) (ncols a) (drop_at i (data a)).

(** Some assignment through [(i, j)] has the total cost [v]. *)
Definition attained (costs : ndarray) (i j : nat) (v : cost) : Prop :=
  exists rs cs, is_assignment costs rs cs /\ includes i j rs cs
                /\ assignment_cost costs rs cs = v.

(** The total of the rows [0 .. len(cs) - 1] on the columns [cs]. *)
Definition rowsum (a : ndarray) (cs : list Z) : cost :=
  total (map (fun k => cell a (Z.of_nat k) (nth k cs 0%Z)) (seq 0 (length cs))).

(** [col_idxs] while row [i] is being constrained: [-1] at [i], and for
    the other rows distinct columns of the matrix, each one among [pc]. *)
Record hole (c : nat) (pc : list Z) (i : nat) (cols : list Z) : Prop := {
  hole_at : nth i cols 0%Z = (-1)%Z;
  hole_range : forall k, k < length cols -> k <> i -> in_range c (nth k cols 0%Z);
  hole_pc : forall k, k < length cols -> k <> i -> In (nth k cols 0%Z) pc;
  hole_inj : NoDup cols
}.

Set Implicit Arguments.

Definition of_Z_rows (rows : list (list Z)) : ndarray :=
  mk_ndarray (length rows) (length (hd [] rows)) (map (map Fin) rows).

(** Row 0 sits on column 0; moving it to the spare column 3 lets row 1 take
    column 0 and row 2 take column 1. *)
Definition chain_costs : ndarray :=
  of_Z_rows [[0; 100; 100; 10]; [1; 0; 100; 100]; [100; 0; 5; 100]]%Z.

(* ===================================================================== *)
(** ** [uclasm/graph.py]: the values a [Graph] holds *)
(* ===================================================================== *)

(** A scipy sparse matrix of edge counts, by its dense entries. *)
Definition spmatrix : Type := array2 Z.

(** A node identifier: a name, or whatever object the caller put in the
    node column. *)
Inductive label : Type :=
| LStr (s : string)
| LObj (m : spmatrix).

(** The [Graph.node_col] column of a nodelist DataFrame, row by row. *)
Definition nodeframe : Type := list label.

(** A row of the edgelist DataFrame: source, target and channel. *)
Record edge_row : Type := mk_edge {
  e_source : label;
  e_target : label;
  e_channel : string
}.

Definition edgeframe : Type := list edge_row.

Record Graph : Type := mk_Graph {
  n_nodes : nat;
  n_channels : nat;
  channels : list string;
  adjs : list spmatrix;
  ch_to_adj : list (string * spmatrix);
  nodelist : nodeframe;
  nodes : list label;
  edgelist : option edgeframe
}.

(** What a caller may pass for [adjs] and [nodelist]: the constructor
    accepts both argument orders and tells them apart by [len]. *)
Inductive pyarg : Type :=
| ArgNone
| ArgAdjs (ms : list spmatrix)
| ArgNames (names : list string)
| ArgFrame (df : nodeframe).

Definition py_len (a : pyarg) : result nat :=
  match a with
  | ArgNone => raise (TypeError "object of type 'NoneType' has no len()")
  | ArgAdjs ms => ret (length ms)
  | ArgNames l => ret (length l)
  | ArgFrame df => ret (length df)
  end.

(** [pd.DataFrame(x, columns=[Graph.node_col])]: one row per element. *)
Definition node_frame_of (a : pyarg) : nodeframe :=
  match a with
  | ArgNone => []
  | ArgAdjs ms => map LObj ms
  | ArgNames l => map LStr l
  | ArgFrame df => df
  end.

Definition string_of_nat (n : nat) : string := NilEmpty.string_of_uint (Nat.to_uint n).

(** [channels is not None and len(adjs) != len(channels)] *)
Definition channels_mismatch (channels : option (list string)) (adjs : pyarg) : result bool :=
  match channels with
  | None => ret false
  | Some chs => n <- py_len adjs ;; ret (negb (n =? length chs))
  end.

Definition unable_to_match : exn := Exception_ "Unable to match adjs to channels".

(** [adjs[0].shape[0]], which needs a non-empty list of matrices. *)
Definition first_dim (adjs : pyarg) : result (list spmatrix) :=
  match adjs with
  | ArgAdjs (m :: rest) => ret (m :: rest)
  | ArgAdjs [] => raise (IndexError "list index out of range")
  | ArgNames [] => raise (IndexError "list index out of range")
  | ArgNames (_ :: _) => raise (AttributeError "'str' object has no attribute 'shape'")
  | ArgFrame _ => raise (KeyError "0")
  | ArgNone => raise (TypeError "'NoneType' object is not subscriptable")
  end.

(** [Graph.__init__] *)
Definition Graph_init (adjs : pyarg) (channels : option (list string))
  (nodelist : pyarg) (edgelist : option edgeframe) : result Graph :=
  (* Reverse compatibility with old format *)
  old_order <- channels_mismatch channels adjs ;;
  let '(adjs, nodelist) :=
    if old_order : bool
    then (* Old order is nodelist, channels, adjs *)
         (nodelist, ArgFrame (node_frame_of adjs))
    else (adjs, nodelist) in
  still <- channels_mismatch channels adjs ;;
  if still : bool then raise unable_to_match else
  ms <- first_dim adjs ;;
  let n_nodes := nrows (hd (mk_array2 0 0 []) ms) in
  let n_channels := length ms in
  let channels :=
    match channels with
    | None => map (fun i => "channel " ++ string_of_nat i)%string (seq 0 n_channels)
    | Some chs => chs
    end in
  nodelist <-
    match nodelist with
    | ArgNone => ret (map (fun i => LStr ("node " ++ string_of_nat i)%string) (seq 0 n_nodes))
    | ArgFrame df => ret df
    | _ => raise (TypeError "list indices must be integers or slices, not str")
    end ;;
  ret (mk_Graph n_nodes n_channels channels ms (combine channels ms)
         nodelist nodelist edgelist).

(** The data-model invariant: one square [n_nodes x n_nodes] matrix per
    channel, and at least one channel. *)
Record wf_graph (g : Graph) : Prop := {
  wf_n_channels : length (adjs g) = n_channels g;
  wf_channels : length (channels g) = n_channels g;
  wf_some_channel : 0 < n_channels g;
  wf_adjs : Forall (fun a => wf_array2 a /\ nrows a = n_nodes g /\ ncols a = n_nodes g) (adjs g)
}.

(** The entries are edge multiplicities: none is negative. *)
Definition counts_nonneg (g : Graph) : Prop :=
  Forall (fun a => Forall (Forall (fun x => (0 <= x)%Z)) (data a)) (adjs g).

(** "Some edge connects nodes [i] and [j] in either direction in some
    channel." *)
Definition adjacent (g : Graph) (i j : nat) : Prop :=
  exists adj, In adj (adjs g)
              /\ (0 < nth j (nth i (data adj) []) 0 \/ 0 < nth i (nth j (data adj) []) 0)%Z.

(** "The sum of column [v]" and "the sum of row [v]" of a matrix. *)
Definition col_sum (a : spmatrix) (v : nat) : Z :=
  fold_right Z.add 0%Z (map (fun i => nth v (nth i (data a) []) 0%Z) (seq 0 (nrows a))).

Definition row_sum (a : spmatrix) (v : nat) : Z :=
  fold_right Z.add 0%Z (map (fun j => nth j (nth v (data a) []) 0%Z) (seq 0 (ncols a))).

(* ===================================================================== *)
(** ** Derived views of a graph *)
(* ===================================================================== *)

(** [a[i][j]] of a matrix of counts, [0] outside it. *)
Definition at2 (a : spmatrix) (i j : nat) : Z := nth j (nth i (data a) []) 0%Z.

(** [adj.diagonal()] *)
Definition diagonal (a : spmatrix) : list Z :=
  map (fun i => at2 a i i) (seq 0 (Nat.min (nrows a) (ncols a))).

(** [any(len(adj.diagonal().nonzero()[0]) for adj in self.adjs)] *)
Definition has_loops (g : Graph) : bool :=
  existsb (fun adj => negb (length (filter (fun x => negb (x =? 0)%Z) (diagonal adj)) =? 0))
          (adjs g).

Definition inconsistent_shapes : exn := ValueError "inconsistent shapes".

(** [a + b] on sparse matrices. *)
Definition sp_add (a b : spmatrix) : result spmatrix :=
  if (nrows a =? nrows b) && (ncols a =? ncols b)
  then ret (mk_array2 (nrows a) (ncols a)
              (map (fun '(ra, rb) => map (fun '(x, y) => (x + y)%Z) (combine ra rb))
                   (combine (data a) (data b))))
  else raise inconsistent_shapes.

(** [sum(self.adjs)]: Python starts from the integer [0], which a sparse
    matrix absorbs; a constructed graph has at least one channel, and the
    empty sum would be an [int], on which the [.T] of the next view fails. *)
Definition composite_adj (g : Graph) : result spmatrix :=
  match adjs g with
  | [] => raise (AttributeError "'int' object has no attribute 'T'")
  | a :: rest => for_each rest (fun b acc => sp_add acc b) a
  end.

(** [self.composite_adj + self.composite_adj.T] *)
Definition sym_composite_adj (g : Graph) : result spmatrix :=
  c <- composite_adj g ;;
  sp_add c (transpose_with 0%Z c).

(** [self.sym_composite_adj > 0] *)
Definition is_nbr (g : Graph) : result (array2 bool) :=
  s <- sym_composite_adj g ;;
  ret (mk_array2 (nrows s) (ncols s) (map (map (fun x => (0 <? x)%Z)) (data s))).

(** [sparse.tril(m)]: the entries on and below the diagonal. *)
Definition tril (m : array2 bool) : array2 bool :=
  mk_array2 (nrows m) (ncols m)
    (map (fun '(i, r) => map (fun '(j, b) => (j <=? i) && b) (enumerate r))
         (enumerate (data m))).

(** [np.argwhere(m)]: the positions of the true entries, row by row. *)
Definition argwhere (m : array2 bool) : list (nat * nat) :=
  flat_map (fun '(i, r) =>
              map (fun '(j, _) => (i, j)) (filter (fun '(_, b) => b) (enumerate r)))
           (enumerate (data m)).

(** [np.argwhere(sparse.tril(self.is_nbr))] *)
Definition nbr_idx_pairs (g : Graph) : result (list (nat * nat)) :=
  m <- is_nbr g ;;
  ret (argwhere (tril m)).

(** [np.stack(columns, axis=1)] of 1-d arrays. *)
Definition stack_axis1 (cols : list (list Z)) : result (array2 Z) :=
  match cols with
  | [] => raise (ValueError "need at least one array to stack")
  | c :: rest =>
      if forallb (fun c' => length c' =? length c) rest
      then ret (mk_array2 (length c) (length cols)
                  (map (fun i => map (fun col => nth i col 0%Z) cols) (seq 0 (length c))))
      else raise (ValueError "all input arrays must have the same shape")
  end.

(** [np.stack([adj.diagonal() for adj in self.adjs], axis=1)] *)
Definition self_edges (g : Graph) : result (array2 Z) :=
  stack_axis1 (map diagonal (adjs g)).

Definition vec_add (u v : list Z) : list Z := map (fun '(x, y) => (x + y)%Z) (combine u v).

(** [adj.sum(axis=0)]: the row vector of column sums. *)
Definition sum_axis0 (a : spmatrix) : list Z :=
  fold_left vec_add (data a) (repeat 0%Z (ncols a)).

(** [adj.sum(axis=1)]: the column vector of row sums. *)
Definition sum_axis1 (a : spmatrix) : list Z :=
  map (fun r => fold_left Z.add r 0%Z) (data a).

(** [np.concatenate(blocks, axis=1)] of column vectors ([n x 1] arrays). *)
Definition concat_columns (cols : list (list Z)) : result (array2 Z) :=
  match cols with
  | [] => raise (ValueError "need at least one array to concatenate")
  | c :: rest =>
      if forallb (fun c' => length c' =? length c) rest
      then ret (mk_array2 (length c) (length cols)
                  (map (fun i => map (fun col => nth i col 0%Z) cols) (seq 0 (length c))))
      else raise (ValueError "all the input array dimensions except for the concatenation axis must match exactly")
  end.

(** [a - b] on arrays of one shape. *)
Definition arr_sub (a b : array2 Z) : result (array2 Z) :=
  if (nrows a =? nrows b) && (ncols a =? ncols b)
  then ret (mk_array2 (nrows a) (ncols a)
              (map (fun '(ra, rb) => map (fun '(x, y) => (x - y)%Z) (combine ra rb))
                   (combine (data a) (data b))))
  else raise operand_mismatch.

Definition in_degrees (g : Graph) : result (array2 Z) :=
  in_degrees_array <- concat_columns (map sum_axis0 (adjs g)) ;;
  loops <- self_edges g ;;
  arr_sub in_degrees_array loops.

Definition out_degrees (g : Graph) : result (array2 Z) :=
  out_degrees_array <- concat_columns (map sum_axis1 (adjs g)) ;;
  loops <- self_edges g ;;
  arr_sub out_degrees_array loops.

(** [m[i][j]] of a boolean matrix, [False] outside it. *)
Definition bat (m : array2 bool) (i j : nat) : bool := nth j (nth i (data m) []) false.

(** The number of edges from [i] to [j], all channels together. *)
Definition edges_between (g : Graph) (i j : nat) : Z :=
  fold_right Z.add 0%Z (map (fun adj => at2 adj i j) (adjs g)).


(** *** [Graph.node_cover] *)

(** [m.nnz] of a boolean matrix. *)
Definition nnz (m : array2 bool) : nat :=
  fold_right Nat.add 0 (map count_true (data m)).

(** [np.sum(m, axis=0)]: how many true entries each column has. *)
Definition count_axis0 (m : array2 bool) : list Z :=
  fold_left vec_add (map (map (fun b : bool => if b then 1%Z else 0%Z)) (data m))
            (repeat 0%Z (ncols m)).

(** [np.argmax]: the first position of the greatest entry. *)
Fixpoint argmax_from (l : list Z) (i : nat) (best : Z) (bi : nat) : nat :=
  match l with
  | [] => bi
  | x :: t => if (best <? x)%Z then argmax_from t (S i) x i
              else argmax_from t (S i) best bi
  end.

Definition argmax (l : list Z) : result nat :=
  match l with
  | [] => raise (ValueError "attempt to get argmax of an empty sequence")
  | x :: t => ret (argmax_from t 1 x 0)
  end.

(** [m[uncov, :][:, uncov]] *)
Definition uncovered_part (m : array2 bool) (uncov : list bool) : result (array2 bool) :=
  r <- rows_by_mask m uncov ;;
  cols_by_mask r uncov.

(** The [while] loop of [node_cover]; [None] when [fuel] rounds were not
    enough. *)
Fixpoint node_cover_loop (fuel : nat) (m : array2 bool) (uncov : list bool)
  (cover : list nat) : option (result (list nat)) :=
  match fuel with
  | O => None
  | S fuel' =>
      match uncovered_part m uncov with
      | inl e => Some (raise e)
      | inr sub =>
          if nnz sub =? 0 then Some (ret cover)
          else
            (* Add the uncov node with the most neighbors *)
            let nbr_counts := count_axis0 sub in
            match (imax <- argmax nbr_counts ;;
                   (* Cover the node corresponding to imax. *)
                   hot <- one_hot imax (count_true uncov) ;;
                   uncov' <- set_by_mask uncov uncov (invert hot) ;;
                   ret (imax, uncov')) with
            | inl e => Some (raise e)
            | inr (imax, uncov') => node_cover_loop fuel' m uncov' (cover ++ [imax])
            end
      end
  end.

(** [Graph.node_cover]: every round covers one more node, so [n_nodes + 1]
    rounds are enough. *)
Definition node_cover (g : Graph) : option (result (list nat)) :=
  match is_nbr g with
  | inl e => Some (raise e)
  | inr m => node_cover_loop (S (n_nodes g)) m (repeat true (n_nodes g)) []
  end.

(** The index of the [k]-th true entry of a mask (counting from 0). *)
Fixpoint nth_true (k : nat) (mask : list bool) : option nat :=
  match mask with
  | [] => None
  | true :: t =>
      match k with
      | O => Some 0
      | S k' => option_map S (nth_true k' t)
      end
  | false :: t => option_map S (nth_true k t)
  end.

(** The nodes that a sequence of positions names, each position counted
    among the nodes of [uncov] that the earlier positions left uncovered. *)
Fixpoint named_nodes (uncov : list bool) (cover : list nat) : list nat :=
  match cover with
  | [] => []
  | p :: rest =>
      match nth_true p uncov with
      | Some v => v :: named_nodes (list_upd uncov v false) rest
      | None => []
      end
  end.

Definition of_counts (rows : list (list Z)) : spmatrix :=
  mk_array2 (length rows) (length (hd [] rows)) rows.

(** Two components: a star around node 0 and the edge from node 3 to node 4. *)
Definition star_and_edge_adj : spmatrix :=
  of_counts [[0; 1; 1; 0; 0]; [0; 0; 0; 0; 0]; [0; 0; 0; 0; 0];
             [0; 0; 0; 0; 1]; [0; 0; 0; 0; 0]]%Z.

(* ===================================================================== *)
(** ** Graphs as objects: the store, and the subgraph methods *)
(* ===================================================================== *)

(** A reference to an object of the store. *)
Definition loc : Type := nat.

(** The attributes of a [Graph] instance; all but the two counts are
    references.  ([node_idxs] comes from [utils.index_map], which is not
    among the sources, and no method below reads it.) *)
Record graph_obj : Type := mk_graph_obj {
  o_n_nodes : nat;
  o_n_channels : nat;
  o_channels : loc;
  o_adjs : loc;
  o_ch_to_adj : loc;
  o_nodelist : loc;
  o_nodes : loc;
  o_edgelist : option loc
}.

Inductive obj : Type :=
| OMatrix (m : spmatrix)
| OChannels (chs : list string)
| OAdjs (ls : list loc)
| OChToAdj (d : list (string * loc))
| ONodes (df : nodeframe)
| OEdges (df : edgeframe)
| OGraph (g : graph_obj).

(** The store: an object's reference is its position, and a new object
    goes to the end. *)
Definition heap : Type := list obj.

(** Computations that read and write the store and may raise. *)
Definition M (A : Type) : Type := heap -> heap * result A.

Definition mret {A : Type} (a : A) : M A := fun h => (h, ret a).

Definition mraise {A : Type} (e : exn) : M A := fun h => (h, raise e).

Definition mbind {A B : Type} (c : M A) (k : A -> M B) : M B :=
  fun h => match c h with
           | (h', inl e) => (h', inl e)
           | (h', inr a) => k a h'
           end.

Definition lift {A : Type} (r : result A) : M A := fun h => (h, r).

Declare Scope heap_scope.
Delimit Scope heap_scope with heap.
Notation "x <- c ;; k" := (mbind c (fun x => k))
  (at level 61, c at next level, right associativity) : heap_scope.

Definition alloc (o : obj) : M loc := fun h => (h ++ [o], ret (length h)).

Definition load (l : loc) : M obj :=
  fun h => match nth_error h l with
           | Some o => (h, ret o)
           | None => (h, raise (AttributeError "dangling reference"))
           end.

Definition store (l : loc) (o : obj) : M unit :=
  fun h => if l <? length h then (list_upd h l o, ret tt)
           else (h, raise (AttributeError "dangling reference")).

Fixpoint mapM_h {A B : Type} (f : A -> M B) (xs : list A) : M (list B) :=
  match xs with
  | [] => mret []
  | x :: rest => mbind (f x) (fun y => mbind (mapM_h f rest) (fun ys => mret (y :: ys)))
  end.

Definition wrong_type {A : Type} : M A := mraise (TypeError "unexpected object").

Definition load_matrix (l : loc) : M spmatrix :=
  mbind (load l) (fun o => match o with OMatrix m => mret m | _ => wrong_type end).

Definition load_channels (l : loc) : M (list string) :=
  mbind (load l) (fun o => match o with OChannels c => mret c | _ => wrong_type end).

Definition load_adjs (l : loc) : M (list loc) :=
  mbind (load l) (fun o => match o with OAdjs ls => mret ls | _ => wrong_type end).

Definition load_nodes (l : loc) : M nodeframe :=
  mbind (load l) (fun o => match o with ONodes df => mret df | _ => wrong_type end).

Definition load_edges (l : loc) : M edgeframe :=
  mbind (load l) (fun o => match o with OEdges df => mret df | _ => wrong_type end).

Definition load_graph (l : loc) : M graph_obj :=
  mbind (load l) (fun o => match o with OGraph g => mret g | _ => wrong_type end).

Definition load_opt_edges (l : option loc) : M (option edgeframe) :=
  match l with
  | None => mret None
  | Some l' => mbind (load_edges l') (fun df => mret (Some df))
  end.

Fixpoint list_eqb {A : Type} (eqb : A -> A -> bool) (l1 l2 : list A) : bool :=
  match l1, l2 with
  | [], [] => true
  | x :: t1, y :: t2 => eqb x y && list_eqb eqb t1 t2
  | _, _ => false
  end.

Definition label_eqb (a b : label) : bool :=
  match a, b with
  | LStr s, LStr t => String.eqb s t
  | LObj m, LObj n =>
      (nrows m =? nrows n) && (ncols m =? ncols n)
      && list_eqb (list_eqb Z.eqb) (data m) (data n)
  | _, _ => false
  end.

(** [series.isin(values)] on one entry. *)
Definition isin (values : list label) (x : label) : bool := existsb (label_eqb x) values.

(** [adj[nonzero, nonzero] = 0] for [nonzero, = adj.diagonal().nonzero()]. *)
Definition zero_diagonal (adj : spmatrix) : spmatrix :=
  let nonzero := map fst (filter (fun kx => negb (snd kx =? 0)%Z) (enumerate (diagonal adj))) in
  fold_left (fun acc k =>
               mk_array2 (nrows acc) (ncols acc)
                 (list_upd (data acc) k (list_upd (nth k (data acc) []) k 0%Z)))
            nonzero adj.

(** [list.index(x)] *)
Fixpoint list_index (x : string) (l : list string) (i : nat) : result nat :=
  match l with
  | [] => raise (ValueError "x is not in list")
  | y :: t => if String.eqb y x then ret i else list_index x t (S i)
  end.

Open Scope heap_scope.

(** The call [Graph(adjs, channels, nodelist, edgelist)] from a method:
    [__init__] runs on the values behind the references, then the instance
    is built.  [list(channels)] and [list(adjs)] are new lists; the
    matrices, the nodelist and the edgelist are the objects passed in. *)
Definition Graph_new (adjs : list loc) (channels : list string) (nodelist : loc)
  (edgelist : option loc) : M loc :=
  ms <- mapM_h load_matrix adjs ;;
  df <- load_nodes nodelist ;;
  el <- load_opt_edges edgelist ;;
  gv <- lift (Graph_init (ArgAdjs ms) (Some channels) (ArgFrame df) el) ;;
  let '(mk_Graph n k chs _ _ _ ns _) := gv in
  o_chs <- alloc (OChannels chs) ;;
  o_as <- alloc (OAdjs adjs) ;;
  o_dict <- alloc (OChToAdj (combine chs adjs)) ;;
  o_ns <- alloc (ONodes ns) ;;
  alloc (OGraph (mk_graph_obj n k o_chs o_as o_dict nodelist o_ns edgelist)).

(** [Graph.loopless_subgraph] *)
Definition loopless_subgraph (self : loc) : M loc :=
  g <- load_graph self ;;
  self_adjs <- load_adjs (o_adjs g) ;;
  (* adjs = [adj.copy() for adj in self.adjs] *)
  adjs <- mapM_h (fun l => m <- load_matrix l ;; alloc (OMatrix m)) self_adjs ;;
  (* manually zero only the non-zero diagonal elements *)
  _ <- mapM_h (fun l => m <- load_matrix l ;; store l (OMatrix (zero_diagonal m))) adjs ;;
  edgelist <-
    match o_edgelist g with
    | Some el =>
        df <- load_edges el ;;
        l <- alloc (OEdges (filter (fun e => negb (label_eqb (e_source e) (e_target e))) df)) ;;
        mret (Some l)
    | None => mret None
    end ;;
  self_channels <- load_channels (o_channels g) ;;
  (* Return a new graph object for the subgraph *)
  Graph_new adjs self_channels (o_nodelist g) edgelist.

(** [Graph.node_subgraph] *)
Definition node_subgraph (self : loc) (node_idxs : list Z) : M loc :=
  g <- load_graph self ;;
  self_adjs <- load_adjs (o_adjs g) ;;
  (* throw out nodes not belonging to the desired subgraph *)
  adjs <- mapM_h (fun l =>
                    m <- load_matrix l ;;
                    sub <- lift (bind (rows_by_idx m node_idxs)
                                      (fun r => cols_by_idx_with 0%Z r node_idxs)) ;;
                    alloc (OMatrix sub)) self_adjs ;;
  self_nodelist <- load_nodes (o_nodelist g) ;;
  rows <- lift (mapM (list_get self_nodelist) node_idxs) ;;
  nodelist <- alloc (ONodes rows) ;;
  let nodes := rows in
  edgelist <-
    match o_edgelist g with
    | Some el =>
        df <- load_edges el ;;
        l <- alloc (OEdges (filter (fun e => isin nodes (e_source e) && isin nodes (e_target e)) df)) ;;
        mret (Some l)
    | None => mret None
    end ;;
  self_channels <- load_channels (o_channels g) ;;
  (* Return a new graph object for the induced subgraph *)
  Graph_new adjs self_channels nodelist edgelist.

(** [Graph.channel_subgraph] *)
Definition channel_subgraph (self : loc) (channels : list string) : M loc :=
  g <- load_graph self ;;
  self_adjs <- load_adjs (o_adjs g) ;;
  self_channels <- load_channels (o_channels g) ;;
  adjs <- lift (mapM (fun ch => bind (list_index ch self_channels 0)
                                   (fun k => list_get self_adjs (Z.of_nat k)))
                     channels) ;;
  edgelist <-
    match o_edgelist g with
    | Some el =>
        (* Drop edges that do not have types among the desired channels. *)
        df <- load_edges el ;;
        l <- alloc (OEdges (filter (fun e => existsb (String.eqb (e_channel e)) channels) df)) ;;
        mret (Some l)
    | None => mret None
    end ;;
  (* Return a new graph object for the induced subgraph *)
  Graph_new adjs channels (o_nodelist g) edgelist.

(** The contents of a graph as a caller reads them: the entries of its
    adjacency matrices, its channel list and its node list, followed
    through the references. *)
Definition read_graph (self : loc) : M (list spmatrix * list string * nodeframe) :=
  g <- load_graph self ;;
  ls <- load_adjs (o_adjs g) ;;
  ms <- mapM_h load_matrix ls ;;
  chs <- load_channels (o_channels g) ;;
  df <- load_nodes (o_nodelist g) ;;
  mret (ms, chs, df).

Close Scope heap_scope.

Definition graph_view (h : heap) (self : loc) : option (list spmatrix * list string * nodeframe) :=
  match snd (read_graph self h) with
  | inr v => Some v
  | inl _ => None
  end.

(** Building a graph object from values: every matrix, list and frame is a
    new object. *)
Definition Graph_alloc (ms : list spmatrix) (chs : list string) (df : nodeframe)
  (el : option edgeframe) : M loc :=
  mbind (mapM_h (fun m => alloc (OMatrix m)) ms) (fun adjs =>
  mbind (alloc (ONodes df)) (fun nodelist =>
  mbind (match el with
         | None => mret None
         | Some e => mbind (alloc (OEdges e)) (fun l => mret (Some l))
         end) (fun edgelist =>
  Graph_new adjs chs nodelist edgelist))).

Open Scope heap_scope.

(** [Graph.copy] *)
Definition copy (self : loc) : M loc :=
  g <- load_graph self ;;
  self_adjs <- load_adjs (o_adjs g) ;;
  adjs_copy <- mapM_h (fun l => m <- load_matrix l ;; alloc (OMatrix m)) self_adjs ;;
  edgelist_copy <-
    match o_edgelist g with
    | Some el =>
        df <- load_edges el ;;
        l <- alloc (OEdges df) ;;
        mret (Some l)
    | None => mret None
    end ;;
  self_channels <- load_channels (o_channels g) ;;
  df <- load_nodes (o_nodelist g) ;;
  nodelist_copy <- alloc (ONodes df) ;;
  Graph_new adjs_copy self_channels nodelist_copy edgelist_copy.

(** The edgelist of a graph as a caller reads it ([None] when the graph
    has none), and the references a graph holds to its matrices, its
    nodelist and its edgelist. *)
Definition read_edges (self : loc) : M (option edgeframe) :=
  g <- load_graph self ;;
  load_opt_edges (o_edgelist g).

Definition read_refs (self : loc) : M (list loc * loc * option loc) :=
  g <- load_graph self ;;
  ls <- load_adjs (o_adjs g) ;;
  mret (ls, o_nodelist g, o_edgelist g).

Close Scope heap_scope.

Definition edges_view (h : heap) (self : loc) : option (option edgeframe) :=
  match snd (read_edges self h) with
  | inr v => Some v
  | inl _ => None
  end.

Definition graph_refs (h : heap) (self : loc) : option (list loc * loc * option loc) :=
  match snd (read_refs self h) with
  | inr v => Some v
  | inl _ => None
  end.

(** The position an in-range index stands for: negative ones count from
    the end. *)
Definition wrap (n : nat) (k : Z) : nat :=
  Z.to_nat (if (k <? 0)%Z then k + Z.of_nat n else k)%Z.

Definition index_ok (n : nat) (k : Z) : Prop := (- Z.of_nat n <= k < Z.of_nat n)%Z.

(** [adj[node_idxs, :][:, node_idxs]] *)
Definition induced (node_idxs : list Z) (m : spmatrix) : result spmatrix :=
  bind (rows_by_idx m node_idxs) (fun r => cols_by_idx_with 0%Z r node_idxs).

(** The position of the first occurrence of [x], as [list.index] finds it. *)
Fixpoint index_of (x : string) (l : list string) : nat :=
  match l with
  | [] => 0
  | y :: t => if String.eqb y x then 0 else S (index_of x t)
  end.

(** *** Reading the store *)

Unset Implicit Arguments.

(** The matrices behind a list of references. *)
Definition matrices_at (h : heap) (ls : list loc) (ms : list spmatrix) : Prop :=
  Forall2 (fun l m => nth_error h l = Some (OMatrix m)) ls ms.

(** The edgelist behind an optional reference. *)
Definition edges_at (h : heap) (l : option loc) (el : option edgeframe) : Prop :=
  match l with
  | None => el = None
  | Some l' => exists ef, nth_error h l' = Some (OEdges ef) /\ el = Some ef
  end.

(** What [Graph(adjs, channels, nodelist, edgelist)] adds to the store. *)
Definition new_graph_objects (h : heap) (adjs : list loc) (ms : list spmatrix)
  (chs : list string) (nodelist : loc) (df : nodeframe) (edgelist : option loc) : list obj :=
  [OChannels chs; OAdjs adjs; OChToAdj (combine chs adjs); ONodes df;
   OGraph (mk_graph_obj (nrows (hd (mk_array2 0 0 []) ms)) (length ms)
             (length h) (1 + length h) (2 + length h) nodelist (3 + length h) edgelist)].

(** A graph object and what its references lead to. *)
Record graph_at (h : heap) (self : loc) (go : graph_obj) (ls : list loc)
  (ms : list spmatrix) (chs : list string) (df : nodeframe) (el : option edgeframe)
  : Prop := {
  ga_graph : nth_error h self = Some (OGraph go);
  ga_adjs : nth_error h (o_adjs go) = Some (OAdjs ls);
  ga_matrices : matrices_at h ls ms;
  ga_channels : nth_error h (o_channels go) = Some (OChannels chs);
  ga_nodelist : nth_error h (o_nodelist go) = Some (ONodes df);
  ga_edgelist : edges_at h (o_edgelist go) el
}.

(** The outcome of a method that builds a graph: the store keeps what it
    held, and the new graph has these matrices, channels, nodes and edges
    behind these references. *)
Definition builds (h : heap) (c : M loc) (ls : list loc) (ms : list spmatrix)
  (chs : list string) (nl : loc) (df : nodeframe) (ol : option loc)
  (el : option edgeframe) : Prop :=
  exists ext g' go,
    c h = (h ++ ext, ret g') /\ length h <= g'
    /\ graph_at (h ++ ext) g' go ls ms chs df el
    /\ o_nodelist go = nl /\ o_edgelist go = ol.

Set Implicit Arguments.

(* ===================================================================== *)
(** ** The alldiff counter *)
(* ===================================================================== *)

(** An item of the family: its name and its candidate values, as the
    entries of the dict passed to [count_alldiffs]. *)
Definition item : Type := (string * list Z)%type.

(** "item shares a candidate value with item" *)
Definition shares (a b : item) : bool := existsb (fun x => memZ x (snd b)) (snd a).

(** The items of [rest] that share a value with an item of [comp] join it,
    until none is left to join. *)
Fixpoint grow_component (fuel : nat) (comp rest : list item) : list item * list item :=
  match fuel with
  | O => (comp, rest)
  | S fuel' =>
      match partition (fun it => existsb (shares it) comp) rest with
      | ([], _) => (comp, rest)
      | (joined, others) => grow_component fuel' (comp ++ joined) others
      end
  end.

Fixpoint components (fuel : nat) (items : list item) : list (list item) :=
  match fuel with
  | O => []
  | S fuel' =>
      match items with
      | [] => []
      | it :: rest =>
          let '(comp, others) := grow_component (length rest) [it] rest in
          comp :: components fuel' others
      end
  end.

(** The first item with the fewest candidates, and the other items. *)
Fixpoint pick_fewest (items : list item) : option (item * list item) :=
  match items with
  | [] => None
  | x :: t =>
      match pick_fewest t with
      | None => Some (x, [])
      | Some (y, rest) =>
          if length (snd y) <? length (snd x) then Some (y, x :: rest) else Some (x, t)
      end
  end.

Definition without (v : Z) (it : item) : item :=
  (fst it, filter (fun x => negb (x =? v)%Z) (snd it)).

(** The count of one component: branch on the item with the fewest
    candidates; each value it can take is withdrawn from the others. *)
Fixpoint count_component (fuel : nat) (items : list item) : nat :=
  match pick_fewest items with
  | None => 1
  | Some (it, others) =>
      match fuel with
      | O => 0
      | S fuel' =>
          fold_right Nat.add 0
            (map (fun v => count_component fuel' (map (without v) others)) (snd it))
      end
  end.

(** Modelled from the spec: [count_alldiffs] lives in [uclasm/counting],
    which is not among the sources (only its tests are).  Following the
    component design: the items are split into the connected components of
    the "shares a candidate value" relation, each component is counted by
    branching on its item with the fewest remaining candidates and
    withdrawing the chosen value from every other item, an item with no
    candidate left makes its branch count zero, no item at all counts one,
    and the total is the product over the components. *)
Definition count_alldiffs (d : list item) : nat :=
  fold_right Nat.mul 1
    (map (fun comp => count_component (length comp) comp) (components (length d) d)).

(** Candidate sets no two of which have a value in common. *)
Fixpoint pairwise_disjoint (d : list item) : Prop :=
  match d with
  | [] => True
  | it :: rest =>
      Forall (fun other => forall x, In x (snd it) -> ~ In x (snd other)) rest
      /\ pairwise_disjoint rest
  end.

Definition star_and_edge_graph : Graph :=
  mk_Graph 5 1 ["channel 0"] [star_and_edge_adj] [("channel 0", star_and_edge_adj)]
    (map (fun i => LStr ("node " ++ string_of_nat i)) (seq 0 5))
    (map (fun i => LStr ("node " ++ string_of_nat i)) (seq 0 5)) None.

Definition loopy_adj : spmatrix := of_counts [[1; 1]; [0; 2]]%Z.



(** A store holding one graph with two channels, two nodes and an
    edgelist; the graph is the object at reference 8. *)
Definition sample_heap : heap :=
  fst (Graph_alloc [loopy_adj; loopy_adj] ["c1"; "c2"] [LStr "a"; LStr "b"]
         (Some [mk_edge (LStr "a") (LStr "a") "c1"; mk_edge (LStr "a") (LStr "b") "c1"])
         []).

Definition one_by_one_inf : ndarray := mk_ndarray 1 1 [[PInf]].

Definition one_by_one_nan : ndarray := mk_ndarray 1 1 [[NaN]].

Definition nan_corner : ndarray := mk_ndarray 2 2 [[Fin 1; Fin 2]; [Fin 3; NaN]].

Definition two_by_two : ndarray := of_Z_rows [[1; 5]; [7; 2]]%Z.

(** Three rows, two columns: no way to give every row a column of its own. *)
Definition tall_costs : ndarray := of_Z_rows [[1; 9]; [9; 1]; [5; 5]]%Z.

(* ===================================================================== *)
(** * Properties *)
(* ===================================================================== *)

(** ** Graph construction *)

Lemma first_dim_not_unable : forall a e, first_dim a = inl e -> e <> unable_to_match.
Proof. intros [ | [ | m ms] | [ | s l] | df] e H; inversion H; discriminate. Qed.

(** When the exception "Unable to match adjs to channels" is raised: with
    channel names given, exactly when their number differs both from the
    length of the first argument and from the length of the nodelist
    argument. *)
Lemma Graph_init_unable_to_match :
  forall adjs chs nodelist el n m,
    py_len adjs = ret n ->
    py_len nodelist = ret m ->
    (Graph_init adjs (Some chs) nodelist el = raise unable_to_match
     <-> n <> length chs /\ m <> length chs).
Proof.
  intros adjs chs nodelist el n m Hn Hm.
  unfold Graph_init, channels_mismatch. rewrite Hn. cbn [bind ret].
  destruct (Nat.eqb_spec n (length chs)) as [E | E]; cbn [negb].
  - rewrite Hn. cbn [bind ret]. rewrite (proj2 (Nat.eqb_eq _ _) E). cbn [negb].
    split; [ | tauto].
    intros H. exfalso.
    destruct (first_dim adjs) as [e | ms] eqn:F; cbn [bind] in H.
    + apply (first_dim_not_unable _ F). inversion H. reflexivity.
    + destruct nodelist; cbn in H; discriminate.
  - rewrite Hm. cbn [bind ret].
    destruct (Nat.eqb_spec m (length chs)) as [E' | E']; cbn [negb].
    + split; [ | tauto].
      intros H. exfalso.
      destruct (first_dim nodelist) as [e | ms] eqn:F; cbn [bind] in H.
      * apply (first_dim_not_unable _ F). inversion H. reflexivity.
      * cbn in H. discriminate.
    + split; auto.
Qed.

(** C3 fails on the code.  When the number of matrices differs from the
    number of channel names, [__init__] takes the call for one in the old
    argument order and puts the nodelist in the place of the matrices
    before it checks again, so the exception it means to raise, "Unable
    to match adjs to channels", depends on the nodelist.  With a nodelist
    of as many rows as there are channel names the second check passes
    and [adjs[0]], now on the data frame, raises [KeyError]; with no
    nodelist the second check itself fails, in [len(None)]. *)
Theorem Graph_init_mismatch_other_exception :
  forall ms chs el,
    length ms <> length chs ->
    (forall df, length df = length chs ->
       Graph_init (ArgAdjs ms) (Some chs) (ArgFrame df) el = raise (KeyError "0"))
    /\ Graph_init (ArgAdjs ms) (Some chs) ArgNone el <> raise unable_to_match.
Proof.
  intros ms chs el H. unfold Graph_init, channels_mismatch. cbn [py_len bind ret].
  rewrite (proj2 (Nat.eqb_neq _ _) H). cbn [negb py_len bind ret raise]. split.
  - intros df E. rewrite (proj2 (Nat.eqb_eq _ _) E). reflexivity.
  - discriminate.
Qed.

Lemma Graph_init_mismatch_other_exception_witness :
  length [star_and_edge_adj; star_and_edge_adj] <> length ["c1"]
  /\ Graph_init (ArgAdjs [star_and_edge_adj; star_and_edge_adj]) (Some ["c1"])
       (ArgFrame [LStr "a"]) None = raise (KeyError "0")
  /\ Graph_init (ArgAdjs [star_and_edge_adj; star_and_edge_adj]) (Some ["c1"]) ArgNone None
     <> raise unable_to_match.
Proof.
  assert (H : length [star_and_edge_adj; star_and_edge_adj] <> length ["c1"]) by (cbn; lia).
  destruct (@Graph_init_mismatch_other_exception
              [star_and_edge_adj; star_and_edge_adj] ["c1"] None H) as [K T].
  split; [exact H | ]. split; [exact (K [LStr "a"] eq_refl) | exact T].
Defined.

(** ** Failure modes of the constrained solver *)

Lemma map_seq_const : forall (A : Type) (f : nat -> A) (x : A) n s,
  (forall j, s <= j < s + n -> f j = x) -> map f (seq s n) = repeat x n.
Proof.
  induction n as [ | n IH]; intros s H; cbn; [reflexivity | ].
  rewrite (H s) by lia. f_equal. apply IH. intros j Hj. apply H. lia.
Qed.

Lemma map_repeat : forall (A B : Type) (f : A -> B) (x : A) n,
  map f (repeat x n) = repeat (f x) n.
Proof. induction n; cbn; congruence. Qed.

Lemma nth_repeat_lt : forall (A : Type) (x d : A) n j, j < n -> nth j (repeat x n) d = x.
Proof.
  induction n as [ | n IH]; intros j H; [lia | ].
  destruct j; cbn; [reflexivity | apply IH; lia].
Qed.

Lemma transpose_full : forall r c v, transpose (full c r v) = full r c v.
Proof.
  intros r c v. unfold transpose, transpose_with, full, mk_ndarray. cbn. f_equal.
  apply map_seq_const. intros j Hj.
  rewrite map_repeat. f_equal. apply nth_repeat_lt. lia.
Qed.

Lemma norm_index_of_nat : forall n i, i < n -> norm_index n (Z.of_nat i) = ret i.
Proof.
  intros n i H. unfold norm_index.
  replace ((0 <=? Z.of_nat i) && (Z.of_nat i <? Z.of_nat n))%Z with true
    by (symmetry; apply andb_true_iff; split; [apply Z.leb_le | apply Z.ltb_lt]; lia).
  rewrite Nat2Z.id. reflexivity.
Qed.

Lemma get2_of_nat : forall (A : Type) (a : array2 A) i j r x,
  i < nrows a -> j < ncols a ->
  nth_error (data a) i = Some r -> nth_error r j = Some x ->
  get2 a (Z.of_nat i) (Z.of_nat j) = ret x.
Proof.
  intros A a i j r x Hi Hj Hr Hx. unfold get2.
  rewrite (norm_index_of_nat Hi), (norm_index_of_nat Hj). cbn [bind ret].
  rewrite Hr, Hx. reflexivity.
Qed.

Lemma full_get2 : forall r c v i j,
  i < r -> j < c -> get2 (full r c v) (Z.of_nat i) (Z.of_nat j) = ret v.
Proof.
  intros r c v i j Hi Hj.
  apply get2_of_nat with (r := repeat v c); cbn; try assumption.
  - rewrite (nth_error_nth' _ (repeat v c)) by (rewrite repeat_length; exact Hi).
    rewrite nth_repeat_lt by exact Hi. reflexivity.
  - rewrite (nth_error_nth' _ v) by (rewrite repeat_length; exact Hj).
    rewrite nth_repeat_lt by exact Hj. reflexivity.
Qed.

Lemma normalized_shape : forall costs,
  (ncols costs <? nrows costs) = true ->
  nrows (normalized costs) = ncols costs /\ ncols (normalized costs) = nrows costs.
Proof. intros costs H. unfold normalized. rewrite H. split; reflexivity. Qed.

(** C5: when the solver reports the (normalized) problem infeasible,
    [constrained_lsap_costs] returns the matrix of its input's shape whose
    every entry is [+inf]; any other exception of that solve is the outcome
    of [constrained_lsap_costs], and any exception of the sub-problem solve
    other than infeasibility is the outcome of [constrained_lsap_cost]. *)
Theorem lsap_failure_modes :
  forall (lap : ndarray -> result (list Z * list Z)) (costs : ndarray),
    (lap (normalized costs) = raise (ValueError infeasible_msg) ->
     constrained_lsap_costs lap costs = ret (full (nrows costs) (ncols costs) PInf)
     /\ forall i j, i < nrows costs -> j < ncols costs ->
          get2 (full (nrows costs) (ncols costs) PInf) (Z.of_nat i) (Z.of_nat j) = ret PInf)
    /\ (forall e, lap (normalized costs) = raise e -> e <> ValueError infeasible_msg ->
        constrained_lsap_costs lap costs = raise e)
    /\ (forall i j sub e, constraint_submatrix i j costs = ret sub ->
        lap sub = raise e -> e <> ValueError infeasible_msg ->
        constrained_lsap_cost lap i j costs = raise e).
Proof.
  intros lap costs. split; [ | split].
  - intros H. split; [ | intros i j Hi Hj; apply full_get2; assumption].
    unfold constrained_lsap_costs, normalized in *.
    destruct (ncols costs <? nrows costs) eqn:T.
    + unfold constrained_lsap_costs_wide. rewrite H. cbn.
      f_equal. apply transpose_full.
    + unfold constrained_lsap_costs_wide. rewrite H. reflexivity.
  - intros e H Hne.
    assert (W : constrained_lsap_costs_wide lap (normalized costs) = raise e).
    { unfold constrained_lsap_costs_wide. rewrite H. unfold raise.
      destruct e as [msg | | | | | ]; try reflexivity.
      destruct (String.eqb_spec msg infeasible_msg) as [E | E]; [ | reflexivity].
      subst msg. contradiction. }
    unfold constrained_lsap_costs, normalized in *.
    destruct (ncols costs <? nrows costs); rewrite W; reflexivity.
  - intros i j sub e Hsub H Hne.
    unfold constrained_lsap_cost. rewrite Hsub. cbn [bind ret]. rewrite H. unfold raise.
    destruct e as [msg | | | | | ]; try reflexivity.
    destruct (String.eqb_spec msg infeasible_msg) as [E | E]; [ | reflexivity].
    subst msg. contradiction.
Qed.

Lemma lsap_failure_modes_witness :
  (constrained_lsap_costs lap_exhaustive one_by_one_inf = ret (full 1 1 PInf)
   /\ forall i j, i < 1 -> j < 1 ->
        get2 (full 1 1 PInf) (Z.of_nat i) (Z.of_nat j) = ret PInf)
  /\ constrained_lsap_costs lap_exhaustive one_by_one_nan = raise (ValueError invalid_msg)
  /\ constrained_lsap_cost lap_exhaustive 0 0 nan_corner = raise (ValueError invalid_msg).
Proof.
  assert (Hne : ValueError invalid_msg <> ValueError infeasible_msg) by discriminate.
  split; [ | split].
  - exact (proj1 (lsap_failure_modes lap_exhaustive one_by_one_inf) eq_refl).
  - exact (proj1 (proj2 (lsap_failure_modes lap_exhaustive one_by_one_nan))
             (ValueError invalid_msg) eq_refl Hne).
  - exact (proj2 (proj2 (lsap_failure_modes lap_exhaustive nan_corner))
             0 0 (mk_ndarray 1 1 [[NaN]]) (ValueError invalid_msg) eq_refl eq_refl Hne).
Defined.

(** ** The node cover *)

(** C2 fails on the code: the second round runs on the four uncovered
    nodes 1, 2, 3, 4 and appends the position 2 of node 3 among them, not
    the node's index, so the sequence returned is [0; 2] and the adjacent
    nodes 3 and 4 are both left outside it. *)
Theorem node_cover_leaves_an_edge :
  exists g m,
    Graph_init (ArgAdjs [star_and_edge_adj]) None ArgNone None = ret g
    /\ node_cover g = Some (ret [0; 2])
    /\ is_nbr g = ret m
    /\ get2 m 3%Z 4%Z = ret true
    /\ ~ In 3 [0; 2] /\ ~ In 4 [0; 2].
Proof.
  eexists. eexists.
  split; [reflexivity | ].
  split; [vm_compute; reflexivity | ].
  split; [vm_compute; reflexivity | ].
  split; [reflexivity | ].
  split; cbn; intuition discriminate.
Qed.

(** ** Counting systems of distinct representatives *)

Lemma partition_none : forall (A : Type) (f : A -> bool) (l : list A),
  Forall (fun x => f x = false) l -> partition f l = ([], l).
Proof.
  induction 1 as [ | x l Hx _ IH]; cbn; [reflexivity | ].
  rewrite IH, Hx. reflexivity.
Qed.

Lemma memZ_false : forall x l, ~ In x l -> memZ x l = false.
Proof.
  intros x l H. unfold memZ.
  destruct (existsb (Z.eqb x) l) eqn:E; [ | reflexivity].
  apply existsb_exists in E. destruct E as [y [Hy Exy]].
  apply Z.eqb_eq in Exy. subst y. contradiction.
Qed.

Lemma shares_disjoint : forall it other,
  (forall x, In x (snd it) -> ~ In x (snd other)) -> shares other it = false.
Proof.
  intros it other H. unfold shares.
  destruct (existsb (fun x => memZ x (snd it)) (snd other)) eqn:E; [ | reflexivity].
  apply existsb_exists in E. destruct E as [x [Hx Hm]].
  rewrite memZ_false in Hm; [discriminate | ].
  intros Hin. exact (H x Hin Hx).
Qed.

Lemma grow_component_alone : forall fuel it rest,
  Forall (fun other => forall x, In x (snd it) -> ~ In x (snd other)) rest ->
  grow_component fuel [it] rest = ([it], rest).
Proof.
  intros [ | fuel] it rest H; cbn [grow_component]; [reflexivity | ].
  rewrite partition_none; [reflexivity | ].
  eapply Forall_impl; [ | exact H].
  intros other Hd. cbn. rewrite shares_disjoint by exact Hd. reflexivity.
Qed.

Lemma components_disjoint : forall d fuel,
  pairwise_disjoint d -> length d <= fuel ->
  components fuel d = map (fun it => [it]) d.
Proof.
  induction d as [ | it rest IH]; intros fuel Hd Hf.
  - destruct fuel; reflexivity.
  - destruct fuel as [ | fuel]; [cbn in Hf; lia | ].
    destruct Hd as [Hit Hrest]. cbn [components].
    rewrite grow_component_alone by exact Hit. cbn [map]. f_equal.
    apply IH; [assumption | cbn in Hf; lia].
Qed.

Lemma sum_of_ones : forall (A : Type) (l : list A),
  fold_right Nat.add 0 (map (fun _ => 1) l) = length l.
Proof. induction l; cbn; congruence. Qed.

Lemma count_component_single : forall it,
  count_component (length [it]) [it] = length (snd it).
Proof. intros it. cbn. apply sum_of_ones. Qed.

(** C7: on pairwise disjoint candidate sets [count_alldiffs] is the
    product of their sizes, and [{a: [1,2,3,4], b: [5,6,7]}] gives 12. *)
Theorem count_alldiffs_disjoint :
  (forall d, pairwise_disjoint d ->
     count_alldiffs d = fold_right Nat.mul 1 (map (fun it => length (snd it)) d))
  /\ count_alldiffs [("a", [1; 2; 3; 4]%Z); ("b", [5; 6; 7]%Z)] = 12.
Proof.
  split; [ | reflexivity].
  intros d Hd. unfold count_alldiffs.
  rewrite components_disjoint by (try assumption; apply le_n).
  rewrite map_map. f_equal.
  apply map_ext. intros it. apply count_component_single.
Qed.

Lemma count_alldiffs_disjoint_witness :
  pairwise_disjoint [("a", [1; 2]%Z); ("b", [3; 4]%Z); ("c", [5; 6]%Z)]
  /\ count_alldiffs [("a", [1; 2]%Z); ("b", [3; 4]%Z); ("c", [5; 6]%Z)] = 2 * (2 * (2 * 1)).
Proof.
  assert (D : pairwise_disjoint [("a", [1; 2]%Z); ("b", [3; 4]%Z); ("c", [5; 6]%Z)]).
  { cbn. repeat split; repeat constructor; cbn; intros x H; intuition lia. }
  split; [exact D | ].
  exact (proj1 count_alldiffs_disjoint _ D).
Defined.

(** ** Degrees and self-edges *)

Lemma nth_map_seq : forall (A : Type) (f : nat -> A) d n s v,
  v < n -> nth v (map f (seq s n)) d = f (s + v).
Proof.
  induction n as [ | n IH]; intros s v H; [lia | ].
  destruct v as [ | v]; cbn.
  - f_equal. lia.
  - rewrite IH by lia. f_equal. lia.
Qed.

Lemma nth_map_lt : forall (A B : Type) (g : A -> B) d d' l c,
  c < length l -> nth c (map g l) d = g (nth c l d').
Proof.
  induction l as [ | x l IH]; intros c H; cbn in H; [lia | ].
  destruct c; cbn; [reflexivity | apply IH; lia].
Qed.

Lemma map_nth_all : forall (A : Type) (d : A) l s,
  map (fun i => nth (i - s) l d) (seq s (length l)) = l.
Proof.
  induction l as [ | x l IH]; intros s; cbn [length seq map]; [reflexivity | ].
  rewrite Nat.sub_diag. cbn [nth]. f_equal.
  rewrite <- (IH (S s)) at 2. apply map_ext_in.
  intros i Hi. apply in_seq in Hi.
  replace (i - s) with (S (i - S s)) by lia. reflexivity.
Qed.

Lemma map_nth_seq0 : forall (A B : Type) (f : A -> B) (d : A) l,
  map (fun i => f (nth i l d)) (seq 0 (length l)) = map f l.
Proof.
  intros A B f d l. rewrite <- (map_nth_all d l 0) at 2.
  rewrite map_map. apply map_ext. intros i. rewrite Nat.sub_0_r. reflexivity.
Qed.

(** The array that both [np.stack(.., axis=1)] and the concatenation of
    column vectors build: entry [(v, c)] is entry [v] of column [c]. *)
Lemma grid_at : forall (cols : list (list Z)) n v c,
  v < n -> c < length cols ->
  nth c (nth v (map (fun i => map (fun col => nth i col 0%Z) cols) (seq 0 n)) []) 0%Z
  = nth v (nth c cols []) 0%Z.
Proof.
  intros cols n v c Hv Hc.
  rewrite nth_map_seq by exact Hv. cbn [Nat.add].
  rewrite (nth_map_lt _ 0%Z []) by exact Hc. reflexivity.
Qed.

Lemma same_lengths : forall (cols : list (list Z)) n,
  Forall (fun c => length c = n) cols ->
  forallb (fun c' => length c' =? n) cols = true.
Proof.
  induction 1 as [ | c cols Hc _ IH]; cbn; [reflexivity | ].
  rewrite IH, (proj2 (Nat.eqb_eq _ _) Hc). reflexivity.
Qed.

Lemma stack_axis1_ok : forall (cols : list (list Z)) n,
  cols <> [] -> Forall (fun c => length c = n) cols ->
  stack_axis1 cols
  = ret (mk_array2 n (length cols)
           (map (fun i => map (fun col => nth i col 0%Z) cols) (seq 0 n))).
Proof.
  intros [ | c rest] n Hne H; [contradiction | ].
  inversion H as [ | ? ? Hc Hrest]; subst. unfold stack_axis1.
  rewrite same_lengths by exact Hrest. reflexivity.
Qed.

Lemma concat_columns_ok : forall (cols : list (list Z)) n,
  cols <> [] -> Forall (fun c => length c = n) cols ->
  concat_columns cols
  = ret (mk_array2 n (length cols)
           (map (fun i => map (fun col => nth i col 0%Z) cols) (seq 0 n))).
Proof.
  intros [ | c rest] n Hne H; [contradiction | ].
  inversion H as [ | ? ? Hc Hrest]; subst. unfold concat_columns.
  rewrite same_lengths by exact Hrest. reflexivity.
Qed.

Lemma fold_left_add : forall l a, fold_left Z.add l a = (a + fold_right Z.add 0 l)%Z.
Proof.
  induction l as [ | x l IH]; intros a; cbn; [lia | ].
  rewrite IH. lia.
Qed.

Lemma vec_add_length : forall u v, length u = length v -> length (vec_add u v) = length u.
Proof.
  intros u v H. unfold vec_add. rewrite length_map, length_combine. lia.
Qed.

Lemma vec_add_nth : forall u v k,
  length u = length v -> nth k (vec_add u v) 0%Z = (nth k u 0 + nth k v 0)%Z.
Proof.
  induction u as [ | x u IH]; intros [ | y v] k H; cbn in H; try discriminate.
  - destruct k; reflexivity.
  - destruct k; cbn; [reflexivity | ]. apply IH. lia.
Qed.

Lemma fold_vec_add : forall (rows : list (list Z)) acc n k,
  length acc = n -> Forall (fun r => length r = n) rows ->
  length (fold_left vec_add rows acc) = n
  /\ nth k (fold_left vec_add rows acc) 0%Z
     = (nth k acc 0 + fold_right Z.add 0 (map (fun r => nth k r 0) rows))%Z.
Proof.
  induction rows as [ | r rows IH]; intros acc n k Ha Hr; cbn.
  - split; [assumption | lia].
  - pose proof (Forall_inv Hr) as Hr0. pose proof (Forall_inv_tail Hr) as Hrest.
    cbn beta in Hr0.
    destruct (IH (vec_add acc r) n k) as [L N].
    + rewrite vec_add_length; congruence.
    + exact Hrest.
    + split; [exact L | ]. rewrite N, vec_add_nth by congruence. lia.
Qed.

Lemma sum_axis0_col_sum : forall (a : spmatrix) v,
  wf_array2 a -> length (sum_axis0 a) = ncols a /\ nth v (sum_axis0 a) 0%Z = col_sum a v.
Proof.
  intros a v [Hr Hc]. unfold sum_axis0, col_sum.
  destruct (@fold_vec_add (data a) (repeat 0%Z (ncols a)) (ncols a) v) as [L N].
  - apply repeat_length.
  - exact Hc.
  - split; [exact L | ]. rewrite N, <- Hr.
    rewrite (map_nth_seq0 (fun r => nth v r 0%Z) [] (data a)).
    replace (nth v (repeat 0%Z (ncols a)) 0%Z) with 0%Z; [lia | ].
    clear. generalize (ncols a). intros n. revert v.
    induction n; intros [ | v]; cbn; auto.
Qed.

Lemma sum_axis1_row_sum : forall (a : spmatrix) v,
  wf_array2 a -> v < nrows a ->
  length (sum_axis1 a) = nrows a /\ nth v (sum_axis1 a) 0%Z = row_sum a v.
Proof.
  intros a v [Hr Hc] Hv. unfold sum_axis1, row_sum. split.
  - rewrite length_map. exact Hr.
  - rewrite (nth_map_lt _ 0%Z []) by lia.
    rewrite fold_left_add.
    assert (L : length (nth v (data a) []) = ncols a).
    { rewrite Forall_forall in Hc. apply Hc. apply nth_In. lia. }
    rewrite <- L, (map_nth_seq0 (fun x => x) 0%Z), map_id. lia.
Qed.

Lemma diagonal_at : forall (a : spmatrix) v,
  length (diagonal a) = Nat.min (nrows a) (ncols a)
  /\ (v < Nat.min (nrows a) (ncols a) -> nth v (diagonal a) 0%Z = at2 a v v).
Proof.
  intros a v. unfold diagonal. split.
  - rewrite length_map, length_seq. reflexivity.
  - intros H. rewrite nth_map_seq by exact H. reflexivity.
Qed.

Lemma arr_sub_at : forall (a b : array2 Z),
  nrows a = nrows b -> ncols a = ncols b ->
  length (data a) = length (data b) ->
  exists d, arr_sub a b = ret d
    /\ forall v c, length (nth v (data a) []) = length (nth v (data b) []) ->
                   at2 d v c = (at2 a v c - at2 b v c)%Z.
Proof.
  intros a b Hr Hc Hl. unfold arr_sub.
  rewrite (proj2 (Nat.eqb_eq _ _) Hr), (proj2 (Nat.eqb_eq _ _) Hc). cbn [andb].
  eexists. split; [reflexivity | ]. intros v c Hrow. unfold at2. cbn [data].
  set (f := fun '(ra, rb) => map (fun '(x, y) => (x - y)%Z) (combine ra rb)).
  change (@nil Z) with (f ([], [])) at 1.
  rewrite map_nth, combine_nth by exact Hl. cbn [f].
  set (h := fun '(x, y) => (x - y)%Z).
  change 0%Z with (h (0%Z, 0%Z)) at 1.
  rewrite map_nth, combine_nth by exact Hrow. reflexivity.
Qed.

Lemma grid_row_length : forall (cols : list (list Z)) n v,
  length (nth v (map (fun i => map (fun col => nth i col 0%Z) cols) (seq 0 n)) [])
  = if v <? n then length cols else 0.
Proof.
  intros cols n v. destruct (Nat.ltb_spec v n) as [H | H].
  - rewrite nth_map_seq by exact H. apply length_map.
  - rewrite nth_overflow; [reflexivity | ]. rewrite length_map, length_seq. exact H.
Qed.

Lemma wf_graph_adjs_nonempty : forall g, wf_graph g -> adjs g <> [].
Proof.
  intros g W E. pose proof (wf_n_channels W) as L. pose proof (wf_some_channel W) as P.
  rewrite E in L. cbn in L. lia.
Qed.

(** C8: entry [(v, c)] of [self_edges] is the diagonal entry [(v, v)] of
    channel [c]; entry [(v, c)] of [in_degrees] is the sum of column [v] of
    channel [c] minus that diagonal entry, and entry [(v, c)] of
    [out_degrees] is the sum of row [v] minus it. *)
Theorem degrees_exclude_self_edges :
  forall g, wf_graph g ->
    exists loops ins outs,
      self_edges g = ret loops /\ in_degrees g = ret ins /\ out_degrees g = ret outs
      /\ forall v c adj,
           v < n_nodes g -> nth_error (adjs g) c = Some adj ->
           at2 loops v c = at2 adj v v
           /\ at2 ins v c = (col_sum adj v - at2 adj v v)%Z
           /\ at2 outs v c = (row_sum adj v - at2 adj v v)%Z.
Proof.
  intros g W.
  pose proof (wf_graph_adjs_nonempty W) as Hne.
  pose proof (wf_adjs W) as Hadjs.
  set (n := n_nodes g) in *.
  assert (Hd : Forall (fun c => length c = n) (map diagonal (adjs g))).
  { apply Forall_map. eapply Forall_impl; [ | exact Hadjs].
    intros a (_ & Hr & Hc). rewrite (proj1 (diagonal_at a 0)), Hr, Hc. apply Nat.min_id. }
  assert (Hi : Forall (fun c => length c = n) (map sum_axis0 (adjs g))).
  { apply Forall_map. eapply Forall_impl; [ | exact Hadjs].
    intros a (Hw & Hr & Hc). rewrite (proj1 (sum_axis0_col_sum 0 Hw)). exact Hc. }
  assert (Ho : Forall (fun c => length c = n) (map sum_axis1 (adjs g))).
  { apply Forall_map. eapply Forall_impl; [ | exact Hadjs].
    intros a (Hw & Hr & Hc). unfold sum_axis1. rewrite length_map, (proj1 Hw). exact Hr. }
  assert (Hm : forall (f : spmatrix -> list Z), map f (adjs g) <> []).
  { intros f E. apply Hne. destruct (adjs g); [reflexivity | discriminate]. }
  unfold in_degrees, out_degrees, self_edges.
  rewrite (stack_axis1_ok (Hm diagonal) Hd).
  rewrite (concat_columns_ok (Hm sum_axis0) Hi), (concat_columns_ok (Hm sum_axis1) Ho).
  cbn [bind ret].
  rewrite !length_map.
  set (grid := fun cols : list (list Z) =>
                 map (fun i => map (fun col => nth i col 0%Z) cols) (seq 0 n)).
  destruct (@arr_sub_at (mk_array2 n (length (adjs g)) (grid (map sum_axis0 (adjs g))))
              (mk_array2 n (length (adjs g)) (grid (map diagonal (adjs g)))))
    as [ins [Ei Ai]]; try reflexivity.
  { cbn [data]. unfold grid. rewrite !length_map. reflexivity. }
  destruct (@arr_sub_at (mk_array2 n (length (adjs g)) (grid (map sum_axis1 (adjs g))))
              (mk_array2 n (length (adjs g)) (grid (map diagonal (adjs g)))))
    as [outs [Eo Ao]]; try reflexivity.
  { cbn [data]. unfold grid. rewrite !length_map. reflexivity. }
  exists (mk_array2 n (length (adjs g)) (grid (map diagonal (adjs g)))), ins, outs.
  split; [reflexivity | ]. split; [exact Ei | ]. split; [exact Eo | ].
  intros v c adj Hv Hc.
  assert (Hlt : c < length (adjs g)) by (apply nth_error_Some; congruence).
  assert (Hadj : nth c (adjs g) (mk_array2 0 0 []) = adj) by (apply nth_error_nth; exact Hc).
  assert (Wadj : wf_array2 adj /\ nrows adj = n /\ ncols adj = n).
  { rewrite Forall_forall in Hadjs. apply Hadjs. eapply nth_error_In. exact Hc. }
  destruct Wadj as (Hw & Hr & Hcn).
  assert (L : at2 (mk_array2 n (length (adjs g)) (grid (map diagonal (adjs g)))) v c
              = at2 adj v v).
  { unfold at2 at 1. cbn [data]. unfold grid.
    rewrite grid_at by (rewrite ?length_map; assumption).
    rewrite (@nth_map_lt spmatrix (list Z) diagonal [] (mk_array2 0 0 []) (adjs g) c Hlt).
    rewrite Hadj.
    apply diagonal_at. rewrite Hr, Hcn, Nat.min_id. exact Hv. }
  split; [exact L | ]. split.
  - rewrite Ai by (cbn [data]; unfold grid; rewrite !grid_row_length, !length_map; reflexivity).
    rewrite L. f_equal.
    unfold at2. cbn [data]. unfold grid.
    rewrite grid_at by (rewrite ?length_map; assumption).
    rewrite (@nth_map_lt spmatrix (list Z) sum_axis0 [] (mk_array2 0 0 []) (adjs g) c Hlt).
    rewrite Hadj.
    apply sum_axis0_col_sum. exact Hw.
  - rewrite Ao by (cbn [data]; unfold grid; rewrite !grid_row_length, !length_map; reflexivity).
    rewrite L. f_equal.
    unfold at2. cbn [data]. unfold grid.
    rewrite grid_at by (rewrite ?length_map; assumption).
    rewrite (@nth_map_lt spmatrix (list Z) sum_axis1 [] (mk_array2 0 0 []) (adjs g) c Hlt).
    rewrite Hadj.
    apply sum_axis1_row_sum; [exact Hw | lia].
Qed.

(** ** Neighbouring pairs *)

Lemma enumerate_from_In : forall (A : Type) (l : list A) (s i : nat) (x : A),
  In (i, x) (combine (seq s (length l)) l) <-> s <= i /\ nth_error l (i - s) = Some x.
Proof.
  induction l as [ | y l IH]; intros s i x; cbn [length seq combine In].
  - split; [intros [] | intros [_ H]; destruct (i - s); discriminate].
  - split.
    + intros [E | H].
      * inversion E; subst. split; [lia | ]. rewrite Nat.sub_diag. reflexivity.
      * apply IH in H. destruct H as [H1 H2]. split; [lia | ].
        replace (i - s) with (S (i - S s)) by lia. exact H2.
    + intros [H1 H2]. destruct (Nat.eq_dec i s) as [E | E].
      * subst. rewrite Nat.sub_diag in H2. cbn in H2. inversion H2. left. reflexivity.
      * right. apply IH. split; [lia | ].
        replace (i - s) with (S (i - S s)) in H2 by lia. exact H2.
Qed.

Lemma enumerate_In : forall (A : Type) (l : list A) (i : nat) (x : A),
  In (i, x) (enumerate l) <-> nth_error l i = Some x.
Proof.
  intros A l i x. unfold enumerate. rewrite enumerate_from_In, Nat.sub_0_r.
  split; [tauto | split; [lia | assumption]].
Qed.

Lemma enumerate_from_fst : forall (A : Type) (l : list A) s,
  map fst (combine (seq s (length l)) l) = seq s (length l).
Proof.
  induction l as [ | y l IH]; intros s; cbn; [reflexivity | ].
  f_equal. apply IH.
Qed.

Lemma nth_error_map_enumerate_from : forall (A B : Type) (G : nat * A -> B) (l : list A) s k,
  nth_error (map G (combine (seq s (length l)) l)) k
  = option_map (fun x => G (s + k, x)) (nth_error l k).
Proof.
  induction l as [ | y l IH]; intros s k; cbn [length seq combine map].
  - destruct k; reflexivity.
  - destruct k as [ | k]; cbn [nth_error option_map].
    + rewrite Nat.add_0_r. reflexivity.
    + rewrite IH. replace (S s + k) with (s + S k) by lia. reflexivity.
Qed.

Lemma NoDup_fst_filter : forall (A B : Type) (f : A * B -> bool) (l : list (A * B)),
  NoDup (map fst l) -> NoDup (map fst (filter f l)).
Proof.
  induction l as [ | p l IH]; intros H; cbn; [constructor | ].
  inversion H as [ | ? ? Hn Hd]; subst.
  destruct (f p); cbn; [ | apply IH; exact Hd].
  constructor; [ | apply IH; exact Hd].
  intros Hin. apply Hn. apply in_map_iff in Hin. destruct Hin as [q [Eq Hq]].
  apply filter_In in Hq. apply in_map_iff. exists q. tauto.
Qed.

(** The true positions of one row of [np.argwhere]. *)
Lemma row_hits_In : forall (r : list bool) (i i' j : nat),
  In (i', j) (map (fun '(j, _) => (i, j)) (filter (fun '(_, b) => b) (enumerate r)))
  <-> i' = i /\ nth_error r j = Some true.
Proof.
  intros r i i' j. rewrite in_map_iff. split.
  - intros [[j' b] [E H]]. inversion E; subst.
    apply filter_In in H. destruct H as [H Hb]. subst b.
    apply enumerate_In in H. tauto.
  - intros [E H]. subst. exists (j, true). split; [reflexivity | ].
    apply filter_In. split; [apply enumerate_In; exact H | reflexivity].
Qed.

Lemma row_hits_NoDup : forall (r : list bool) (i : nat),
  NoDup (map (fun '(j, _) => (i, j)) (filter (fun '(_, b) => b) (enumerate r))).
Proof.
  intros r i.
  replace (map (fun '(j, _) => (i, j)) (filter (fun '(_, b) => b) (enumerate r)))
    with (map (pair i) (map fst (filter (fun '(_, b) => b) (enumerate r : list (nat * bool))))).
  - apply NoDup_map_NoDup_ForallPairs.
    + intros x y _ _ E. inversion E. reflexivity.
    + apply NoDup_fst_filter. unfold enumerate. rewrite enumerate_from_fst. apply seq_NoDup.
  - rewrite map_map. apply map_ext. intros [j b]. reflexivity.
Qed.

Lemma argwhere_from_In : forall (rows : list (list bool)) (s i j : nat),
  In (i, j)
     (flat_map (fun '(i, r) =>
                  map (fun '(j, _) => (i, j)) (filter (fun '(_, b) => b) (enumerate r)))
               (combine (seq s (length rows)) rows))
  <-> s <= i /\ exists r, nth_error rows (i - s) = Some r /\ nth_error r j = Some true.
Proof.
  intros rows s i j. rewrite in_flat_map. split.
  - intros [[i' r] [H Hin]]. apply row_hits_In in Hin. destruct Hin as [E Hj]. subst i'.
    apply enumerate_from_In in H. destruct H as [Hs Hr].
    split; [exact Hs | ]. exists r. tauto.
  - intros [Hs [r [Hr Hj]]]. exists (i, r). split.
    + apply enumerate_from_In. tauto.
    + apply row_hits_In. tauto.
Qed.

Lemma argwhere_from_NoDup : forall (rows : list (list bool)) s,
  NoDup (flat_map (fun '(i, r) =>
                     map (fun '(j, _) => (i, j)) (filter (fun '(_, b) => b) (enumerate r)))
                  (combine (seq s (length rows)) rows)).
Proof.
  induction rows as [ | r rows IH]; intros s; cbn [length seq combine flat_map].
  - constructor.
  - apply NoDup_app.
    + apply row_hits_NoDup.
    + apply IH.
    + intros [i j] H1 H2. apply row_hits_In in H1. destruct H1 as [E _]. subst i.
      apply argwhere_from_In in H2. lia.
Qed.

Lemma argwhere_In : forall (m : array2 bool) (i j : nat),
  In (i, j) (argwhere m)
  <-> exists r, nth_error (data m) i = Some r /\ nth_error r j = Some true.
Proof.
  intros m i j. unfold argwhere, enumerate at 2. rewrite argwhere_from_In, Nat.sub_0_r.
  split; [tauto | split; [lia | assumption]].
Qed.

Lemma argwhere_NoDup : forall (m : array2 bool), NoDup (argwhere m).
Proof. intros m. unfold argwhere, enumerate at 2. apply argwhere_from_NoDup. Qed.

Lemma tril_entry : forall (m : array2 bool) i j,
  (exists r, nth_error (data (tril m)) i = Some r /\ nth_error r j = Some true)
  <-> (exists r, nth_error (data m) i = Some r /\ nth_error r j = Some true) /\ j <= i.
Proof.
  intros m i j. unfold tril, enumerate at 2. cbn [data].
  rewrite nth_error_map_enumerate_from. cbn [Nat.add].
  destruct (nth_error (data m) i) as [r | ]; cbn [option_map].
  - unfold enumerate. split.
    + intros [r' [E H]]. inversion E; subst r'. clear E.
      rewrite nth_error_map_enumerate_from in H. cbn [Nat.add] in H.
      destruct (nth_error r j) as [b | ] eqn:Hb; cbn [option_map] in H; [ | discriminate].
      assert (H' : (j <=? i) && b = true) by congruence.
      apply andb_true_iff in H'. destruct H' as [Hle Ht]. subst b.
      apply Nat.leb_le in Hle. split; [ | exact Hle].
      exists r. split; [reflexivity | exact Hb].
    + intros [[r' [E H]] Hle]. inversion E; subst r'. clear E.
      eexists. split; [reflexivity | ].
      rewrite nth_error_map_enumerate_from. cbn [Nat.add]. rewrite H. cbn [option_map].
      rewrite (proj2 (Nat.leb_le _ _) Hle). reflexivity.
  - split; [intros [r' [E _]]; discriminate | intros [[r' [E _]] _]; discriminate].
Qed.

Lemma row_length : forall (A : Type) (a : array2 A) i,
  wf_array2 a -> length (nth i (data a) []) = if i <? nrows a then ncols a else 0.
Proof.
  intros A a i [Hr Hc]. destruct (Nat.ltb_spec i (nrows a)) as [H | H].
  - rewrite Forall_forall in Hc. apply Hc. apply nth_In. lia.
  - rewrite nth_overflow by lia. reflexivity.
Qed.

Lemma sp_add_at : forall (a b : spmatrix),
  wf_array2 a -> wf_array2 b -> nrows a = nrows b -> ncols a = ncols b ->
  exists d, sp_add a b = ret d
    /\ wf_array2 d /\ nrows d = nrows a /\ ncols d = ncols a
    /\ forall i j, at2 d i j = (at2 a i j + at2 b i j)%Z.
Proof.
  intros a b Wa Wb Hr Hc. unfold sp_add.
  rewrite (proj2 (Nat.eqb_eq _ _) Hr), (proj2 (Nat.eqb_eq _ _) Hc). cbn [andb].
  eexists. split; [reflexivity | ].
  assert (Hl : length (data a) = length (data b)) by (destruct Wa, Wb; congruence).
  split; [ | split; [reflexivity | split; [reflexivity | ]]].
  - split; cbn [data nrows ncols].
    + rewrite length_map, length_combine. destruct Wa. lia.
    + apply Forall_forall. intros r Hin. apply in_map_iff in Hin.
      destruct Hin as [[ra rb] [E Hin]]. subst r.
      rewrite length_map, length_combine.
      pose proof (in_combine_l _ _ _ _ Hin) as Ha.
      pose proof (in_combine_r _ _ _ _ Hin) as Hb.
      destruct Wa as [_ Fa], Wb as [_ Fb]. rewrite Forall_forall in Fa, Fb.
      rewrite (Fa _ Ha), (Fb _ Hb). lia.
  - intros i j. unfold at2. cbn [data].
    set (f := fun '(ra, rb) => map (fun '(x, y) => (x + y)%Z) (combine ra rb)).
    change (@nil Z) with (f ([], [])) at 1.
    rewrite map_nth, combine_nth by exact Hl. cbn [f].
    set (h := fun '(x, y) => (x + y)%Z).
    change 0%Z with (h (0%Z, 0%Z)) at 1.
    rewrite map_nth, combine_nth; [reflexivity | ].
    rewrite !row_length by assumption. rewrite Hr, Hc. reflexivity.
Qed.

Lemma composite_sum : forall (rest : list spmatrix) (a : spmatrix) n,
  wf_array2 a -> nrows a = n -> ncols a = n ->
  Forall (fun b => wf_array2 b /\ nrows b = n /\ ncols b = n) rest ->
  exists c, for_each rest (fun b acc => sp_add acc b) a = ret c
    /\ wf_array2 c /\ nrows c = n /\ ncols c = n
    /\ forall i j, at2 c i j
                   = (at2 a i j + fold_right Z.add 0 (map (fun b => at2 b i j) rest))%Z.
Proof.
  induction rest as [ | b rest IH]; intros a n Wa Hr Hc Hrest; cbn [for_each].
  - exists a. repeat split; try assumption; try apply Wa. intros i j. cbn. lia.
  - pose proof (Forall_inv Hrest) as (Wb & Hrb & Hcb).
    pose proof (Forall_inv_tail Hrest) as Hrest'.
    destruct (@sp_add_at a b) as [d (E & Wd & Hrd & Hcd & Hat)]; try assumption; try congruence.
    rewrite E. cbn [bind ret].
    destruct (IH d n) as [c (Ec & Wc & Hrc & Hcc & Hsum)]; try assumption; try congruence.
    exists c. repeat split; try assumption; try apply Wc.
    intros i j. rewrite Hsum, Hat. cbn. lia.
Qed.

Lemma transpose_at : forall (c : spmatrix) i j,
  wf_array2 c -> at2 (transpose_with 0%Z c) i j = at2 c j i.
Proof.
  intros c i j W. unfold at2, transpose_with. cbn [data].
  destruct (Nat.ltb_spec i (ncols c)) as [Hi | Hi].
  - rewrite nth_map_seq by exact Hi. cbn [Nat.add].
    destruct (Nat.ltb_spec j (length (data c))) as [Hj | Hj].
    + rewrite (nth_map_lt _ 0%Z []) by exact Hj. reflexivity.
    + rewrite nth_overflow by (rewrite length_map; exact Hj).
      rewrite (nth_overflow (data c)) by exact Hj. destruct i; reflexivity.
  - rewrite (nth_overflow (map _ _)) by (rewrite length_map, length_seq; exact Hi).
    rewrite (nth_overflow (nth j (data c) [])).
    + destruct j; reflexivity.
    + rewrite row_length by exact W. destruct (j <? nrows c); lia.
Qed.

Lemma transpose_wf : forall (c : spmatrix),
  wf_array2 c -> wf_array2 (transpose_with 0%Z c).
Proof.
  intros c [Hr _]. unfold transpose_with. split; cbn [data nrows ncols].
  - rewrite length_map, length_seq. reflexivity.
  - apply Forall_forall. intros r Hin. apply in_map_iff in Hin.
    destruct Hin as [k [E _]]. subst r. rewrite length_map. exact Hr.
Qed.

Lemma positive_entry : forall (s : spmatrix) i j,
  wf_array2 s ->
  (exists r, nth_error (map (map (fun x => (0 <? x)%Z)) (data s)) i = Some r
             /\ nth_error r j = Some true)
  <-> i < nrows s /\ j < ncols s /\ (0 < at2 s i j)%Z.
Proof.
  intros s i j W. pose proof (row_length i W) as L. destruct W as [Hr Hc].
  rewrite nth_error_map. split.
  - intros [r [E H]].
    destruct (nth_error (data s) i) as [r0 | ] eqn:E0; cbn [option_map] in E; [ | discriminate].
    assert (r = map (fun x => (0 <? x)%Z) r0) by congruence. subst r. clear E.
    rewrite nth_error_map in H.
    destruct (nth_error r0 j) as [x | ] eqn:Ex; cbn [option_map] in H; [ | discriminate].
    assert (Hx : (0 <? x)%Z = true) by congruence. apply Z.ltb_lt in Hx.
    assert (Hi : i < nrows s) by (rewrite <- Hr; apply nth_error_Some; congruence).
    rewrite (proj2 (Nat.ltb_lt _ _) Hi) in L.
    assert (R0 : nth i (data s) [] = r0) by (apply nth_error_nth; exact E0).
    assert (Hj : j < length r0) by (apply nth_error_Some; congruence).
    split; [exact Hi | ]. split; [rewrite <- L, R0; exact Hj | ].
    unfold at2. rewrite R0, (nth_error_nth _ _ 0%Z Ex). exact Hx.
  - intros (Hi & Hj & Hx).
    rewrite (proj2 (Nat.ltb_lt _ _) Hi) in L.
    rewrite (nth_error_nth' (data s) []) by lia. cbn [option_map].
    eexists. split; [reflexivity | ].
    rewrite nth_error_map, (nth_error_nth' _ 0%Z) by lia. cbn [option_map].
    f_equal. apply Z.ltb_lt. exact Hx.
Qed.

Lemma sum_positive : forall l : list Z,
  Forall (fun x => (0 <= x)%Z) l ->
  ((0 < fold_right Z.add 0 l)%Z <-> Exists (fun x => (0 < x)%Z) l).
Proof.
  induction 1 as [ | x l Hx Hl IH]; cbn.
  - split; [lia | intros E; inversion E].
  - assert (S : (0 <= fold_right Z.add 0 l)%Z).
    { clear IH. induction Hl; cbn; lia. }
    split.
    + intros H. destruct (Z.lt_ge_cases 0 x) as [P | P].
      * left. exact P.
      * right. apply IH. lia.
    + intros E. inversion E as [? ? P | ? ? P]; subst; [lia | ].
      apply IH in P. lia.
Qed.

Lemma sum_nonneg : forall l : list Z,
  Forall (fun x => (0 <= x)%Z) l -> (0 <= fold_right Z.add 0 l)%Z.
Proof. induction 1; cbn; lia. Qed.

Lemma at2_nonneg : forall (a : spmatrix) i j,
  Forall (Forall (fun x => (0 <= x)%Z)) (data a) -> (0 <= at2 a i j)%Z.
Proof.
  intros a i j H. unfold at2.
  destruct (nth_in_or_default i (data a) []) as [Hr | Hr].
  - rewrite Forall_forall in H. pose proof (H _ Hr) as H'.
    destruct (nth_in_or_default j (nth i (data a) []) 0%Z) as [Hx | Hx].
    + rewrite Forall_forall in H'. exact (H' _ Hx).
    + rewrite Hx. lia.
  - rewrite Hr. destruct j; cbn; lia.
Qed.

(** C10: [nbr_idx_pairs] holds no row twice; [(i, j)] is a row exactly when
    [j <= i] are node indices joined by an edge of some channel in either
    direction; so a row and its mirror image are never both present. *)
Theorem nbr_idx_pairs_once :
  forall g, wf_graph g -> counts_nonneg g ->
    exists pairs,
      nbr_idx_pairs g = ret pairs
      /\ NoDup pairs
      /\ (forall i j, In (i, j) pairs <-> (j <= i /\ i < n_nodes g /\ adjacent g i j))
      /\ (forall i j, In (i, j) pairs -> i <> j -> ~ In (j, i) pairs).
Proof.
  intros g W N.
  pose proof (wf_graph_adjs_nonempty W) as Hne.
  pose proof (wf_adjs W) as Hadjs.
  unfold nbr_idx_pairs, is_nbr, sym_composite_adj, composite_adj.
  unfold adjacent. unfold counts_nonneg in N.
  destruct (adjs g) as [ | a rest]; [contradiction | ].
  pose proof (Forall_inv Hadjs) as (Wa & Hra & Hca).
  destruct (@composite_sum rest a (n_nodes g)) as [c (Ec & Wc & Hrc & Hcc & Hsum)];
    try assumption.
  { exact (Forall_inv_tail Hadjs). }
  rewrite Ec. cbn [bind ret].
  destruct (@sp_add_at c (transpose_with 0%Z c)) as [s (Es & Ws & Hrs & Hcs & Hat)];
    try assumption.
  { apply transpose_wf. exact Wc. }
  { cbn. congruence. }
  { cbn. congruence. }
  rewrite Es. cbn [bind ret].
  assert (In_iff : forall i j,
             In (i, j) (argwhere (tril (mk_array2 (nrows s) (ncols s)
                                          (map (map (fun x => (0 <? x)%Z)) (data s)))))
             <-> j <= i /\ i < n_nodes g
                 /\ exists adj, In adj (a :: rest)
                                /\ (0 < at2 adj i j \/ 0 < at2 adj j i)%Z).
  { intros i j. rewrite argwhere_In, tril_entry. cbn [data].
    rewrite positive_entry by exact Ws.
    rewrite Hat, transpose_at, !Hsum by exact Wc.
    assert (P : (0 < at2 a i j + fold_right Z.add 0 (map (fun b => at2 b i j) rest)
                     + (at2 a j i + fold_right Z.add 0 (map (fun b => at2 b j i) rest)))%Z
                <-> exists adj, In adj (a :: rest)
                                /\ (0 < at2 adj i j \/ 0 < at2 adj j i)%Z).
    { change (0 < fold_right Z.add 0 (map (fun b => at2 b i j) (a :: rest))
                  + fold_right Z.add 0 (map (fun b => at2 b j i) (a :: rest))
              <-> exists adj, In adj (a :: rest)
                              /\ (0 < at2 adj i j \/ 0 < at2 adj j i))%Z.
      assert (Hnn : forall u v,
                 Forall (fun x => (0 <= x)%Z) (map (fun b => at2 b u v) (a :: rest))).
      { intros u v. apply Forall_map. eapply Forall_impl; [ | exact N].
        intros b Hb. apply at2_nonneg. exact Hb. }
      pose proof (sum_nonneg (Hnn i j)) as Sij. pose proof (sum_nonneg (Hnn j i)) as Sji.
      pose proof (sum_positive (Hnn i j)) as Pij. pose proof (sum_positive (Hnn j i)) as Pji.
      rewrite Exists_exists in Pij, Pji. split.
      - intros H.
        assert (D : (0 < fold_right Z.add 0 (map (fun b => at2 b i j) (a :: rest))
                     \/ 0 < fold_right Z.add 0 (map (fun b => at2 b j i) (a :: rest)))%Z)
          by lia.
        destruct D as [D | D]; [apply Pij in D | apply Pji in D];
          destruct D as [x [Hin Hx]]; apply in_map_iff in Hin;
          destruct Hin as [adj [E Hadj]]; exists adj; subst x; tauto.
      - intros [adj [Hin [H | H]]].
        + assert (D : (0 < fold_right Z.add 0 (map (fun b => at2 b i j) (a :: rest)))%Z).
          { apply Pij. exists (at2 adj i j). split; [ | exact H].
            apply in_map_iff. exists adj. tauto. }
          lia.
        + assert (D : (0 < fold_right Z.add 0 (map (fun b => at2 b j i) (a :: rest)))%Z).
          { apply Pji. exists (at2 adj j i). split; [ | exact H].
            apply in_map_iff. exists adj. tauto. }
          lia. }
    rewrite Hrs, Hcs, Hrc, Hcc. rewrite P. split.
    - intros [(Hi & Hj & H) Hle]. tauto.
    - intros (Hle & Hi & H). split; [ | exact Hle]. split; [exact Hi | ]. split; [lia | exact H]. }
  eexists. split; [reflexivity | ]. split; [apply argwhere_NoDup | ]. split.
  - exact In_iff.
  - intros i j H Hne' H'. apply In_iff in H. apply In_iff in H'. lia.
Qed.

Lemma star_and_edge_wf : wf_graph star_and_edge_graph.
Proof.
  constructor; cbn; try reflexivity; try lia.
  constructor; [ | constructor].
  split; [ | split; reflexivity].
  split; [reflexivity | ]. repeat constructor.
Qed.

Lemma star_and_edge_nonneg : counts_nonneg star_and_edge_graph.
Proof. unfold counts_nonneg. cbn. repeat constructor; lia. Qed.

Lemma degrees_exclude_self_edges_witness :
  wf_graph star_and_edge_graph
  /\ exists loops ins outs,
      self_edges star_and_edge_graph = ret loops
      /\ in_degrees star_and_edge_graph = ret ins
      /\ out_degrees star_and_edge_graph = ret outs
      /\ forall v c adj,
           v < n_nodes star_and_edge_graph ->
           nth_error (adjs star_and_edge_graph) c = Some adj ->
           at2 loops v c = at2 adj v v
           /\ at2 ins v c = (col_sum adj v - at2 adj v v)%Z
           /\ at2 outs v c = (row_sum adj v - at2 adj v v)%Z.
Proof.
  split; [exact star_and_edge_wf | ].
  apply (degrees_exclude_self_edges star_and_edge_wf).
Defined.

Lemma nbr_idx_pairs_once_witness :
  wf_graph star_and_edge_graph /\ counts_nonneg star_and_edge_graph
  /\ exists pairs,
      nbr_idx_pairs star_and_edge_graph = ret pairs
      /\ NoDup pairs
      /\ (forall i j, In (i, j) pairs
                      <-> (j <= i /\ i < n_nodes star_and_edge_graph
                           /\ adjacent star_and_edge_graph i j))
      /\ (forall i j, In (i, j) pairs -> i <> j -> ~ In (j, i) pairs).
Proof.
  split; [exact star_and_edge_wf | ]. split; [exact star_and_edge_nonneg | ].
  apply (nbr_idx_pairs_once star_and_edge_wf star_and_edge_nonneg).
Defined.

(** ** Subgraphs leave the original graph alone *)

(** [h] still holds every object of [h0], unchanged and at its place. *)
Definition keeps (h0 h : heap) : Prop := exists ext, h = h0 ++ ext.

(** A triple for store computations: from a store satisfying [P], a
    normal return satisfies [Q] and an exception leaves a store
    satisfying [E]. *)
Definition hoare {A : Type} (P : heap -> Prop) (c : M A) (Q : A -> heap -> Prop)
  (E : heap -> Prop) : Prop :=
  forall h, P h ->
    match c h with
    | (h', inr a) => Q a h'
    | (h', inl _) => E h'
    end.

Lemma hoare_bind : forall (A B : Type) (P : heap -> Prop) (c : M A) (k : A -> M B)
    (Q : A -> heap -> Prop) (R : B -> heap -> Prop) (E : heap -> Prop),
  hoare P c Q E -> (forall a, hoare (Q a) (k a) R E) -> hoare P (mbind c k) R E.
Proof.
  intros A B P c k Q R E Hc Hk h HP. unfold mbind.
  specialize (Hc h HP). destruct (c h) as [h1 [e | a]]; [exact Hc | ].
  exact (Hk a h1 Hc).
Qed.

Lemma hoare_conseq : forall (A : Type) (P P' : heap -> Prop) (c : M A)
    (Q Q' : A -> heap -> Prop) (E : heap -> Prop),
  hoare P' c Q' E -> (forall h, P h -> P' h) -> (forall a h, Q' a h -> Q a h) ->
  hoare P c Q E.
Proof.
  intros A P P' c Q Q' E Hc HP HQ h Hh. specialize (Hc h (HP h Hh)).
  destruct (c h) as [h1 [e | a]]; [exact Hc | exact (HQ a h1 Hc)].
Qed.

Lemma hoare_ret : forall (A : Type) (P : heap -> Prop) (a : A) (E : heap -> Prop),
  hoare P (mret a) (fun x h => x = a /\ P h) E.
Proof. intros A P a E h HP. cbn. tauto. Qed.

Lemma hoare_lift : forall (A : Type) (P : heap -> Prop) (r : result A),
  hoare P (lift r) (fun _ h => P h) P.
Proof. intros A P r h HP. unfold lift. destruct r; exact HP. Qed.

Lemma keeps_refl : forall h, keeps h h.
Proof. intros h. exists []. symmetry. apply app_nil_r. Qed.

Lemma keeps_length : forall h0 h, keeps h0 h -> length h0 <= length h.
Proof. intros h0 h [ext E]. subst. rewrite length_app. lia. Qed.

Lemma keeps_snoc : forall h0 h o, keeps h0 h -> keeps h0 (h ++ [o]).
Proof. intros h0 h o [ext E]. subst. exists (ext ++ [o]). symmetry. apply app_assoc. Qed.

Lemma list_upd_app_r : forall (A : Type) (l1 l2 : list A) k x,
  length l1 <= k -> list_upd (l1 ++ l2) k x = l1 ++ list_upd l2 (k - length l1) x.
Proof.
  induction l1 as [ | y l1 IH]; intros l2 k x H; cbn [app length].
  - rewrite Nat.sub_0_r. reflexivity.
  - destruct k as [ | k]; cbn in H; [lia | ]. cbn [list_upd Nat.sub].
    f_equal. apply IH. lia.
Qed.

Lemma keeps_upd : forall h0 h l o, keeps h0 h -> length h0 <= l -> keeps h0 (list_upd h l o).
Proof.
  intros h0 h l o [ext E] H. subst. rewrite list_upd_app_r by exact H.
  eexists. reflexivity.
Qed.

(** Allocation yields a reference outside [h0], to the object allocated. *)
Lemma hoare_alloc : forall h0 o,
  hoare (keeps h0) (alloc o)
        (fun l h => keeps h0 h /\ length h0 <= l /\ nth_error h l = Some o) (keeps h0).
Proof.
  intros h0 o h K. unfold alloc. split; [apply keeps_snoc; exact K | ].
  split; [apply keeps_length; exact K | ].
  rewrite nth_error_app2, Nat.sub_diag by lia. reflexivity.
Qed.

Lemma hoare_load : forall (P : heap -> Prop) l,
  hoare P (load l) (fun _ h => P h) P.
Proof. intros P l h HP. unfold load. destruct (nth_error h l); exact HP. Qed.

(** Writing through a reference allocated after [h0] keeps [h0]. *)
Lemma hoare_store : forall h0 l o,
  length h0 <= l -> hoare (keeps h0) (store l o) (fun _ h => keeps h0 h) (keeps h0).
Proof.
  intros h0 l o Hl h K. unfold store.
  destruct (l <? length h); [apply keeps_upd; assumption | exact K].
Qed.

Lemma hoare_wrong_type : forall (A : Type) (P : heap -> Prop) (Q : A -> heap -> Prop),
  hoare P (@wrong_type A) Q P.
Proof. intros A P Q h HP. exact HP. Qed.

Lemma hoare_pure : forall (A : Type) (phi : Prop) (P : heap -> Prop) (c : M A)
    (Q : A -> heap -> Prop) (E : heap -> Prop),
  (phi -> hoare P c Q E) -> hoare (fun h => P h /\ phi) c Q E.
Proof. intros A phi P c Q E H h [HP Hphi]. exact (H Hphi h HP). Qed.

Lemma hoare_mapM : forall (A B : Type) (I : heap -> Prop) (phi : B -> Prop)
    (f : A -> M B) (xs : list A),
  (forall x, In x xs -> hoare I (f x) (fun y h => I h /\ phi y) I) ->
  hoare I (mapM_h f xs) (fun ys h => I h /\ Forall phi ys) I.
Proof.
  induction xs as [ | x xs IH]; intros Hf; cbn [mapM_h].
  - intros h HI. cbn. split; [exact HI | constructor].
  - eapply hoare_bind; [apply Hf; left; reflexivity | ].
    intros y. cbn beta. apply hoare_pure. intros Hy.
    eapply hoare_bind.
    + apply IH. intros x' Hx'. apply Hf. right. exact Hx'.
    + intros ys. cbn beta. apply hoare_pure. intros Hys.
      intros h HI. cbn. split; [exact HI | constructor; assumption].
Qed.

(** The typed loads read the store and leave it as it is. *)
Lemma hoare_load_matrix : forall (P : heap -> Prop) l,
  hoare P (load_matrix l) (fun _ h => P h) P.
Proof.
  intros P l. unfold load_matrix. eapply hoare_bind; [apply hoare_load | ].
  intros [m | | | | | | ]; try apply hoare_wrong_type.
  intros h HP. exact HP.
Qed.

Lemma hoare_load_channels : forall (P : heap -> Prop) l,
  hoare P (load_channels l) (fun _ h => P h) P.
Proof.
  intros P l. unfold load_channels. eapply hoare_bind; [apply hoare_load | ].
  intros [ | c | | | | | ]; try apply hoare_wrong_type.
  intros h HP. exact HP.
Qed.

Lemma hoare_load_adjs : forall (P : heap -> Prop) l,
  hoare P (load_adjs l) (fun _ h => P h) P.
Proof.
  intros P l. unfold load_adjs. eapply hoare_bind; [apply hoare_load | ].
  intros [ | | ls | | | | ]; try apply hoare_wrong_type.
  intros h HP. exact HP.
Qed.

Lemma hoare_load_nodes : forall (P : heap -> Prop) l,
  hoare P (load_nodes l) (fun _ h => P h) P.
Proof.
  intros P l. unfold load_nodes. eapply hoare_bind; [apply hoare_load | ].
  intros [ | | | | df | | ]; try apply hoare_wrong_type.
  intros h HP. exact HP.
Qed.

Lemma hoare_load_edges : forall (P : heap -> Prop) l,
  hoare P (load_edges l) (fun _ h => P h) P.
Proof.
  intros P l. unfold load_edges. eapply hoare_bind; [apply hoare_load | ].
  intros [ | | | | | df | ]; try apply hoare_wrong_type.
  intros h HP. exact HP.
Qed.

Lemma hoare_load_graph : forall (P : heap -> Prop) l,
  hoare P (load_graph l) (fun _ h => P h) P.
Proof.
  intros P l. unfold load_graph. eapply hoare_bind; [apply hoare_load | ].
  intros [ | | | | | | g]; try apply hoare_wrong_type.
  intros h HP. exact HP.
Qed.

Lemma hoare_load_opt_edges : forall (P : heap -> Prop) l,
  hoare P (load_opt_edges l) (fun _ h => P h) P.
Proof.
  intros P [l | ]; unfold load_opt_edges.
  - eapply hoare_bind; [apply hoare_load_edges | ]. intros df h HP. exact HP.
  - intros h HP. exact HP.
Qed.

Lemma hoare_load_matrices : forall (P : heap -> Prop) ls,
  hoare P (mapM_h load_matrix ls) (fun _ h => P h) P.
Proof.
  intros P ls.
  eapply hoare_conseq with (P' := P) (Q' := fun ys h => P h /\ Forall (fun _ => True) ys).
  - apply hoare_mapM. intros l _. eapply hoare_conseq; [apply hoare_load_matrix | | ].
    + intros h HP. exact HP.
    + intros m h HP. split; [exact HP | exact I].
  - intros h HP. exact HP.
  - intros ys h [HP _]. exact HP.
Qed.

(** Reusable postcondition: the store keeps [h0], and the result is a
    reference to a [Graph] instance allocated after [h0]. *)
Definition new_graph_after (h0 : heap) (g' : loc) (h : heap) : Prop :=
  keeps h0 h /\ length h0 <= g' /\ exists go, nth_error h g' = Some (OGraph go).

Lemma hoare_Graph_new : forall h0 adjs chs nodelist edgelist,
  hoare (keeps h0) (Graph_new adjs chs nodelist edgelist) (new_graph_after h0) (keeps h0).
Proof.
  intros h0 adjs chs nodelist edgelist. unfold Graph_new.
  eapply hoare_bind; [apply hoare_load_matrices | ]. intros ms. cbn beta.
  eapply hoare_bind; [apply hoare_load_nodes | ]. intros df. cbn beta.
  eapply hoare_bind; [apply hoare_load_opt_edges | ]. intros el. cbn beta.
  eapply hoare_bind; [apply hoare_lift | ]. intros [n k cs ms' dict nl ns el']. cbn beta iota.
  eapply hoare_bind; [apply hoare_alloc | ]. intros o_chs. cbn beta.
  eapply hoare_bind.
  { eapply hoare_conseq; [apply hoare_alloc | | intros a h H; exact H]. intros h H. apply H. }
  intros o_as. cbn beta.
  eapply hoare_bind.
  { eapply hoare_conseq; [apply hoare_alloc | | intros a h H; exact H]. intros h H. apply H. }
  intros o_dict. cbn beta.
  eapply hoare_bind.
  { eapply hoare_conseq; [apply hoare_alloc | | intros a h H; exact H]. intros h H. apply H. }
  intros o_ns. cbn beta.
  eapply hoare_conseq; [apply hoare_alloc | | ].
  - intros h H. apply H.
  - intros g' h (K & L & N). split; [exact K | ]. split; [exact L | ]. eexists. exact N.
Qed.

Lemma hoare_alloc_fresh : forall h0 o,
  hoare (keeps h0) (alloc o) (fun l h => keeps h0 h /\ length h0 <= l) (keeps h0).
Proof.
  intros h0 o. eapply hoare_conseq; [apply hoare_alloc | | ].
  - intros h H. exact H.
  - intros l h (K & L & _). split; assumption.
Qed.

(** The edgelist of a subgraph is a new frame; the old one is only read. *)
Lemma hoare_new_edgelist : forall h0 (oel : option loc) (keep : edge_row -> bool),
  hoare (keeps h0)
        (match oel with
         | Some el =>
             mbind (load_edges el) (fun df =>
             mbind (alloc (OEdges (filter keep df))) (fun l => mret (Some l)))
         | None => mret None
         end)
        (fun _ h => keeps h0 h) (keeps h0).
Proof.
  intros h0 [el | ] keep.
  - eapply hoare_bind; [apply hoare_load_edges | ]. intros df. cbn beta.
    eapply hoare_bind; [apply hoare_alloc_fresh | ]. intros l. cbn beta.
    intros h [K _]. exact K.
  - intros h K. exact K.
Qed.

Lemma hoare_loopless_subgraph : forall h0 self,
  hoare (keeps h0) (loopless_subgraph self) (new_graph_after h0) (keeps h0).
Proof.
  intros h0 self. unfold loopless_subgraph.
  eapply hoare_bind; [apply hoare_load_graph | ]. intros g. cbn beta.
  eapply hoare_bind; [apply hoare_load_adjs | ]. intros self_adjs. cbn beta.
  eapply hoare_bind.
  { apply hoare_mapM with (phi := fun l => length h0 <= l). intros l _.
    eapply hoare_bind; [apply hoare_load_matrix | ]. intros m. apply hoare_alloc_fresh. }
  intros adjs. cbn beta. apply hoare_pure. intros Hfresh.
  eapply hoare_bind.
  { apply hoare_mapM with (phi := fun _ : unit => True). intros l Hl.
    rewrite Forall_forall in Hfresh.
    eapply hoare_bind; [apply hoare_load_matrix | ]. intros m.
    eapply hoare_conseq; [apply (hoare_store _ (Hfresh l Hl)) | | ].
    - intros h K. exact K.
    - intros u h K. split; [exact K | exact I]. }
  intros zeroed. cbn beta. apply hoare_pure. intros _.
  eapply hoare_bind; [apply hoare_new_edgelist | ]. intros edgelist. cbn beta.
  eapply hoare_bind; [apply hoare_load_channels | ]. intros self_channels. cbn beta.
  apply hoare_Graph_new.
Qed.

Lemma hoare_node_subgraph : forall h0 self node_idxs,
  hoare (keeps h0) (node_subgraph self node_idxs) (new_graph_after h0) (keeps h0).
Proof.
  intros h0 self node_idxs. unfold node_subgraph.
  eapply hoare_bind; [apply hoare_load_graph | ]. intros g. cbn beta.
  eapply hoare_bind; [apply hoare_load_adjs | ]. intros self_adjs. cbn beta.
  eapply hoare_bind.
  { apply hoare_mapM with (phi := fun l => length h0 <= l). intros l _.
    eapply hoare_bind; [apply hoare_load_matrix | ]. intros m. cbn beta.
    eapply hoare_bind; [apply hoare_lift | ]. intros sub. apply hoare_alloc_fresh. }
  intros adjs. cbn beta. apply hoare_pure. intros _.
  eapply hoare_bind; [apply hoare_load_nodes | ]. intros self_nodelist. cbn beta.
  eapply hoare_bind; [apply hoare_lift | ]. intros rows. cbn beta.
  eapply hoare_bind; [apply hoare_alloc_fresh | ]. intros nodelist. cbn beta zeta.
  apply hoare_pure. intros _.
  eapply hoare_bind; [apply hoare_new_edgelist | ]. intros edgelist. cbn beta.
  eapply hoare_bind; [apply hoare_load_channels | ]. intros self_channels. cbn beta.
  apply hoare_Graph_new.
Qed.

Lemma hoare_channel_subgraph : forall h0 self chs,
  hoare (keeps h0) (channel_subgraph self chs) (new_graph_after h0) (keeps h0).
Proof.
  intros h0 self chs. unfold channel_subgraph.
  eapply hoare_bind; [apply hoare_load_graph | ]. intros g. cbn beta.
  eapply hoare_bind; [apply hoare_load_adjs | ]. intros self_adjs. cbn beta.
  eapply hoare_bind; [apply hoare_load_channels | ]. intros self_channels. cbn beta.
  eapply hoare_bind; [apply hoare_lift | ]. intros adjs. cbn beta.
  eapply hoare_bind; [apply hoare_new_edgelist | ]. intros edgelist. cbn beta.
  apply hoare_Graph_new.
Qed.

(** Computations that only read: they return the store they got, and a
    value read from [h] is read again from any store that keeps [h]. *)
Definition reader {A : Type} (c : M A) : Prop :=
  forall h, fst (c h) = h /\ forall ext a, snd (c h) = inr a -> snd (c (h ++ ext)) = inr a.

Lemma reader_ret : forall (A : Type) (a : A), reader (mret a).
Proof. intros A a h. split; [reflexivity | intros ext b H; exact H]. Qed.

Lemma reader_wrong_type : forall (A : Type), reader (@wrong_type A).
Proof. intros A h. split; [reflexivity | intros ext b H; discriminate]. Qed.

Lemma reader_bind : forall (A B : Type) (c : M A) (k : A -> M B),
  reader c -> (forall a, reader (k a)) -> reader (mbind c k).
Proof.
  intros A B c k Hc Hk h. unfold mbind.
  destruct (Hc h) as [F S]. destruct (c h) as [h1 [e | a]] eqn:Ec; cbn [fst snd] in *; subst h1.
  - split; [reflexivity | intros ext b H; discriminate].
  - destruct (Hk a h) as [F' S']. split; [exact F' | ].
    intros ext b H. specialize (S ext a eq_refl).
    destruct (Hc (h ++ ext)) as [F2 _].
    destruct (c (h ++ ext)) as [h2 r2]. cbn [fst snd] in *. subst h2 r2.
    apply S'. exact H.
Qed.

Lemma reader_load : forall l, reader (load l).
Proof.
  intros l h. unfold load. split.
  - destruct (nth_error h l); reflexivity.
  - intros ext o H. destruct (nth_error h l) as [o' | ] eqn:E; [ | discriminate].
    rewrite nth_error_app1 by (apply nth_error_Some; congruence).
    rewrite E. exact H.
Qed.

Lemma reader_mapM : forall (A B : Type) (f : A -> M B) (xs : list A),
  (forall x, reader (f x)) -> reader (mapM_h f xs).
Proof.
  induction xs as [ | x xs IH]; intros Hf; cbn [mapM_h].
  - apply reader_ret.
  - apply reader_bind; [apply Hf | ]. intros y.
    apply reader_bind; [apply IH; exact Hf | ]. intros ys. apply reader_ret.
Qed.

Lemma reader_read_graph : forall self, reader (read_graph self).
Proof.
  intros self. unfold read_graph, load_graph, load_adjs, load_channels, load_nodes.
  apply reader_bind; [apply reader_bind; [apply reader_load | ] | ].
  { intros [ | | | | | | g]; try apply reader_wrong_type. apply reader_ret. }
  intros g. apply reader_bind; [apply reader_bind; [apply reader_load | ] | ].
  { intros [ | | ls | | | | ]; try apply reader_wrong_type. apply reader_ret. }
  intros ls. apply reader_bind.
  { apply reader_mapM. intros l. unfold load_matrix.
    apply reader_bind; [apply reader_load | ].
    intros [m | | | | | | ]; try apply reader_wrong_type. apply reader_ret. }
  intros ms. apply reader_bind; [apply reader_bind; [apply reader_load | ] | ].
  { intros [ | c | | | | | ]; try apply reader_wrong_type. apply reader_ret. }
  intros chs. apply reader_bind; [apply reader_bind; [apply reader_load | ] | ].
  { intros [ | | | | df | | ]; try apply reader_wrong_type. apply reader_ret. }
  intros df. apply reader_ret.
Qed.

Lemma graph_view_keeps : forall h0 h self v,
  keeps h0 h -> graph_view h0 self = Some v -> graph_view h self = Some v.
Proof.
  intros h0 h self v [ext E] H. subst h. unfold graph_view in *.
  destruct (reader_read_graph self h0) as [_ S].
  destruct (snd (read_graph self h0)) as [e | v0] eqn:R; [discriminate | ].
  rewrite (S ext v0 eq_refl). exact H.
Qed.

(** C9: each of [loopless_subgraph], [node_subgraph] and
    [channel_subgraph], run on any store in which [self] is a graph,
    leaves the adjacency matrices, the channel list and the node list of
    [self] with the entries they had, also when it raises; what it returns
    is a reference to a [Graph] instance that the store did not hold
    before. *)
Theorem subgraphs_leave_original_unchanged :
  forall (h : heap) (self : loc) v,
    graph_view h self = Some v ->
    forall (method : M loc),
      method = loopless_subgraph self
      \/ (exists node_idxs, method = node_subgraph self node_idxs)
      \/ (exists chs, method = channel_subgraph self chs) ->
      graph_view (fst (method h)) self = Some v
      /\ forall g', snd (method h) = ret g' ->
           length h <= g' /\ g' <> self
           /\ exists go, nth_error (fst (method h)) g' = Some (OGraph go).
Proof.
  intros h self v Hv method Hm.
  assert (T : hoare (keeps h) method (new_graph_after h) (keeps h)).
  { destruct Hm as [E | [[idx E] | [chs E]]]; subst method.
    - apply hoare_loopless_subgraph.
    - apply hoare_node_subgraph.
    - apply hoare_channel_subgraph. }
  specialize (T h (keeps_refl h)).
  assert (Hself : self < length h).
  { unfold graph_view, read_graph, load_graph, load, mbind in Hv.
    apply nth_error_Some. destruct (nth_error h self); [discriminate | ].
    cbn in Hv. discriminate. }
  destruct (method h) as [h' [e | g']]; cbn [fst snd].
  - split; [apply (graph_view_keeps _ T Hv) | intros g' H; discriminate].
  - destruct T as (K & L & G). split; [apply (graph_view_keeps _ K Hv) | ].
    intros g'' H. inversion H; subst g''. split; [exact L | ]. split; [lia | exact G].
Qed.

Lemma subgraphs_leave_original_unchanged_witness :
  graph_view sample_heap 8
  = Some ([loopy_adj; loopy_adj], ["c1"; "c2"], [LStr "a"; LStr "b"])
  /\ graph_view (fst (loopless_subgraph 8 sample_heap)) 8
     = Some ([loopy_adj; loopy_adj], ["c1"; "c2"], [LStr "a"; LStr "b"])
  /\ forall g', snd (loopless_subgraph 8 sample_heap) = ret g' ->
        length sample_heap <= g' /\ g' <> 8
        /\ exists go, nth_error (fst (loopless_subgraph 8 sample_heap)) g' = Some (OGraph go).
Proof.
  split; [reflexivity | ].
  apply (@subgraphs_leave_original_unchanged sample_heap 8
           ([loopy_adj; loopy_adj], ["c1"; "c2"], [LStr "a"; LStr "b"]) eq_refl
           (loopless_subgraph 8)).
  left. reflexivity.
Defined.

(** On the sample store the three methods return, and the loop-free copy
    has its diagonals zeroed while the original matrices keep theirs. *)
Lemma subgraphs_on_sample_heap :
  snd (loopless_subgraph 8 sample_heap) = ret 16
  /\ snd (node_subgraph 8 [1%Z] sample_heap) = ret 17
  /\ snd (channel_subgraph 8 ["c2"] sample_heap) = ret 14
  /\ graph_view (fst (loopless_subgraph 8 sample_heap)) 16
     = Some ([of_counts [[0; 1]; [0; 0]]%Z; of_counts [[0; 1]; [0; 0]]%Z],
             ["c1"; "c2"], [LStr "a"; LStr "b"]).
Proof. repeat split. Qed.

(** ** The constrained assignment cost *)

(** *** Costs that are finite or [+inf] *)

Lemma tadd_comm : forall a b, tadd a b = tadd b a.
Proof. intros [x | | | ] [y | | | ]; cbn; try reflexivity. f_equal. lia. Qed.

Lemma tadd_assoc : forall a b c, tadd a (tadd b c) = tadd (tadd a b) c.
Proof.
  intros [x | | | ] [y | | | ] [z | | | ]; cbn; try reflexivity. f_equal. lia.
Qed.

Lemma tadd_valid : forall a b,
  valid_entry a = true -> valid_entry b = true -> valid_entry (tadd a b) = true.
Proof. intros [x | | | ] [y | | | ]; cbn; congruence. Qed.

Lemma total_valid : forall l,
  Forall (fun c => valid_entry c = true) l -> valid_entry (total l) = true.
Proof.
  induction 1 as [ | c l Hc _ IH]; cbn; [reflexivity | ].
  apply tadd_valid; assumption.
Qed.

(** *** Sums that do not round *)

Lemma round_double_small : forall z,
  (Z.abs z <= 9007199254740992)%Z -> round_double z = Fin z.
Proof.
  intros z H. unfold round_double.
  rewrite (proj2 (Z.leb_le _ _) H). reflexivity.
Qed.

Lemma cadd_exact : forall B1 B2 a b,
  within B1 a -> within B2 b -> (B1 + B2 <= 9007199254740992)%Z ->
  cadd a b = tadd a b.
Proof.
  intros B1 B2 [x | | | ] [y | | | ] Ha Hb H; try reflexivity.
  cbn [within] in Ha, Hb. cbn [cadd tadd]. apply round_double_small. lia.
Qed.

Lemma tadd_within : forall B1 B2 a b,
  within B1 a -> within B2 b -> within (B1 + B2) (tadd a b).
Proof.
  intros B1 B2 [x | | | ] [y | | | ] Ha Hb; cbn [tadd within]; try exact I.
  cbn [within] in Ha, Hb. lia.
Qed.

Lemma cneg_within : forall B a, within B a -> within B (cneg a).
Proof. intros B [x | | | ] H; cbn [cneg within] in *; try exact I. lia. Qed.

Lemma within_mono : forall B B' a, (B <= B')%Z -> within B a -> within B' a.
Proof. intros B B' [x | | | ] H Ha; cbn [within] in *; try exact I. lia. Qed.

Lemma tadd_zero_l : forall a, tadd (Fin 0) a = a.
Proof. intros [x | | | ]; reflexivity. Qed.

Lemma total_within : forall B l,
  (0 <= B)%Z -> Forall (within B) l -> within (Z.of_nat (length l) * B) (total l).
Proof.
  intros B l HB F. induction F as [ | c l Hc _ IH].
  - cbn. lia.
  - change (total (c :: l)) with (tadd c (total l)).
    replace (Z.of_nat (length (c :: l)) * B)%Z with (B + Z.of_nat (length l) * B)%Z
      by (cbn [length]; lia).
    apply tadd_within; assumption.
Qed.

Lemma fold_left_tadd : forall l acc, fold_left tadd l acc = tadd acc (total l).
Proof.
  induction l as [ | c l IH]; intros acc; cbn [fold_left].
  - destruct acc; cbn; try reflexivity. f_equal. lia.
  - rewrite IH. change (total (c :: l)) with (tadd c (total l)). apply eq_sym, tadd_assoc.
Qed.

Lemma fold_left_cadd_exact : forall B l A acc,
  (0 <= B)%Z -> Forall (within B) l -> within A acc ->
  (A + Z.of_nat (length l) * B <= 9007199254740992)%Z ->
  fold_left cadd l acc = fold_left tadd l acc.
Proof.
  intros B l. induction l as [ | c l IH]; intros A acc HB F Ha H; [reflexivity | ].
  inversion F as [ | ? ? Hc Fl]; subst. cbn [fold_left length] in *.
  assert (Hl : (0 <= Z.of_nat (length l) * B)%Z) by (apply Z.mul_nonneg_nonneg; lia).
  rewrite (cadd_exact A B acc c Ha Hc) by lia.
  apply (IH (A + B)%Z); [exact HB | exact Fl | apply tadd_within; assumption | lia].
Qed.

(** [arr.sum()] is the exact total when the entries are small enough. *)
Lemma csum_exact : forall B l,
  (0 <= B)%Z -> Forall (within B) l ->
  (Z.of_nat (length l) * B <= 9007199254740992)%Z ->
  csum l = total l.
Proof.
  intros B l HB F H. unfold csum.
  rewrite (@fold_left_cadd_exact B l 0%Z (Fin 0) HB F) by (cbn [within]; lia).
  rewrite fold_left_tadd. apply tadd_zero_l.
Qed.

Lemma cle_add_mono : forall a b c,
  valid_entry a = true -> valid_entry b = true -> valid_entry c = true ->
  cle a b = true -> cle (tadd c a) (tadd c b) = true.
Proof.
  intros [x | | | ] [y | | | ] [z | | | ]; unfold cle; cbn; try congruence.
  intros _ _ _ H.
  destruct (Z.ltb_spec x y) as [L | L]; cbn in H.
  - destruct (Z.ltb_spec (z + x) (z + y)); [reflexivity | lia].
  - destruct (Z.eqb_spec x y) as [E | E]; cbn in H; [ | discriminate].
    subst. rewrite Z.eqb_refl. destruct (z + y <? z + y)%Z; reflexivity.
Qed.

Lemma clt_false_cle : forall a b,
  valid_entry a = true -> valid_entry b = true -> clt a b = false -> cle b a = true.
Proof.
  intros [x | | | ] [y | | | ]; unfold cle; cbn; try congruence.
  intros _ _ H. apply Z.ltb_ge in H.
  destruct (Z.ltb_spec y x) as [L | L]; [reflexivity | ].
  cbn. replace y with x by lia. rewrite Z.eqb_refl. reflexivity.
Qed.

Lemma cle_trans : forall a b c,
  valid_entry a = true -> valid_entry b = true -> valid_entry c = true ->
  cle a b = true -> cle b c = true -> cle a c = true.
Proof.
  intros [x | | | ] [y | | | ] [z | | | ]; unfold cle; cbn; try congruence.
  intros _ _ _ H1 H2.
  assert (L1 : (x <= y)%Z).
  { destruct (Z.ltb_spec x y); [lia | ]. cbn in H1.
    destruct (Z.eqb_spec x y); [lia | discriminate]. }
  assert (L2 : (y <= z)%Z).
  { destruct (Z.ltb_spec y z); [lia | ]. cbn in H2.
    destruct (Z.eqb_spec y z); [lia | discriminate]. }
  destruct (Z.ltb_spec x z); [reflexivity | ]. cbn.
  replace z with x by lia. rewrite Z.eqb_refl. reflexivity.
Qed.

Lemma cle_PInf_r : forall a, valid_entry a = true -> cle a PInf = true.
Proof. intros [x | | | ]; cbn; congruence. Qed.

(** *** The matrix without one row and one column *)

Lemma mask_select_invert_one_hot : forall (A : Type) (i : nat) (l : list A) s,
  mask_select (invert (map (Nat.eqb i) (seq s (length l)))) l
  = if i <? s then l else drop_at (i - s) l.
Proof.
  intros A i. induction l as [ | x l IH]; intros s; cbn [length seq map invert mask_select].
  - destruct (i <? s); [reflexivity | ]. unfold drop_at.
    rewrite firstn_nil, skipn_nil. reflexivity.
  - fold (invert (map (Nat.eqb i) (seq (S s) (length l)))). rewrite IH.
    destruct (Nat.eqb_spec i s) as [E | E]; cbn [negb].
    + subst. rewrite (proj2 (Nat.ltb_lt s (S s))) by lia.
      rewrite Nat.ltb_irrefl, Nat.sub_diag. reflexivity.
    + destruct (Nat.ltb_spec i s) as [L | L].
      * rewrite (proj2 (Nat.ltb_lt i (S s))) by lia. reflexivity.
      * rewrite (proj2 (Nat.ltb_ge i (S s))) by lia.
        replace (i - s) with (S (i - S s)) by lia. reflexivity.
Qed.

Lemma nth_drop_at : forall (A : Type) (d : A) (l : list A) p k,
  nth k (drop_at p l) d = nth (if k <? p then k else S k) l d.
Proof.
  intros A d. induction l as [ | x l IH]; intros p k.
  - unfold drop_at. rewrite firstn_nil, skipn_nil. cbn [app].
    destruct (k <? p); destruct k; reflexivity.
  - destruct p as [ | p]; [reflexivity | ].
    change (drop_at (S p) (x :: l)) with (x :: drop_at p l).
    destruct k as [ | k]; [reflexivity | ].
    cbn [nth]. rewrite IH. change (S k <? S p) with (k <? p).
    destruct (k <? p); reflexivity.
Qed.

Lemma length_drop_at : forall (A : Type) (l : list A) p,
  p < length l -> length (drop_at p l) = length l - 1.
Proof.
  intros A l p H. unfold drop_at.
  rewrite length_app, length_firstn, length_skipn. lia.
Qed.

Lemma In_drop_at : forall (A : Type) (l : list A) p x, In x (drop_at p l) -> In x l.
Proof.
  intros A. induction l as [ | y l IH]; intros p x H.
  - unfold drop_at in H. rewrite firstn_nil, skipn_nil in H. exact H.
  - destruct p as [ | p]; [right; exact H | ].
    change (drop_at (S p) (y :: l)) with (y :: drop_at p l) in H.
    destruct H as [H | H]; [left; exact H | right; exact (IH p x H)].
Qed.

Lemma length_mask_select : forall (A : Type) (mask : list bool) (l : list A),
  length mask = length l -> length (mask_select mask l) = count_true mask.
Proof.
  intros A. induction mask as [ | b mask IH]; intros [ | x l] H; cbn in H; try discriminate.
  - reflexivity.
  - unfold count_true in *. cbn [mask_select filter].
    destruct b; cbn [length]; rewrite IH by lia; reflexivity.
Qed.

Lemma count_true_invert_one_hot : forall i n,
  i < n -> count_true (invert (map (Nat.eqb i) (seq 0 n))) = n - 1.
Proof.
  intros i n H.
  rewrite <- (length_mask_select _ (seq 0 n))
    by (unfold invert; rewrite !length_map; reflexivity).
  pose proof (mask_select_invert_one_hot i (seq 0 n) 0) as E.
  rewrite length_seq, Nat.sub_0_r in E. cbn [Nat.ltb Nat.leb] in E. rewrite E.
  rewrite length_drop_at; rewrite length_seq; [reflexivity | exact H].
Qed.

Lemma constraint_submatrix_eq : forall i j costs,
  wf_ndarray costs -> i < nrows costs -> j < ncols costs ->
  constraint_submatrix i j costs = ret (without_row_col i j costs).
Proof.
  intros i j costs [Hr Hc] Hi Hj. unfold constraint_submatrix, one_hot.
  rewrite (proj2 (Nat.ltb_lt _ _) Hi). cbn [bind ret].
  unfold rows_by_mask, invert. rewrite !length_map, length_seq, Nat.eqb_refl.
  cbn [bind ret nrows ncols data].
  rewrite (proj2 (Nat.ltb_lt _ _) Hj). cbn [bind ret].
  unfold cols_by_mask. cbn [nrows ncols data].
  rewrite !length_map, length_seq, Nat.eqb_refl.
  fold (invert (map (Nat.eqb i) (seq 0 (nrows costs)))).
  fold (invert (map (Nat.eqb j) (seq 0 (ncols costs)))).
  rewrite !count_true_invert_one_hot by assumption.
  unfold without_row_col, mk_ndarray, ret.
  rewrite <- Hr, mask_select_invert_one_hot. cbn [Nat.ltb Nat.leb]. rewrite Nat.sub_0_r.
  apply f_equal. apply f_equal. apply map_ext_in. intros r Hin.
  apply In_drop_at in Hin. rewrite Forall_forall in Hc.
  rewrite <- (Hc r Hin), mask_select_invert_one_hot. cbn [Nat.ltb Nat.leb].
  rewrite Nat.sub_0_r. reflexivity.
Qed.

Lemma drop_at_nil : forall (A : Type) k, drop_at k (@nil A) = [].
Proof. intros A k. unfold drop_at. rewrite firstn_nil, skipn_nil. reflexivity. Qed.

Lemma nth_map_fix : forall (A B : Type) (f : A -> B) d d' (l : list A) k,
  f d' = d -> nth k (map f l) d = f (nth k l d').
Proof.
  intros A B f d d' l. induction l as [ | x l IH]; intros k H.
  - destruct k; cbn; congruence.
  - destruct k; cbn; [reflexivity | apply IH; exact H].
Qed.

Lemma to_nat_shift_up : forall k x,
  (0 <= x)%Z ->
  Z.to_nat (shift_up k x) = if Z.to_nat x <? k then Z.to_nat x else S (Z.to_nat x).
Proof.
  intros k x H. unfold shift_up.
  destruct (Z.ltb_spec x (Z.of_nat k)) as [L | L].
  - rewrite (proj2 (Nat.ltb_lt _ _)) by lia. reflexivity.
  - rewrite (proj2 (Nat.ltb_ge _ _)) by lia. lia.
Qed.

Lemma cell_without_row_col : forall i j costs r c,
  (0 <= r)%Z -> (0 <= c)%Z ->
  cell (without_row_col i j costs) r c = cell costs (shift_up i r) (shift_up j c).
Proof.
  intros i j costs r c Hr Hc. unfold cell, without_row_col. cbn [data mk_ndarray].
  rewrite (@nth_map_fix _ _ (drop_at j) [] [] _ _ (drop_at_nil cost j)).
  rewrite !nth_drop_at, !to_nat_shift_up by assumption. reflexivity.
Qed.

Lemma without_row_col_wf : forall i j costs,
  wf_ndarray costs -> i < nrows costs -> j < ncols costs ->
  wf_ndarray (without_row_col i j costs).
Proof.
  intros i j costs [Hr Hc] Hi Hj. split; cbn [without_row_col mk_ndarray nrows ncols data].
  - rewrite length_map, length_drop_at; lia.
  - apply Forall_forall. intros r Hin. apply in_map_iff in Hin.
    destruct Hin as [r0 [E Hin]]. subst r. apply In_drop_at in Hin.
    rewrite Forall_forall in Hc. rewrite length_drop_at; rewrite (Hc r0 Hin); lia.
Qed.

Lemma without_row_col_valid : forall i j costs,
  valid_costs costs = true -> valid_costs (without_row_col i j costs) = true.
Proof.
  intros i j costs H. unfold valid_costs in *. cbn [without_row_col mk_ndarray data].
  rewrite forallb_forall in *. intros r Hin. apply in_map_iff in Hin.
  destruct Hin as [r0 [E Hin]]. subst r. apply In_drop_at in Hin.
  specialize (H r0 Hin). rewrite forallb_forall in *.
  intros x Hx. apply H. eapply In_drop_at. exact Hx.
Qed.

Lemma cell_valid : forall (a : ndarray) r c,
  wf_ndarray a -> valid_costs a = true ->
  in_range (nrows a) r -> in_range (ncols a) c -> valid_entry (cell a r c) = true.
Proof.
  intros a r c W V Hr Hc. pose proof (row_length (Z.to_nat r) W) as L.
  destruct W as [Wr Wc]. unfold in_range in *.
  rewrite (proj2 (Nat.ltb_lt _ _)) in L by lia.
  unfold valid_costs in V. rewrite forallb_forall in V.
  assert (Hin : In (nth (Z.to_nat r) (data a) []) (data a)) by (apply nth_In; lia).
  specialize (V _ Hin). rewrite forallb_forall in V. apply V.
  unfold cell. apply nth_In. lia.
Qed.

Lemma norm_index_in_range : forall n k, in_range n k -> norm_index n k = ret (Z.to_nat k).
Proof.
  intros n k [H0 H1]. unfold norm_index.
  rewrite (proj2 (Z.leb_le _ _) H0), (proj2 (Z.ltb_lt _ _) H1). reflexivity.
Qed.

Lemma get2_cell : forall (a : ndarray) r c,
  wf_ndarray a -> in_range (nrows a) r -> in_range (ncols a) c ->
  get2 a r c = ret (cell a r c).
Proof.
  intros a r c W Hr Hc. pose proof (row_length (Z.to_nat r) W) as L.
  destruct W as [Wr Wc]. unfold get2.
  rewrite (norm_index_in_range Hr), (norm_index_in_range Hc). cbn [bind ret].
  unfold in_range in *. rewrite (proj2 (Nat.ltb_lt _ _)) in L by lia.
  rewrite (nth_error_nth' (data a) []) by lia.
  rewrite (nth_error_nth' _ NaN) by lia. reflexivity.
Qed.

Lemma mapM_get2_cells : forall (a : ndarray) (ps : list (Z * Z)),
  wf_ndarray a ->
  Forall (in_range (nrows a)) (map fst ps) -> Forall (in_range (ncols a)) (map snd ps) ->
  mapM (fun '(r, c) => get2 a r c) ps = ret (map (fun rc => cell a (fst rc) (snd rc)) ps).
Proof.
  intros a ps W. induction ps as [ | [r c] ps IH]; intros Hr Hc; cbn [mapM map].
  - reflexivity.
  - cbn [map fst snd] in Hr, Hc.
    rewrite get2_cell
      by first [assumption | exact (Forall_inv Hr) | exact (Forall_inv Hc)].
    cbn [bind ret]. rewrite IH by (eapply Forall_inv_tail; eassumption). reflexivity.
Qed.

Lemma combine_fst : forall (A B : Type) (l : list A) (l' : list B),
  length l = length l' -> map fst (combine l l') = l.
Proof.
  intros A B. induction l as [ | x l IH]; intros [ | y l'] H; cbn in *; try discriminate.
  - reflexivity.
  - f_equal. apply IH. lia.
Qed.

Lemma combine_snd : forall (A B : Type) (l : list A) (l' : list B),
  length l = length l' -> map snd (combine l l') = l'.
Proof.
  intros A B. induction l as [ | x l IH]; intros [ | y l'] H; cbn in *; try discriminate.
  - reflexivity.
  - f_equal. apply IH. lia.
Qed.

Lemma combine_fst_snd : forall (A B : Type) (ps : list (A * B)),
  combine (map fst ps) (map snd ps) = ps.
Proof. induction ps as [ | [x y] ps IH]; cbn; congruence. Qed.

Lemma fancy_get_assignment : forall (a : ndarray) rs cs,
  wf_ndarray a -> is_assignment a rs cs ->
  fancy_get a rs cs = ret (map (fun rc => cell a (fst rc) (snd rc)) (combine rs cs)).
Proof.
  intros a rs cs W H. destruct H as [_ Hl _ Hr _ Hc].
  unfold fancy_get, broadcast2. rewrite <- Hl, Nat.eqb_refl. cbn [bind ret].
  apply mapM_get2_cells; [exact W | | ].
  - rewrite combine_fst by congruence. exact Hr.
  - rewrite combine_snd by congruence. exact Hc.
Qed.

Lemma is_assignment_matching : forall (a : ndarray) rs cs,
  is_assignment a rs cs
  <-> length rs = Nat.min (nrows a) (ncols a) /\ length cs = length rs
      /\ matching (nrows a) (ncols a) (combine rs cs).
Proof.
  intros a rs cs. unfold matching. split.
  - intros [H1 H2 H3 H4 H5 H6]. rewrite combine_fst, combine_snd by congruence. tauto.
  - intros (H1 & H2 & H). rewrite combine_fst, combine_snd in H by congruence.
    destruct H as (H3 & H4 & H5 & H6). constructor; assumption.
Qed.

Lemma matching_is_assignment : forall (a : ndarray) ps,
  matching (nrows a) (ncols a) ps -> length ps = Nat.min (nrows a) (ncols a) ->
  is_assignment a (map fst ps) (map snd ps).
Proof.
  intros a ps H L. apply is_assignment_matching.
  rewrite !length_map, combine_fst_snd. tauto.
Qed.

(** *** Moving assignments between the matrix and its submatrix *)

Lemma insert_pair_perm : forall p ps, Permutation (insert_pair p ps) (p :: ps).
Proof.
  intros p. induction ps as [ | q t IH]; cbn [insert_pair]; [reflexivity | ].
  destruct (fst p <? fst q)%Z; [reflexivity | ].
  eapply perm_trans; [apply perm_skip; exact IH | apply perm_swap].
Qed.

Lemma insert_pair_sorted : forall p ps,
  StronglySorted Z.lt (map fst ps) -> ~ In (fst p) (map fst ps) ->
  StronglySorted Z.lt (map fst (insert_pair p ps)).
Proof.
  intros p. induction ps as [ | q t IH]; intros S N; cbn [insert_pair map].
  - constructor; constructor.
  - cbn [map] in S, N. apply StronglySorted_inv in S. destruct S as [S F].
    destruct (Z.ltb_spec (fst p) (fst q)) as [L | L]; cbn [map].
    + constructor; [constructor; assumption | ].
      constructor; [exact L | ]. eapply Forall_impl; [ | exact F]. intros x Hx. lia.
    + constructor.
      * apply IH; [exact S | ]. intros H. apply N. right. exact H.
      * eapply Permutation_Forall.
        { apply Permutation_sym. apply Permutation_map. apply insert_pair_perm. }
        cbn [map]. constructor; [ | exact F].
        assert (fst p <> fst q) by (intros E; apply N; left; symmetry; exact E). lia.
Qed.

Lemma StronglySorted_map_mono : forall (f : Z -> Z) l,
  (forall x y, In x l -> In y l -> (x < y)%Z -> (f x < f y)%Z) ->
  StronglySorted Z.lt l -> StronglySorted Z.lt (map f l).
Proof.
  intros f. induction l as [ | x l IH]; intros Hf S; cbn [map]; [constructor | ].
  apply StronglySorted_inv in S. destruct S as [S F]. constructor.
  - apply IH; [ | exact S]. intros a b Ha Hb. apply Hf; right; assumption.
  - apply Forall_map. rewrite Forall_forall in *. intros y Hy.
    apply Hf; [left; reflexivity | right; exact Hy | exact (F y Hy)].
Qed.

Lemma StronglySorted_fst_filter : forall (P : Z * Z -> bool) ps,
  StronglySorted Z.lt (map fst ps) -> StronglySorted Z.lt (map fst (filter P ps)).
Proof.
  intros P. induction ps as [ | q t IH]; intros S; cbn [filter map]; [constructor | ].
  cbn [map] in S. apply StronglySorted_inv in S. destruct S as [S F].
  destruct (P q); cbn [map]; [ | apply IH; exact S].
  constructor; [apply IH; exact S | ].
  rewrite Forall_forall in *. intros x Hx. apply F.
  apply in_map_iff in Hx. destruct Hx as [r [E Hr]]. apply filter_In in Hr.
  apply in_map_iff. exists r. tauto.
Qed.

Lemma StronglySorted_NoDup : forall l, StronglySorted Z.lt l -> NoDup l.
Proof.
  induction l as [ | x l IH]; intros S; [constructor | ].
  apply StronglySorted_inv in S. destruct S as [S F]. constructor; [ | apply IH; exact S].
  intros Hin. rewrite Forall_forall in F. specialize (F x Hin). lia.
Qed.

Lemma NoDup_map_filter : forall (A B : Type) (f : A -> B) (P : A -> bool) l,
  NoDup (map f l) -> NoDup (map f (filter P l)).
Proof.
  intros A B f P. induction l as [ | x l IH]; intros H; cbn [filter map]; [constructor | ].
  cbn [map] in H. inversion H as [ | ? ? Hn Hd]; subst.
  destruct (P x); cbn [map]; [ | apply IH; exact Hd].
  constructor; [ | apply IH; exact Hd].
  intros Hin. apply Hn. apply in_map_iff in Hin. destruct Hin as [y [E Hy]].
  apply filter_In in Hy. apply in_map_iff. exists y. tauto.
Qed.

Lemma NoDup_map_injective_on : forall (A B : Type) (f : A -> B) l p q,
  NoDup (map f l) -> In p l -> In q l -> f p = f q -> p = q.
Proof.
  intros A B f. induction l as [ | x l IH]; intros p q H Hp Hq E; [contradiction | ].
  cbn [map] in H. inversion H as [ | ? ? Hn Hd]; subst.
  destruct Hp as [Hp | Hp], Hq as [Hq | Hq]; subst.
  - reflexivity.
  - exfalso. apply Hn. rewrite E. apply in_map. exact Hq.
  - exfalso. apply Hn. rewrite <- E. apply in_map. exact Hp.
  - apply IH; assumption.
Qed.

Lemma total_perm : forall l l', Permutation l l' -> total l = total l'.
Proof.
  unfold total.
  induction 1 as [ | x l l' _ IH | x y l | l l' l'' _ IH1 _ IH2]; cbn [fold_right].
  - reflexivity.
  - rewrite IH. reflexivity.
  - rewrite !tadd_assoc, (tadd_comm y x). reflexivity.
  - congruence.
Qed.

(** When no addition rounds, the order of the entries does not matter to
    [arr.sum()]. *)
Lemma csum_any_order : forall B l l',
  (0 <= B)%Z -> Forall (within B) l ->
  (Z.of_nat (length l) * B <= 9007199254740992)%Z ->
  Permutation l l' -> csum l = csum l'.
Proof.
  intros B l l' HB F H P.
  rewrite (@csum_exact B l HB F H).
  rewrite (@csum_exact B l' HB).
  - apply total_perm. exact P.
  - eapply Permutation_Forall; eassumption.
  - rewrite <- (Permutation_length P). exact H.
Qed.

Lemma split_off_row : forall (i j : Z) ps,
  NoDup (map fst ps) -> In (i, j) ps ->
  Permutation ps ((i, j) :: filter (fun rc => negb (fst rc =? i)%Z) ps).
Proof.
  intros i j. induction ps as [ | q t IH]; intros N Hin; [contradiction | ].
  cbn [map] in N. inversion N as [ | ? ? Hn Hd]; subst. cbn [filter].
  destruct Hin as [E | Hin].
  - subst q. cbn [fst] in *. rewrite Z.eqb_refl. cbn [negb].
    rewrite forallb_filter_id; [reflexivity | ].
    apply forallb_forall. intros r Hr.
    destruct (Z.eqb_spec (fst r) i) as [E | E]; [ | reflexivity].
    exfalso. apply Hn. rewrite <- E. apply in_map. exact Hr.
  - assert (Hq : fst q <> i).
    { intros E. apply Hn. rewrite E. change i with (fst (i, j)). apply in_map. exact Hin. }
    rewrite (proj2 (Z.eqb_neq _ _) Hq). cbn [negb].
    eapply perm_trans; [apply perm_skip; apply IH; assumption | apply perm_swap].
Qed.

Lemma shift_up_lt : forall k x y, (x < y)%Z -> (shift_up k x < shift_up k y)%Z.
Proof.
  intros k x y H. unfold shift_up.
  destruct (Z.ltb_spec x (Z.of_nat k)), (Z.ltb_spec y (Z.of_nat k)); lia.
Qed.

Lemma shift_up_neq : forall k x, shift_up k x <> Z.of_nat k.
Proof. intros k x. unfold shift_up. destruct (Z.ltb_spec x (Z.of_nat k)); lia. Qed.

Lemma shift_up_range : forall n k x,
  k < n -> in_range (n - 1) x -> in_range n (shift_up k x).
Proof.
  intros n k x Hk [H0 H1]. unfold in_range, shift_up.
  destruct (Z.ltb_spec x (Z.of_nat k)); lia.
Qed.

Lemma shift_down_range : forall n k x,
  k < n -> in_range n x -> x <> Z.of_nat k -> in_range (n - 1) (shift_down k x).
Proof.
  intros n k x Hk [H0 H1] Hne. unfold in_range, shift_down.
  destruct (Z.ltb_spec x (Z.of_nat k)); lia.
Qed.

Lemma shift_up_down : forall k x,
  x <> Z.of_nat k -> shift_up k (shift_down k x) = x.
Proof.
  intros k x H. unfold shift_up, shift_down.
  destruct (Z.ltb_spec x (Z.of_nat k)) as [L | L].
  - rewrite (proj2 (Z.ltb_lt _ _) L). reflexivity.
  - rewrite (proj2 (Z.ltb_ge _ _)) by lia. lia.
Qed.

Lemma lift_pairs_perm : forall i j ps,
  Permutation (lift_pairs i j ps)
    ((Z.of_nat i, Z.of_nat j)
       :: map (fun rc => (shift_up i (fst rc), shift_up j (snd rc))) ps).
Proof. intros i j ps. apply insert_pair_perm. Qed.

Lemma lift_pairs_matching : forall nr nc i j ps,
  i < nr -> j < nc -> matching (nr - 1) (nc - 1) ps ->
  matching nr nc (lift_pairs i j ps).
Proof.
  intros nr nc i j ps Hi Hj (S & Rr & N & Rc).
  pose proof (lift_pairs_perm i j ps) as P.
  assert (Ef : map fst (map (fun rc => (shift_up i (fst rc), shift_up j (snd rc))) ps)
               = map (shift_up i) (map fst ps)).
  { rewrite !map_map. reflexivity. }
  assert (Es : map snd (map (fun rc => (shift_up i (fst rc), shift_up j (snd rc))) ps)
               = map (shift_up j) (map snd ps)).
  { rewrite !map_map. reflexivity. }
  assert (Hrows : Forall (in_range nr) (map (shift_up i) (map fst ps))).
  { apply Forall_map. eapply Forall_impl; [ | exact Rr].
    intros x Hx. apply shift_up_range; assumption. }
  assert (Hcols : Forall (in_range nc) (map (shift_up j) (map snd ps))).
  { apply Forall_map. eapply Forall_impl; [ | exact Rc].
    intros x Hx. apply shift_up_range; assumption. }
  repeat split.
  - unfold lift_pairs. apply insert_pair_sorted.
    + rewrite Ef. apply StronglySorted_map_mono; [ | exact S].
      intros x y _ _. apply shift_up_lt.
    + rewrite Ef. cbn [fst]. intros H. apply in_map_iff in H.
      destruct H as [x [E _]]. exact (shift_up_neq _ _ E).
  - eapply Permutation_Forall.
    { apply Permutation_sym. apply Permutation_map. exact P. }
    cbn [map fst]. rewrite Ef. constructor; [unfold in_range; lia | exact Hrows].
  - eapply Permutation_NoDup.
    { apply Permutation_sym. apply Permutation_map. exact P. }
    cbn [map snd]. rewrite Es. constructor.
    + intros H. apply in_map_iff in H. destruct H as [x [E _]]. exact (shift_up_neq _ _ E).
    + apply NoDup_map_NoDup_ForallPairs; [ | exact N].
      intros x y _ _ E. unfold shift_up in E.
      destruct (Z.ltb_spec x (Z.of_nat j)), (Z.ltb_spec y (Z.of_nat j)); lia.
  - eapply Permutation_Forall.
    { apply Permutation_sym. apply Permutation_map. exact P. }
    cbn [map snd]. rewrite Es. constructor; [unfold in_range; lia | exact Hcols].
Qed.

Lemma lift_pairs_cost : forall costs i j ps,
  Forall (fun rc => (0 <= fst rc)%Z /\ (0 <= snd rc)%Z) ps ->
  pairs_cost costs (lift_pairs i j ps)
  = tadd (cell costs (Z.of_nat i) (Z.of_nat j))
         (pairs_cost (without_row_col i j costs) ps).
Proof.
  intros costs i j ps H. unfold pairs_cost.
  rewrite (total_perm (Permutation_map _ (lift_pairs_perm i j ps))).
  cbn [map fst snd]. unfold total. cbn [fold_right]. f_equal.
  rewrite map_map. f_equal. apply map_ext_in. intros [r c] Hin. cbn [fst snd].
  rewrite Forall_forall in H. destruct (H _ Hin) as [Hr Hc]. cbn [fst snd] in Hr, Hc.
  symmetry. apply cell_without_row_col; assumption.
Qed.

Lemma shift_down_lt : forall k x y,
  x <> Z.of_nat k -> y <> Z.of_nat k -> (x < y)%Z -> (shift_down k x < shift_down k y)%Z.
Proof.
  intros k x y Hx Hy H. unfold shift_down.
  destruct (Z.ltb_spec x (Z.of_nat k)), (Z.ltb_spec y (Z.of_nat k)); lia.
Qed.

Lemma shift_down_inj : forall k x y,
  x <> Z.of_nat k -> y <> Z.of_nat k -> shift_down k x = shift_down k y -> x = y.
Proof.
  intros k x y Hx Hy H. unfold shift_down in H.
  destruct (Z.ltb_spec x (Z.of_nat k)), (Z.ltb_spec y (Z.of_nat k)); lia.
Qed.

(** The pairs of an assignment through [(i, j)] other than [(i, j)] itself
    avoid row [i] and column [j]. *)
Lemma other_pairs : forall nr nc (i j : nat) ps r c,
  matching nr nc ps -> In (Z.of_nat i, Z.of_nat j) ps ->
  In (r, c) (filter (fun rc => negb (fst rc =? Z.of_nat i)%Z) ps) ->
  In (r, c) ps /\ r <> Z.of_nat i /\ c <> Z.of_nat j
  /\ in_range nr r /\ in_range nc c.
Proof.
  intros nr nc i j ps r c (S & Rr & N & Rc) Hij H.
  apply filter_In in H. destruct H as [Hin Hne]. cbn [fst] in Hne.
  apply negb_true_iff, Z.eqb_neq in Hne.
  split; [exact Hin | ]. split; [exact Hne | ]. split; [ | split].
  - intros E. subst c. apply Hne.
    pose proof (@NoDup_map_injective_on _ _ snd _ _ _ N Hin Hij eq_refl) as Q.
    inversion Q. reflexivity.
  - rewrite Forall_forall in Rr. apply Rr. change r with (fst (r, c)). apply in_map. exact Hin.
  - rewrite Forall_forall in Rc. apply Rc. change c with (snd (r, c)). apply in_map. exact Hin.
Qed.

Lemma lower_pairs_matching : forall nr nc i j ps,
  i < nr -> j < nc -> matching nr nc ps -> In (Z.of_nat i, Z.of_nat j) ps ->
  matching (nr - 1) (nc - 1) (lower_pairs i j ps).
Proof.
  intros nr nc i j ps Hi Hj M Hij.
  pose proof (fun r c => @other_pairs nr nc i j ps r c M Hij) as O.
  destruct M as (S & Rr & N & Rc). unfold lower_pairs.
  set (F := filter (fun rc => negb (fst rc =? Z.of_nat i)%Z) ps) in *.
  assert (Ef : map fst (map (fun rc => (shift_down i (fst rc), shift_down j (snd rc))) F)
               = map (shift_down i) (map fst F)) by (rewrite !map_map; reflexivity).
  assert (Es : map snd (map (fun rc => (shift_down i (fst rc), shift_down j (snd rc))) F)
               = map (shift_down j) (map snd F)) by (rewrite !map_map; reflexivity).
  assert (Of : forall x, In x (map fst F) -> x <> Z.of_nat i /\ in_range nr x).
  { intros x Hx. apply in_map_iff in Hx. destruct Hx as [[r c] [E Hin]]. subst x.
    cbn [fst]. specialize (O r c Hin). tauto. }
  assert (Os : forall x, In x (map snd F) -> x <> Z.of_nat j /\ in_range nc x).
  { intros x Hx. apply in_map_iff in Hx. destruct Hx as [[r c] [E Hin]]. subst x.
    cbn [snd]. specialize (O r c Hin). tauto. }
  unfold matching. rewrite Ef, Es. repeat split.
  - apply StronglySorted_map_mono.
    + intros x y Hx Hy. apply shift_down_lt; [apply (Of x Hx) | apply (Of y Hy)].
    + apply StronglySorted_fst_filter. exact S.
  - apply Forall_map. apply Forall_forall. intros x Hx.
    apply shift_down_range; [exact Hi | apply (Of x Hx) | apply (Of x Hx)].
  - apply NoDup_map_NoDup_ForallPairs.
    + intros x y Hx Hy. apply shift_down_inj; [apply (Os x Hx) | apply (Os y Hy)].
    + apply NoDup_map_filter. exact N.
  - apply Forall_map. apply Forall_forall. intros x Hx.
    apply shift_down_range; [exact Hj | apply (Os x Hx) | apply (Os x Hx)].
Qed.

Lemma lower_pairs_length : forall nr nc i j ps,
  matching nr nc ps -> In (Z.of_nat i, Z.of_nat j) ps ->
  S (length (lower_pairs i j ps)) = length ps.
Proof.
  intros nr nc i j ps (S & _) Hij. unfold lower_pairs. rewrite length_map.
  pose proof (@split_off_row _ _ _ (StronglySorted_NoDup S) Hij) as P.
  apply Permutation_length in P. cbn [length] in P. lia.
Qed.

Lemma lower_pairs_cost : forall costs i j ps,
  i < nrows costs -> j < ncols costs ->
  matching (nrows costs) (ncols costs) ps -> In (Z.of_nat i, Z.of_nat j) ps ->
  pairs_cost costs ps
  = tadd (cell costs (Z.of_nat i) (Z.of_nat j))
         (pairs_cost (without_row_col i j costs) (lower_pairs i j ps)).
Proof.
  intros costs i j ps Hi Hj M Hij.
  pose proof (fun r c => @other_pairs _ _ i j ps r c M Hij) as O.
  destruct M as (S & _). unfold pairs_cost.
  rewrite (total_perm (Permutation_map _ (@split_off_row _ _ _ (StronglySorted_NoDup S) Hij))).
  cbn [map fst snd]. unfold total. cbn [fold_right]. f_equal.
  unfold lower_pairs. rewrite map_map. f_equal. apply map_ext_in.
  intros [r c] Hin. cbn [fst snd].
  destruct (O r c Hin) as (_ & Hr & Hc & Rr & Rc).
  pose proof (shift_down_range Hi Rr Hr) as [Dr _].
  pose proof (shift_down_range Hj Rc Hc) as [Dc _].
  rewrite cell_without_row_col, !shift_up_down by assumption. reflexivity.
Qed.

Lemma pairs_cost_valid : forall (a : ndarray) ps,
  wf_ndarray a -> valid_costs a = true -> matching (nrows a) (ncols a) ps ->
  valid_entry (pairs_cost a ps) = true.
Proof.
  intros a ps W V (_ & Rr & _ & Rc). unfold pairs_cost. apply total_valid.
  apply Forall_map. apply Forall_forall. intros [r c] Hin. cbn [fst snd].
  rewrite Forall_forall in Rr, Rc.
  apply cell_valid; try assumption.
  - apply Rr. change r with (fst (r, c)). apply in_map. exact Hin.
  - apply Rc. change c with (snd (r, c)). apply in_map. exact Hin.
Qed.

Lemma arange_sorted : forall k, StronglySorted Z.lt (arange k).
Proof.
  intros k. unfold arange. generalize 0 as s.
  induction k as [ | k IH]; intros s; cbn [seq map]; constructor.
  - apply IH.
  - apply Forall_forall. intros x Hx. apply in_map_iff in Hx.
    destruct Hx as [y [E Hy]]. apply in_seq in Hy. lia.
Qed.

Lemma arange_In : forall k x, In x (arange k) <-> in_range k x.
Proof.
  intros k x. unfold arange, in_range. rewrite in_map_iff. split.
  - intros [y [E Hy]]. apply in_seq in Hy. lia.
  - intros H. exists (Z.to_nat x). split; [lia | apply in_seq; lia].
Qed.

(** The rows and columns [0 .. k-1], paired in order. *)
Lemma diagonal_matching : forall nr nc k,
  k <= nr -> k <= nc -> matching nr nc (combine (arange k) (arange k)).
Proof.
  intros nr nc k Hr Hc.
  assert (L : length (arange k) = length (arange k)) by reflexivity.
  assert (S : StronglySorted Z.lt (arange k)) by apply arange_sorted.
  assert (R : forall n, k <= n -> Forall (in_range n) (arange k)).
  { intros n Hn. apply Forall_forall. intros x Hx. apply arange_In in Hx.
    unfold in_range in *. lia. }
  unfold matching. rewrite combine_fst, combine_snd by exact L.
  repeat split; auto. apply StronglySorted_NoDup. exact S.
Qed.

Lemma assignment_nonneg : forall (a : ndarray) rs cs,
  is_assignment a rs cs ->
  Forall (fun rc => (0 <= fst rc)%Z /\ (0 <= snd rc)%Z) (combine rs cs).
Proof.
  intros a rs cs H. apply is_assignment_matching in H. destruct H as (_ & _ & _ & Rr & _ & Rc).
  rewrite Forall_forall in *. intros [r c] Hin. cbn [fst snd]. split.
  - apply (Rr r). change r with (fst (r, c)). apply in_map. exact Hin.
  - apply (Rc c). change c with (snd (r, c)). apply in_map. exact Hin.
Qed.

(** Every assignment of the submatrix extends to one of the matrix through
    [(i, j)], dearer by [costs[i][j]]. *)
Lemma lift_assignment : forall costs i j rs cs,
  i < nrows costs -> j < ncols costs ->
  is_assignment (without_row_col i j costs) rs cs ->
  exists rs' cs',
    is_assignment costs rs' cs' /\ includes i j rs' cs'
    /\ assignment_cost costs rs' cs'
       = tadd (cell costs (Z.of_nat i) (Z.of_nat j))
              (assignment_cost (without_row_col i j costs) rs cs).
Proof.
  intros costs i j rs cs Hi Hj A.
  pose proof (assignment_nonneg A) as NN.
  apply is_assignment_matching in A. destruct A as (L1 & L2 & M).
  cbn [without_row_col mk_ndarray nrows ncols] in L1, M.
  set (ps := lift_pairs i j (combine rs cs)).
  exists (map fst ps), (map snd ps). split; [ | split].
  - apply matching_is_assignment.
    + apply lift_pairs_matching; assumption.
    + unfold ps. rewrite (Permutation_length (lift_pairs_perm i j (combine rs cs))).
      cbn [length]. rewrite length_map, length_combine. lia.
  - unfold includes. rewrite combine_fst_snd. unfold ps.
    eapply Permutation_in; [apply Permutation_sym; apply lift_pairs_perm | ].
    left. reflexivity.
  - unfold assignment_cost. rewrite combine_fst_snd.
    apply (@lift_pairs_cost costs i j _ NN).
Qed.

(** Every assignment of the matrix through [(i, j)] comes from one of the
    submatrix in this way. *)
Lemma lower_assignment : forall costs i j rs' cs',
  i < nrows costs -> j < ncols costs ->
  is_assignment costs rs' cs' -> includes i j rs' cs' ->
  exists rs cs,
    is_assignment (without_row_col i j costs) rs cs
    /\ assignment_cost costs rs' cs'
       = tadd (cell costs (Z.of_nat i) (Z.of_nat j))
              (assignment_cost (without_row_col i j costs) rs cs).
Proof.
  intros costs i j rs' cs' Hi Hj A Hin.
  apply is_assignment_matching in A. destruct A as (L1 & L2 & M).
  unfold includes in Hin.
  set (ps := lower_pairs i j (combine rs' cs')).
  exists (map fst ps), (map snd ps). split.
  - apply matching_is_assignment.
    + cbn [without_row_col mk_ndarray nrows ncols].
      apply lower_pairs_matching; assumption.
    + cbn [without_row_col mk_ndarray nrows ncols].
      pose proof (@lower_pairs_length _ _ _ _ _ M Hin) as L. fold ps in L.
      rewrite length_combine in L. lia.
  - unfold assignment_cost at 2. rewrite combine_fst_snd.
    apply (@lower_pairs_cost _ _ _ _ Hi Hj M Hin).
Qed.

Lemma assignment_cost_valid : forall (a : ndarray) rs cs,
  wf_ndarray a -> valid_costs a = true -> is_assignment a rs cs ->
  valid_entry (assignment_cost a rs cs) = true.
Proof.
  intros a rs cs W V A. apply is_assignment_matching in A.
  apply pairs_cost_valid; tauto.
Qed.

Lemma some_assignment : forall (a : ndarray),
  exists rs cs, is_assignment a rs cs.
Proof.
  intros a. set (k := Nat.min (nrows a) (ncols a)).
  exists (arange k), (arange k). apply is_assignment_matching.
  unfold arange at 1 2 3. rewrite !length_map, length_seq.
  split; [reflexivity | ]. split; [reflexivity | ].
  apply diagonal_matching; lia.
Qed.

(** *** Matrices on which the code's sums are exact *)

Lemma exact_costs_within : forall (a : ndarray),
  wf_ndarray a -> exact_costs a = true ->
  exists B, (0 <= B)%Z /\ cells_within B a
    /\ ((Z.of_nat (Nat.min (nrows a) (ncols a)) + 2) * B <= 9007199254740992)%Z.
Proof.
  intros a W E. set (n := Nat.min (nrows a) (ncols a)) in *.
  exists (9007199254740992 / (Z.of_nat n + 2))%Z. split; [ | split].
  - apply Z.div_pos; lia.
  - intros r c Hr Hc. pose proof (row_length (Z.to_nat r) W) as L.
    destruct W as [Wr Wc]. unfold in_range in *.
    rewrite (proj2 (Nat.ltb_lt _ _)) in L by lia.
    unfold exact_costs in E. rewrite forallb_forall in E.
    assert (Hin : In (nth (Z.to_nat r) (data a) []) (data a)) by (apply nth_In; lia).
    specialize (E _ Hin). rewrite forallb_forall in E.
    assert (Hc' : In (cell a r c) (nth (Z.to_nat r) (data a) [])).
    { unfold cell. apply nth_In. lia. }
    specialize (E _ Hc'). fold n in E.
    destruct (cell a r c) as [z | | | ]; cbn [within]; try exact I.
    cbn [exact_entry] in E. apply Z.leb_le in E.
    apply Z.div_le_lower_bound; lia.
  - apply Z.mul_div_le. lia.
Qed.

Lemma cells_within_without : forall B i j costs,
  i < nrows costs -> j < ncols costs ->
  cells_within B costs -> cells_within B (without_row_col i j costs).
Proof.
  intros B i j costs Hi Hj H r c Hr Hc.
  cbn [without_row_col mk_ndarray nrows ncols] in Hr, Hc.
  rewrite cell_without_row_col by (unfold in_range in *; lia).
  apply H; apply shift_up_range; assumption.
Qed.

(** The sum the code takes over the pairs of an assignment is its total. *)
Lemma csum_assignment : forall B (a : ndarray) rs cs,
  (0 <= B)%Z -> cells_within B a -> is_assignment a rs cs ->
  (Z.of_nat (length rs) * B <= 9007199254740992)%Z ->
  csum (map (fun rc => cell a (fst rc) (snd rc)) (combine rs cs)) = assignment_cost a rs cs
  /\ within (Z.of_nat (length rs) * B) (assignment_cost a rs cs).
Proof.
  intros B a rs cs HB H A Hn. destruct A as [_ L2 _ Rr _ Rc].
  assert (F : Forall (within B) (map (fun rc => cell a (fst rc) (snd rc)) (combine rs cs))).
  { apply Forall_map. apply Forall_forall. intros [r c] Hin. cbn [fst snd].
    rewrite Forall_forall in Rr, Rc. apply H.
    - apply Rr. eapply in_combine_l. exact Hin.
    - apply Rc. eapply in_combine_r. exact Hin. }
  assert (L : length (map (fun rc => cell a (fst rc) (snd rc)) (combine rs cs)) = length rs).
  { rewrite length_map, length_combine. lia. }
  unfold assignment_cost. split.
  - apply (@csum_exact B _ HB F). rewrite L. exact Hn.
  - rewrite <- L. apply total_within; assumption.
Qed.

Lemma scaled_le : forall B k m, (0 <= B)%Z -> k <= m -> (Z.of_nat k * B <= Z.of_nat m * B)%Z.
Proof. intros B k m HB H. apply Z.mul_le_mono_nonneg_r; lia. Qed.

(** C4 (amended): on a well-formed matrix whose entries are [+inf] or
    integers small enough for the sums to be exact, and for a solver
    meeting its contract, [constrained_lsap_cost(i, j, costs)] returns the
    least total cost among the assignments through [(i, j)], an assignment
    pairing [min(r, c)] rows with distinct columns; the total is [+inf]
    when each of them uses a [+inf] entry. *)
Theorem constrained_lsap_cost_is_min :
  forall lap costs i j,
    lap_spec lap -> wf_ndarray costs -> valid_costs costs = true ->
    exact_costs costs = true ->
    i < nrows costs -> j < ncols costs ->
    exists v, constrained_lsap_cost lap i j costs = ret v
              /\ is_min_constrained costs i j v.
Proof.
  intros lap costs i j Hlap W V X Hi Hj.
  pose proof (without_row_col_wf W Hi Hj) as Wsub.
  pose proof (@without_row_col_valid i j costs V) as Vsub.
  assert (Vij : valid_entry (cell costs (Z.of_nat i) (Z.of_nat j)) = true).
  { apply cell_valid; try assumption; unfold in_range; lia. }
  unfold constrained_lsap_cost.
  rewrite constraint_submatrix_eq by assumption. cbn [bind ret].
  destruct (lap (without_row_col i j costs)) as [e | [rs cs]] eqn:L.
  - destruct (lap_infeasible Hlap Wsub Vsub L) as [E Hall]. subst e.
    exists PInf. split; [reflexivity | ]. split.
    + destruct (some_assignment (without_row_col i j costs)) as (rs & cs & A).
      destruct (lift_assignment Hi Hj A) as (rs' & cs' & A' & I' & C').
      exists rs', cs'. split; [exact A' | ]. split; [exact I' | ].
      rewrite C', (Hall _ _ A).
      destruct (cell costs (Z.of_nat i) (Z.of_nat j)); cbn in *; congruence.
    + intros rs' cs' A' I'.
      destruct (lower_assignment Hi Hj A' I') as (rs & cs & A & C).
      rewrite C, (Hall _ _ A).
      destruct (cell costs (Z.of_nat i) (Z.of_nat j)); cbn in *; congruence.
  - destruct (lap_optimal Hlap Wsub Vsub L) as (A & Fne & Opt).
    rewrite (fancy_get_assignment Wsub A). cbn [bind ret].
    rewrite get2_cell by (try assumption; unfold in_range; lia). cbn [bind ret].
    destruct (exact_costs_within W X) as (B & HB & Hc & Hn).
    assert (Ls : length rs < Nat.min (nrows costs) (ncols costs)).
    { rewrite (asg_size A). cbn [without_row_col mk_ndarray nrows ncols]. lia. }
    assert (Hs : (Z.of_nat (length rs) * B + B <= 9007199254740992)%Z).
    { pose proof (@scaled_le B (S (length rs)) _ HB Ls). lia. }
    destruct (@csum_assignment B _ rs cs HB (cells_within_without Hi Hj Hc) A) as [Es Ws];
      [lia | ].
    rewrite Es.
    rewrite (@cadd_exact (Z.of_nat (length rs) * B) B _ _ Ws)
      by (try exact Hs; apply Hc; unfold in_range; lia).
    eexists. split; [reflexivity | ]. rewrite tadd_comm. split.
    + destruct (lift_assignment Hi Hj A) as (rs' & cs' & A' & I' & C').
      exists rs', cs'. tauto.
    + intros rs' cs' A' I'.
      destruct (lower_assignment Hi Hj A' I') as (rs0 & cs0 & A0 & C0).
      rewrite C0. apply cle_add_mono; try assumption.
      * apply assignment_cost_valid; assumption.
      * apply assignment_cost_valid; assumption.
      * apply Opt. exact A0.
Qed.

(** C4, as stated, fails when there are more rows than columns: no
    assignment gives each of the three rows of [tall_costs] a column of
    its own, so the claim asks for [+inf], and the code returns 2 (row 0
    on column 0, row 1 on column 1, row 2 left out). *)
Lemma constrained_lsap_cost_tall_is_finite :
  (forall rs cs, ~ assigns_all_rows tall_costs rs cs)
  /\ constrained_lsap_cost lap_exhaustive 0 0 tall_costs = ret (Fin 2).
Proof.
  split; [ | reflexivity].
  intros rs cs (_ & L & N & R). cbn in L, R.
  destruct cs as [ | a [ | b [ | c [ | d cs]]]]; try discriminate.
  inversion R as [ | ? ? Ra R1]; subst. inversion R1 as [ | ? ? Rb R2]; subst.
  inversion R2 as [ | ? ? Rc _]; subst.
  inversion N as [ | ? ? Na N1]; subst. inversion N1 as [ | ? ? Nb _]; subst.
  unfold in_range in *. cbn in Na, Nb.
  assert (D : a = b \/ a = c \/ b = c) by lia.
  destruct D as [D | [D | D]]; subst; tauto.
Qed.

(** *** The exhaustive solver meets the contract *)

Lemma subseqs_spec : forall l,
  StronglySorted Z.lt l ->
  forall k s, In s (subseqs l k) <-> length s = k /\ StronglySorted Z.lt s /\ incl s l.
Proof.
  induction l as [ | x t IH]; intros Sl k s.
  - destruct k as [ | k]; cbn [subseqs In].
    + split.
      * intros [E | []]. subst s. repeat split; [constructor | apply incl_refl].
      * intros (L & _ & _). left. destruct s; [reflexivity | discriminate].
    + split; [intros [] | ]. intros (L & _ & I).
      destruct s as [ | y s]; [discriminate | ]. exact (I y (or_introl eq_refl)).
  - apply StronglySorted_inv in Sl. destruct Sl as [St Ft].
    rewrite Forall_forall in Ft.
    destruct k as [ | k]; cbn [subseqs].
    + split.
      * intros [E | []]. subst s. repeat split; [constructor | intros y []].
      * intros (L & _ & _). left. destruct s; [reflexivity | discriminate].
    + rewrite in_app_iff, in_map_iff. split.
      * intros [[s' [E H]] | H].
        -- subst s. apply (IH St) in H. destruct H as (L & S & I).
           split; [cbn; lia | ]. split.
           ++ constructor; [exact S | ]. apply Forall_forall. intros y Hy. apply Ft, I, Hy.
           ++ intros y [E | Hy]; [left; exact E | right; apply I, Hy].
        -- apply (IH St) in H. destruct H as (L & S & I).
           split; [exact L | ]. split; [exact S | ]. intros y Hy. right. apply I, Hy.
      * intros (L & S & I). destruct s as [ | y s]; [discriminate | ].
        apply StronglySorted_inv in S. destruct S as [Ss Fs]. rewrite Forall_forall in Fs.
        destruct (I y (or_introl eq_refl)) as [E | Hy].
        -- subst y. left. exists s. split; [reflexivity | ].
           apply (IH St). split; [cbn in L; lia | ]. split; [exact Ss | ].
           intros z Hz. destruct (I z (or_intror Hz)) as [E | Hz']; [ | exact Hz'].
           specialize (Fs z Hz). lia.
        -- right. apply (IH St). split; [exact L | ]. split; [constructor; [exact Ss | apply Forall_forall; exact Fs] | ].
           intros z [E | Hz]; [subst z; exact Hy | ].
           destruct (I z (or_intror Hz)) as [E | Hz']; [ | exact Hz'].
           specialize (Fs z Hz). specialize (Ft y Hy). lia.
Qed.

Lemma injections_spec : forall k l s,
  In s (injections k l) <-> length s = k /\ NoDup s /\ incl s l.
Proof.
  induction k as [ | k IH]; intros l s; cbn [injections].
  - split.
    + intros [E | []]. subst s. repeat split; [constructor | intros y []].
    + intros (L & _ & _). left. destruct s; [reflexivity | discriminate].
  - rewrite in_flat_map. split.
    + intros [x [Hx H]]. apply in_map_iff in H. destruct H as [s' [E H]]. subst s.
      apply IH in H. destruct H as (L & N & I).
      split; [cbn; lia | ]. split.
      * constructor; [ | exact N]. intros Hin. apply I in Hin.
        apply in_remove in Hin. tauto.
      * intros y [E | Hy]; [subst y; exact Hx | ]. apply I in Hy.
        apply in_remove in Hy. tauto.
    + intros (L & N & I). destruct s as [ | x s]; [discriminate | ].
      inversion N as [ | ? ? Hn Ns]; subst.
      exists x. split; [apply I; left; reflexivity | ].
      apply in_map_iff. exists s. split; [reflexivity | ].
      apply IH. split; [cbn in L; lia | ]. split; [exact Ns | ].
      intros y Hy. apply in_in_remove.
      * intros E. subst y. contradiction.
      * apply I. right. exact Hy.
Qed.

Lemma all_assignments_spec : forall (a : ndarray) rs cs,
  In (rs, cs) (all_assignments a) <-> is_assignment a rs cs.
Proof.
  intros a rs cs. unfold all_assignments. rewrite in_flat_map. split.
  - intros [rs0 [Hr H]]. apply in_map_iff in H. destruct H as [cs0 [E Hc]].
    inversion E; subst rs0 cs0. clear E.
    apply (subseqs_spec (arange_sorted _)) in Hr. destruct Hr as (Lr & Sr & Ir).
    apply injections_spec in Hc. destruct Hc as (Lc & Nc & Ic).
    constructor; try assumption; try congruence.
    + apply Forall_forall. intros x Hx. apply arange_In, Ir, Hx.
    + apply Forall_forall. intros x Hx. apply arange_In, Ic, Hx.
  - intros [H1 H2 H3 H4 H5 H6]. rewrite Forall_forall in H4, H6.
    exists rs. split.
    + apply (subseqs_spec (arange_sorted _)). split; [exact H1 | ]. split; [exact H3 | ].
      intros x Hx. apply arange_In, H4, Hx.
    + apply in_map_iff. exists cs. split; [reflexivity | ].
      apply injections_spec. split; [congruence | ]. split; [exact H5 | ].
      intros x Hx. apply arange_In, H6, Hx.
Qed.

Lemma cle_refl : forall a, valid_entry a = true -> cle a a = true.
Proof.
  intros [x | | | ]; unfold cle; cbn; try congruence.
  intros _. rewrite Z.eqb_refl. destruct (x <? x)%Z; reflexivity.
Qed.

Lemma clt_cle : forall a b, clt a b = true -> cle a b = true.
Proof. intros a b H. unfold cle. rewrite H. reflexivity. Qed.

Lemma least_by_min : forall (X : Type) (f : X -> cost) (t : list X) (x : X),
  (forall y, In y (x :: t) -> valid_entry (f y) = true) ->
  In (least_by f x t) (x :: t)
  /\ forall y, In y (x :: t) -> cle (f (least_by f x t)) (f y) = true.
Proof.
  intros X f. induction t as [ | z t IH]; intros x V; cbn [least_by].
  - split; [left; reflexivity | ]. intros y [E | []]. subst y.
    apply cle_refl. apply V. left. reflexivity.
  - destruct (clt (f z) (f x)) eqn:C.
    + destruct (IH z) as [Hin Hmin].
      { intros y Hy. apply V. right. exact Hy. }
      split; [right; exact Hin | ].
      intros y [E | Hy]; [subst y | apply Hmin; exact Hy].
      apply cle_trans with (b := f z).
      * apply V. right. exact Hin.
      * apply V. right. left. reflexivity.
      * apply V. left. reflexivity.
      * apply Hmin. left. reflexivity.
      * apply clt_cle. exact C.
    + destruct (IH x) as [Hin Hmin].
      { intros y [E | Hy]; apply V; [left; exact E | right; right; exact Hy]. }
      split; [destruct Hin as [E | Hin]; [left; exact E | right; right; exact Hin] | ].
      intros y [E | [E | Hy]].
      * apply Hmin. left. exact E.
      * subst y. apply cle_trans with (b := f x).
        -- apply V. destruct Hin as [E | Hin]; [left; exact E | right; right; exact Hin].
        -- apply V. left. reflexivity.
        -- apply V. right. left. reflexivity.
        -- apply Hmin. left. reflexivity.
        -- apply clt_false_cle; [apply V; right; left; reflexivity
                                | apply V; left; reflexivity | exact C].
      * apply Hmin. right. exact Hy.
Qed.

Lemma lap_exhaustive_spec : lap_spec lap_exhaustive.
Proof.
  constructor.
  - intros a _ V. unfold lap_exhaustive. rewrite V. reflexivity.
  - intros a rs cs W V H. unfold lap_exhaustive in H. rewrite V in H. cbn [negb] in H.
    destruct (all_assignments a) as [ | x t] eqn:E; [discriminate | ].
    set (f := fun rc : list Z * list Z => assignment_cost a (fst rc) (snd rc)) in *.
    assert (Vf : forall y, In y (x :: t) -> valid_entry (f y) = true).
    { intros [rs0 cs0] Hy. rewrite <- E in Hy. apply all_assignments_spec in Hy.
      apply assignment_cost_valid; assumption. }
    destruct (@least_by_min _ f t x Vf) as [Hin Hmin].
    destruct (least_by f x t) as [rs0 cs0] eqn:B.
    cbn [fst snd] in H.
    destruct (assignment_cost a rs0 cs0) as [z | | | ] eqn:C; try discriminate.
    inversion H; subst rs0 cs0. clear H.
    rewrite <- E in Hin. apply all_assignments_spec in Hin.
    split; [exact Hin | ]. split; [congruence | ].
    intros rs' cs' A'. apply all_assignments_spec in A'. rewrite E in A'.
    specialize (Hmin _ A'). unfold f in Hmin. cbn [fst snd] in Hmin.
    rewrite ?C in Hmin |- *. exact Hmin.
  - intros a e W V H. unfold lap_exhaustive in H. rewrite V in H. cbn [negb] in H.
    destruct (all_assignments a) as [ | x t] eqn:E.
    + split; [inversion H; reflexivity | ].
      intros rs' cs' A'. apply all_assignments_spec in A'. rewrite E in A'. contradiction.
    + set (f := fun rc : list Z * list Z => assignment_cost a (fst rc) (snd rc)) in *.
      assert (Vf : forall y, In y (x :: t) -> valid_entry (f y) = true).
      { intros [rs0 cs0] Hy. rewrite <- E in Hy. apply all_assignments_spec in Hy.
        apply assignment_cost_valid; assumption. }
      destruct (@least_by_min _ f t x Vf) as [Hin Hmin].
      pose proof (Vf _ Hin) as Vb.
      destruct (least_by f x t) as [rs0 cs0] eqn:B.
      cbn [fst snd] in H. unfold f in Vb. cbn [fst snd] in Vb.
      destruct (assignment_cost a rs0 cs0) as [z | | | ] eqn:C; try discriminate.
      split; [inversion H; reflexivity | ].
      intros rs' cs' A'. pose proof (assignment_cost_valid W V A') as V'.
      apply all_assignments_spec in A'. rewrite E in A'.
      specialize (Hmin _ A'). unfold f in Hmin. cbn [fst snd] in Hmin.
      rewrite ?C in Hmin.
      destruct (assignment_cost a rs' cs'); cbn in *; congruence.
Qed.

Lemma constrained_lsap_cost_is_min_witness :
  exists v, constrained_lsap_cost lap_exhaustive 0 1 two_by_two = ret v
            /\ is_min_constrained two_by_two 0 1 v.
Proof.
  apply (@constrained_lsap_cost_is_min lap_exhaustive two_by_two 0 1 lap_exhaustive_spec).
  - split; [reflexivity | repeat constructor].
  - reflexivity.
  - reflexivity.
  - cbn. lia.
  - cbn. lia.
Defined.

(** ** The fast solver against the naive one *)

(** A problem with a single optimal assignment has one possible answer. *)
Lemma lap_unique_optimum : forall lap (m : ndarray) (best : list Z * list Z),
  lap_spec lap -> wf_ndarray m -> valid_costs m = true ->
  assignment_cost m (fst best) (snd best) <> PInf ->
  filter (fun a => cle (assignment_cost m (fst a) (snd a))
                       (assignment_cost m (fst best) (snd best)))
         (all_assignments m) = [best] ->
  lap m = ret best.
Proof.
  intros lap m [brs bcs] Hlap W V Hfin F. cbn [fst snd] in *.
  assert (Hb : In (brs, bcs) (all_assignments m)).
  { assert (I : In (brs, bcs) [(brs, bcs)]) by (left; reflexivity).
    rewrite <- F in I. apply filter_In in I. tauto. }
  apply all_assignments_spec in Hb.
  destruct (lap m) as [e | [rs cs]] eqn:L.
  - destruct (lap_infeasible Hlap W V L) as [_ Hall].
    exfalso. apply Hfin. apply Hall. exact Hb.
  - destruct (lap_optimal Hlap W V L) as (A & _ & Opt).
    assert (I : In (rs, cs)
                  (filter (fun a => cle (assignment_cost m (fst a) (snd a))
                                        (assignment_cost m brs bcs))
                          (all_assignments m))).
    { apply filter_In. split; [apply all_assignments_spec; exact A | ].
      apply Opt. exact Hb. }
    rewrite F in I. destruct I as [E | []]. rewrite <- E. reflexivity.
Qed.

(** Run the code up to its next call of the solver, and answer the call
    with the only optimal assignment [best] of the matrix passed. *)
Ltac answer_solver lap Hlap best :=
  cbv -[round_double];
  match goal with
  | |- context [lap ?M] =>
      let E := fresh "E" in
      assert (E : lap M = ret best)
        by (apply lap_unique_optimum;
            [ exact Hlap
            | split; [reflexivity | repeat constructor]
            | reflexivity
            | vm_compute; discriminate
            | vm_compute; reflexivity ]);
      rewrite E; clear E
  end.

Lemma mapM_total : forall (A B : Type) (f : A -> result B) (xs : list A),
  (forall x, In x xs -> exists y, f x = ret y) -> exists ys, mapM f xs = ret ys.
Proof.
  induction xs as [ | x xs IH]; intros H; cbn [mapM].
  - eexists. reflexivity.
  - destruct (H x (or_introl eq_refl)) as [y Ey].
    destruct IH as [ys Eys]; [intros x' Hx'; apply H; right; exact Hx' | ].
    rewrite Ey, Eys. eexists. reflexivity.
Qed.

Lemma mapM_nth_error : forall (A B : Type) (f : A -> result B) (xs : list A) ys k x,
  mapM f xs = ret ys -> nth_error xs k = Some x ->
  exists y, nth_error ys k = Some y /\ f x = ret y.
Proof.
  induction xs as [ | x0 xs IH]; intros ys k x H Hk; [destruct k; discriminate | ].
  cbn [mapM] in H.
  destruct (f x0) as [e | y0] eqn:E0; [discriminate | ]. cbn [bind] in H.
  destruct (mapM f xs) as [e | ys0] eqn:Es; [discriminate | ]. cbn [bind] in H.
  inversion H; subst ys. destruct k as [ | k]; cbn [nth_error] in *.
  - inversion Hk; subst x0. exists y0. split; [reflexivity | exact E0].
  - exact (IH ys0 k x eq_refl Hk).
Qed.

Lemma mapM_length : forall (A B : Type) (f : A -> result B) (xs : list A) ys,
  mapM f xs = ret ys -> length ys = length xs.
Proof.
  induction xs as [ | x0 xs IH]; intros ys H; cbn [mapM] in H.
  - inversion H. reflexivity.
  - destruct (f x0) as [e | y0]; [discriminate | ]. cbn [bind] in H.
    destruct (mapM f xs) as [e | ys0] eqn:Es; [discriminate | ]. cbn [bind] in H.
    inversion H. cbn. f_equal. apply IH. reflexivity.
Qed.

Lemma constrained_lsap_cost_returns : forall lap costs i j,
  lap_spec lap -> wf_ndarray costs -> valid_costs costs = true ->
  i < nrows costs -> j < ncols costs ->
  exists v, constrained_lsap_cost lap i j costs = ret v.
Proof.
  intros lap costs i j Hlap W V Hi Hj.
  pose proof (without_row_col_wf W Hi Hj) as Wsub.
  pose proof (@without_row_col_valid i j costs V) as Vsub.
  unfold constrained_lsap_cost.
  rewrite constraint_submatrix_eq by assumption. cbn [bind ret].
  destruct (lap (without_row_col i j costs)) as [e | [rs cs]] eqn:L.
  - destruct (lap_infeasible Hlap Wsub Vsub L) as [E _]. subst e.
    eexists. reflexivity.
  - destruct (lap_optimal Hlap Wsub Vsub L) as (A & _ & _).
    rewrite (fancy_get_assignment Wsub A). cbn [bind ret].
    rewrite get2_cell by (try assumption; unfold in_range; lia).
    eexists. reflexivity.
Qed.

(** The naive solver returns, and its entry [(i, j)] is the result of
    [constrained_lsap_cost(i, j, costs)]. *)
Lemma naive_entries : forall lap costs,
  lap_spec lap -> wf_ndarray costs -> valid_costs costs = true ->
  exists slow,
    naive_constrained_lsap_costs lap costs = ret slow
    /\ forall i j, i < nrows costs -> j < ncols costs ->
         constrained_lsap_cost lap i j costs = get2 slow (Z.of_nat i) (Z.of_nat j).
Proof.
  intros lap costs Hlap W V. unfold naive_constrained_lsap_costs.
  destruct (@mapM_total _ _
              (fun i => mapM (fun j => constrained_lsap_cost lap i j costs)
                             (seq 0 (ncols costs)))
              (seq 0 (nrows costs))) as [rows Er].
  { intros i Hi. apply in_seq in Hi. apply mapM_total. intros j Hj. apply in_seq in Hj.
    apply constrained_lsap_cost_returns; try assumption; lia. }
  rewrite Er. cbn [bind ret]. eexists. split; [reflexivity | ].
  intros i j Hi Hj.
  destruct (mapM_nth_error _ _ i Er (x := i)) as [row [Hrow Erow]].
  { rewrite nth_error_seq, (proj2 (Nat.ltb_lt _ _) Hi). reflexivity. }
  destruct (mapM_nth_error _ _ j Erow (x := j)) as [v [Hv Ev]].
  { rewrite nth_error_seq, (proj2 (Nat.ltb_lt _ _) Hj). reflexivity. }
  rewrite Ev. symmetry. eapply get2_of_nat; eauto.
Qed.

(** C1 fails on the code, whatever optimal assignments the solver picks:
    every problem the code solves on [chain_costs] has a single optimal
    assignment.  The fast solver returns 15 at entry (0, 3), the naive
    one 11. *)
Theorem constrained_lsap_costs_differs_for_any_solver :
  forall lap, lap_spec lap ->
    exists fast slow,
      constrained_lsap_costs lap chain_costs = ret fast
      /\ naive_constrained_lsap_costs lap chain_costs = ret slow
      /\ get2 fast 0%Z 3%Z = ret (Fin 15)
      /\ get2 slow 0%Z 3%Z = ret (Fin 11).
Proof.
  intros lap Hlap.
  assert (Wc : wf_ndarray chain_costs) by (split; [reflexivity | repeat constructor]).
  destruct (@naive_entries lap chain_costs Hlap Wc eq_refl) as [slow [Es Hs]].
  assert (Ef : constrained_lsap_costs lap chain_costs
               = ret (mk_ndarray 3 4
                        [[Fin 5; Fin 106; Fin 101; Fin 15];
                         [Fin 11; Fin 5; Fin 100; Fin 100];
                         [Fin 110; Fin 11; Fin 5; Fin 100]])).
  { unfold constrained_lsap_costs.
    change (ncols chain_costs <? nrows chain_costs) with false. cbv iota.
    unfold constrained_lsap_costs_wide.
    rewrite (@lap_unique_optimum lap chain_costs ([0; 1; 2]%Z, [0; 1; 2]%Z) Hlap Wc eq_refl);
      [ | vm_compute; discriminate | vm_compute; reflexivity].
    cbv iota beta.
    answer_solver lap Hlap ([0; 1]%Z, [0; 1]%Z).
    answer_solver lap Hlap ([0; 1]%Z, [0; 1]%Z).
    answer_solver lap Hlap ([0; 1]%Z, [2; 0]%Z).
    vm_compute. reflexivity. }
  exists (mk_ndarray 3 4
            [[Fin 5; Fin 106; Fin 101; Fin 15];
             [Fin 11; Fin 5; Fin 100; Fin 100];
             [Fin 110; Fin 11; Fin 5; Fin 100]]), slow.
  split; [exact Ef | ]. split; [exact Es | ]. split; [reflexivity | ].
  change 0%Z with (Z.of_nat 0). change 3%Z with (Z.of_nat 3).
  rewrite <- Hs by (cbn; lia).
  unfold constrained_lsap_cost.
  answer_solver lap Hlap ([0; 1]%Z, [0; 1]%Z).
  vm_compute. reflexivity.
Qed.

Lemma constrained_lsap_costs_differs_witness :
  exists fast slow,
    constrained_lsap_costs lap_exhaustive chain_costs = ret fast
    /\ naive_constrained_lsap_costs lap_exhaustive chain_costs = ret slow
    /\ get2 fast 0%Z 3%Z = ret (Fin 15)
    /\ get2 slow 0%Z 3%Z = ret (Fin 11).
Proof.
  exact (constrained_lsap_costs_differs_for_any_solver lap_exhaustive_spec).
Defined.

(** ** The node cover loop ends *)

Lemma is_nbr_square : forall g, wf_graph g ->
  exists m, is_nbr g = ret m /\ wf_array2 m /\ nrows m = n_nodes g /\ ncols m = n_nodes g.
Proof.
  intros g W.
  pose proof (wf_graph_adjs_nonempty W) as Hne.
  pose proof (wf_adjs W) as Hadjs.
  unfold is_nbr, sym_composite_adj, composite_adj.
  destruct (adjs g) as [ | a rest]; [contradiction | ].
  pose proof (Forall_inv Hadjs) as (Wa & Hra & Hca).
  destruct (@composite_sum rest a (n_nodes g)) as [c (Ec & Wc & Hrc & Hcc & _)];
    try assumption.
  { exact (Forall_inv_tail Hadjs). }
  rewrite Ec. cbn [bind ret].
  destruct (@sp_add_at c (transpose_with 0%Z c)) as [s (Es & Ws & Hrs & Hcs & _)];
    try assumption.
  { apply transpose_wf. exact Wc. }
  { cbn. congruence. }
  { cbn. congruence. }
  rewrite Es. cbn [bind ret]. eexists. split; [reflexivity | ].
  destruct Ws as [Wr Wcs]. split; [ | split; cbn; congruence].
  split; cbn [data nrows ncols].
  - rewrite length_map. exact Wr.
  - apply Forall_map. eapply Forall_impl; [ | exact Wcs].
    intros r Hr. rewrite length_map. exact Hr.
Qed.

Lemma uncovered_part_ok : forall (m : array2 bool) uncov,
  wf_array2 m -> length uncov = nrows m -> length uncov = ncols m ->
  exists sub, uncovered_part m uncov = ret sub
    /\ wf_array2 sub /\ nrows sub = count_true uncov /\ ncols sub = count_true uncov.
Proof.
  intros m uncov [Wr Wc] Hr Hc. unfold uncovered_part, rows_by_mask, cols_by_mask.
  rewrite Hr, Nat.eqb_refl. cbn [bind ret nrows ncols data].
  rewrite <- Hc, <- Hr, Nat.eqb_refl. eexists. split; [reflexivity | ].
  split; [ | split; reflexivity]. split; cbn [data nrows ncols].
  - rewrite length_map. apply length_mask_select. congruence.
  - apply Forall_map. apply Forall_forall. intros r Hin.
    apply length_mask_select. rewrite Forall_forall in Wc.
    assert (In r (data m)).
    { clear - Hin. revert uncov Hin. induction (data m) as [ | x l IH]; intros [ | b u] H;
        cbn in H; try contradiction.
      destruct b; [destruct H as [H | H]; [left; exact H | right; eapply IH; exact H]
                  | right; eapply IH; exact H]. }
    rewrite (Wc r) by assumption. exact Hc.
Qed.

Lemma nnz_needs_columns : forall (sub : array2 bool),
  wf_array2 sub -> ncols sub = 0 -> nnz sub = 0.
Proof.
  intros sub [_ Wc] H. unfold nnz. rewrite H in Wc.
  induction Wc as [ | r l Hr _ IH]; cbn; [reflexivity | ].
  destruct r; [ | discriminate]. rewrite IH. reflexivity.
Qed.

Lemma count_axis0_length : forall (sub : array2 bool),
  wf_array2 sub -> length (count_axis0 sub) = ncols sub.
Proof.
  intros sub [_ Wc]. unfold count_axis0.
  apply (@fold_vec_add _ (repeat 0%Z (ncols sub)) (ncols sub) 0).
  - apply repeat_length.
  - apply Forall_map. eapply Forall_impl; [ | exact Wc].
    intros r Hr. rewrite length_map. exact Hr.
Qed.

Lemma argmax_from_bound : forall l i best bi,
  bi < i -> argmax_from l i best bi < i + length l.
Proof.
  induction l as [ | x l IH]; intros i best bi H; cbn [argmax_from length]; [lia | ].
  destruct (best <? x)%Z.
  - specialize (IH (S i) x i). lia.
  - specialize (IH (S i) best bi). lia.
Qed.

Lemma mask_assign_self : forall mask vals,
  length vals = count_true mask ->
  length (mask_assign mask mask vals) = length mask
  /\ count_true (mask_assign mask mask vals) = count_true vals.
Proof.
  unfold count_true.
  induction mask as [ | b mask IH]; intros vals H; cbn [mask_assign].
  - destruct vals; [split; reflexivity | discriminate].
  - destruct b; cbn [filter length] in H.
    + destruct vals as [ | v vals]; [discriminate | ].
      destruct (IH vals) as [L C]; [cbn in H; lia | ].
      split; [cbn; lia | ]. cbn [filter]. destruct v; cbn [length]; rewrite C; reflexivity.
    + destruct (IH vals H) as [L C]. split; [cbn; lia | ]. cbn [filter]. exact C.
Qed.

Lemma node_cover_loop_returns : forall (m : array2 bool) n,
  wf_array2 m -> nrows m = n -> ncols m = n ->
  forall fuel uncov cover,
    length uncov = n -> count_true uncov < fuel ->
    exists c, node_cover_loop fuel m uncov cover = Some (ret c).
Proof.
  intros m n W Hr Hc. induction fuel as [ | fuel IH]; intros uncov cover L F; [lia | ].
  cbn [node_cover_loop].
  destruct (@uncovered_part_ok m uncov W) as [sub (E & Ws & Rs & Cs)]; try congruence.
  rewrite E. unfold ret at 1. cbv iota.
  destruct (nnz sub =? 0) eqn:Z; [eexists; reflexivity | ].
  assert (K : 0 < count_true uncov).
  { destruct (count_true uncov) eqn:K; [ | lia].
    rewrite (@nnz_needs_columns sub Ws Cs) in Z. discriminate. }
  pose proof (count_axis0_length Ws) as Lc. rewrite Cs in Lc.
  destruct (count_axis0 sub) as [ | x t] eqn:Ec; [cbn in Lc; lia | ].
  cbn [argmax bind ret].
  pose proof (@argmax_from_bound t 1 x 0 (le_n 1)) as B. cbn [length] in Lc.
  unfold one_hot. rewrite (proj2 (Nat.ltb_lt _ _)) by lia. cbn [bind ret].
  unfold set_by_mask. rewrite Nat.eqb_refl. cbn [negb].
  assert (Lh : length (invert (map (Nat.eqb (argmax_from t 1 x 0))
                                   (seq 0 (count_true uncov)))) = count_true uncov).
  { unfold invert. rewrite !length_map, length_seq. reflexivity. }
  rewrite Lh, Nat.eqb_refl. cbn [bind ret].
  destruct (@mask_assign_self uncov _ Lh) as [L' C'].
  apply IH; [congruence | ].
  rewrite C', count_true_invert_one_hot by lia. lia.
Qed.

(** On a well-formed graph [node_cover] returns a sequence: the rounds
    granted are enough and no step raises. *)
Lemma node_cover_returns : forall g, wf_graph g ->
  exists cover, node_cover g = Some (ret cover).
Proof.
  intros g W. unfold node_cover.
  destruct (is_nbr_square W) as [m (E & Wm & Hr & Hc)]. rewrite E.
  apply node_cover_loop_returns with (n := n_nodes g); try assumption.
  - apply repeat_length.
  - assert (count_true (repeat true (n_nodes g)) <= n_nodes g); [ | lia].
    unfold count_true. generalize (n_nodes g). intros k.
    induction k; cbn; lia.
Qed.

(** ** Constructed graphs are well formed *)

Lemma Graph_init_wf : forall m ms chs nodelist el g,
  Graph_init (ArgAdjs (m :: ms)) chs nodelist el = ret g ->
  match chs with Some c => length c = S (length ms) | None => True end ->
  Forall (fun a => wf_array2 a /\ nrows a = nrows m /\ ncols a = nrows m) (m :: ms) ->
  wf_graph g.
Proof.
  intros m ms chs nodelist el g H Hc Hsq. unfold Graph_init in H.
  assert (M : channels_mismatch chs (ArgAdjs (m :: ms)) = ret false).
  { destruct chs as [c | ]; [ | reflexivity]. cbn. rewrite Hc, Nat.eqb_refl. reflexivity. }
  rewrite M in H. cbn [bind ret] in H. rewrite M in H. cbn [bind ret first_dim hd] in H.
  destruct nodelist as [ | ms' | names | df]; cbn [bind ret raise] in H;
    try discriminate; inversion H; subst g; clear H;
    (constructor; cbn [adjs n_channels n_nodes channels];
     [ reflexivity
     | destruct chs as [c | ];
       [exact Hc | cbn [length]; rewrite length_map, length_seq; reflexivity]
     | cbn; lia
     | exact Hsq ]).
Qed.

(** ** An infeasible base problem *)

(** When no assignment of the (normalized) matrix has a finite total, a
    solver meeting its contract reports infeasibility, and the result is
    the all-[+inf] matrix. *)
Lemma infeasible_base_gives_inf : forall lap costs,
  lap_spec lap ->
  wf_ndarray (normalized costs) -> valid_costs (normalized costs) = true ->
  (forall rs cs, is_assignment (normalized costs) rs cs ->
                 assignment_cost (normalized costs) rs cs = PInf) ->
  constrained_lsap_costs lap costs = ret (full (nrows costs) (ncols costs) PInf).
Proof.
  intros lap costs Hlap W V Hall.
  assert (L : lap (normalized costs) = raise (ValueError infeasible_msg)).
  { destruct (lap (normalized costs)) as [e | [rs cs]] eqn:L.
    - destruct (lap_infeasible Hlap W V L) as [E _]. subst e. reflexivity.
    - destruct (lap_optimal Hlap W V L) as (A & Hfin & _).
      exfalso. apply Hfin. apply Hall. exact A. }
  unfold constrained_lsap_costs, normalized in *.
  destruct (ncols costs <? nrows costs);
    unfold constrained_lsap_costs_wide; rewrite L; cbn; [ | reflexivity].
  f_equal. apply transpose_full.
Qed.

(** A call with a list of matrices and a nodelist frame that succeeds did
    not swap its arguments: the instance holds the matrices, the channel
    names and the nodelist it was given, which is what lets [Graph_new]
    keep the references passed in. *)
Lemma Graph_init_keeps_arguments : forall ms chs df el g,
  Graph_init (ArgAdjs ms) (Some chs) (ArgFrame df) el = ret g ->
  adjs g = ms /\ channels g = chs /\ nodelist g = df /\ edgelist g = el.
Proof.
  intros ms chs df el g H. unfold Graph_init, channels_mismatch in H.
  cbn [py_len bind ret] in H.
  destruct (Nat.eqb_spec (length ms) (length chs)) as [E | E]; cbn [negb] in H.
  - cbn [py_len bind ret] in H. rewrite (proj2 (Nat.eqb_eq _ _) E) in H. cbn [negb] in H.
    destruct ms as [ | m ms]; cbn [first_dim bind ret raise] in H; [discriminate | ].
    inversion H. repeat split.
  - cbn [py_len bind ret] in H.
    destruct (length df =? length chs); cbn [negb first_dim bind raise] in H; discriminate.
Qed.

Lemma string_of_nat_inj : forall a b, string_of_nat a = string_of_nat b -> a = b.
Proof.
  intros a b H. unfold string_of_nat in H.
  assert (E : Some (Nat.to_uint a) = Some (Nat.to_uint b)).
  { rewrite <- (NilEmpty.usu (Nat.to_uint a)), <- (NilEmpty.usu (Nat.to_uint b)), H. reflexivity. }
  inversion E as [E']. apply (f_equal Nat.of_uint) in E'.
  rewrite !DecimalNat.Unsigned.of_to in E'. exact E'.
Qed.

Lemma append_inj_l : forall p s t, (p ++ s = p ++ t)%string -> s = t.
Proof. induction p as [ | c p IH]; intros s t H; cbn in H; [exact H | ]. inversion H. auto. Qed.

Lemma numbered_NoDup : forall (A : Type) (f : string -> A) (p : string) n,
  (forall s t, f s = f t -> s = t) ->
  NoDup (map (fun i => f (p ++ string_of_nat i)%string) (seq 0 n)).
Proof.
  intros A f p n Hf. apply NoDup_map_NoDup_ForallPairs; [ | apply seq_NoDup].
  intros a b _ _ E. apply Hf, append_inj_l, string_of_nat_inj in E. exact E.
Qed.

(** Called with matrices only, the constructor names the channels
    "channel 0", "channel 1", ... (one per matrix) and the nodes "node 0",
    "node 1", ... (one per row of the first matrix); no name comes twice. *)
Theorem Graph_init_defaults : forall m ms el,
  exists g, Graph_init (ArgAdjs (m :: ms)) None ArgNone el = ret g
    /\ adjs g = m :: ms /\ edgelist g = el
    /\ n_channels g = S (length ms) /\ n_nodes g = nrows m
    /\ channels g = map (fun i => ("channel " ++ string_of_nat i)%string) (seq 0 (S (length ms)))
    /\ nodes g = map (fun i => LStr ("node " ++ string_of_nat i)%string) (seq 0 (nrows m))
    /\ nodelist g = nodes g
    /\ NoDup (channels g) /\ NoDup (nodes g).
Proof.
  intros m ms el. eexists. split; [reflexivity | ].
  cbn [adjs edgelist n_channels n_nodes channels nodes nodelist hd length].
  repeat split.
  - apply (@numbered_NoDup string (fun s => s) "channel " (S (length ms))). auto.
  - apply (@numbered_NoDup label LStr "node " (nrows m)). intros s t E. inversion E. reflexivity.
Qed.

(** With an empty list of matrices (and no channel names, or an empty
    list of them) the constructor raises [IndexError] at [adjs[0]],
    whatever the nodelist and the edgelist. *)
Theorem Graph_init_no_matrices : forall nodelist el,
  Graph_init (ArgAdjs []) None nodelist el = raise (IndexError "list index out of range")
  /\ Graph_init (ArgAdjs []) (Some []) nodelist el = raise (IndexError "list index out of range").
Proof. intros nodelist el. split; reflexivity. Qed.

(** Channel names whose number differs from the number of matrices, and no
    nodelist: the old-order fallback takes [None] for the matrices, and
    the call ends in the [TypeError] of [len(None)], not in the
    "Unable to match" exception. *)
Theorem Graph_init_mismatch_without_nodelist : forall ms chs el,
  length ms <> length chs ->
  Graph_init (ArgAdjs ms) (Some chs) ArgNone el
  = raise (TypeError "object of type 'NoneType' has no len()").
Proof.
  intros ms chs el H. unfold Graph_init, channels_mismatch. cbn [py_len bind ret].
  rewrite (proj2 (Nat.eqb_neq _ _) H). reflexivity.
Qed.

Lemma Graph_init_mismatch_without_nodelist_witness :
  length [star_and_edge_adj] <> length ["c1"; "c2"]
  /\ Graph_init (ArgAdjs [star_and_edge_adj]) (Some ["c1"; "c2"]) ArgNone None
     = raise (TypeError "object of type 'NoneType' has no len()").
Proof.
  assert (H : length [star_and_edge_adj] <> length ["c1"; "c2"]) by (cbn; lia).
  split; [exact H | ].
  exact (@Graph_init_mismatch_without_nodelist [star_and_edge_adj] ["c1"; "c2"] None H).
Defined.

(** A call in the old argument order (node names, channels, matrices)
    gives what the call in the new order gives on a nodelist frame built
    from the names, as soon as the number of names differs from the
    number of channels. *)
Theorem Graph_init_old_order : forall names chs ms el,
  length names <> length chs ->
  Graph_init (ArgNames names) (Some chs) (ArgAdjs ms) el
  = Graph_init (ArgAdjs ms) (Some chs) (ArgFrame (map LStr names)) el.
Proof.
  intros names chs ms el H. unfold Graph_init, channels_mismatch. cbn [py_len bind ret].
  rewrite (proj2 (Nat.eqb_neq _ _) H). cbn [negb py_len bind ret node_frame_of].
  destruct (Nat.eqb_spec (length ms) (length chs)) as [E | E]; cbn [negb bind ret py_len].
  - rewrite (proj2 (Nat.eqb_eq _ _) E). reflexivity.
  - rewrite length_map, (proj2 (Nat.eqb_neq _ _) H). reflexivity.
Qed.

Lemma Graph_init_old_order_witness :
  length ["a"; "b"; "c"; "d"; "e"] <> length ["c1"]
  /\ Graph_init (ArgNames ["a"; "b"; "c"; "d"; "e"]) (Some ["c1"]) (ArgAdjs [star_and_edge_adj]) None
     = Graph_init (ArgAdjs [star_and_edge_adj]) (Some ["c1"])
         (ArgFrame (map LStr ["a"; "b"; "c"; "d"; "e"])) None.
Proof.
  assert (H : length ["a"; "b"; "c"; "d"; "e"] <> length ["c1"]) by (cbn; lia).
  split; [exact H | ].
  exact (@Graph_init_old_order ["a"; "b"; "c"; "d"; "e"] ["c1"] [star_and_edge_adj] None H).
Defined.

(** The constructor checks no shape: a matrix that is not square is
    accepted, and the failure shows only in the views that add the matrix
    to its transpose. *)
Theorem Graph_init_accepts_non_square : forall (a : spmatrix) el,
  nrows a <> ncols a ->
  exists g, Graph_init (ArgAdjs [a]) None ArgNone el = ret g
    /\ composite_adj g = ret a
    /\ sym_composite_adj g = raise inconsistent_shapes
    /\ is_nbr g = raise inconsistent_shapes
    /\ nbr_idx_pairs g = raise inconsistent_shapes
    /\ node_cover g = Some (raise inconsistent_shapes).
Proof.
  intros a el H. eexists. split; [reflexivity | ].
  assert (S : sym_composite_adj
                (mk_Graph (nrows a) 1 (map (fun i => ("channel " ++ string_of_nat i)%string) (seq 0 1))
                   [a] (combine (map (fun i => ("channel " ++ string_of_nat i)%string) (seq 0 1)) [a])
                   (map (fun i => LStr ("node " ++ string_of_nat i)%string) (seq 0 (nrows a)))
                   (map (fun i => LStr ("node " ++ string_of_nat i)%string) (seq 0 (nrows a))) el)
              = raise inconsistent_shapes).
  { unfold sym_composite_adj, composite_adj. cbn [adjs for_each bind ret].
    unfold sp_add. cbn [transpose_with nrows ncols].
    rewrite (proj2 (Nat.eqb_neq _ _) H). reflexivity. }
  cbn [hd length].
  split; [reflexivity | ]. split; [exact S | ].
  unfold node_cover, nbr_idx_pairs, is_nbr. rewrite S. repeat split.
Qed.

Lemma Graph_init_accepts_non_square_witness :
  nrows (of_counts [[0; 1; 0]; [0; 0; 1]]%Z) <> ncols (of_counts [[0; 1; 0]; [0; 0; 1]]%Z)
  /\ exists g, Graph_init (ArgAdjs [of_counts [[0; 1; 0]; [0; 0; 1]]%Z]) None ArgNone None = ret g
    /\ composite_adj g = ret (of_counts [[0; 1; 0]; [0; 0; 1]]%Z)
    /\ sym_composite_adj g = raise inconsistent_shapes
    /\ is_nbr g = raise inconsistent_shapes
    /\ nbr_idx_pairs g = raise inconsistent_shapes
    /\ node_cover g = Some (raise inconsistent_shapes).
Proof.
  assert (H : nrows (of_counts [[0; 1; 0]; [0; 0; 1]]%Z) <> ncols (of_counts [[0; 1; 0]; [0; 0; 1]]%Z))
    by (cbn; lia).
  split; [exact H | ].
  exact (@Graph_init_accepts_non_square (of_counts [[0; 1; 0]; [0; 0; 1]]%Z) None H).
Defined.

Lemma is_nbr_entries : forall g, wf_graph g ->
  exists m, is_nbr g = ret m /\ wf_array2 m /\ nrows m = n_nodes g /\ ncols m = n_nodes g
    /\ forall i j, i < n_nodes g -> j < n_nodes g ->
         bat m i j = (0 <? edges_between g i j + edges_between g j i)%Z.
Proof.
  intros g W.
  pose proof (wf_graph_adjs_nonempty W) as Hne.
  pose proof (wf_adjs W) as Hadjs.
  unfold is_nbr, sym_composite_adj, composite_adj, edges_between.
  destruct (adjs g) as [ | a rest]; [contradiction | ].
  pose proof (Forall_inv Hadjs) as (Wa & Hra & Hca).
  destruct (@composite_sum rest a (n_nodes g)) as [c (Ec & Wc & Hrc & Hcc & Hsum)];
    try assumption.
  { exact (Forall_inv_tail Hadjs). }
  rewrite Ec. cbn [bind ret].
  destruct (@sp_add_at c (transpose_with 0%Z c)) as [s (Es & Ws & Hrs & Hcs & Hat)];
    try assumption.
  { apply transpose_wf. exact Wc. }
  { cbn. congruence. }
  { cbn. congruence. }
  rewrite Es. cbn [bind ret]. eexists. split; [reflexivity | ].
  pose proof Ws as [Wr Wcs].
  split; [ | split; [cbn; congruence | split; [cbn; congruence | ]]].
  - split; cbn [data nrows ncols].
    + rewrite length_map. exact Wr.
    + apply Forall_map. eapply Forall_impl; [ | exact Wcs].
      intros r Hr. rewrite length_map. exact Hr.
  - intros i j Hi Hj. unfold bat. cbn [data map fold_right].
    rewrite (@nth_map_lt _ _ (map (fun x => (0 <? x)%Z)) [] [] (data s) i) by lia.
    rewrite (@nth_map_lt _ _ (fun x => (0 <? x)%Z) false 0%Z) by
      (rewrite row_length by exact Ws; rewrite (proj2 (Nat.ltb_lt _ _)) by lia; lia).
    fold (at2 s i j). rewrite Hat, transpose_at, !Hsum by exact Wc. reflexivity.
Qed.

Lemma edges_between_alt : forall g i j,
  (edges_between g i j + edges_between g j i
   = fold_right Z.add 0 (map (fun adj => at2 adj i j + at2 adj j i) (adjs g)))%Z.
Proof.
  intros g i j. unfold edges_between. induction (adjs g) as [ | a l IH]; cbn; lia.
Qed.

(** [is_nbr] is a symmetric [n_nodes x n_nodes] matrix; its entry [(i, j)]
    is true exactly when the entries [(i, j)] and [(j, i)] of all channels
    add up to a positive number. *)
Theorem is_nbr_symmetric : forall g, wf_graph g ->
  exists m, is_nbr g = ret m /\ wf_array2 m /\ nrows m = n_nodes g /\ ncols m = n_nodes g
    /\ forall i j, i < n_nodes g -> j < n_nodes g ->
         bat m i j = bat m j i
         /\ (bat m i j = true
             <-> (0 < fold_right Z.add 0
                        (map (fun adj => at2 adj i j + at2 adj j i) (adjs g)))%Z).
Proof.
  intros g W. destruct (is_nbr_entries W) as [m (E & Wm & Hr & Hc & Hat)].
  exists m. repeat split; try assumption; try apply Wm.
  - rewrite !Hat by assumption. f_equal. lia.
  - rewrite Hat, edges_between_alt by assumption. apply Z.ltb_lt.
  - rewrite Hat, edges_between_alt by assumption. apply Z.ltb_lt.
Qed.

Lemma is_nbr_symmetric_witness :
  wf_graph star_and_edge_graph
  /\ exists m, is_nbr star_and_edge_graph = ret m /\ wf_array2 m
       /\ nrows m = n_nodes star_and_edge_graph /\ ncols m = n_nodes star_and_edge_graph
       /\ forall i j, i < n_nodes star_and_edge_graph -> j < n_nodes star_and_edge_graph ->
            bat m i j = bat m j i
            /\ (bat m i j = true
                <-> (0 < fold_right Z.add 0
                           (map (fun adj => at2 adj i j + at2 adj j i)
                                (adjs star_and_edge_graph)))%Z).
Proof.
  split; [exact star_and_edge_wf | ].
  exact (is_nbr_symmetric star_and_edge_wf).
Defined.

Lemma arr_sub_wf : forall (a b : array2 Z),
  wf_array2 a -> wf_array2 b -> nrows a = nrows b -> ncols a = ncols b ->
  exists d, arr_sub a b = ret d
    /\ wf_array2 d /\ nrows d = nrows a /\ ncols d = ncols a
    /\ forall i j, at2 d i j = (at2 a i j - at2 b i j)%Z.
Proof.
  intros a b Wa Wb Hr Hc. unfold arr_sub.
  rewrite (proj2 (Nat.eqb_eq _ _) Hr), (proj2 (Nat.eqb_eq _ _) Hc). cbn [andb].
  eexists. split; [reflexivity | ].
  assert (Hl : length (data a) = length (data b)) by (destruct Wa, Wb; congruence).
  split; [ | split; [reflexivity | split; [reflexivity | ]]].
  - split; cbn [data nrows ncols].
    + rewrite length_map, length_combine. destruct Wa. lia.
    + apply Forall_forall. intros r Hin. apply in_map_iff in Hin.
      destruct Hin as [[ra rb] [E Hin]]. subst r.
      rewrite length_map, length_combine.
      pose proof (in_combine_l _ _ _ _ Hin) as Ha.
      pose proof (in_combine_r _ _ _ _ Hin) as Hb.
      destruct Wa as [_ Fa], Wb as [_ Fb]. rewrite Forall_forall in Fa, Fb.
      rewrite (Fa _ Ha), (Fb _ Hb). lia.
  - intros i j. unfold at2. cbn [data].
    set (f := fun '(ra, rb) => map (fun '(x, y) => (x - y)%Z) (combine ra rb)).
    change (@nil Z) with (f ([], [])) at 1.
    rewrite map_nth, combine_nth by exact Hl. cbn [f].
    set (h := fun '(x, y) => (x - y)%Z).
    change 0%Z with (h (0%Z, 0%Z)) at 1.
    rewrite map_nth, combine_nth; [reflexivity | ].
    rewrite !row_length by assumption. rewrite Hr, Hc. reflexivity.
Qed.

Lemma grid_wf : forall (cols : list (list Z)) n,
  wf_array2 (mk_array2 n (length cols)
               (map (fun i => map (fun col => nth i col 0%Z) cols) (seq 0 n))).
Proof.
  intros cols n. split; cbn [data nrows ncols].
  - rewrite length_map, length_seq. reflexivity.
  - apply Forall_map. apply Forall_forall. intros i _. apply length_map.
Qed.


(** The three degree views of a well-formed graph: shapes and entries. *)
Lemma degree_arrays : forall g, wf_graph g ->
  exists loops ins outs,
    self_edges g = ret loops /\ in_degrees g = ret ins /\ out_degrees g = ret outs
    /\ (wf_array2 loops /\ nrows loops = n_nodes g /\ ncols loops = n_channels g)
    /\ (wf_array2 ins /\ nrows ins = n_nodes g /\ ncols ins = n_channels g)
    /\ (wf_array2 outs /\ nrows outs = n_nodes g /\ ncols outs = n_channels g)
    /\ forall v c adj,
         v < n_nodes g -> nth_error (adjs g) c = Some adj ->
         at2 loops v c = at2 adj v v
         /\ at2 ins v c = (col_sum adj v - at2 adj v v)%Z
         /\ at2 outs v c = (row_sum adj v - at2 adj v v)%Z.
Proof.
  intros g W.
  pose proof (wf_graph_adjs_nonempty W) as Hne.
  pose proof (wf_adjs W) as Hadjs.
  pose proof (wf_n_channels W) as Hk.
  set (n := n_nodes g) in *.
  assert (Hd : Forall (fun c => length c = n) (map diagonal (adjs g))).
  { apply Forall_map. eapply Forall_impl; [ | exact Hadjs].
    intros a (_ & Hr & Hc). rewrite (proj1 (diagonal_at a 0)), Hr, Hc. apply Nat.min_id. }
  assert (Hi : Forall (fun c => length c = n) (map sum_axis0 (adjs g))).
  { apply Forall_map. eapply Forall_impl; [ | exact Hadjs].
    intros a (Hw & Hr & Hc). rewrite (proj1 (sum_axis0_col_sum 0 Hw)). exact Hc. }
  assert (Ho : Forall (fun c => length c = n) (map sum_axis1 (adjs g))).
  { apply Forall_map. eapply Forall_impl; [ | exact Hadjs].
    intros a (Hw & Hr & Hc). unfold sum_axis1. rewrite length_map, (proj1 Hw). exact Hr. }
  assert (Hm : forall (f : spmatrix -> list Z), map f (adjs g) <> []).
  { intros f E. apply Hne. destruct (adjs g); [reflexivity | discriminate]. }
  unfold in_degrees, out_degrees, self_edges.
  rewrite (stack_axis1_ok (Hm diagonal) Hd).
  rewrite (concat_columns_ok (Hm sum_axis0) Hi), (concat_columns_ok (Hm sum_axis1) Ho).
  cbn [bind ret].
  set (grid := fun cols : list (list Z) =>
                 mk_array2 n (length cols)
                   (map (fun i => map (fun col => nth i col 0%Z) cols) (seq 0 n))).
  change (mk_array2 n (length (map diagonal (adjs g))) _) with (grid (map diagonal (adjs g))).
  change (mk_array2 n (length (map sum_axis0 (adjs g))) _) with (grid (map sum_axis0 (adjs g))).
  change (mk_array2 n (length (map sum_axis1 (adjs g))) _) with (grid (map sum_axis1 (adjs g))).
  assert (Wg : forall cols, wf_array2 (grid cols)) by (intros cols; apply grid_wf).
  destruct (@arr_sub_wf (grid (map sum_axis0 (adjs g))) (grid (map diagonal (adjs g))))
    as [ins (Ei & Wi & Ri & Ci & Ai)]; try apply Wg; try reflexivity.
  { cbn. rewrite !length_map. reflexivity. }
  destruct (@arr_sub_wf (grid (map sum_axis1 (adjs g))) (grid (map diagonal (adjs g))))
    as [outs (Eo & Wo & Ro & Co & Ao)]; try apply Wg; try reflexivity.
  { cbn. rewrite !length_map. reflexivity. }
  exists (grid (map diagonal (adjs g))), ins, outs.
  split; [reflexivity | ]. split; [exact Ei | ]. split; [exact Eo | ].
  split; [split; [apply Wg | split; [reflexivity | cbn; rewrite length_map; exact Hk]] | ].
  split; [split; [exact Wi | split; [exact Ri | rewrite Ci; cbn; rewrite length_map; exact Hk]] | ].
  split; [split; [exact Wo | split; [exact Ro | rewrite Co; cbn; rewrite length_map; exact Hk]] | ].
  intros v c adj Hv Hc.
  assert (Hlt : c < length (adjs g)) by (apply nth_error_Some; congruence).
  assert (Hadj : nth c (adjs g) (mk_array2 0 0 []) = adj) by (apply nth_error_nth; exact Hc).
  assert (Wadj : wf_array2 adj /\ nrows adj = n /\ ncols adj = n).
  { rewrite Forall_forall in Hadjs. apply Hadjs. eapply nth_error_In. exact Hc. }
  destruct Wadj as (Hw & Hr & Hcn).
  assert (G : forall (f : spmatrix -> list Z),
             at2 (grid (map f (adjs g))) v c = nth v (f adj) 0%Z).
  { intros f. unfold at2, grid. cbn [data].
    rewrite grid_at by (rewrite ?length_map; assumption).
    rewrite (@nth_map_lt spmatrix (list Z) f [] (mk_array2 0 0 []) (adjs g) c Hlt).
    rewrite Hadj. reflexivity. }
  assert (L : at2 (grid (map diagonal (adjs g))) v c = at2 adj v v).
  { rewrite G. apply diagonal_at. rewrite Hr, Hcn, Nat.min_id. exact Hv. }
  split; [exact L | ]. split.
  - rewrite Ai, L, G. f_equal. apply sum_axis0_col_sum. exact Hw.
  - rewrite Ao, L, G. f_equal. apply sum_axis1_row_sum; [exact Hw | lia].
Qed.

Lemma has_loops_iff : forall g,
  has_loops g = true
  <-> exists adj v, In adj (adjs g) /\ v < Nat.min (nrows adj) (ncols adj)
                    /\ at2 adj v v <> 0%Z.
Proof.
  intros g. unfold has_loops. rewrite existsb_exists. split.
  - intros [adj [Hin H]]. apply negb_true_iff, Nat.eqb_neq in H.
    destruct (filter (fun x => negb (x =? 0)%Z) (diagonal adj)) as [ | x l] eqn:F;
      [contradiction | ].
    assert (Hx : In x (filter (fun x => negb (x =? 0)%Z) (diagonal adj)))
      by (rewrite F; left; reflexivity).
    apply filter_In in Hx. destruct Hx as [Hx Hnz].
    apply negb_true_iff, Z.eqb_neq in Hnz.
    unfold diagonal in Hx. apply in_map_iff in Hx. destruct Hx as [v [E Hv]].
    apply in_seq in Hv. exists adj, v. subst x. repeat split; try assumption; lia.
  - intros [adj [v (Hin & Hv & Hnz)]]. exists adj. split; [exact Hin | ].
    apply negb_true_iff, Nat.eqb_neq. intros E. apply length_zero_iff_nil in E.
    assert (Hx : In (at2 adj v v) (filter (fun x => negb (x =? 0)%Z) (diagonal adj))).
    { apply filter_In. split.
      - unfold diagonal. apply in_map_iff. exists v. split; [reflexivity | apply in_seq; lia].
      - apply negb_true_iff, Z.eqb_neq. exact Hnz. }
    rewrite E in Hx. contradiction.
Qed.

(** [has_loops] is true exactly when [self_edges] has a non-zero entry. *)
Theorem has_loops_self_edges : forall g, wf_graph g ->
  exists loops, self_edges g = ret loops
    /\ (has_loops g = true
        <-> exists v c, v < n_nodes g /\ c < n_channels g /\ at2 loops v c <> 0%Z).
Proof.
  intros g W. destruct (degree_arrays W) as (loops & ins & outs & El & _ & _ & _ & _ & _ & H).
  exists loops. split; [exact El | ]. rewrite has_loops_iff.
  pose proof (wf_adjs W) as Hadjs. rewrite Forall_forall in Hadjs.
  pose proof (wf_n_channels W) as Hk. split.
  - intros [adj [v (Hin & Hv & Hnz)]]. destruct (Hadjs adj Hin) as (_ & Hr & Hc).
    apply In_nth_error in Hin. destruct Hin as [c Hc'].
    assert (Hlt : c < length (adjs g)) by (apply nth_error_Some; congruence).
    assert (Hv' : v < n_nodes g) by lia.
    exists v, c. split; [exact Hv' | ]. split; [lia | ].
    rewrite (proj1 (H v c adj Hv' Hc')). exact Hnz.
  - intros [v [c (Hv & Hc & Hnz)]].
    destruct (nth_error (adjs g) c) as [adj | ] eqn:E.
    + exists adj, v. pose proof (nth_error_In _ _ E) as Hin.
      destruct (Hadjs adj Hin) as (_ & Hr & Hcn).
      split; [exact Hin | ]. split; [lia | ].
      rewrite <- (proj1 (H v c adj Hv E)). exact Hnz.
    + apply nth_error_None in E. lia.
Qed.

Lemma has_loops_self_edges_witness :
  wf_graph star_and_edge_graph
  /\ exists loops, self_edges star_and_edge_graph = ret loops
       /\ (has_loops star_and_edge_graph = true
           <-> exists v c, v < n_nodes star_and_edge_graph
                           /\ c < n_channels star_and_edge_graph /\ at2 loops v c <> 0%Z).
Proof.
  split; [exact star_and_edge_wf | ].
  exact (has_loops_self_edges star_and_edge_wf).
Defined.








Lemma length_list_upd : forall (A : Type) (l : list A) k x, length (list_upd l k x) = length l.
Proof.
  induction l as [ | y l IH]; intros k x; [reflexivity | ].
  destruct k; cbn; [reflexivity | rewrite IH; reflexivity].
Qed.

Lemma nth_list_upd : forall (A : Type) (l : list A) k x i d,
  nth i (list_upd l k x) d = if (i =? k) && (k <? length l) then x else nth i l d.
Proof.
  induction l as [ | y l IH]; intros k x i d.
  - cbn [list_upd length]. rewrite andb_false_r. reflexivity.
  - destruct k as [ | k], i as [ | i]; cbn [list_upd nth]; try reflexivity.
    rewrite IH. reflexivity.
Qed.

Lemma In_list_upd : forall (A : Type) (l : list A) k x y,
  In y (list_upd l k x) -> (y = x /\ k < length l) \/ In y l.
Proof.
  induction l as [ | z l IH]; intros k x y H; [contradiction | ].
  destruct k as [ | k]; cbn [list_upd] in H.
  - destruct H as [H | H]; [left; split; [symmetry; exact H | cbn; lia] | right; right; exact H].
  - destruct H as [H | H]; [right; left; exact H | ].
    destruct (IH _ _ _ H) as [[E L] | E]; [left; split; [exact E | cbn; lia] | right; right; exact E].
Qed.

(** One step of [adj[nonzero, nonzero] = 0]. *)
Lemma zero_step_at : forall (acc : spmatrix) k i j,
  at2 (mk_array2 (nrows acc) (ncols acc)
         (list_upd (data acc) k (list_upd (nth k (data acc) []) k 0%Z))) i j
  = if (i =? k) && (j =? k) then 0%Z else at2 acc i j.
Proof.
  intros acc k i j. unfold at2. cbn [data]. rewrite nth_list_upd.
  destruct (Nat.eqb_spec i k) as [Ei | Ei]; cbn [andb]; [ | reflexivity]. subst i.
  destruct (Nat.ltb_spec k (length (data acc))) as [L | L].
  - rewrite nth_list_upd.
    destruct (Nat.eqb_spec j k) as [Ej | Ej]; cbn [andb]; [ | reflexivity]. subst j.
    destruct (Nat.ltb_spec k (length (nth k (data acc) []))) as [L' | L']; [reflexivity | ].
    apply nth_overflow. exact L'.
  - rewrite (nth_overflow (data acc)) by exact L.
    destruct (j =? k); destruct j; reflexivity.
Qed.

Lemma zero_step_wf : forall (acc : spmatrix) k,
  wf_array2 acc ->
  wf_array2 (mk_array2 (nrows acc) (ncols acc)
               (list_upd (data acc) k (list_upd (nth k (data acc) []) k 0%Z))).
Proof.
  intros acc k W. destruct W as [Wr Wc].
  split; cbn [data nrows ncols].
  - rewrite length_list_upd. exact Wr.
  - apply Forall_forall. intros r Hr. apply In_list_upd in Hr. rewrite Forall_forall in Wc.
    destruct Hr as [[E L] | Hr]; [ | apply Wc; exact Hr].
    subst r. rewrite length_list_upd. apply Wc. apply nth_In. exact L.
Qed.

Lemma zero_fold : forall ks (a : spmatrix),
  let z := fold_left (fun acc k =>
                        mk_array2 (nrows acc) (ncols acc)
                          (list_upd (data acc) k (list_upd (nth k (data acc) []) k 0%Z)))
                     ks a in
  nrows z = nrows a /\ ncols z = ncols a /\ (wf_array2 a -> wf_array2 z)
  /\ forall i j, at2 z i j = if (i =? j) && existsb (Nat.eqb i) ks then 0%Z else at2 a i j.
Proof.
  induction ks as [ | k ks IH]; intros a; cbv zeta; cbn [fold_left existsb].
  - split; [reflexivity | ]. split; [reflexivity | ]. split; [auto | ].
    intros i j. rewrite andb_false_r. reflexivity.
  - destruct (IH (mk_array2 (nrows a) (ncols a)
                    (list_upd (data a) k (list_upd (nth k (data a) []) k 0%Z))))
      as (Hr & Hc & Hw & Hat).
    cbn zeta in *. split; [exact Hr | ]. split; [exact Hc | ].
    split; [intros W; apply Hw, zero_step_wf, W | ].
    intros i j. rewrite Hat, zero_step_at.
    destruct (Nat.eqb_spec i j) as [E | E]; cbn [andb]; [subst j | ].
    + destruct (existsb (Nat.eqb i) ks); [rewrite orb_true_r; reflexivity | ].
      rewrite orb_false_r. destruct (i =? k); reflexivity.
    + destruct (Nat.eqb_spec i k) as [E1 | E1]; cbn [andb]; [ | reflexivity].
      destruct (Nat.eqb_spec j k) as [E2 | E2]; [congruence | reflexivity].
Qed.








Lemma nth_true_some : forall mask k,
  k < count_true mask -> exists v, nth_true k mask = Some v.
Proof.
  unfold count_true. induction mask as [ | b t IH]; intros k H; cbn in H; [lia | ].
  destruct b; cbn [nth_true filter length] in *.
  - destruct k as [ | k]; [eexists; reflexivity | ].
    destruct (IH k) as [v E]; [lia | ]. rewrite E. eexists. reflexivity.
  - destruct (IH k H) as [v E]. rewrite E. eexists. reflexivity.
Qed.

Lemma nth_true_spec : forall mask k v,
  nth_true k mask = Some v -> v < length mask /\ nth v mask false = true.
Proof.
  induction mask as [ | b t IH]; intros k v H; cbn [nth_true] in H; [discriminate | ].
  destruct b.
  - destruct k as [ | k].
    + inversion H; subst. cbn. split; [lia | reflexivity].
    + destruct (nth_true k t) as [w | ] eqn:E; cbn in H; [ | discriminate].
      inversion H; subst. destruct (IH _ _ E). cbn. split; [lia | assumption].
  - destruct (nth_true k t) as [w | ] eqn:E; cbn in H; [ | discriminate].
    inversion H; subst. destruct (IH _ _ E). cbn. split; [lia | assumption].
Qed.

Lemma mask_assign_all_true : forall mask vals,
  length vals = count_true mask -> Forall (fun b => b = true) vals ->
  mask_assign mask mask vals = mask.
Proof.
  unfold count_true. induction mask as [ | b t IH]; intros vals L F; [reflexivity | ].
  destruct b; cbn [mask_assign filter length] in *.
  - destruct vals as [ | v vals]; [discriminate | ].
    rewrite (Forall_inv F). f_equal. apply IH; [cbn in L; lia | exact (Forall_inv_tail F)].
  - f_equal. apply IH; assumption.
Qed.

(** [uncov[uncov] = ~one_hot(p, np.sum(uncov))] clears the [p]-th entry
    that was still true. *)
Lemma mask_assign_clear : forall mask s p v,
  s <= p -> nth_true (p - s) mask = Some v ->
  mask_assign mask mask (map (fun i => negb (p =? i)) (seq s (count_true mask)))
  = list_upd mask v false.
Proof.
  unfold count_true. induction mask as [ | b t IH]; intros s p v Hs H; [discriminate | ].
  cbn [nth_true] in H. destruct b; cbn [filter length seq map mask_assign].
  - destruct (p - s) as [ | d] eqn:D.
    + inversion H; subst v. assert (p = s) by lia. subst p.
      rewrite Nat.eqb_refl. cbn [negb list_upd]. f_equal.
      apply mask_assign_all_true.
      * rewrite length_map, length_seq. reflexivity.
      * apply Forall_map. apply Forall_forall. intros i Hi. apply in_seq in Hi.
        apply negb_true_iff, Nat.eqb_neq. lia.
    + destruct (nth_true d t) as [w | ] eqn:E; cbn in H; [ | discriminate].
      inversion H; subst v. cbn [list_upd].
      rewrite (proj2 (Nat.eqb_neq p s)) by lia. cbn [negb]. f_equal.
      apply IH; [lia | ]. replace (p - S s) with d by lia. exact E.
  - destruct (nth_true (p - s) t) as [w | ] eqn:E; cbn in H; [ | discriminate].
    inversion H; subst v. cbn [list_upd]. f_equal. apply IH; assumption.
Qed.

Lemma mask_select_In : forall (A : Type) (mask : list bool) (l : list A) i d,
  i < length l -> nth i mask false = true -> In (nth i l d) (mask_select mask l).
Proof.
  intros A. induction mask as [ | b t IH]; intros l i d Hi Hm.
  - destruct i; discriminate.
  - destruct l as [ | x l]; [cbn in Hi; lia | ].
    destruct i as [ | i]; cbn [nth] in *.
    + subst b. left. reflexivity.
    + cbn [mask_select]. destruct b; [right | ]; apply IH; cbn in Hi; try lia; exact Hm.
Qed.

Lemma mask_select_all : forall (A : Type) (l : list A),
  mask_select (repeat true (length l)) l = l.
Proof. induction l as [ | x l IH]; cbn; [reflexivity | rewrite IH; reflexivity]. Qed.

Lemma count_true_zero : forall r, count_true r = 0 <-> Forall (fun b => b = false) r.
Proof.
  unfold count_true. induction r as [ | b r IH]; cbn [filter length].
  - split; [constructor | reflexivity].
  - destruct b; cbn [length].
    + split; [lia | intros F; inversion F; discriminate].
    + rewrite IH. split; [intros F; constructor; [reflexivity | exact F]
                         | intros F; exact (Forall_inv_tail F)].
Qed.

Lemma nnz_zero : forall (m : array2 bool),
  nnz m = 0 <-> Forall (Forall (fun b => b = false)) (data m).
Proof.
  intros m. unfold nnz. induction (data m) as [ | r l IH]; cbn [map fold_right].
  - split; [constructor | reflexivity].
  - split.
    + intros H. constructor; [apply count_true_zero; lia | apply IH; lia].
    + intros F. rewrite (proj2 (count_true_zero r) (Forall_inv F)).
      rewrite (proj2 IH (Forall_inv_tail F)). reflexivity.
Qed.

(** No true entry in [m[uncov, :][:, uncov]]: no two uncovered nodes are
    neighbours. *)
Lemma uncovered_part_empty : forall (m : array2 bool) uncov sub n,
  wf_array2 m -> nrows m = n -> ncols m = n -> length uncov = n ->
  uncovered_part m uncov = ret sub -> nnz sub = 0 ->
  forall i j, i < n -> j < n ->
    nth i uncov false = true -> nth j uncov false = true -> bat m i j = false.
Proof.
  intros m uncov sub n W Hr Hc L E Z i j Hi Hj Ui Uj.
  pose proof (row_length i W) as RL. rewrite (proj2 (Nat.ltb_lt _ _)) in RL by lia.
  destruct W as [Wr Wc].
  unfold uncovered_part, rows_by_mask, cols_by_mask in E.
  rewrite L, Hr, Nat.eqb_refl in E. cbn [bind ret nrows ncols data] in E.
  rewrite Hc, Nat.eqb_refl in E. inversion E; subst sub. clear E.
  apply nnz_zero in Z. cbn [data] in Z. rewrite Forall_forall in Z.
  assert (R : In (mask_select uncov (nth i (data m) []))
                 (map (mask_select uncov) (mask_select uncov (data m)))).
  { apply in_map. apply mask_select_In; [lia | exact Ui]. }
  specialize (Z _ R). rewrite Forall_forall in Z. apply Z.
  unfold bat. apply mask_select_In; [lia | exact Uj].
Qed.

Lemma named_nodes_app : forall uncov c p,
  named_nodes uncov (p :: c)
  = match nth_true p uncov with
    | Some v => v :: named_nodes (list_upd uncov v false) c
    | None => []
    end.
Proof. reflexivity. Qed.

(** The loop invariant of [node_cover]: what is appended to [cover] names
    nodes that were uncovered, each once, and every pair of uncovered
    neighbours has one of its nodes among them. *)
Lemma node_cover_loop_covers : forall (m : array2 bool) n,
  wf_array2 m -> nrows m = n -> ncols m = n ->
  forall fuel uncov cover c,
    length uncov = n ->
    node_cover_loop fuel m uncov cover = Some (ret c) ->
    exists added, c = cover ++ added
      /\ length (named_nodes uncov added) = length added
      /\ NoDup (named_nodes uncov added)
      /\ (forall v, In v (named_nodes uncov added) -> v < n /\ nth v uncov false = true)
      /\ (forall i j, i < n -> j < n ->
            nth i uncov false = true -> nth j uncov false = true -> bat m i j = true ->
            In i (named_nodes uncov added) \/ In j (named_nodes uncov added)).
Proof.
  intros m n W Hr Hc. induction fuel as [ | fuel IH]; intros uncov cover c L H; [discriminate | ].
  cbn [node_cover_loop] in H.
  destruct (@uncovered_part_ok m uncov W) as [sub (E & Ws & Rs & Cs)]; try congruence.
  rewrite E in H. unfold ret at 1 in H. cbv iota in H.
  destruct (nnz sub =? 0) eqn:Z.
  - inversion H; subst c. exists []. rewrite app_nil_r. cbn [named_nodes length].
    split; [reflexivity | ]. split; [reflexivity | ]. split; [constructor | ].
    split; [intros v [] | ].
    intros i j Hi Hj Ui Uj B. exfalso. apply Nat.eqb_eq in Z.
    rewrite (@uncovered_part_empty m uncov sub n W Hr Hc L E Z i j Hi Hj Ui Uj) in B.
    discriminate.
  - assert (K : 0 < count_true uncov).
    { destruct (count_true uncov) eqn:K; [ | lia].
      rewrite (@nnz_needs_columns sub Ws Cs) in Z. discriminate. }
    pose proof (count_axis0_length Ws) as Lc. rewrite Cs in Lc.
    destruct (count_axis0 sub) as [ | x t] eqn:Ec; [cbn in Lc; lia | ].
    cbn [argmax bind ret] in H.
    pose proof (@argmax_from_bound t 1 x 0 (le_n 1)) as B. cbn [length] in Lc.
    set (p := argmax_from t 1 x 0) in *.
    unfold one_hot in H. rewrite (proj2 (Nat.ltb_lt _ _)) in H by lia. cbn [bind ret] in H.
    unfold set_by_mask in H. rewrite Nat.eqb_refl in H. cbn [negb] in H.
    assert (Lh : length (invert (map (Nat.eqb p) (seq 0 (count_true uncov))))
                 = count_true uncov).
    { unfold invert. rewrite !length_map, length_seq. reflexivity. }
    rewrite Lh, Nat.eqb_refl in H. cbn [bind ret] in H.
    destruct (@nth_true_some uncov p) as [v Ev]; [lia | ].
    destruct (nth_true_spec _ _ Ev) as [Hv Uv].
    assert (Eu : mask_assign uncov uncov (invert (map (Nat.eqb p) (seq 0 (count_true uncov))))
                 = list_upd uncov v false).
    { unfold invert. rewrite map_map. apply mask_assign_clear; [lia | ].
      rewrite Nat.sub_0_r. exact Ev. }
    rewrite Eu in H.
    assert (L' : length (list_upd uncov v false) = n) by (rewrite length_list_upd; exact L).
    destruct (IH (list_upd uncov v false) (cover ++ [p]) c L' H)
      as [added (Ec' & Ln & Nd & In' & Cov)].
    exists (p :: added). rewrite named_nodes_app, Ev.
    split; [rewrite Ec', <- app_assoc; reflexivity | ].
    split; [cbn [length]; rewrite Ln; reflexivity | ].
    assert (Old : forall u, In u (named_nodes (list_upd uncov v false) added) ->
                    u < n /\ u <> v /\ nth u uncov false = true).
    { intros u Hu. destruct (In' u Hu) as [Hun Hut]. rewrite nth_list_upd in Hut.
      destruct (Nat.eqb_spec u v) as [Euv | Euv]; cbn [andb] in Hut.
      - rewrite (proj2 (Nat.ltb_lt _ _)) in Hut by lia. discriminate.
      - tauto. }
    split; [constructor; [intros Hin; apply Old in Hin; lia | exact Nd] | ].
    split.
    + intros u [Eu' | Hu]; [subst u; split; [lia | exact Uv] | ].
      apply Old in Hu. tauto.
    + intros i j Hi Hj Ui Uj Bij.
      destruct (Nat.eq_dec i v) as [Ei | Ei]; [left; left; congruence | ].
      destruct (Nat.eq_dec j v) as [Ej | Ej]; [right; left; congruence | ].
      destruct (Cov i j Hi Hj) as [X | X]; try assumption.
      * rewrite nth_list_upd, (proj2 (Nat.eqb_neq i v) Ei). exact Ui.
      * rewrite nth_list_upd, (proj2 (Nat.eqb_neq j v) Ej). exact Uj.
      * left. right. exact X.
      * right. right. exact X.
Qed.

Lemma nth_repeat_true : forall n i, i < n -> nth i (repeat true n) false = true.
Proof.
  induction n as [ | n IH]; intros i H; [lia | ].
  destruct i as [ | i]; cbn; [reflexivity | apply IH; lia].
Qed.

Lemma NoDup_bounded_length : forall (l : list nat) n,
  NoDup l -> (forall v, In v l -> v < n) -> length l <= n.
Proof.
  intros l n N B.
  assert (H : length l <= length (seq 0 n)).
  { apply NoDup_incl_length; [exact N | ].
    intros v Hv. apply in_seq. specialize (B v Hv). lia. }
  rewrite length_seq in H. exact H.
Qed.

(** [node_cover] ends and raises nothing on a well-formed graph.  The
    numbers it returns are positions: read each among the nodes that the
    earlier ones left uncovered, and they name distinct nodes that touch
    every edge. *)
Theorem node_cover_positions_cover : forall g, wf_graph g ->
  exists cover m,
    node_cover g = Some (ret cover) /\ is_nbr g = ret m
    /\ length cover <= n_nodes g
    /\ length (named_nodes (repeat true (n_nodes g)) cover) = length cover
    /\ NoDup (named_nodes (repeat true (n_nodes g)) cover)
    /\ (forall v, In v (named_nodes (repeat true (n_nodes g)) cover) -> v < n_nodes g)
    /\ (forall i j, i < n_nodes g -> j < n_nodes g -> bat m i j = true ->
          In i (named_nodes (repeat true (n_nodes g)) cover)
          \/ In j (named_nodes (repeat true (n_nodes g)) cover)).
Proof.
  intros g W. destruct (node_cover_returns W) as [cover Ec].
  destruct (is_nbr_square W) as [m (Em & Wm & Hr & Hc)].
  exists cover, m. split; [exact Ec | ]. split; [exact Em | ].
  unfold node_cover in Ec. rewrite Em in Ec.
  destruct (@node_cover_loop_covers m (n_nodes g) Wm Hr Hc _ _ _ _ (repeat_length _ _) Ec)
    as [added (E & Ln & Nd & In' & Cov)].
  cbn [app] in E. subst added.
  assert (B : forall v, In v (named_nodes (repeat true (n_nodes g)) cover) -> v < n_nodes g).
  { intros v Hv. apply (In' v Hv). }
  split; [rewrite <- Ln; apply NoDup_bounded_length; assumption | ].
  split; [exact Ln | ]. split; [exact Nd | ]. split; [exact B | ].
  intros i j Hi Hj Bij. apply Cov; try assumption; apply nth_repeat_true; assumption.
Qed.

Lemma node_cover_positions_cover_witness :
  wf_graph star_and_edge_graph
  /\ exists cover m,
    node_cover star_and_edge_graph = Some (ret cover) /\ is_nbr star_and_edge_graph = ret m
    /\ length cover <= n_nodes star_and_edge_graph
    /\ length (named_nodes (repeat true (n_nodes star_and_edge_graph)) cover) = length cover
    /\ NoDup (named_nodes (repeat true (n_nodes star_and_edge_graph)) cover)
    /\ (forall v, In v (named_nodes (repeat true (n_nodes star_and_edge_graph)) cover)
                  -> v < n_nodes star_and_edge_graph)
    /\ (forall i j, i < n_nodes star_and_edge_graph -> j < n_nodes star_and_edge_graph ->
          bat m i j = true ->
          In i (named_nodes (repeat true (n_nodes star_and_edge_graph)) cover)
          \/ In j (named_nodes (repeat true (n_nodes star_and_edge_graph)) cover)).
Proof.
  split; [exact star_and_edge_wf | ].
  exact (node_cover_positions_cover star_and_edge_wf).
Defined.

Lemma uncovered_part_all : forall (m : array2 bool) n,
  wf_array2 m -> nrows m = n -> ncols m = n ->
  exists sub, uncovered_part m (repeat true n) = ret sub /\ data sub = data m.
Proof.
  intros m n [Wr Wc] Hr Hc. unfold uncovered_part, rows_by_mask, cols_by_mask.
  rewrite repeat_length, Hr, Nat.eqb_refl. cbn [bind ret nrows ncols data].
  rewrite Hc, Nat.eqb_refl. eexists. split; [reflexivity | ]. cbn [data].
  rewrite <- Hr, <- Wr, mask_select_all.
  transitivity (map (fun r : list bool => r) (data m)); [ | apply map_id].
  apply map_ext_in. intros r Hin.
  rewrite Forall_forall in Wc. rewrite Wr, Hr, <- Hc, <- (Wc r Hin). apply mask_select_all.
Qed.

(** [node_cover] returns the empty sequence exactly when no two nodes are
    joined: for every pair the entries of all channels, both directions
    together, add up to nothing positive. *)
Theorem node_cover_empty_iff : forall g, wf_graph g ->
  (node_cover g = Some (ret [])
   <-> forall i j, i < n_nodes g -> j < n_nodes g ->
         (edges_between g i j + edges_between g j i <= 0)%Z).
Proof.
  intros g W. destruct (is_nbr_entries W) as [m (Em & Wm & Hr & Hc & Hat)].
  unfold node_cover. rewrite Em. split.
  - intros H i j Hi Hj.
    destruct (@node_cover_loop_covers m (n_nodes g) Wm Hr Hc _ _ _ _ (repeat_length _ _) H)
      as [added (E & _ & _ & _ & Cov)].
    cbn [app] in E. subst added. cbn [named_nodes] in Cov.
    destruct (bat m i j) eqn:B.
    + destruct (Cov i j Hi Hj (nth_repeat_true Hi) (nth_repeat_true Hj) B) as [[] | []].
    + rewrite Hat in B by assumption. apply Z.ltb_ge in B. exact B.
  - intros H. cbn [node_cover_loop].
    destruct (@uncovered_part_all m (n_nodes g) Wm Hr Hc) as [sub [Es Ed]].
    unfold ret at 1. cbv iota. rewrite Es. unfold ret at 1. cbv iota.
    assert (Z : nnz sub = 0).
    { apply nnz_zero. rewrite Ed. apply Forall_forall. intros r Hin.
      apply Forall_forall. intros b Hb.
      destruct (In_nth _ _ [] Hin) as [i [Hi Ei]].
      destruct (In_nth _ _ false Hb) as [j [Hj Ej]].
      pose proof (row_length i Wm) as RL. destruct Wm as [Wr Wc].
      rewrite (proj2 (Nat.ltb_lt _ _)) in RL by lia.
      assert (B : bat m i j = b) by (unfold bat; rewrite Ei; exact Ej).
      rewrite <- B, Hat by (rewrite <- ?Ei in Hj; lia).
      apply Z.ltb_ge. apply H; rewrite <- ?Ei in Hj; lia. }
    rewrite Z. reflexivity.
Qed.

Lemma node_cover_empty_iff_witness :
  wf_graph star_and_edge_graph
  /\ (node_cover star_and_edge_graph = Some (ret [])
      <-> forall i j, i < n_nodes star_and_edge_graph -> j < n_nodes star_and_edge_graph ->
            (edges_between star_and_edge_graph i j
             + edges_between star_and_edge_graph j i <= 0)%Z).
Proof.
  split; [exact star_and_edge_wf | ].
  exact (node_cover_empty_iff star_and_edge_wf).
Defined.

(** *** Running store computations *)

Unset Implicit Arguments.

Lemma run_bind : forall (A B : Type) (c : M A) (k : A -> M B) h h' a,
  c h = (h', ret a) -> mbind c k h = k a h'.
Proof. intros A B c k h h' a E. unfold mbind. rewrite E. reflexivity. Qed.

Lemma run_bind_raise : forall (A B : Type) (c : M A) (k : A -> M B) h h' e,
  c h = (h', raise e) -> mbind c k h = (h', raise e).
Proof. intros A B c k h h' e E. unfold mbind. rewrite E. reflexivity. Qed.

Lemma run_load : forall h l o, nth_error h l = Some o -> load l h = (h, ret o).
Proof. intros h l o E. unfold load. rewrite E. reflexivity. Qed.

Lemma run_load_graph : forall h l g,
  nth_error h l = Some (OGraph g) -> load_graph l h = (h, ret g).
Proof. intros h l g E. unfold load_graph. rewrite (run_bind _ _ _ _ _ _ _ (run_load _ _ _ E)). reflexivity. Qed.

Lemma run_load_adjs : forall h l ls,
  nth_error h l = Some (OAdjs ls) -> load_adjs l h = (h, ret ls).
Proof. intros h l g E. unfold load_adjs. rewrite (run_bind _ _ _ _ _ _ _ (run_load _ _ _ E)). reflexivity. Qed.

Lemma run_load_matrix : forall h l m,
  nth_error h l = Some (OMatrix m) -> load_matrix l h = (h, ret m).
Proof. intros h l g E. unfold load_matrix. rewrite (run_bind _ _ _ _ _ _ _ (run_load _ _ _ E)). reflexivity. Qed.

Lemma run_load_channels : forall h l chs,
  nth_error h l = Some (OChannels chs) -> load_channels l h = (h, ret chs).
Proof. intros h l g E. unfold load_channels. rewrite (run_bind _ _ _ _ _ _ _ (run_load _ _ _ E)). reflexivity. Qed.

Lemma run_load_nodes : forall h l df,
  nth_error h l = Some (ONodes df) -> load_nodes l h = (h, ret df).
Proof. intros h l g E. unfold load_nodes. rewrite (run_bind _ _ _ _ _ _ _ (run_load _ _ _ E)). reflexivity. Qed.

Lemma run_load_edges : forall h l df,
  nth_error h l = Some (OEdges df) -> load_edges l h = (h, ret df).
Proof. intros h l g E. unfold load_edges. rewrite (run_bind _ _ _ _ _ _ _ (run_load _ _ _ E)). reflexivity. Qed.

Lemma nth_error_keeps : forall (h ext : heap) l o,
  nth_error h l = Some o -> nth_error (h ++ ext) l = Some o.
Proof.
  intros h ext l o E. rewrite nth_error_app1; [exact E | ].
  apply nth_error_Some. congruence.
Qed.

Lemma matrices_at_keeps : forall h ext ls ms,
  matrices_at h ls ms -> matrices_at (h ++ ext) ls ms.
Proof.
  intros h ext ls ms H. induction H as [ | l m ls ms E _ IH]; constructor; [ | exact IH].
  apply nth_error_keeps. exact E.
Qed.

Lemma edges_at_keeps : forall h ext l el, edges_at h l el -> edges_at (h ++ ext) l el.
Proof.
  intros h ext [l | ] el H; cbn in *; [ | exact H].
  destruct H as [ef [E1 E2]]. exists ef. split; [apply nth_error_keeps; exact E1 | exact E2].
Qed.

Lemma run_load_matrices : forall h ls ms,
  matrices_at h ls ms -> mapM_h load_matrix ls h = (h, ret ms).
Proof.
  intros h ls ms H. induction H as [ | l m ls ms E _ IH]; cbn [mapM_h]; [reflexivity | ].
  rewrite (run_bind _ _ _ _ _ _ _ (run_load_matrix _ _ _ E)), (run_bind _ _ _ _ _ _ _ IH). reflexivity.
Qed.

Lemma run_load_opt_edges : forall h l el,
  edges_at h l el -> load_opt_edges l h = (h, ret el).
Proof.
  intros h [l | ] el H; cbn in H; unfold load_opt_edges.
  - destruct H as [ef [E1 E2]]. subst el. rewrite (run_bind _ _ _ _ _ _ _ (run_load_edges _ _ _ E1)). reflexivity.
  - subst el. reflexivity.
Qed.

Lemma run_alloc : forall h o, alloc o h = (h ++ [o], ret (length h)).
Proof. reflexivity. Qed.

Lemma run_copy_matrix : forall h l m,
  nth_error h l = Some (OMatrix m) ->
  mbind (load_matrix l) (fun m => alloc (OMatrix m)) h = (h ++ [OMatrix m], ret (length h)).
Proof.
  intros h l m E. rewrite (run_bind _ _ _ _ _ _ _ (run_load_matrix _ _ _ E)). reflexivity.
Qed.

(** [[adj.copy() for adj in self.adjs]]: one new matrix per matrix. *)
Lemma run_copy_matrices : forall h ls ms ext,
  matrices_at h ls ms ->
  mapM_h (fun l => mbind (load_matrix l) (fun m => alloc (OMatrix m))) ls (h ++ ext)
  = ((h ++ ext) ++ map OMatrix ms, ret (seq (length (h ++ ext)) (length ls))).
Proof.
  intros h ls ms ext H. revert ext.
  induction H as [ | l m ls ms E _ IH]; intros ext; cbn [mapM_h map length seq].
  - rewrite app_nil_r. reflexivity.
  - rewrite (run_bind _ _ _ _ _ _ _ (run_copy_matrix _ _ _ (nth_error_keeps _ ext _ _ E))).
    rewrite <- app_assoc. rewrite (run_bind _ _ _ _ _ _ _ (IH (ext ++ [OMatrix m]))).
    unfold mret, ret. rewrite !length_app. cbn [length].
    rewrite <- !app_assoc. cbn [app]. repeat f_equal; lia.
Qed.

Lemma Graph_init_ok : forall ms chs df el,
  ms <> [] -> length ms = length chs ->
  Graph_init (ArgAdjs ms) (Some chs) (ArgFrame df) el
  = ret (mk_Graph (nrows (hd (mk_array2 0 0 []) ms)) (length ms) chs ms (combine chs ms)
           df df el).
Proof.
  intros ms chs df el Hne L. unfold Graph_init, channels_mismatch. cbn [py_len bind ret].
  rewrite L, Nat.eqb_refl. cbn [negb bind ret py_len]. rewrite L, Nat.eqb_refl. cbn [negb].
  destruct ms as [ | m ms]; [contradiction | ]. cbn [first_dim bind ret hd].
  rewrite <- L. reflexivity.
Qed.


Lemma run_Graph_new : forall h adjs ms chs nodelist df edgelist el,
  matrices_at h adjs ms -> nth_error h nodelist = Some (ONodes df) ->
  edges_at h edgelist el -> ms <> [] -> length ms = length chs ->
  Graph_new adjs chs nodelist edgelist h
  = (h ++ new_graph_objects h adjs ms chs nodelist df edgelist, ret (4 + length h)).
Proof.
  intros h adjs ms chs nodelist df edgelist el Hm Hn He Hne L. unfold Graph_new.
  rewrite (run_bind _ _ _ _ _ _ _ (run_load_matrices _ _ _ Hm)).
  rewrite (run_bind _ _ _ _ _ _ _ (run_load_nodes _ _ _ Hn)).
  rewrite (run_bind _ _ _ _ _ _ _ (run_load_opt_edges _ _ _ He)).
  rewrite (Graph_init_ok _ _ df el Hne L).
  unfold lift, mbind, alloc, new_graph_objects. cbn [ret].
  rewrite !length_app. cbn [length]. rewrite <- !app_assoc. cbn [app].
  rewrite !Nat.add_1_r. reflexivity.
Qed.


Lemma graph_at_keeps : forall h ext self go ls ms chs df el,
  graph_at h self go ls ms chs df el -> graph_at (h ++ ext) self go ls ms chs df el.
Proof.
  intros h ext self go ls ms chs df el [H1 H2 H3 H4 H5 H6].
  constructor; try (apply nth_error_keeps; assumption).
  - apply matrices_at_keeps. exact H3.
  - apply edges_at_keeps. exact H6.
Qed.

Lemma graph_at_views : forall h self go ls ms chs df el,
  graph_at h self go ls ms chs df el ->
  graph_view h self = Some (ms, chs, df)
  /\ edges_view h self = Some el
  /\ graph_refs h self = Some (ls, o_nodelist go, o_edgelist go).
Proof.
  intros h self go ls ms chs df el [H1 H2 H3 H4 H5 H6].
  unfold graph_view, edges_view, graph_refs, read_graph, read_edges, read_refs.
  rewrite !(run_bind _ _ _ _ _ _ _ (run_load_graph _ _ _ H1)).
  rewrite !(run_bind _ _ _ _ _ _ _ (run_load_adjs _ _ _ H2)).
  rewrite (run_bind _ _ _ _ _ _ _ (run_load_matrices _ _ _ H3)).
  rewrite (run_bind _ _ _ _ _ _ _ (run_load_channels _ _ _ H4)).
  rewrite (run_bind _ _ _ _ _ _ _ (run_load_nodes _ _ _ H5)).
  rewrite (run_load_opt_edges _ _ _ H6). repeat split.
Qed.

Lemma load_inv : forall h l h' o, load l h = (h', ret o) -> h' = h /\ nth_error h l = Some o.
Proof.
  intros h l h' o H. unfold load in H. destruct (nth_error h l) as [o' | ]; inversion H.
  split; reflexivity.
Qed.

Lemma mbind_inv : forall (A B : Type) (c : M A) (k : A -> M B) h h' b,
  mbind c k h = (h', ret b) -> exists h1 a, c h = (h1, ret a) /\ k a h1 = (h', ret b).
Proof.
  intros A B c k h h' b H. unfold mbind in H.
  destruct (c h) as [h1 [e | a]]; [inversion H | ]. exists h1, a. split; [reflexivity | exact H].
Qed.

Lemma load_matrices_inv : forall ls h h' ms,
  mapM_h load_matrix ls h = (h', ret ms) -> h' = h /\ matrices_at h ls ms.
Proof.
  induction ls as [ | l ls IH]; intros h h' ms H; cbn [mapM_h] in H.
  - inversion H. split; [reflexivity | constructor].
  - apply mbind_inv in H. destruct H as (h1 & m & H1 & H).
    apply mbind_inv in H. destruct H as (h2 & ms' & H2 & H).
    inversion H; subst h' ms. clear H.
    unfold load_matrix in H1. apply mbind_inv in H1. destruct H1 as (h0 & o & L & H1).
    apply load_inv in L. destruct L as [E0 L]. subst h0.
    destruct o; try discriminate. inversion H1; subst h1 m0. clear H1.
    destruct (IH _ _ _ H2) as [E2 M]. subst h2.
    split; [reflexivity | constructor; assumption].
Qed.

Lemma load_graph_inv : forall h l h' g,
  load_graph l h = (h', ret g) -> h' = h /\ nth_error h l = Some (OGraph g).
Proof.
  intros h l h' g H. unfold load_graph in H. apply mbind_inv in H.
  destruct H as (h0 & o & L & H). apply load_inv in L. destruct L as [E L]. subst h0.
  destruct o; try discriminate. inversion H; subst. split; [reflexivity | exact L].
Qed.

Lemma load_adjs_inv : forall h l h' ls,
  load_adjs l h = (h', ret ls) -> h' = h /\ nth_error h l = Some (OAdjs ls).
Proof.
  intros h l h' g H. unfold load_adjs in H. apply mbind_inv in H.
  destruct H as (h0 & o & L & H). apply load_inv in L. destruct L as [E L]. subst h0.
  destruct o; try discriminate. inversion H; subst. split; [reflexivity | exact L].
Qed.

Lemma load_channels_inv : forall h l h' chs,
  load_channels l h = (h', ret chs) -> h' = h /\ nth_error h l = Some (OChannels chs).
Proof.
  intros h l h' g H. unfold load_channels in H. apply mbind_inv in H.
  destruct H as (h0 & o & L & H). apply load_inv in L. destruct L as [E L]. subst h0.
  destruct o; try discriminate. inversion H; subst. split; [reflexivity | exact L].
Qed.

Lemma load_nodes_inv : forall h l h' df,
  load_nodes l h = (h', ret df) -> h' = h /\ nth_error h l = Some (ONodes df).
Proof.
  intros h l h' g H. unfold load_nodes in H. apply mbind_inv in H.
  destruct H as (h0 & o & L & H). apply load_inv in L. destruct L as [E L]. subst h0.
  destruct o; try discriminate. inversion H; subst. split; [reflexivity | exact L].
Qed.

Lemma load_edges_inv : forall h l h' df,
  load_edges l h = (h', ret df) -> h' = h /\ nth_error h l = Some (OEdges df).
Proof.
  intros h l h' g H. unfold load_edges in H. apply mbind_inv in H.
  destruct H as (h0 & o & L & H). apply load_inv in L. destruct L as [E L]. subst h0.
  destruct o; try discriminate. inversion H; subst. split; [reflexivity | exact L].
Qed.

Lemma load_opt_edges_inv : forall h l h' el,
  load_opt_edges l h = (h', ret el) -> h' = h /\ edges_at h l el.
Proof.
  intros h [l | ] h' el H; unfold load_opt_edges in H.
  - apply mbind_inv in H. destruct H as (h0 & df & L & H).
    apply load_edges_inv in L. destruct L as [E L]. subst h0.
    inversion H; subst. split; [reflexivity | ]. exists df. split; [exact L | reflexivity].
  - inversion H; subst. split; reflexivity.
Qed.

(** Reading a graph succeeds exactly when its references lead to objects
    of the right kinds. *)
Lemma views_graph_at : forall h self ms chs df el,
  graph_view h self = Some (ms, chs, df) -> edges_view h self = Some el ->
  exists go ls, graph_at h self go ls ms chs df el.
Proof.
  intros h self ms chs df el V E. unfold graph_view in V. unfold edges_view in E.
  destruct (read_graph self h) as [h1 [e | v]] eqn:R; cbn [snd] in V; [discriminate | ].
  inversion V; subst v. clear V.
  destruct (read_edges self h) as [h2 [e | v]] eqn:R2; cbn [snd] in E; [discriminate | ].
  inversion E; subst v. clear E.
  unfold read_graph in R.
  apply mbind_inv in R. destruct R as (h0 & go & L1 & R).
  apply load_graph_inv in L1. destruct L1 as [E0 L1]. subst h0.
  apply mbind_inv in R. destruct R as (h0 & ls & L2 & R).
  apply load_adjs_inv in L2. destruct L2 as [E0 L2]. subst h0.
  apply mbind_inv in R. destruct R as (h0 & ms' & L3 & R).
  apply load_matrices_inv in L3. destruct L3 as [E0 L3]. subst h0.
  apply mbind_inv in R. destruct R as (h0 & chs' & L4 & R).
  apply load_channels_inv in L4. destruct L4 as [E0 L4]. subst h0.
  apply mbind_inv in R. destruct R as (h0 & df' & L5 & R).
  apply load_nodes_inv in L5. destruct L5 as [E0 L5]. subst h0.
  inversion R; subst. clear R.
  unfold read_edges in R2.
  rewrite (run_bind _ _ _ _ _ _ _ (run_load_graph _ _ _ L1)) in R2.
  apply load_opt_edges_inv in R2. destruct R2 as [_ L6].
  exists go, ls. constructor; assumption.
Qed.

Lemma nth_error_new : forall (h ext : heap) k o,
  nth_error ext k = Some o -> nth_error (h ++ ext) (k + length h) = Some o.
Proof.
  intros h ext k o E. rewrite nth_error_app2 by lia.
  replace (k + length h - length h) with k by lia. exact E.
Qed.

Lemma Graph_new_spec : forall h adjs ms chs nodelist df edgelist el,
  matrices_at h adjs ms -> nth_error h nodelist = Some (ONodes df) ->
  edges_at h edgelist el -> ms <> [] -> length ms = length chs ->
  exists ext go,
    Graph_new adjs chs nodelist edgelist h = (h ++ ext, ret (4 + length h))
    /\ graph_at (h ++ ext) (4 + length h) go adjs ms chs df el
    /\ o_nodelist go = nodelist /\ o_edgelist go = edgelist.
Proof.
  intros h adjs ms chs nodelist df edgelist el Hm Hn He Hne L.
  exists (new_graph_objects h adjs ms chs nodelist df edgelist).
  exists (mk_graph_obj (nrows (hd (mk_array2 0 0 []) ms)) (length ms)
            (length h) (1 + length h) (2 + length h) nodelist (3 + length h) edgelist).
  split; [apply (run_Graph_new _ _ _ _ _ _ _ el); assumption | ].
  split; [ | split; reflexivity].
  unfold new_graph_objects. constructor; cbn [o_adjs o_channels o_nodelist o_edgelist].
  - apply (nth_error_new h _ 4). reflexivity.
  - apply (nth_error_new h _ 1). reflexivity.
  - apply matrices_at_keeps. exact Hm.
  - apply (nth_error_new h _ 0). reflexivity.
  - apply nth_error_keeps. exact Hn.
  - apply edges_at_keeps. exact He.
Qed.

(** The edgelist handed to the new graph: none, or a new frame made from
    the rows of the old one. *)
Lemma run_new_edgelist : forall h (oel : option loc) el (f : edgeframe -> edgeframe),
  edges_at h oel el ->
  exists ext l',
    (match oel with
     | Some el =>
         mbind (load_edges el) (fun df =>
         mbind (alloc (OEdges (f df))) (fun l => mret (Some l)))
     | None => mret None
     end) h = (h ++ ext, ret l')
    /\ edges_at (h ++ ext) l' (option_map f el)
    /\ (forall l, l' = Some l -> length h <= l).
Proof.
  intros h [l | ] el f H; cbn in H.
  - destruct H as [ef [E1 E2]]. subst el.
    exists [OEdges (f ef)], (Some (length h)).
    rewrite (run_bind _ _ _ _ _ _ _ (run_load_edges _ _ _ E1)).
    split; [reflexivity | ]. split.
    + exists (f ef). split; [ | reflexivity]. apply (nth_error_new h _ 0). reflexivity.
    + intros l0 E. inversion E. lia.
  - subst el. exists [], None. rewrite app_nil_r. split; [reflexivity | ].
    split; [reflexivity | intros l E; discriminate].
Qed.

Lemma matrices_at_fresh : forall (h : heap) ms ext,
  matrices_at ((h ++ map OMatrix ms) ++ ext) (seq (length h) (length ms)) ms.
Proof.
  intros h ms ext. apply matrices_at_keeps. revert h.
  induction ms as [ | m ms IH]; intros h; cbn [map length seq]; [constructor | ].
  constructor.
  - rewrite nth_error_app2, Nat.sub_diag by lia. reflexivity.
  - specialize (IH (h ++ [OMatrix m])). rewrite length_app, <- app_assoc in IH.
    cbn [length app] in IH. rewrite Nat.add_1_r in IH. exact IH.
Qed.

Lemma matrices_at_length : forall h ls ms, matrices_at h ls ms -> length ls = length ms.
Proof. intros h ls ms H. induction H; cbn; congruence. Qed.

Lemma option_map_id : forall (A : Type) (o : option A), option_map (fun x => x) o = o.
Proof. intros A [x | ]; reflexivity. Qed.


Lemma run_copy : forall h self go ls ms chs df el,
  graph_at h self go ls ms chs df el -> ms <> [] -> length ms = length chs ->
  exists ls' nl' ol',
    builds h (copy self) ls' ms chs nl' df ol' el
    /\ Forall (fun l => length h <= l) ls' /\ length h <= nl'
    /\ (forall l, ol' = Some l -> length h <= l).
Proof.
  intros h self go ls ms chs df el [H1 H2 H3 H4 H5 H6] Hne L.
  pose proof (matrices_at_length _ _ _ H3) as Lls.
  pose proof (run_copy_matrices h ls ms [] H3) as C. rewrite app_nil_r, Lls in C.
  set (h1 := h ++ map OMatrix ms) in *.
  destruct (run_new_edgelist h1 (o_edgelist go) el (fun d => d)
              (edges_at_keeps _ _ _ _ H6)) as (ext2 & ol' & R2 & E2 & F2).
  rewrite option_map_id in E2.
  set (h3 := (h1 ++ ext2) ++ [ONodes df]).
  destruct (Graph_new_spec h3 (seq (length h) (length ms)) ms chs (length (h1 ++ ext2)) df ol' el)
    as (ext & go' & R & G & N & O); try assumption.
  { unfold h3, h1. rewrite <- app_assoc. apply matrices_at_fresh. }
  { unfold h3. rewrite nth_error_app2, Nat.sub_diag by lia. reflexivity. }
  { unfold h3. apply edges_at_keeps. exact E2. }
  exists (seq (length h) (length ms)), (length (h1 ++ ext2)), ol'.
  split.
  - exists (map OMatrix ms ++ ext2 ++ [ONodes df] ++ ext), (4 + length h3), go'.
    replace (h ++ map OMatrix ms ++ ext2 ++ [ONodes df] ++ ext) with (h3 ++ ext)
      by (unfold h3, h1; rewrite <- !app_assoc; reflexivity).
    split; [ | split; [unfold h3, h1; rewrite !length_app; lia | ]].
    + unfold copy.
      rewrite (run_bind _ _ _ _ _ _ _ (run_load_graph _ _ _ H1)).
      rewrite (run_bind _ _ _ _ _ _ _ (run_load_adjs _ _ _ H2)).
      rewrite (run_bind _ _ _ _ _ _ _ C).
      rewrite (run_bind _ _ _ _ _ _ _ R2).
      assert (H4' : nth_error (h1 ++ ext2) (o_channels go) = Some (OChannels chs))
        by (unfold h1; do 2 apply nth_error_keeps; exact H4).
      assert (H5' : nth_error (h1 ++ ext2) (o_nodelist go) = Some (ONodes df))
        by (unfold h1; do 2 apply nth_error_keeps; exact H5).
      rewrite (run_bind _ _ _ _ _ _ _ (run_load_channels _ _ _ H4')).
      rewrite (run_bind _ _ _ _ _ _ _ (run_load_nodes _ _ _ H5')).
      rewrite (run_bind _ _ _ _ _ _ _ (run_alloc _ _)).
      exact R.
    + split; [exact G | ]. split; assumption.
  - split; [apply Forall_forall; intros l Hl; apply in_seq in Hl; lia | ].
    split; [unfold h1; rewrite !length_app; lia | ].
    intros l El. specialize (F2 l El). unfold h1 in F2. rewrite length_app in F2. lia.
Qed.

Lemma run_store : forall h l o,
  l < length h -> store l o h = (list_upd h l o, ret tt).
Proof. intros h l o H. unfold store. rewrite (proj2 (Nat.ltb_lt _ _) H). reflexivity. Qed.

(** The loop that clears the diagonals of the copies. *)
Lemma run_zero_matrices : forall ms h,
  mapM_h (fun l => mbind (load_matrix l) (fun m => store l (OMatrix (zero_diagonal m))))
         (seq (length h) (length ms)) (h ++ map OMatrix ms)
  = (h ++ map OMatrix (map zero_diagonal ms), ret (map (fun _ => tt) ms)).
Proof.
  induction ms as [ | m ms IH]; intros h; cbn [length seq map mapM_h]; [reflexivity | ].
  assert (E : nth_error (h ++ OMatrix m :: map OMatrix ms) (length h) = Some (OMatrix m)).
  { rewrite nth_error_app2, Nat.sub_diag by lia. reflexivity. }
  assert (S1 : mbind (load_matrix (length h))
                 (fun m0 => store (length h) (OMatrix (zero_diagonal m0)))
                 (h ++ OMatrix m :: map OMatrix ms)
               = ((h ++ [OMatrix (zero_diagonal m)]) ++ map OMatrix ms, ret tt)).
  { rewrite (run_bind _ _ _ _ _ _ _ (run_load_matrix _ _ _ E)).
    rewrite run_store by (rewrite length_app; cbn [length]; lia).
    rewrite list_upd_app_r by lia. rewrite Nat.sub_diag. cbn [list_upd].
    rewrite <- app_assoc. reflexivity. }
  rewrite (run_bind _ _ _ _ _ _ _ S1).
  specialize (IH (h ++ [OMatrix (zero_diagonal m)])).
  rewrite length_app in IH. cbn [length] in IH. rewrite Nat.add_1_r in IH.
  rewrite (run_bind _ _ _ _ _ _ _ IH). rewrite <- app_assoc. reflexivity.
Qed.

Lemma run_loopless_subgraph : forall h self go ls ms chs df el,
  graph_at h self go ls ms chs df el -> ms <> [] -> length ms = length chs ->
  exists ls' ol',
    builds h (loopless_subgraph self) ls' (map zero_diagonal ms) chs (o_nodelist go) df ol'
      (option_map (filter (fun e => negb (label_eqb (e_source e) (e_target e)))) el)
    /\ Forall (fun l => length h <= l) ls'
    /\ (forall l, ol' = Some l -> length h <= l).
Proof.
  intros h self go ls ms chs df el [H1 H2 H3 H4 H5 H6] Hne L.
  pose proof (matrices_at_length _ _ _ H3) as Lls.
  pose proof (run_copy_matrices h ls ms [] H3) as C. rewrite app_nil_r, Lls in C.
  pose proof (run_zero_matrices ms h) as Z.
  set (h1 := h ++ map OMatrix (map zero_diagonal ms)) in *.
  destruct (run_new_edgelist h1 (o_edgelist go) el
              (filter (fun e => negb (label_eqb (e_source e) (e_target e))))
              (edges_at_keeps _ _ _ _ H6)) as (ext2 & ol' & R2 & E2 & F2).
  assert (H4' : nth_error (h1 ++ ext2) (o_channels go) = Some (OChannels chs))
    by (unfold h1; do 2 apply nth_error_keeps; exact H4).
  assert (H5' : nth_error (h1 ++ ext2) (o_nodelist go) = Some (ONodes df))
    by (unfold h1; do 2 apply nth_error_keeps; exact H5).
  destruct (Graph_new_spec (h1 ++ ext2) (seq (length h) (length ms)) (map zero_diagonal ms)
              chs (o_nodelist go) df ol'
              (option_map (filter (fun e => negb (label_eqb (e_source e) (e_target e)))) el))
    as (ext & go' & R & G & N & O); try assumption.
  { unfold h1. rewrite <- (length_map zero_diagonal ms). apply matrices_at_fresh. }
  { destruct ms; [contradiction | discriminate]. }
  { rewrite length_map. exact L. }
  exists (seq (length h) (length ms)), ol'.
  split.
  - exists (map OMatrix (map zero_diagonal ms) ++ ext2 ++ ext), (4 + length (h1 ++ ext2)), go'.
    replace (h ++ map OMatrix (map zero_diagonal ms) ++ ext2 ++ ext) with ((h1 ++ ext2) ++ ext)
      by (unfold h1; rewrite <- !app_assoc; reflexivity).
    split; [ | split; [unfold h1; rewrite !length_app; lia | ]].
    + unfold loopless_subgraph.
      rewrite (run_bind _ _ _ _ _ _ _ (run_load_graph _ _ _ H1)).
      rewrite (run_bind _ _ _ _ _ _ _ (run_load_adjs _ _ _ H2)).
      rewrite (run_bind _ _ _ _ _ _ _ C).
      rewrite (run_bind _ _ _ _ _ _ _ Z).
      rewrite (run_bind _ _ _ _ _ _ _ R2).
      rewrite (run_bind _ _ _ _ _ _ _ (run_load_channels _ _ _ H4')).
      exact R.
    + split; [exact G | ]. split; assumption.
  - split; [apply Forall_forall; intros l Hl; apply in_seq in Hl; lia | ].
    intros l El. specialize (F2 l El). unfold h1 in F2. rewrite length_app in F2. lia.
Qed.


Lemma norm_index_wrap : forall n k, index_ok n k -> norm_index n k = ret (wrap n k).
Proof.
  intros n k [H1 H2]. unfold norm_index, wrap.
  destruct (Z.ltb_spec k 0) as [N | N].
  - rewrite (proj2 (Z.leb_gt 0 k)) by lia. cbn [andb].
    rewrite (proj2 (Z.leb_le _ _) H1). reflexivity.
  - rewrite (proj2 (Z.leb_le 0 k)), (proj2 (Z.ltb_lt _ _) H2) by lia. reflexivity.
Qed.

Lemma norm_index_raises : forall n k,
  ~ index_ok n k -> norm_index n k = raise (IndexError "index out of bounds").
Proof.
  intros n k H. unfold norm_index, index_ok in *.
  destruct (Z.leb_spec 0 k), (Z.ltb_spec k (Z.of_nat n)); cbn [andb]; try lia;
    destruct (Z.leb_spec (- Z.of_nat n) k), (Z.ltb_spec k 0); cbn [andb]; try lia; reflexivity.
Qed.

Lemma wrap_lt : forall n k, index_ok n k -> wrap n k < n.
Proof. intros n k [H1 H2]. unfold wrap. destruct (Z.ltb_spec k 0); lia. Qed.

Lemma mapM_norm_index : forall n idxs,
  Forall (index_ok n) idxs -> mapM (norm_index n) idxs = ret (map (wrap n) idxs).
Proof.
  intros n idxs H. induction H as [ | k idxs Hk _ IH]; cbn [mapM map]; [reflexivity | ].
  rewrite (norm_index_wrap _ _ Hk), IH. reflexivity.
Qed.

Lemma mapM_norm_index_raises : forall n idxs,
  ~ Forall (index_ok n) idxs ->
  mapM (norm_index n) idxs = raise (IndexError "index out of bounds").
Proof.
  intros n idxs. induction idxs as [ | k idxs IH]; intros H; [exfalso; apply H; constructor | ].
  cbn [mapM].
  assert (D : index_ok n k \/ ~ index_ok n k) by (unfold index_ok; lia).
  destruct D as [Hk | Hk].
  - rewrite (norm_index_wrap _ _ Hk). cbn [bind ret]. rewrite IH; [reflexivity | ].
    intros F. apply H. constructor; assumption.
  - rewrite (norm_index_raises _ _ Hk). reflexivity.
Qed.

(** The induced matrix of a square matrix: entry [(a, b)] is the entry of
    the original at the nodes that positions [a] and [b] select. *)
Lemma induced_at : forall (m : spmatrix) n idxs,
  nrows m = n -> ncols m = n -> Forall (index_ok n) idxs ->
  exists sub, induced idxs m = ret sub
    /\ wf_array2 sub /\ nrows sub = length idxs /\ ncols sub = length idxs
    /\ forall a b, a < length idxs -> b < length idxs ->
         at2 sub a b = at2 m (wrap n (nth a idxs 0%Z)) (wrap n (nth b idxs 0%Z)).
Proof.
  intros m n idxs Hr Hc Hi. unfold induced, rows_by_idx, cols_by_idx_with.
  rewrite Hr, (mapM_norm_index _ _ Hi). cbn [bind ret nrows ncols data].
  rewrite Hc, (mapM_norm_index _ _ Hi). cbn [bind ret].
  eexists. split; [reflexivity | ]. split; [ | split; [reflexivity | split; [reflexivity | ]]].
  - split; cbn [data nrows ncols].
    + rewrite !length_map. reflexivity.
    + apply Forall_map. apply Forall_forall. intros r _. rewrite !length_map. reflexivity.
  - intros a b Ha Hb. unfold at2. cbn [data].
    pose proof (@nth_map_lt _ _ (wrap n) 0 0%Z idxs a Ha) as Ea.
    pose proof (@nth_map_lt _ _ (wrap n) 0 0%Z idxs b Hb) as Eb.
    assert (L : length (map (wrap n) idxs) = length idxs) by apply length_map.
    set (idx' := map (wrap n) idxs) in *.
    rewrite map_map.
    rewrite (@nth_map_lt _ _
               (fun i => map (fun j => nth j (nth i (data m) []) 0%Z) idx') [] 0 idx' a)
      by lia.
    rewrite (@nth_map_lt _ _ (fun j => nth j (nth (nth a idx' 0) (data m) []) 0%Z)
               0%Z 0 idx' b) by lia.
    rewrite Ea, Eb. reflexivity.
Qed.

Lemma run_lift : forall (A : Type) (r : result A) a h, r = ret a -> lift r h = (h, ret a).
Proof. intros A r a h E. subst r. reflexivity. Qed.

Lemma mapM_cons_inv : forall (A B : Type) (f : A -> result B) x xs ys,
  mapM f (x :: xs) = ret ys ->
  exists y ys', f x = ret y /\ mapM f xs = ret ys' /\ ys = y :: ys'.
Proof.
  intros A B f x xs ys H. cbn [mapM] in H.
  destruct (f x) as [e | y]; [discriminate | ]. cbn [bind] in H.
  destruct (mapM f xs) as [e | ys']; [discriminate | ]. cbn [bind] in H.
  inversion H. exists y, ys'. repeat split.
Qed.

(** [[adj[node_idxs, :][:, node_idxs] for adj in self.adjs]] *)
Lemma run_induce_matrices : forall idxs h ls ms,
  matrices_at h ls ms -> forall ms' ext,
  mapM (induced idxs) ms = ret ms' ->
  mapM_h (fun l =>
            mbind (load_matrix l) (fun m =>
            mbind (lift (bind (rows_by_idx m idxs) (fun r => cols_by_idx_with 0%Z r idxs)))
                  (fun sub => alloc (OMatrix sub)))) ls (h ++ ext)
  = ((h ++ ext) ++ map OMatrix ms', ret (seq (length (h ++ ext)) (length ls))).
Proof.
  intros idxs h ls ms H.
  induction H as [ | l m ls ms E _ IH]; intros ms' ext Hm; cbn [mapM_h length seq].
  - inversion Hm. cbn [map]. rewrite app_nil_r. reflexivity.
  - apply mapM_cons_inv in Hm. destruct Hm as (sub & ms2 & Es & Em & Eq). subst ms'.
    assert (S1 : mbind (load_matrix l) (fun m0 =>
                   mbind (lift (bind (rows_by_idx m0 idxs)
                                     (fun r => cols_by_idx_with 0%Z r idxs)))
                         (fun sub0 => alloc (OMatrix sub0))) (h ++ ext)
                 = ((h ++ ext) ++ [OMatrix sub], ret (length (h ++ ext)))).
    { rewrite (run_bind _ _ _ _ _ _ _ (run_load_matrix _ _ _ (nth_error_keeps _ ext _ _ E))).
      rewrite (run_bind _ _ _ _ _ _ _ (run_lift _ _ _ _ Es)). reflexivity. }
    rewrite (run_bind _ _ _ _ _ _ _ S1).
    rewrite <- app_assoc. rewrite (run_bind _ _ _ _ _ _ _ (IH ms2 (ext ++ [OMatrix sub]) Em)).
    unfold mret, ret. rewrite !length_app. cbn [length map].
    rewrite <- !app_assoc. cbn [app]. rewrite !Nat.add_1_r, Nat.add_succ_r.
    reflexivity.
Qed.

Lemma run_node_subgraph : forall h self go ls ms chs df el idxs ms' rows,
  graph_at h self go ls ms chs df el -> ms <> [] -> length ms = length chs ->
  mapM (induced idxs) ms = ret ms' -> mapM (list_get df) idxs = ret rows ->
  exists ls' nl' ol',
    builds h (node_subgraph self idxs) ls' ms' chs nl' rows ol'
      (option_map (filter (fun e => isin rows (e_source e) && isin rows (e_target e))) el)
    /\ Forall (fun l => length h <= l) ls' /\ length h <= nl'
    /\ (forall l, ol' = Some l -> length h <= l).
Proof.
  intros h self go ls ms chs df el idxs ms' rows [H1 H2 H3 H4 H5 H6] Hne L Hm Hrows.
  pose proof (matrices_at_length _ _ _ H3) as Lls.
  pose proof (mapM_length _ _ Hm) as Lms.
  pose proof (run_induce_matrices idxs h ls ms H3 ms' [] Hm) as C.
  rewrite app_nil_r, Lls, <- Lms in C.
  set (h1 := h ++ map OMatrix ms') in *.
  assert (H5' : nth_error h1 (o_nodelist go) = Some (ONodes df))
    by (unfold h1; apply nth_error_keeps; exact H5).
  set (h2 := h1 ++ [ONodes rows]).
  destruct (run_new_edgelist h2 (o_edgelist go) el
              (filter (fun e => isin rows (e_source e) && isin rows (e_target e)))
              (edges_at_keeps _ _ _ _ (edges_at_keeps _ _ _ _ H6)))
    as (ext2 & ol' & R2 & E2 & F2).
  fold h1 in R2, E2, F2. fold h2 in R2, E2, F2.
  assert (H4' : nth_error (h2 ++ ext2) (o_channels go) = Some (OChannels chs))
    by (unfold h2, h1; do 3 apply nth_error_keeps; exact H4).
  destruct (Graph_new_spec (h2 ++ ext2) (seq (length h) (length ms')) ms' chs (length h1) rows ol'
              (option_map (filter (fun e => isin rows (e_source e) && isin rows (e_target e))) el))
    as (ext & go' & R & G & N & O); try assumption.
  { unfold h2, h1. rewrite <- !app_assoc. rewrite app_assoc. apply matrices_at_fresh. }
  { unfold h2. apply nth_error_keeps. rewrite nth_error_app2, Nat.sub_diag by lia. reflexivity. }
  { destruct ms; [contradiction | ]. destruct ms'; [discriminate | discriminate]. }
  { congruence. }
  exists (seq (length h) (length ms')), (length h1), ol'.
  split.
  - exists (map OMatrix ms' ++ [ONodes rows] ++ ext2 ++ ext), (4 + length (h2 ++ ext2)), go'.
    replace (h ++ map OMatrix ms' ++ [ONodes rows] ++ ext2 ++ ext) with ((h2 ++ ext2) ++ ext)
      by (unfold h2, h1; rewrite <- !app_assoc; reflexivity).
    split; [ | split; [unfold h2, h1; rewrite !length_app; lia | ]].
    + unfold node_subgraph.
      rewrite (run_bind _ _ _ _ _ _ _ (run_load_graph _ _ _ H1)).
      rewrite (run_bind _ _ _ _ _ _ _ (run_load_adjs _ _ _ H2)).
      rewrite (run_bind _ _ _ _ _ _ _ C).
      rewrite (run_bind _ _ _ _ _ _ _ (run_load_nodes _ _ _ H5')).
      rewrite (run_bind _ _ _ _ _ _ _ (run_lift _ _ _ _ Hrows)).
      rewrite (run_bind _ _ _ _ _ _ _ (run_alloc _ _)).
      cbv zeta. fold h2.
      rewrite (run_bind _ _ _ _ _ _ _ R2).
      rewrite (run_bind _ _ _ _ _ _ _ (run_load_channels _ _ _ H4')).
      exact R.
    + split; [exact G | ]. split; assumption.
  - split; [apply Forall_forall; intros l Hl; apply in_seq in Hl; lia | ].
    split; [unfold h1; rewrite !length_app; lia | ].
    intros l El. specialize (F2 l El). unfold h2, h1 in F2. rewrite !length_app in F2. lia.
Qed.

Lemma list_index_found : forall x l s,
  In x l -> list_index x l s = ret (s + index_of x l) /\ index_of x l < length l.
Proof.
  intros x l. induction l as [ | y l IH]; intros s H; [contradiction | ].
  cbn [list_index index_of length]. destruct (String.eqb_spec y x) as [E | E].
  - rewrite Nat.add_0_r. split; [reflexivity | lia].
  - destruct H as [H | H]; [contradiction | ].
    destruct (IH (S s) H) as [E1 E2]. rewrite E1. split; [f_equal; lia | lia].
Qed.

Lemma list_index_missing : forall x l s,
  ~ In x l -> list_index x l s = raise (ValueError "x is not in list").
Proof.
  intros x l. induction l as [ | y l IH]; intros s H; [reflexivity | ].
  cbn [list_index]. destruct (String.eqb_spec y x) as [E | E].
  - exfalso. apply H. left. exact E.
  - apply IH. intros Hin. apply H. right. exact Hin.
Qed.

Lemma list_get_nat : forall (A : Type) (l : list A) k d,
  k < length l -> list_get l (Z.of_nat k) = ret (nth k l d).
Proof.
  intros A l k d H. unfold list_get.
  rewrite norm_index_of_nat by exact H. cbn [bind ret].
  rewrite (nth_error_nth' l d H). reflexivity.
Qed.

(** [[self.adjs[self.channels.index(ch)] for ch in channels]] *)
Lemma pick_channels : forall (ls : list loc) chs chs',
  length ls = length chs -> incl chs' chs ->
  mapM (fun ch => bind (list_index ch chs 0) (fun k => list_get ls (Z.of_nat k))) chs'
  = ret (map (fun ch => nth (index_of ch chs) ls 0) chs').
Proof.
  intros ls chs chs' L. induction chs' as [ | ch chs' IH]; intros H; cbn [mapM map];
    [reflexivity | ].
  destruct (list_index_found ch chs 0 (H ch (or_introl eq_refl))) as [E B].
  rewrite E. cbn [bind ret Nat.add].
  rewrite (list_get_nat _ ls _ 0) by lia. cbn [bind ret].
  rewrite IH; [reflexivity | ]. intros x Hx. apply H. right. exact Hx.
Qed.

Lemma pick_channels_missing : forall (ls : list loc) chs chs',
  length ls = length chs -> ~ incl chs' chs ->
  mapM (fun ch => bind (list_index ch chs 0) (fun k => list_get ls (Z.of_nat k))) chs'
  = raise (ValueError "x is not in list").
Proof.
  intros ls chs chs' L. induction chs' as [ | ch chs' IH]; intros H.
  - exfalso. apply H. intros x [].
  - cbn [mapM]. destruct (in_dec string_dec ch chs) as [Hin | Hout].
    + destruct (list_index_found ch chs 0 Hin) as [E B].
      rewrite E. cbn [bind ret Nat.add].
      rewrite (list_get_nat _ ls _ 0) by lia. cbn [bind ret].
      rewrite IH; [reflexivity | ].
      intros I. apply H. intros x [Ex | Hx]; [subst x; exact Hin | apply I; exact Hx].
    + rewrite (list_index_missing _ _ 0 Hout). reflexivity.
Qed.

Lemma matrices_at_nth : forall h ls ms k,
  matrices_at h ls ms -> k < length ls ->
  nth_error h (nth k ls 0) = Some (OMatrix (nth k ms (mk_array2 0 0 []))).
Proof.
  intros h ls ms k H. revert k.
  induction H as [ | l m ls ms E _ IH]; intros k Hk; cbn [length] in Hk; [lia | ].
  destruct k as [ | k]; cbn [nth]; [exact E | apply IH; lia].
Qed.

Lemma run_channel_subgraph : forall h self go ls ms chs df el chs',
  graph_at h self go ls ms chs df el -> length ms = length chs ->
  chs' <> [] -> incl chs' chs ->
  exists ol',
    builds h (channel_subgraph self chs')
      (map (fun ch => nth (index_of ch chs) ls 0) chs')
      (map (fun ch => nth (index_of ch chs) ms (mk_array2 0 0 [])) chs')
      chs' (o_nodelist go) df ol'
      (option_map (filter (fun e => existsb (String.eqb (e_channel e)) chs')) el)
    /\ (forall l, ol' = Some l -> length h <= l).
Proof.
  intros h self go ls ms chs df el chs' [H1 H2 H3 H4 H5 H6] L Hne Hin.
  pose proof (matrices_at_length _ _ _ H3) as Lls.
  destruct (run_new_edgelist h (o_edgelist go) el
              (filter (fun e => existsb (String.eqb (e_channel e)) chs')) H6)
    as (ext2 & ol' & R2 & E2 & F2).
  destruct (Graph_new_spec (h ++ ext2)
              (map (fun ch => nth (index_of ch chs) ls 0) chs')
              (map (fun ch => nth (index_of ch chs) ms (mk_array2 0 0 [])) chs')
              chs' (o_nodelist go) df ol'
              (option_map (filter (fun e => existsb (String.eqb (e_channel e)) chs')) el))
    as (ext & go' & R & G & N & O); try assumption.
  { apply matrices_at_keeps. clear - H3 Hin Lls L.
    induction chs' as [ | ch chs' IH]; cbn [map]; constructor.
    - apply matrices_at_nth; [exact H3 | ].
      destruct (list_index_found ch chs 0 (Hin ch (or_introl eq_refl))). lia.
    - apply IH. intros x Hx. apply Hin. right. exact Hx. }
  { apply nth_error_keeps. exact H5. }
  { destruct chs'; [contradiction | discriminate]. }
  { rewrite length_map. reflexivity. }
  exists ol'. split; [ | exact F2].
  exists (ext2 ++ ext), (4 + length (h ++ ext2)), go'.
  rewrite app_assoc.
  split; [ | split; [rewrite !length_app; lia | ]].
  - unfold channel_subgraph.
    rewrite (run_bind _ _ _ _ _ _ _ (run_load_graph _ _ _ H1)).
    rewrite (run_bind _ _ _ _ _ _ _ (run_load_adjs _ _ _ H2)).
    rewrite (run_bind _ _ _ _ _ _ _ (run_load_channels _ _ _ H4)).
    rewrite (run_bind _ _ _ _ _ _ _
               (run_lift _ _ _ _ (pick_channels ls chs chs' (eq_trans Lls L) Hin))).
    rewrite (run_bind _ _ _ _ _ _ _ R2).
    exact R.
  - split; [exact G | ]. split; assumption.
Qed.

Lemma builds_views : forall h c ls ms chs nl df ol el,
  builds h c ls ms chs nl df ol el ->
  exists g', snd (c h) = ret g' /\ length h <= g' /\ keeps h (fst (c h))
    /\ graph_view (fst (c h)) g' = Some (ms, chs, df)
    /\ edges_view (fst (c h)) g' = Some el
    /\ graph_refs (fst (c h)) g' = Some (ls, nl, ol).
Proof.
  intros h c ls ms chs nl df ol el (ext & g' & go & R & Hg & G & N & O).
  exists g'. rewrite R. cbn [fst snd].
  destruct (graph_at_views _ _ _ _ _ _ _ _ G) as (V1 & V2 & V3).
  rewrite N, O in V3.
  split; [reflexivity | ]. split; [exact Hg | ]. split; [exists ext; reflexivity | ].
  split; [exact V1 | ]. split; [exact V2 | exact V3].
Qed.

(** A write through a reference that the store did not hold before leaves
    a graph of that store as it was. *)
Lemma views_survive_write : forall h h' self go ls ms chs df el l o,
  graph_at h self go ls ms chs df el -> keeps h h' -> length h <= l ->
  graph_view (list_upd h' l o) self = Some (ms, chs, df)
  /\ edges_view (list_upd h' l o) self = Some el.
Proof.
  intros h h' self go ls ms chs df el l o G K Hl.
  destruct (@keeps_upd h h' l o K Hl) as [ext E]. rewrite E.
  destruct (graph_at_views _ _ _ _ _ _ _ _ (graph_at_keeps _ ext _ _ _ _ _ _ _ G))
    as (V1 & V2 & _).
  split; assumption.
Qed.

(** [copy] returns a graph with the same matrices, channels, nodes and
    edges, all held in objects of its own: whatever is written through
    the references of the copy, the original reads as before. *)
Theorem copy_is_independent : forall h self ms chs df el,
  graph_view h self = Some (ms, chs, df) -> edges_view h self = Some el ->
  ms <> [] -> length ms = length chs ->
  exists g' ls' nl' ol',
    snd (copy self h) = ret g' /\ g' <> self
    /\ graph_view (fst (copy self h)) g' = Some (ms, chs, df)
    /\ edges_view (fst (copy self h)) g' = Some el
    /\ graph_refs (fst (copy self h)) g' = Some (ls', nl', ol')
    /\ forall l o, In l ls' \/ l = nl' \/ ol' = Some l ->
         graph_view (list_upd (fst (copy self h)) l o) self = Some (ms, chs, df)
         /\ edges_view (list_upd (fst (copy self h)) l o) self = Some el.
Proof.
  intros h self ms chs df el V E Hne L.
  destruct (views_graph_at _ _ _ _ _ _ V E) as (go & ls & G).
  destruct (run_copy _ _ _ _ _ _ _ _ G Hne L) as (ls' & nl' & ol' & B & F1 & F2 & F3).
  destruct (builds_views _ _ _ _ _ _ _ _ _ B) as (g' & R & Hg & K & V1 & V2 & V3).
  exists g', ls', nl', ol'. split; [exact R | ].
  assert (Hself : self < length h).
  { apply nth_error_Some. rewrite (ga_graph _ _ _ _ _ _ _ _ G). discriminate. }
  split; [lia | ]. split; [exact V1 | ]. split; [exact V2 | ]. split; [exact V3 | ].
  intros l o Hl. apply (views_survive_write _ _ _ _ _ _ _ _ _ _ _ G K).
  destruct Hl as [Hl | [Hl | Hl]].
  - rewrite Forall_forall in F1. apply F1. exact Hl.
  - subst l. exact F2.
  - apply F3. exact Hl.
Qed.

Lemma copy_is_independent_witness :
  graph_view sample_heap 8 = Some ([loopy_adj; loopy_adj], ["c1"; "c2"], [LStr "a"; LStr "b"])
  /\ edges_view sample_heap 8
     = Some (Some [mk_edge (LStr "a") (LStr "a") "c1"; mk_edge (LStr "a") (LStr "b") "c1"])
  /\ [loopy_adj; loopy_adj] <> [] /\ length [loopy_adj; loopy_adj] = length ["c1"; "c2"]
  /\ exists g' ls' nl' ol',
    snd (copy 8 sample_heap) = ret g' /\ g' <> 8
    /\ graph_view (fst (copy 8 sample_heap)) g'
       = Some ([loopy_adj; loopy_adj], ["c1"; "c2"], [LStr "a"; LStr "b"])
    /\ edges_view (fst (copy 8 sample_heap)) g'
       = Some (Some [mk_edge (LStr "a") (LStr "a") "c1"; mk_edge (LStr "a") (LStr "b") "c1"])
    /\ graph_refs (fst (copy 8 sample_heap)) g' = Some (ls', nl', ol')
    /\ forall l o, In l ls' \/ l = nl' \/ ol' = Some l ->
         graph_view (list_upd (fst (copy 8 sample_heap)) l o) 8
         = Some ([loopy_adj; loopy_adj], ["c1"; "c2"], [LStr "a"; LStr "b"])
         /\ edges_view (list_upd (fst (copy 8 sample_heap)) l o) 8
            = Some (Some [mk_edge (LStr "a") (LStr "a") "c1";
                          mk_edge (LStr "a") (LStr "b") "c1"]).
Proof.
  split; [reflexivity | ]. split; [reflexivity | ].
  split; [discriminate | ]. split; [reflexivity | ].
  apply (copy_is_independent sample_heap 8 [loopy_adj; loopy_adj] ["c1"; "c2"]
           [LStr "a"; LStr "b"]
           (Some [mk_edge (LStr "a") (LStr "a") "c1"; mk_edge (LStr "a") (LStr "b") "c1"])
           eq_refl eq_refl).
  - discriminate.
  - reflexivity.
Defined.

Lemma zero_diagonal_entries : forall (a : spmatrix),
  nrows (zero_diagonal a) = nrows a /\ ncols (zero_diagonal a) = ncols a
  /\ (forall i j, i <> j -> at2 (zero_diagonal a) i j = at2 a i j)
  /\ (forall i, i < Nat.min (nrows a) (ncols a) -> at2 (zero_diagonal a) i i = 0%Z).
Proof.
  intros a. unfold zero_diagonal.
  set (ks := map fst (filter (fun kx : nat * Z => negb (snd kx =? 0)%Z) (enumerate (diagonal a)))).
  destruct (zero_fold ks a) as (Hr & Hc & _ & Hat). cbn zeta in *.
  split; [exact Hr | ]. split; [exact Hc | ]. split.
  - intros i j Hij. rewrite Hat, (proj2 (Nat.eqb_neq i j) Hij). reflexivity.
  - intros i Hi. rewrite Hat, Nat.eqb_refl. cbn [andb].
    destruct (existsb (Nat.eqb i) ks) eqn:X; [reflexivity | ].
    destruct (Z.eq_dec (at2 a i i) 0) as [Z0 | NZ]; [exact Z0 | exfalso].
    assert (Hin : In i ks).
    { unfold ks. apply in_map_iff. exists (i, at2 a i i). split; [reflexivity | ].
      apply filter_In. split.
      - apply enumerate_In. unfold diagonal.
        rewrite nth_error_map, nth_error_seq, (proj2 (Nat.ltb_lt _ _) Hi). reflexivity.
      - cbn [snd]. apply negb_true_iff, Z.eqb_neq. exact NZ. }
    assert (X' : existsb (Nat.eqb i) ks = true).
    { apply existsb_exists. exists i. split; [exact Hin | apply Nat.eqb_refl]. }
    congruence.
Qed.

(** [loopless_subgraph] returns a graph on new matrices that agree with
    the original ones off the diagonal and are zero on it; the channels and
    the nodelist are those of the original (the nodelist is the very same
    object), and the edgelist has lost the rows whose source is their
    target. *)
Theorem loopless_subgraph_result : forall h self ms chs df el,
  graph_view h self = Some (ms, chs, df) -> edges_view h self = Some el ->
  ms <> [] -> length ms = length chs ->
  exists g' ms' ls' ls nl ol' ol,
    snd (loopless_subgraph self h) = ret g'
    /\ graph_view (fst (loopless_subgraph self h)) g' = Some (ms', chs, df)
    /\ edges_view (fst (loopless_subgraph self h)) g'
       = Some (option_map (filter (fun e => negb (label_eqb (e_source e) (e_target e)))) el)
    /\ Forall2 (fun m m' =>
                  nrows m' = nrows m /\ ncols m' = ncols m
                  /\ (forall i j, i <> j -> at2 m' i j = at2 m i j)
                  /\ (forall i, i < Nat.min (nrows m) (ncols m) -> at2 m' i i = 0%Z))
               ms ms'
    /\ (forall g2, adjs g2 = ms' -> has_loops g2 = false)
    /\ graph_refs h self = Some (ls, nl, ol)
    /\ graph_refs (fst (loopless_subgraph self h)) g' = Some (ls', nl, ol')
    /\ Forall (fun l => length h <= l) ls'.
Proof.
  intros h self ms chs df el V E Hne L.
  destruct (views_graph_at _ _ _ _ _ _ V E) as (go & ls & G).
  destruct (run_loopless_subgraph _ _ _ _ _ _ _ _ G Hne L) as (ls' & ol' & B & F1 & F3).
  destruct (builds_views _ _ _ _ _ _ _ _ _ B) as (g' & R & Hg & K & V1 & V2 & V3).
  destruct (graph_at_views _ _ _ _ _ _ _ _ G) as (_ & _ & V0).
  exists g', (map zero_diagonal ms), ls', ls, (o_nodelist go), ol', (o_edgelist go).
  split; [exact R | ]. split; [exact V1 | ]. split; [exact V2 | ].
  split; [ | split; [ | split; [exact V0 | split; [exact V3 | exact F1]]]].
  - clear. induction ms as [ | m ms IH]; cbn [map]; constructor; [ | exact IH].
    apply zero_diagonal_entries.
  - intros g2 E2. destruct (has_loops g2) eqn:HL; [exfalso | reflexivity].
    apply has_loops_iff in HL. destruct HL as [adj [v (Hin & Hv & Hnz)]].
    rewrite E2 in Hin. apply in_map_iff in Hin. destruct Hin as [a [Ea _]]. subst adj.
    destruct (zero_diagonal_entries a) as (Hr & Hc & _ & Hz).
    apply Hnz, Hz. rewrite <- Hr, <- Hc. exact Hv.
Qed.

Lemma loopless_subgraph_result_witness :
  graph_view sample_heap 8 = Some ([loopy_adj; loopy_adj], ["c1"; "c2"], [LStr "a"; LStr "b"])
  /\ edges_view sample_heap 8
     = Some (Some [mk_edge (LStr "a") (LStr "a") "c1"; mk_edge (LStr "a") (LStr "b") "c1"])
  /\ [loopy_adj; loopy_adj] <> [] /\ length [loopy_adj; loopy_adj] = length ["c1"; "c2"]
  /\ exists g' ms' ls' ls nl ol' ol,
    snd (loopless_subgraph 8 sample_heap) = ret g'
    /\ graph_view (fst (loopless_subgraph 8 sample_heap)) g'
       = Some (ms', ["c1"; "c2"], [LStr "a"; LStr "b"])
    /\ edges_view (fst (loopless_subgraph 8 sample_heap)) g'
       = Some (option_map (filter (fun e => negb (label_eqb (e_source e) (e_target e))))
                 (Some [mk_edge (LStr "a") (LStr "a") "c1";
                        mk_edge (LStr "a") (LStr "b") "c1"]))
    /\ Forall2 (fun m m' =>
                  nrows m' = nrows m /\ ncols m' = ncols m
                  /\ (forall i j, i <> j -> at2 m' i j = at2 m i j)
                  /\ (forall i, i < Nat.min (nrows m) (ncols m) -> at2 m' i i = 0%Z))
               [loopy_adj; loopy_adj] ms'
    /\ (forall g2, adjs g2 = ms' -> has_loops g2 = false)
    /\ graph_refs sample_heap 8 = Some (ls, nl, ol)
    /\ graph_refs (fst (loopless_subgraph 8 sample_heap)) g' = Some (ls', nl, ol')
    /\ Forall (fun l => length sample_heap <= l) ls'.
Proof.
  split; [reflexivity | ]. split; [reflexivity | ].
  split; [discriminate | ]. split; [reflexivity | ].
  apply (loopless_subgraph_result sample_heap 8 [loopy_adj; loopy_adj] ["c1"; "c2"]
           [LStr "a"; LStr "b"]
           (Some [mk_edge (LStr "a") (LStr "a") "c1"; mk_edge (LStr "a") (LStr "b") "c1"])
           eq_refl eq_refl).
  - discriminate.
  - reflexivity.
Defined.

Lemma mapM_Forall2 : forall (A B : Type) (f : A -> result B) (P : A -> B -> Prop) xs,
  Forall (fun x => exists y, f x = ret y /\ P x y) xs ->
  exists ys, mapM f xs = ret ys /\ Forall2 P xs ys.
Proof.
  intros A B f P xs H. induction H as [ | x xs [y [E Hy]] _ [ys [Es Hys]]]; cbn [mapM].
  - exists []. split; [reflexivity | constructor].
  - rewrite E, Es. exists (y :: ys). split; [reflexivity | constructor; assumption].
Qed.

Lemma list_get_wrap : forall (A : Type) (l : list A) (d : A) idxs,
  Forall (index_ok (length l)) idxs ->
  mapM (list_get l) idxs = ret (map (fun k => nth (wrap (length l) k) l d) idxs).
Proof.
  intros A l d idxs H. induction H as [ | k idxs Hk _ IH]; cbn [mapM map]; [reflexivity | ].
  unfold list_get at 1. rewrite (norm_index_wrap _ _ Hk). cbn [bind ret].
  rewrite (nth_error_nth' l d (wrap_lt _ _ Hk)). cbn [bind ret]. rewrite IH. reflexivity.
Qed.

(** [node_subgraph] on in-range indices (negative ones counting from the
    end): entry [(a, b)] of each new matrix is the entry of the original
    at the nodes that positions [a] and [b] of [node_idxs] select, the
    nodelist holds the selected rows in the order given, and the edgelist
    keeps the rows whose two ends are among the selected nodes. *)
Theorem node_subgraph_result : forall h self ms chs df el idxs,
  graph_view h self = Some (ms, chs, df) -> edges_view h self = Some el ->
  ms <> [] -> length ms = length chs ->
  Forall (fun m => nrows m = length df /\ ncols m = length df) ms ->
  Forall (index_ok (length df)) idxs ->
  exists g' ms' rows,
    snd (node_subgraph self idxs h) = ret g'
    /\ graph_view (fst (node_subgraph self idxs h)) g' = Some (ms', chs, rows)
    /\ rows = map (fun k => nth (wrap (length df) k) df (LStr "")) idxs
    /\ edges_view (fst (node_subgraph self idxs h)) g'
       = Some (option_map
                 (filter (fun e => isin rows (e_source e) && isin rows (e_target e))) el)
    /\ Forall2 (fun m m' =>
                  wf_array2 m' /\ nrows m' = length idxs /\ ncols m' = length idxs
                  /\ forall a b, a < length idxs -> b < length idxs ->
                       at2 m' a b = at2 m (wrap (length df) (nth a idxs 0%Z))
                                          (wrap (length df) (nth b idxs 0%Z)))
               ms ms'.
Proof.
  intros h self ms chs df el idxs V E Hne L Hsq Hi.
  destruct (views_graph_at _ _ _ _ _ _ V E) as (go & ls & G).
  destruct (mapM_Forall2 _ _ (induced idxs)
              (fun m m' =>
                 wf_array2 m' /\ nrows m' = length idxs /\ ncols m' = length idxs
                 /\ forall a b, a < length idxs -> b < length idxs ->
                      at2 m' a b = at2 m (wrap (length df) (nth a idxs 0%Z))
                                         (wrap (length df) (nth b idxs 0%Z))) ms)
    as [ms' [Em F2]].
  { eapply Forall_impl; [ | exact Hsq]. intros m [Hr Hc].
    destruct (induced_at m (length df) idxs Hr Hc Hi) as [sub S]. exists sub. exact S. }
  pose proof (list_get_wrap _ df (LStr "") idxs Hi) as Er.
  destruct (run_node_subgraph _ _ _ _ _ _ _ _ _ _ _ G Hne L Em Er)
    as (ls' & nl' & ol' & B & _).
  destruct (builds_views _ _ _ _ _ _ _ _ _ B) as (g' & R & Hg & K & V1 & V2 & V3).
  exists g', ms', (map (fun k => nth (wrap (length df) k) df (LStr "")) idxs).
  split; [exact R | ]. split; [exact V1 | ]. split; [reflexivity | ].
  split; [exact V2 | exact F2].
Qed.

Lemma node_subgraph_result_witness :
  graph_view sample_heap 8 = Some ([loopy_adj; loopy_adj], ["c1"; "c2"], [LStr "a"; LStr "b"])
  /\ edges_view sample_heap 8
     = Some (Some [mk_edge (LStr "a") (LStr "a") "c1"; mk_edge (LStr "a") (LStr "b") "c1"])
  /\ [loopy_adj; loopy_adj] <> [] /\ length [loopy_adj; loopy_adj] = length ["c1"; "c2"]
  /\ Forall (fun m => nrows m = length [LStr "a"; LStr "b"]
                      /\ ncols m = length [LStr "a"; LStr "b"]) [loopy_adj; loopy_adj]
  /\ Forall (index_ok (length [LStr "a"; LStr "b"])) [(-1)%Z; 0%Z]
  /\ exists g' ms' rows,
    snd (node_subgraph 8 [(-1)%Z; 0%Z] sample_heap) = ret g'
    /\ graph_view (fst (node_subgraph 8 [(-1)%Z; 0%Z] sample_heap)) g'
       = Some (ms', ["c1"; "c2"], rows)
    /\ rows = map (fun k => nth (wrap (length [LStr "a"; LStr "b"]) k)
                                [LStr "a"; LStr "b"] (LStr "")) [(-1)%Z; 0%Z]
    /\ edges_view (fst (node_subgraph 8 [(-1)%Z; 0%Z] sample_heap)) g'
       = Some (option_map
                 (filter (fun e => isin rows (e_source e) && isin rows (e_target e)))
                 (Some [mk_edge (LStr "a") (LStr "a") "c1";
                        mk_edge (LStr "a") (LStr "b") "c1"]))
    /\ Forall2 (fun m m' =>
                  wf_array2 m' /\ nrows m' = length [(-1)%Z; 0%Z]
                  /\ ncols m' = length [(-1)%Z; 0%Z]
                  /\ forall a b, a < length [(-1)%Z; 0%Z] -> b < length [(-1)%Z; 0%Z] ->
                       at2 m' a b
                       = at2 m (wrap (length [LStr "a"; LStr "b"]) (nth a [(-1)%Z; 0%Z] 0%Z))
                               (wrap (length [LStr "a"; LStr "b"]) (nth b [(-1)%Z; 0%Z] 0%Z)))
               [loopy_adj; loopy_adj] ms'.
Proof.
  assert (Hsq : Forall (fun m => nrows m = length [LStr "a"; LStr "b"]
                                 /\ ncols m = length [LStr "a"; LStr "b"])
                       [loopy_adj; loopy_adj])
    by (repeat constructor).
  assert (Hi : Forall (index_ok (length [LStr "a"; LStr "b"])) [(-1)%Z; 0%Z])
    by (repeat constructor; cbn; lia).
  split; [reflexivity | ]. split; [reflexivity | ].
  split; [discriminate | ]. split; [reflexivity | ].
  split; [exact Hsq | ]. split; [exact Hi | ].
  apply (node_subgraph_result sample_heap 8 [loopy_adj; loopy_adj] ["c1"; "c2"]
           [LStr "a"; LStr "b"]
           (Some [mk_edge (LStr "a") (LStr "a") "c1"; mk_edge (LStr "a") (LStr "b") "c1"])
           [(-1)%Z; 0%Z] eq_refl eq_refl).
  - discriminate.
  - reflexivity.
  - exact Hsq.
  - exact Hi.
Defined.

Lemma mapM_h_raise_first : forall (A B : Type) (f : A -> M B) x xs h h' e,
  f x h = (h', raise e) -> mapM_h f (x :: xs) h = (h', raise e).
Proof.
  intros A B f x xs h h' e E. cbn [mapM_h]. apply (run_bind_raise _ _ _ _ _ _ _ E).
Qed.

(** An index outside [-n, n) makes [node_subgraph] raise [IndexError] at
    the first matrix, before anything is added to the store. *)
Theorem node_subgraph_out_of_range : forall h self m ms chs df idxs,
  graph_view h self = Some (m :: ms, chs, df) ->
  ~ Forall (index_ok (nrows m)) idxs ->
  node_subgraph self idxs h = (h, raise (IndexError "index out of bounds")).
Proof.
  intros h self m ms chs df idxs V Hbad.
  unfold graph_view in V.
  destruct (read_graph self h) as [h1 [e | v]] eqn:R; cbn [snd] in V; [discriminate | ].
  inversion V; subst v. clear V. unfold read_graph in R.
  apply mbind_inv in R. destruct R as (h0 & go & L1 & R).
  apply load_graph_inv in L1. destruct L1 as [E0 L1]. subst h0.
  apply mbind_inv in R. destruct R as (h0 & ls & L2 & R).
  apply load_adjs_inv in L2. destruct L2 as [E0 L2]. subst h0.
  apply mbind_inv in R. destruct R as (h0 & ms' & L3 & R).
  apply load_matrices_inv in L3. destruct L3 as [E0 L3]. subst h0.
  apply mbind_inv in R. destruct R as (h0 & chs' & L4 & R).
  apply load_channels_inv in L4. destruct L4 as [E0 L4]. subst h0.
  apply mbind_inv in R. destruct R as (h0 & df' & L5 & R).
  inversion R; subst. clear R.
  inversion L3 as [ | l m0 ls0 ms0 El Hrest]; subst.
  unfold node_subgraph.
  rewrite (run_bind _ _ _ _ _ _ _ (run_load_graph _ _ _ L1)).
  rewrite (run_bind _ _ _ _ _ _ _ (run_load_adjs _ _ _ L2)).
  set (F := fun l0 : loc =>
              mbind (load_matrix l0) (fun m0 =>
              mbind (lift (bind (rows_by_idx m0 idxs)
                                (fun r => cols_by_idx_with 0%Z r idxs)))
                    (fun sub0 => alloc (OMatrix sub0)))).
  assert (S1 : F l h = (h, raise (IndexError "index out of bounds"))).
  { unfold F. rewrite (run_bind _ _ _ _ _ _ _ (run_load_matrix _ _ _ El)).
    unfold rows_by_idx. rewrite (mapM_norm_index_raises _ _ Hbad). reflexivity. }
  rewrite (run_bind_raise _ _ _ _ _ _ _ (mapM_h_raise_first _ _ F l ls0 _ _ _ S1)).
  reflexivity.
Qed.

Lemma node_subgraph_out_of_range_witness :
  graph_view sample_heap 8 = Some ([loopy_adj; loopy_adj], ["c1"; "c2"], [LStr "a"; LStr "b"])
  /\ ~ Forall (index_ok (nrows loopy_adj)) [0%Z; 2%Z]
  /\ node_subgraph 8 [0%Z; 2%Z] sample_heap
     = (sample_heap, raise (IndexError "index out of bounds")).
Proof.
  assert (Hbad : ~ Forall (index_ok (nrows loopy_adj)) [0%Z; 2%Z]).
  { intros F. inversion F as [ | ? ? _ F1]; subst. inversion F1 as [ | ? ? B _]; subst.
    unfold index_ok in B. cbn in B. lia. }
  split; [reflexivity | ]. split; [exact Hbad | ].
  exact (node_subgraph_out_of_range sample_heap 8 loopy_adj [loopy_adj] ["c1"; "c2"]
           [LStr "a"; LStr "b"] [0%Z; 2%Z] eq_refl Hbad).
Defined.

(** [channel_subgraph] on channel names of the graph: channel [ch] of the
    result is the matrix at the first place where [ch] stands in the
    channel list of the original, and it is that very object, as is the
    nodelist: no matrix is copied.  The edgelist keeps the rows of the
    channels asked for. *)
Theorem channel_subgraph_shares : forall h self ms chs df el ls nl ol chs',
  graph_view h self = Some (ms, chs, df) -> edges_view h self = Some el ->
  graph_refs h self = Some (ls, nl, ol) ->
  length ms = length chs -> chs' <> [] -> incl chs' chs ->
  exists g' ol',
    snd (channel_subgraph self chs' h) = ret g'
    /\ graph_view (fst (channel_subgraph self chs' h)) g'
       = Some (map (fun ch => nth (index_of ch chs) ms (mk_array2 0 0 [])) chs', chs', df)
    /\ edges_view (fst (channel_subgraph self chs' h)) g'
       = Some (option_map (filter (fun e => existsb (String.eqb (e_channel e)) chs')) el)
    /\ graph_refs (fst (channel_subgraph self chs' h)) g'
       = Some (map (fun ch => nth (index_of ch chs) ls 0) chs', nl, ol')
    /\ incl (map (fun ch => nth (index_of ch chs) ls 0) chs') ls.
Proof.
  intros h self ms chs df el ls nl ol chs' V E Rf L Hne Hin.
  destruct (views_graph_at _ _ _ _ _ _ V E) as (go & ls0 & G).
  destruct (graph_at_views _ _ _ _ _ _ _ _ G) as (_ & _ & V0).
  rewrite Rf in V0. inversion V0; subst ls0 nl ol. clear V0.
  destruct (run_channel_subgraph _ _ _ _ _ _ _ _ _ G L Hne Hin) as (ol' & B & _).
  destruct (builds_views _ _ _ _ _ _ _ _ _ B) as (g' & R & Hg & K & V1 & V2 & V3).
  exists g', ol'. split; [exact R | ]. split; [exact V1 | ]. split; [exact V2 | ].
  split; [exact V3 | ].
  pose proof (matrices_at_length _ _ _ (ga_matrices _ _ _ _ _ _ _ _ G)) as Lls.
  intros l Hl. apply in_map_iff in Hl. destruct Hl as [ch [El Hch]]. subst l.
  apply nth_In. destruct (list_index_found ch chs 0 (Hin ch Hch)). lia.
Qed.

Lemma channel_subgraph_shares_witness :
  graph_view sample_heap 8 = Some ([loopy_adj; loopy_adj], ["c1"; "c2"], [LStr "a"; LStr "b"])
  /\ edges_view sample_heap 8
     = Some (Some [mk_edge (LStr "a") (LStr "a") "c1"; mk_edge (LStr "a") (LStr "b") "c1"])
  /\ graph_refs sample_heap 8 = Some ([0; 1], 2, Some 3)
  /\ length [loopy_adj; loopy_adj] = length ["c1"; "c2"]
  /\ ["c2"] <> [] /\ incl ["c2"] ["c1"; "c2"]
  /\ exists g' ol',
    snd (channel_subgraph 8 ["c2"] sample_heap) = ret g'
    /\ graph_view (fst (channel_subgraph 8 ["c2"] sample_heap)) g'
       = Some (map (fun ch => nth (index_of ch ["c1"; "c2"]) [loopy_adj; loopy_adj]
                                  (mk_array2 0 0 [])) ["c2"],
               ["c2"], [LStr "a"; LStr "b"])
    /\ edges_view (fst (channel_subgraph 8 ["c2"] sample_heap)) g'
       = Some (option_map (filter (fun e => existsb (String.eqb (e_channel e)) ["c2"]))
                 (Some [mk_edge (LStr "a") (LStr "a") "c1";
                        mk_edge (LStr "a") (LStr "b") "c1"]))
    /\ graph_refs (fst (channel_subgraph 8 ["c2"] sample_heap)) g'
       = Some (map (fun ch => nth (index_of ch ["c1"; "c2"]) [0; 1] 0) ["c2"], 2, ol')
    /\ incl (map (fun ch => nth (index_of ch ["c1"; "c2"]) [0; 1] 0) ["c2"]) [0; 1].
Proof.
  assert (Hin : incl ["c2"] ["c1"; "c2"]).
  { intros x [E | []]. subst x. right. left. reflexivity. }
  split; [reflexivity | ]. split; [reflexivity | ]. split; [reflexivity | ].
  split; [reflexivity | ]. split; [discriminate | ]. split; [exact Hin | ].
  apply (channel_subgraph_shares sample_heap 8 [loopy_adj; loopy_adj] ["c1"; "c2"]
           [LStr "a"; LStr "b"]
           (Some [mk_edge (LStr "a") (LStr "a") "c1"; mk_edge (LStr "a") (LStr "b") "c1"])
           [0; 1] 2 (Some 3) ["c2"] eq_refl eq_refl eq_refl eq_refl).
  - discriminate.
  - exact Hin.
Defined.

(** [channel_subgraph] raises [ValueError] when asked for a channel the
    graph does not have, and [IndexError] when asked for no channel at all:
    the constructor then gets an empty list of matrices. *)
Theorem channel_subgraph_raises : forall h self ms chs df el,
  graph_view h self = Some (ms, chs, df) -> edges_view h self = Some el ->
  length ms = length chs ->
  (forall chs', ~ incl chs' chs ->
     channel_subgraph self chs' h = (h, raise (ValueError "x is not in list")))
  /\ snd (channel_subgraph self [] h) = raise (IndexError "list index out of range").
Proof.
  intros h self ms chs df el V E L.
  destruct (views_graph_at _ _ _ _ _ _ V E) as (go & ls & [H1 H2 H3 H4 H5 H6]).
  pose proof (matrices_at_length _ _ _ H3) as Lls.
  split.
  - intros chs' Hbad. unfold channel_subgraph.
    rewrite (run_bind _ _ _ _ _ _ _ (run_load_graph _ _ _ H1)).
    rewrite (run_bind _ _ _ _ _ _ _ (run_load_adjs _ _ _ H2)).
    rewrite (run_bind _ _ _ _ _ _ _ (run_load_channels _ _ _ H4)).
    rewrite (pick_channels_missing ls chs chs' (eq_trans Lls L) Hbad). reflexivity.
  - unfold channel_subgraph.
    rewrite (run_bind _ _ _ _ _ _ _ (run_load_graph _ _ _ H1)).
    rewrite (run_bind _ _ _ _ _ _ _ (run_load_adjs _ _ _ H2)).
    rewrite (run_bind _ _ _ _ _ _ _ (run_load_channels _ _ _ H4)).
    cbn [mapM]. rewrite (run_bind _ _ _ _ _ _ _ (run_lift _ _ _ _ eq_refl)).
    destruct (run_new_edgelist h (o_edgelist go) el
                (filter (fun e => existsb (String.eqb (e_channel e)) [])) H6)
      as (ext2 & ol' & R2 & E2 & F2).
    rewrite (run_bind _ _ _ _ _ _ _ R2).
    unfold Graph_new. cbn [mapM_h].
    rewrite (run_bind _ _ _ _ _ _ _ (eq_refl : mret [] (h ++ ext2) = (h ++ ext2, ret []))).
    rewrite (run_bind _ _ _ _ _ _ _ (run_load_nodes _ _ _ (nth_error_keeps _ ext2 _ _ H5))).
    rewrite (run_bind _ _ _ _ _ _ _ (run_load_opt_edges _ _ _ E2)).
    reflexivity.
Qed.

Lemma channel_subgraph_raises_witness :
  graph_view sample_heap 8 = Some ([loopy_adj; loopy_adj], ["c1"; "c2"], [LStr "a"; LStr "b"])
  /\ edges_view sample_heap 8
     = Some (Some [mk_edge (LStr "a") (LStr "a") "c1"; mk_edge (LStr "a") (LStr "b") "c1"])
  /\ length [loopy_adj; loopy_adj] = length ["c1"; "c2"]
  /\ (forall chs', ~ incl chs' ["c1"; "c2"] ->
        channel_subgraph 8 chs' sample_heap
        = (sample_heap, raise (ValueError "x is not in list")))
  /\ snd (channel_subgraph 8 [] sample_heap) = raise (IndexError "list index out of range").
Proof.
  split; [reflexivity | ]. split; [reflexivity | ]. split; [reflexivity | ].
  exact (channel_subgraph_raises sample_heap 8 [loopy_adj; loopy_adj] ["c1"; "c2"]
           [LStr "a"; LStr "b"]
           (Some [mk_edge (LStr "a") (LStr "a") "c1"; mk_edge (LStr "a") (LStr "b") "c1"])
           eq_refl eq_refl eq_refl).
Defined.

Set Implicit Arguments.

Unset Implicit Arguments.

(** ** The fast solver never reports less than a real assignment costs *)

(** *** The numpy steps on indices that are in range *)


Lemma in_range_of_nat : forall n k, k < n -> in_range n (Z.of_nat k).
Proof. intros n k H. unfold in_range. lia. Qed.

Lemma list_set_nat : forall (A : Type) (l : list A) k x,
  k < length l -> list_set l (Z.of_nat k) x = ret (list_upd l k x).
Proof.
  intros A l k x H. unfold list_set. rewrite (@norm_index_of_nat _ _ H). reflexivity.
Qed.

Lemma list_get_range : forall (A : Type) (l : list A) k d,
  in_range (length l) k -> list_get l k = ret (nth (Z.to_nat k) l d).
Proof.
  intros A l k d H. unfold list_get. rewrite (@norm_index_in_range _ _ H). cbn [bind ret].
  unfold in_range in H. rewrite (nth_error_nth' l d) by lia. reflexivity.
Qed.

Lemma set2_range : forall (A : Type) (a : array2 A) r c v,
  length (data a) = nrows a -> in_range (nrows a) r -> in_range (ncols a) c ->
  set2 a r c v = ret (upd2 a (Z.to_nat r) (Z.to_nat c) v).
Proof.
  intros A a r c v W Hr Hc. unfold set2, upd2.
  rewrite (@norm_index_in_range _ _ Hr), (@norm_index_in_range _ _ Hc). cbn [bind ret].
  unfold in_range in Hr. rewrite (nth_error_nth' (data a) []) by lia. reflexivity.
Qed.

Lemma upd2_wf : forall (A : Type) (a : array2 A) i j v,
  wf_array2 a -> wf_array2 (upd2 a i j v).
Proof.
  intros A a i j v [Wr Wc]. unfold upd2. split; cbn [data nrows ncols].
  - rewrite length_list_upd. exact Wr.
  - apply Forall_forall. intros r Hr. apply In_list_upd in Hr. rewrite Forall_forall in Wc.
    destruct Hr as [[E L] | Hr]; [ | apply Wc; exact Hr].
    subst r. rewrite length_list_upd. apply Wc. apply nth_In. exact L.
Qed.

Lemma upd2_cell : forall (a : ndarray) i j v r c,
  wf_array2 a -> i < nrows a -> j < ncols a ->
  cell (upd2 a i j v) r c
  = if (Z.to_nat r =? i) && (Z.to_nat c =? j) then v else cell a r c.
Proof.
  intros a i j v r c W Hi Hj. pose proof (@row_length _ a i W) as L.
  rewrite (proj2 (Nat.ltb_lt _ _) Hi) in L. destruct W as [Wr Wc].
  unfold cell, upd2. cbn [data]. rewrite nth_list_upd.
  destruct (Nat.eqb_spec (Z.to_nat r) i) as [E | E]; cbn [andb]; [ | reflexivity].
  rewrite (proj2 (Nat.ltb_lt _ _)) by lia. rewrite nth_list_upd, E.
  destruct (Nat.eqb_spec (Z.to_nat c) j) as [E2 | E2]; cbn [andb]; [ | reflexivity].
  rewrite (proj2 (Nat.ltb_lt _ _)) by lia. reflexivity.
Qed.

Lemma fancy_get_range : forall (a : ndarray) rs cs,
  wf_ndarray a -> length rs = length cs ->
  Forall (in_range (nrows a)) rs -> Forall (in_range (ncols a)) cs ->
  fancy_get a rs cs = ret (map (fun rc => cell a (fst rc) (snd rc)) (combine rs cs)).
Proof.
  intros a rs cs W L Hr Hc. unfold fancy_get, broadcast2. rewrite L, Nat.eqb_refl.
  cbn [bind ret]. apply (@mapM_get2_cells a (combine rs cs) W).
  - rewrite combine_fst by exact L. exact Hr.
  - rewrite combine_snd by exact L. exact Hc.
Qed.

(** [a[rs, cs] = v]: the entries named become [v], the others stay. *)
Lemma for_each_set2 : forall (ps : list (Z * Z)) (a : ndarray) v,
  wf_ndarray a ->
  Forall (in_range (nrows a)) (map fst ps) -> Forall (in_range (ncols a)) (map snd ps) ->
  exists a', for_each ps (fun '(r, c) acc => set2 acc r c v) a = ret a'
    /\ wf_ndarray a' /\ nrows a' = nrows a /\ ncols a' = ncols a
    /\ forall r c, in_range (nrows a) r -> in_range (ncols a) c ->
         cell a' r c = if existsb (fun p => (fst p =? r)%Z && (snd p =? c)%Z) ps
                       then v else cell a r c.
Proof.
  induction ps as [ | [r0 c0] ps IH]; intros a v W Hr Hc; cbn [for_each map fst snd] in *.
  - exists a. split; [reflexivity | ]. split; [exact W | ]. split; [reflexivity | ].
    split; [reflexivity | ]. intros r c _ _. reflexivity.
  - pose proof (Forall_inv Hr) as Hr0. pose proof (Forall_inv Hc) as Hc0.
    rewrite (set2_range _ a r0 c0 v (proj1 W) Hr0 Hc0). cbn [bind ret].
    assert (W1 : wf_ndarray (upd2 a (Z.to_nat r0) (Z.to_nat c0) v)) by (apply upd2_wf, W).
    destruct (IH (upd2 a (Z.to_nat r0) (Z.to_nat c0) v) v W1
                 (Forall_inv_tail Hr) (Forall_inv_tail Hc))
      as [a' (E & W' & R' & C' & At)].
    exists a'. split; [exact E | ]. split; [exact W' | ].
    split; [exact R' | ]. split; [exact C' | ].
    intros r c Rr Rc. rewrite (At r c Rr Rc). cbn [existsb fst snd].
    unfold in_range in *.
    rewrite upd2_cell by (try exact W; lia).
    destruct (existsb (fun p => (fst p =? r)%Z && (snd p =? c)%Z) ps);
      [rewrite orb_true_r; reflexivity | rewrite orb_false_r].
    destruct (Z.eqb_spec r0 r) as [E1 | E1], (Z.eqb_spec c0 c) as [E2 | E2]; cbn [andb]; subst;
      rewrite ?Nat.eqb_refl; cbn [andb]; try reflexivity.
    + replace (Z.to_nat c =? Z.to_nat c0) with false; [reflexivity | ].
      symmetry. apply Nat.eqb_neq. lia.
    + replace (Z.to_nat r =? Z.to_nat r0) with false; [reflexivity | ].
      symmetry. apply Nat.eqb_neq. lia.
    + replace (Z.to_nat r =? Z.to_nat r0) with false; [reflexivity | ].
      symmetry. apply Nat.eqb_neq. lia.
Qed.

Lemma fancy_set_range : forall (a : ndarray) rs cs v,
  wf_ndarray a -> length rs = length cs ->
  Forall (in_range (nrows a)) rs -> Forall (in_range (ncols a)) cs ->
  exists a', fancy_set a rs cs v = ret a'
    /\ wf_ndarray a' /\ nrows a' = nrows a /\ ncols a' = ncols a
    /\ forall r c, in_range (nrows a) r -> in_range (ncols a) c ->
         cell a' r c = if existsb (fun p => (fst p =? r)%Z && (snd p =? c)%Z) (combine rs cs)
                       then v else cell a r c.
Proof.
  intros a rs cs v W L Hr Hc. unfold fancy_set, broadcast2. rewrite L, Nat.eqb_refl.
  cbn [bind ret]. apply for_each_set2; [exact W | | ].
  - rewrite combine_fst by exact L. exact Hr.
  - rewrite combine_snd by exact L. exact Hc.
Qed.

Lemma argmin_from_bound : forall l i best bi,
  bi < i -> argmin_from l i best bi < i + length l.
Proof.
  induction l as [ | x l IH]; intros i best bi H; cbn [argmin_from length]; [lia | ].
  destruct (negb (is_nan best) && (is_nan x || clt x best)).
  - specialize (IH (S i) x i). lia.
  - specialize (IH (S i) best bi). lia.
Qed.

Lemma argmin_axis1_range : forall (a : ndarray),
  wf_ndarray a -> 0 < ncols a ->
  exists l, argmin_axis1 a = ret l /\ length l = nrows a /\ Forall (in_range (ncols a)) l.
Proof.
  intros a [Wr Wc] Hc. unfold argmin_axis1.
  rewrite (proj2 (Nat.eqb_neq _ _)) by lia. rewrite <- Wr. clear Wr.
  induction Wc as [ | r rows Hr _ IH]; cbn [mapM length].
  - exists []. repeat split. constructor.
  - destruct IH as [l (E & L & F)]. rewrite E.
    destruct r as [ | x t]; [cbn in Hr; lia | ]. cbn [argmin bind ret].
    eexists. split; [reflexivity | ]. split; [cbn; lia | ].
    constructor; [ | exact F].
    pose proof (argmin_from_bound t 1 x 0 (le_n 1)) as B. cbn [length] in Hr.
    unfold in_range. lia.
Qed.

Lemma mapM_norm_in_range : forall n idx,
  Forall (in_range n) idx -> mapM (norm_index n) idx = ret (map Z.to_nat idx).
Proof.
  intros n idx H. induction H as [ | k idx Hk _ IH]; cbn [mapM map]; [reflexivity | ].
  rewrite (@norm_index_in_range _ _ Hk), IH. reflexivity.
Qed.


Lemma cols_by_idx_range : forall (a : ndarray) idx,
  Forall (in_range (ncols a)) idx -> cols_by_idx a idx = ret (take_cols a idx).
Proof.
  intros a idx H. unfold cols_by_idx, cols_by_idx_with.
  rewrite (mapM_norm_in_range _ _ H). reflexivity.
Qed.

Lemma take_cols_wf : forall (a : ndarray) idx, wf_ndarray a -> wf_ndarray (take_cols a idx).
Proof.
  intros a idx [Wr Wc]. split; cbn [take_cols mk_ndarray data nrows ncols].
  - rewrite length_map. exact Wr.
  - apply Forall_map. apply Forall_forall. intros r _. rewrite !length_map. reflexivity.
Qed.

Lemma take_cols_cell : forall (a : ndarray) idx r q,
  in_range (nrows a) r -> in_range (length idx) q ->
  cell (take_cols a idx) r q = cell a r (nth (Z.to_nat q) idx 0%Z).
Proof.
  intros a idx r q Hr Hq. unfold cell, take_cols. cbn [mk_ndarray data].
  unfold in_range in *.
  destruct (Nat.ltb_spec (Z.to_nat r) (length (data a))) as [L | L].
  - rewrite (@nth_map_lt _ _ (fun r0 => map (fun j => nth j r0 NaN) (map Z.to_nat idx))
               [] [] (data a) (Z.to_nat r) L).
    rewrite map_map.
    rewrite (@nth_map_lt _ _ (fun x => nth (Z.to_nat x) (nth (Z.to_nat r) (data a) []) NaN)
               NaN 0%Z idx (Z.to_nat q)) by lia.
    reflexivity.
  - rewrite !(nth_overflow _ []) by (rewrite ?length_map; exact L).
    destruct (Z.to_nat q); destruct (Z.to_nat (nth _ idx 0%Z)); reflexivity.
Qed.

Lemma take_cols_valid : forall (a : ndarray) idx,
  wf_ndarray a -> valid_costs a = true -> Forall (in_range (ncols a)) idx ->
  valid_costs (take_cols a idx) = true.
Proof.
  intros a idx W V H. unfold valid_costs in *. cbn [take_cols mk_ndarray data].
  rewrite forallb_forall in *. intros r Hin. apply in_map_iff in Hin.
  destruct Hin as [r0 [E Hin]]. subst r. specialize (V r0 Hin).
  rewrite forallb_forall in *. intros x Hx. rewrite map_map in Hx.
  apply in_map_iff in Hx. destruct Hx as [k [E Hk]]. subst x.
  apply V. apply nth_In. rewrite Forall_forall in H. specialize (H k Hk).
  destruct W as [_ Wc]. rewrite Forall_forall in Wc. rewrite (Wc r0 Hin).
  unfold in_range in H. lia.
Qed.

Lemma rows_by_mask_drop : forall (a : ndarray) i,
  wf_ndarray a -> i < nrows a ->
  rows_by_mask a (invert (map (Nat.eqb i) (seq 0 (nrows a)))) = ret (drop_row i a).
Proof.
  intros a i [Wr Wc] Hi.
  assert (E : mask_select (invert (map (Nat.eqb i) (seq 0 (nrows a)))) (data a)
              = drop_at i (data a)).
  { rewrite <- Wr, mask_select_invert_one_hot. cbn [Nat.ltb Nat.leb].
    rewrite Nat.sub_0_r. reflexivity. }
  unfold rows_by_mask. rewrite E. unfold invert.
  rewrite !length_map, length_seq, Nat.eqb_refl.
  fold (invert (map (Nat.eqb i) (seq 0 (nrows a)))).
  rewrite count_true_invert_one_hot by exact Hi. reflexivity.
Qed.

Lemma drop_row_wf : forall (a : ndarray) i,
  wf_ndarray a -> i < nrows a -> wf_ndarray (drop_row i a).
Proof.
  intros a i [Wr Wc] Hi. split; cbn [drop_row mk_ndarray data nrows ncols].
  - rewrite length_drop_at; lia.
  - apply Forall_forall. intros r Hr. apply In_drop_at in Hr.
    rewrite Forall_forall in Wc. apply Wc. exact Hr.
Qed.

Lemma drop_row_cell : forall (a : ndarray) i r c,
  (0 <= r)%Z -> cell (drop_row i a) r c = cell a (shift_up i r) c.
Proof.
  intros a i r c Hr. unfold cell, drop_row. cbn [mk_ndarray data].
  rewrite nth_drop_at, to_nat_shift_up by exact Hr. reflexivity.
Qed.

Lemma drop_row_valid : forall (a : ndarray) i,
  valid_costs a = true -> valid_costs (drop_row i a) = true.
Proof.
  intros a i V. unfold valid_costs in *. cbn [drop_row mk_ndarray data].
  rewrite forallb_forall in *. intros r Hr. apply V. eapply In_drop_at. exact Hr.
Qed.

(** *** Sorted index sets *)

Lemma insert_uniq_In : forall x l y, In y (insert_uniq x l) <-> y = x \/ In y l.
Proof.
  intros x l y. induction l as [ | z l IH]; cbn [insert_uniq].
  - cbn. intuition.
  - destruct (Z.ltb_spec x z) as [L | L]; [cbn; intuition | ].
    destruct (Z.eqb_spec x z) as [E | E]; [subst; cbn; intuition | ].
    cbn [In]. rewrite IH. intuition.
Qed.

Lemma insert_uniq_sorted : forall x l,
  StronglySorted Z.lt l -> StronglySorted Z.lt (insert_uniq x l).
Proof.
  intros x l S. induction S as [ | z l S IH F]; cbn [insert_uniq].
  - constructor; constructor.
  - destruct (Z.ltb_spec x z) as [L | L].
    + constructor; [constructor; assumption | ].
      constructor; [exact L | ]. eapply Forall_impl; [ | exact F]. intros y Hy. lia.
    + destruct (Z.eqb_spec x z) as [E | E]; [constructor; assumption | ].
      constructor; [exact IH | ]. apply Forall_forall. intros y Hy.
      apply insert_uniq_In in Hy. rewrite Forall_forall in F.
      destruct Hy as [Hy | Hy]; [subst y; lia | apply F; exact Hy].
Qed.

Lemma np_unique_In : forall l y, In y (np_unique l) <-> In y l.
Proof.
  intros l y. induction l as [ | x l IH]; cbn [np_unique fold_right]; [reflexivity | ].
  fold (np_unique l). rewrite insert_uniq_In, IH. cbn. intuition.
Qed.

Lemma np_unique_sorted : forall l, StronglySorted Z.lt (np_unique l).
Proof.
  induction l as [ | x l IH]; cbn [np_unique fold_right]; [constructor | ].
  apply insert_uniq_sorted. exact IH.
Qed.

Lemma memZ_In : forall x l, memZ x l = true <-> In x l.
Proof.
  intros x l. unfold memZ. rewrite existsb_exists. split.
  - intros [y [Hy E]]. apply Z.eqb_eq in E. subst y. exact Hy.
  - intros H. exists x. split; [exact H | apply Z.eqb_refl].
Qed.

Lemma setdiff1d_In : forall a b y, In y (setdiff1d a b) <-> In y a /\ ~ In y b.
Proof.
  intros a b y. unfold setdiff1d. rewrite filter_In, np_unique_In.
  rewrite negb_true_iff. split.
  - intros [H1 H2]. split; [exact H1 | ]. intros H. apply memZ_In in H. congruence.
  - intros [H1 H2]. split; [exact H1 | ]. apply memZ_false. exact H2.
Qed.

Lemma find_index_found : forall x l s,
  In x l -> exists k, find_index x l s = ret (s + k) /\ k < length l /\ nth k l 0%Z = x.
Proof.
  intros x l. induction l as [ | y l IH]; intros s H; [contradiction | ].
  cbn [find_index]. destruct (Z.eqb_spec y x) as [E | E].
  - exists 0. rewrite Nat.add_0_r. cbn. repeat split; [lia | exact E].
  - destruct H as [H | H]; [contradiction | ].
    destruct (IH (S s) H) as [k (E1 & E2 & E3)]. exists (S k).
    rewrite E1. cbn [length nth]. repeat split; [f_equal; lia | lia | exact E3].
Qed.

(** *** Lists with one place set apart *)

Lemma ins_length : forall (A : Type) k (x : A) l, length (ins k x l) = S (length l).
Proof.
  intros A k x l. unfold ins. rewrite length_app. cbn [length].
  rewrite length_firstn, length_skipn. lia.
Qed.

Lemma ins_nth : forall (A : Type) k (x : A) l m d,
  k <= length l ->
  nth m (ins k x l) d = if m <? k then nth m l d else if m =? k then x else nth (m - 1) l d.
Proof.
  intros A k x l m d Hk. unfold ins.
  destruct (Nat.ltb_spec m k) as [L | L].
  - rewrite app_nth1 by (rewrite length_firstn; lia).
    rewrite <- (firstn_skipn k l) at 2. rewrite app_nth1 by (rewrite length_firstn; lia).
    reflexivity.
  - rewrite app_nth2 by (rewrite length_firstn; lia). rewrite length_firstn.
    replace (Nat.min k (length l)) with k by lia.
    destruct (Nat.eqb_spec m k) as [E | E].
    + subst m. rewrite Nat.sub_diag. reflexivity.
    + replace (m - k) with (S (m - 1 - k)) by lia. cbn [nth].
      rewrite <- (firstn_skipn k l) at 2. rewrite app_nth2 by (rewrite length_firstn; lia).
      rewrite length_firstn. replace (Nat.min k (length l)) with k by lia. reflexivity.
Qed.

Lemma list_upd_ins : forall (A : Type) k (x y : A) l,
  k <= length l -> list_upd (ins k x l) k y = ins k y l.
Proof.
  intros A k x y l Hk. unfold ins.
  rewrite list_upd_app_r by (rewrite length_firstn; lia).
  rewrite length_firstn. replace (k - Nat.min k (length l)) with 0 by lia. reflexivity.
Qed.

Lemma ins_drop_at : forall (A : Type) k (l : list A) d,
  k < length l -> ins k (nth k l d) (drop_at k l) = l.
Proof.
  intros A k l d Hk. unfold ins, drop_at.
  rewrite firstn_app, firstn_firstn, Nat.min_id, length_firstn.
  replace (k - Nat.min k (length l)) with 0 by lia. cbn [firstn]. rewrite app_nil_r.
  rewrite skipn_app, length_firstn. replace (k - Nat.min k (length l)) with 0 by lia.
  cbn [skipn]. rewrite skipn_firstn_comm. rewrite Nat.sub_diag. cbn [firstn app].
  rewrite <- (firstn_skipn k l) at 4. f_equal.
  clear - Hk. revert k Hk. induction l as [ | y l IH]; intros k Hk; [cbn in Hk; lia | ].
  destruct k as [ | k]; [reflexivity | ]. cbn [skipn nth]. apply IH. cbn in Hk. lia.
Qed.

Lemma ins_In : forall (A : Type) k (x : A) l y, In y (ins k x l) <-> y = x \/ In y l.
Proof.
  intros A k x l y. unfold ins. rewrite in_app_iff. cbn [In].
  rewrite <- (firstn_skipn k l) at 3. rewrite in_app_iff. intuition.
Qed.

Lemma ins_NoDup : forall (A : Type) k (x : A) l,
  NoDup l -> ~ In x l -> NoDup (ins k x l).
Proof.
  intros A k x l N H. unfold ins.
  assert (P : Permutation (x :: l) (firstn k l ++ x :: skipn k l)).
  { rewrite <- (firstn_skipn k l) at 1. apply Permutation_middle. }
  eapply Permutation_NoDup; [exact P | ]. constructor; assumption.
Qed.

Lemma mask_assign_all : forall (A : Type) (l vals : list A) i s,
  length l = length vals -> i < s ->
  mask_assign (invert (map (Nat.eqb i) (seq s (length l)))) l vals = vals.
Proof.
  intros A l. induction l as [ | x l IH]; intros vals i s L H.
  - destruct vals; [reflexivity | discriminate].
  - destruct vals as [ | v vals]; [discriminate | ].
    cbn [length seq map invert mask_assign].
    rewrite (proj2 (Nat.eqb_neq i s)) by lia. cbn [negb]. f_equal.
    apply (IH vals i (S s)); [cbn in L; lia | lia].
Qed.

(** [col_idxs[sub_ind] = vals] for [sub_ind = ~one_hot(i, n)]: the values
    take every place but [i]. *)
Lemma mask_assign_but_one : forall (A : Type) (l vals : list A) i s d,
  length l = S (length vals) -> s <= i < s + length l ->
  mask_assign (invert (map (Nat.eqb i) (seq s (length l)))) l vals
  = ins (i - s) (nth (i - s) l d) vals.
Proof.
  intros A l. induction l as [ | x l IH]; intros vals i s d L H; [cbn in L; lia | ].
  cbn [length seq map invert mask_assign]. destruct (Nat.eqb_spec i s) as [E | E]; cbn [negb].
  - subst i. rewrite Nat.sub_diag. cbn [nth]. unfold ins. cbn [firstn skipn app]. f_equal.
    apply (mask_assign_all A l vals s (S s)); [cbn in L; lia | lia].
  - cbn [length] in L, H. destruct vals as [ | v vals]; [cbn in L; lia | ].
    replace (i - s) with (S (i - S s)) by lia. cbn [nth]. unfold ins. cbn [firstn skipn app].
    f_equal. apply (IH vals i (S s) d); [cbn in L; lia | lia].
Qed.

(** *** Loops with an invariant *)

Lemma for_each_inv : forall (A S : Type) (body : A -> S -> result S) (xs : list A)
    (I : nat -> S -> Prop) (s0 : S),
  I 0 s0 ->
  (forall m x s, nth_error xs m = Some x -> I m s ->
     exists s', body x s = ret s' /\ I (Datatypes.S m) s') ->
  exists s', for_each xs body s0 = ret s' /\ I (length xs) s'.
Proof.
  intros A S body xs. induction xs as [ | x xs IH]; intros I s0 H0 Hstep.
  - exists s0. split; [reflexivity | exact H0].
  - destruct (Hstep 0 x s0 eq_refl H0) as [s1 [E1 I1]].
    destruct (IH (fun m s => I (Datatypes.S m) s) s1 I1) as [s' [E' I']].
    { intros m y s Hm Hs. apply (Hstep (Datatypes.S m) y s Hm Hs). }
    exists s'. split; [ | exact I']. cbn [for_each]. rewrite E1. exact E'.
Qed.

Lemma nth_error_enumerate : forall (A : Type) (l : list A) m p,
  nth_error (enumerate l) m = Some p ->
  m < length l /\ fst p = m /\ forall d, snd p = nth m l d.
Proof.
  intros A l m p H. unfold enumerate in H.
  assert (L : m < length (combine (seq 0 (length l)) l)).
  { apply nth_error_Some. congruence. }
  rewrite length_combine, length_seq, Nat.min_id in L.
  split; [exact L | ].
  rewrite (nth_error_nth' _ (0, snd p)) in H
    by (rewrite length_combine, length_seq, Nat.min_id; exact L).
  rewrite combine_nth in H by (rewrite length_seq; reflexivity).
  rewrite seq_nth in H by exact L. inversion H. cbn [fst snd].
  split; [reflexivity | ]. intros d. apply nth_indep. exact L.
Qed.

(** *** Assignments that give every row a column *)


Lemma sorted_length : forall l lo hi,
  StronglySorted Z.lt l -> Forall (fun x => (lo <= x < hi)%Z) l ->
  (Z.of_nat (length l) <= Z.max 0 (hi - lo))%Z.
Proof.
  induction l as [ | x t IH]; intros lo hi S F; [cbn; lia | ].
  apply StronglySorted_inv in S. destruct S as [S Fx].
  inversion F as [ | ? ? Hx Ft]; subst.
  assert (F' : Forall (fun y => (x + 1 <= y < hi)%Z) t).
  { rewrite Forall_forall in *. intros y Hy. specialize (Fx y Hy). specialize (Ft y Hy). lia. }
  specialize (IH (x + 1)%Z hi S F'). cbn [length]. lia.
Qed.

Lemma sorted_full : forall l s,
  StronglySorted Z.lt l ->
  Forall (fun x => (Z.of_nat s <= x < Z.of_nat s + Z.of_nat (length l))%Z) l ->
  l = map Z.of_nat (seq s (length l)).
Proof.
  induction l as [ | x t IH]; intros s S F; [reflexivity | ].
  apply StronglySorted_inv in S. destruct S as [S Fx].
  inversion F as [ | ? ? Hx Ft]; subst. cbn [length] in *.
  assert (F' : Forall (fun y => (x + 1 <= y < Z.of_nat s + Z.of_nat (Datatypes.S (length t)))%Z) t).
  { rewrite Forall_forall in *. intros y Hy. specialize (Fx y Hy). specialize (Ft y Hy). lia. }
  pose proof (sorted_length t _ _ S F') as B.
  assert (E : x = Z.of_nat s) by lia. subst x. cbn [seq map]. f_equal.
  apply IH; [exact S | ].
  rewrite Forall_forall in *. intros y Hy. specialize (F' y Hy). lia.
Qed.

Lemma assignment_rows : forall (a : ndarray) rs cs,
  nrows a <= ncols a -> is_assignment a rs cs -> rs = arange (nrows a).
Proof.
  intros a rs cs H [L1 L2 S R _ _].
  rewrite Nat.min_l in L1 by exact H. unfold arange. rewrite <- L1.
  apply sorted_full; [exact S | ].
  eapply Forall_impl; [ | exact R]. intros x Hx. unfold in_range in Hx. lia.
Qed.

Lemma full_assignment : forall (a : ndarray) cs,
  nrows a <= ncols a -> length cs = nrows a -> NoDup cs ->
  Forall (in_range (ncols a)) cs -> is_assignment a (arange (nrows a)) cs.
Proof.
  intros a cs H L N R. constructor.
  - unfold arange. rewrite length_map, length_seq. lia.
  - unfold arange. rewrite length_map, length_seq. exact L.
  - apply arange_sorted.
  - apply Forall_forall. intros x Hx. apply arange_In. exact Hx.
  - exact N.
  - exact R.
Qed.

Lemma combine_arange : forall (B : Type) (f : Z * Z -> B) cs s,
  map f (combine (map Z.of_nat (seq s (length cs))) cs)
  = map (fun k => f (Z.of_nat k, nth (k - s) cs 0%Z)) (seq s (length cs)).
Proof.
  intros B f. induction cs as [ | c cs IH]; intros s; [reflexivity | ].
  cbn [length seq map combine]. rewrite Nat.sub_diag. cbn [nth]. f_equal.
  rewrite IH. apply map_ext_in. intros k Hk. apply in_seq in Hk.
  replace (k - s) with (Datatypes.S (k - Datatypes.S s)) by lia. reflexivity.
Qed.

Lemma cost_by_rows : forall (a : ndarray) cs,
  assignment_cost a (arange (length cs)) cs = rowsum a cs.
Proof.
  intros a cs. unfold assignment_cost, rowsum, arange. rewrite combine_arange.
  f_equal. apply map_ext. intros k. cbn [fst snd]. rewrite Nat.sub_0_r. reflexivity.
Qed.

Lemma includes_full : forall cs i j,
  i < length cs -> nth i cs 0%Z = Z.of_nat j -> includes i j (arange (length cs)) cs.
Proof.
  intros cs i j H E. unfold includes, arange.
  assert (Q : nth i (combine (map Z.of_nat (seq 0 (length cs))) cs) (0%Z, 0%Z)
              = (Z.of_nat i, Z.of_nat j)).
  { rewrite combine_nth by (rewrite length_map, length_seq; reflexivity).
    rewrite (@nth_map_lt _ _ Z.of_nat 0%Z 0 _ i) by (rewrite length_seq; exact H).
    rewrite seq_nth by exact H. rewrite E. reflexivity. }
  rewrite <- Q. apply nth_In.
  rewrite length_combine, length_map, length_seq. lia.
Qed.

(** A list of distinct columns, one per row, gives an assignment through
    each of its pairs, of the total [rowsum]. *)
Lemma attained_by_cols : forall (a : ndarray) cs i j,
  nrows a <= ncols a -> length cs = nrows a -> NoDup cs ->
  Forall (in_range (ncols a)) cs -> i < nrows a -> nth i cs 0%Z = Z.of_nat j ->
  attained a i j (rowsum a cs).
Proof.
  intros a cs i j H L N R Hi E. exists (arange (nrows a)), cs.
  split; [apply full_assignment; assumption | ]. rewrite <- L. split.
  - apply includes_full; [lia | exact E].
  - apply cost_by_rows.
Qed.

Lemma total_app : forall l l', total (l ++ l') = tadd (total l) (total l').
Proof.
  induction l as [ | x l IH]; intros l'.
  - change (total l' = tadd (Fin 0) (total l')). destruct (total l'); reflexivity.
  - change (tadd x (total (l ++ l')) = tadd (tadd x (total l)) (total l')).
    rewrite IH. apply tadd_assoc.
Qed.

Lemma rowsum_ins : forall (a : ndarray) i j vals,
  i <= length vals ->
  rowsum a (ins i j vals)
  = tadd (cell a (Z.of_nat i) j) (rowsum (drop_row i a) vals).
Proof.
  intros a i j vals H. unfold rowsum. rewrite ins_length.
  set (n := length vals) in *.
  replace (Datatypes.S n) with (i + Datatypes.S (n - i)) by lia.
  replace (seq 0 n) with (seq 0 (i + (n - i))) by (f_equal; lia).
  rewrite !seq_app, !map_app, !total_app. cbn [seq map Nat.add].
  change (total (?x :: ?l)) with (tadd x (total l)).
  rewrite (ins_nth Z i j vals i 0%Z H), Nat.ltb_irrefl, Nat.eqb_refl.
  rewrite <- seq_shift, map_map.
  rewrite (map_ext_in (fun k => cell a (Z.of_nat k) (nth k (ins i j vals) 0%Z))
             (fun k => cell (drop_row i a) (Z.of_nat k) (nth k vals 0%Z)) (seq 0 i)).
  2:{ intros k Hk. apply in_seq in Hk. rewrite (ins_nth Z i j vals k 0%Z H).
      rewrite (proj2 (Nat.ltb_lt k i)) by lia.
      rewrite drop_row_cell by lia. unfold shift_up.
      rewrite (proj2 (Z.ltb_lt _ _)) by lia. reflexivity. }
  rewrite (map_ext_in (fun k => cell a (Z.of_nat (Datatypes.S k))
                                  (nth (Datatypes.S k) (ins i j vals) 0%Z))
             (fun k => cell (drop_row i a) (Z.of_nat k) (nth k vals 0%Z)) (seq i (n - i))).
  2:{ intros k Hk. apply in_seq in Hk. rewrite (ins_nth Z i j vals (Datatypes.S k) 0%Z H).
      rewrite (proj2 (Nat.ltb_ge (Datatypes.S k) i)) by lia.
      rewrite (proj2 (Nat.eqb_neq (Datatypes.S k) i)) by lia.
      rewrite drop_row_cell by lia. unfold shift_up.
      rewrite (proj2 (Z.ltb_ge _ _)) by lia.
      replace (Datatypes.S k - 1) with k by lia.
      replace (Z.of_nat k + 1)%Z with (Z.of_nat (Datatypes.S k)) by lia. reflexivity. }
  rewrite !tadd_assoc. f_equal. apply tadd_comm.
Qed.

Lemma rowsum_take_cols : forall (a : ndarray) idx qs,
  Forall (in_range (length idx)) qs -> length qs <= nrows a ->
  rowsum (take_cols a idx) qs
  = rowsum a (map (fun q => nth (Z.to_nat q) idx 0%Z) qs).
Proof.
  intros a idx qs R L. unfold rowsum. rewrite length_map. f_equal.
  apply map_ext_in. intros k Hk. apply in_seq in Hk.
  rewrite take_cols_cell.
  - rewrite (@nth_map_lt _ _ (fun q => nth (Z.to_nat q) idx 0%Z) 0%Z 0%Z qs k) by lia.
    reflexivity.
  - unfold in_range. lia.
  - rewrite Forall_forall in R. apply R. apply nth_In. lia.
Qed.

Lemma tadd_Fin_inv : forall a b z,
  tadd a b = Fin z -> exists x y, a = Fin x /\ b = Fin y.
Proof.
  intros [x | | | ] [y | | | ] z H; cbn in H; try discriminate.
  exists x, y. split; reflexivity.
Qed.

(** The total of the optimum, less the cost of row [i] in it, plus
    [costs[i, j]], is the total of the optimum with row [i] moved to
    column [j]. *)
Lemma moved_row_total : forall (a : ndarray) cs i j t,
  i < length cs -> rowsum a cs = Fin t ->
  tadd (tadd (Fin t) (cneg (cell a (Z.of_nat i) (nth i cs 0%Z)))) (cell a (Z.of_nat i) j)
  = rowsum a (ins i j (drop_at i cs)).
Proof.
  intros a cs i j t H E.
  assert (L : i <= length (drop_at i cs)) by (rewrite length_drop_at; lia).
  rewrite <- (ins_drop_at Z i cs 0%Z H) in E at 1.
  rewrite (rowsum_ins a i _ _ L) in E. rewrite (rowsum_ins a i _ _ L).
  destruct (tadd_Fin_inv _ _ _ E) as (x & y & Ex & Ey).
  rewrite Ex, Ey in E. rewrite Ex, Ey. cbn in E. inversion E; subst t.
  destruct (cell a (Z.of_nat i) j); cbn; try reflexivity. f_equal. lia.
Qed.

Lemma base_total_costs_cells : forall total ls (a : ndarray),
  wf_ndarray a -> length ls = nrows a ->
  exists b, base_total_costs total ls a = ret b
    /\ wf_ndarray b /\ nrows b = nrows a /\ ncols b = ncols a
    /\ forall k j, k < nrows a -> j < ncols a ->
         cell b (Z.of_nat k) (Z.of_nat j)
         = cadd (csub total (nth k ls NaN)) (cell a (Z.of_nat k) (Z.of_nat j)).
Proof.
  intros total ls a [Wr Wc] L. unfold base_total_costs. cbv zeta. rewrite L, Nat.eqb_refl.
  eexists. split; [reflexivity | ]. unfold mk_ndarray. cbn [nrows ncols data].
  split; [ | split; [reflexivity | split; [reflexivity | ]]].
  - split; cbn [nrows ncols data].
    + rewrite length_map, length_combine. lia.
    + apply Forall_forall. intros r Hr. apply in_map_iff in Hr.
      destruct Hr as [[l r0] [E Hin]]. subst r. cbv beta iota. rewrite length_map.
      rewrite Forall_forall in Wc. apply Wc. eapply in_combine_r. exact Hin.
  - intros k j Hk Hj. unfold cell. cbn [data]. rewrite !Nat2Z.id.
    rewrite (@nth_map_lt _ _ _ [] (NaN, []) _ k) by (rewrite length_combine; lia).
    rewrite combine_nth by lia.
    assert (Lr : length (nth k (data a) []) = ncols a).
    { rewrite Forall_forall in Wc. apply Wc. apply nth_In. lia. }
    rewrite (@nth_map_lt _ _ _ NaN NaN _ j) by lia. reflexivity.
Qed.

(** *** Columns left over *)

Lemma fresh_column : forall (l l' : list Z),
  NoDup l -> length l' < length l -> exists x, In x l /\ ~ In x l'.
Proof.
  intros l l' N H.
  destruct (find (fun x => negb (memZ x l')) l) as [x | ] eqn:F.
  - apply find_some in F. destruct F as [Hin Hm]. exists x. split; [exact Hin | ].
    intros Hx. apply memZ_In in Hx. rewrite Hx in Hm. discriminate.
  - exfalso. assert (I : incl l l').
    { intros x Hx. pose proof (find_none _ _ F x Hx) as Q. cbn in Q.
      apply negb_false_iff in Q. apply memZ_In. exact Q. }
    pose proof (NoDup_incl_length N I). lia.
Qed.

Lemma list_get_first : forall (l : list Z),
  l <> [] -> exists x, list_get l 0%Z = ret x /\ In x l.
Proof.
  intros [ | x l] H; [congruence | ]. exists x. split; [ | left; reflexivity].
  unfold list_get, norm_index. cbn [length].
  replace ((0 <=? 0) && (0 <? Z.of_nat (Datatypes.S (length l))))%Z with true
    by (symmetry; apply andb_true_iff; split; [apply Z.leb_le | apply Z.ltb_lt]; lia).
  reflexivity.
Qed.

(** *** The constrained solve and the columns it is run on *)

Lemma cells_within_take_cols : forall B (a : ndarray) idx,
  Forall (in_range (ncols a)) idx -> cells_within B a -> cells_within B (take_cols a idx).
Proof.
  intros B a idx R H r c Hr Hc. cbn [take_cols mk_ndarray nrows ncols] in Hr, Hc.
  rewrite take_cols_cell by assumption. apply H; [exact Hr | ].
  rewrite Forall_forall in R. apply R. apply nth_In. unfold in_range in Hc. lia.
Qed.

Lemma cells_within_drop_row : forall B (a : ndarray) i,
  i < nrows a -> cells_within B a -> cells_within B (drop_row i a).
Proof.
  intros B a i Hi H r c Hr Hc. cbn [drop_row mk_ndarray nrows ncols] in Hr, Hc.
  rewrite drop_row_cell by (unfold in_range in Hr; lia).
  apply H; [ | exact Hc]. apply shift_up_range; assumption.
Qed.

Lemma constrained_lsap_cost_attained : forall lap costs i j B,
  lap_spec lap -> wf_ndarray costs -> valid_costs costs = true ->
  (0 <= B)%Z -> cells_within B costs ->
  (Z.of_nat (Nat.min (nrows costs) (ncols costs)) * B <= 9007199254740992)%Z ->
  i < nrows costs -> j < ncols costs ->
  exists v, constrained_lsap_cost lap i j costs = ret v /\ attained costs i j v.
Proof.
  intros lap costs i j B Hlap W V HB Hcw Hn Hi Hj.
  pose proof (@without_row_col_wf i j costs W Hi Hj) as Wsub.
  pose proof (@without_row_col_valid i j costs V) as Vsub.
  assert (Vij : valid_entry (cell costs (Z.of_nat i) (Z.of_nat j)) = true).
  { apply cell_valid; try assumption; unfold in_range; lia. }
  unfold constrained_lsap_cost.
  rewrite constraint_submatrix_eq by assumption. cbn [bind ret].
  destruct (lap (without_row_col i j costs)) as [e | [rs cs]] eqn:L.
  - destruct (@lap_infeasible lap Hlap _ _ Wsub Vsub L) as [E Hall]. subst e.
    exists PInf. split; [reflexivity | ].
    destruct (some_assignment (without_row_col i j costs)) as (rs & cs & A).
    destruct (@lift_assignment costs i j rs cs Hi Hj A) as (rs' & cs' & A' & I' & C').
    exists rs', cs'. split; [exact A' | ]. split; [exact I' | ].
    rewrite C', (Hall _ _ A).
    destruct (cell costs (Z.of_nat i) (Z.of_nat j)); cbn in *; congruence.
  - destruct (@lap_optimal lap Hlap _ _ _ Wsub Vsub L) as (A & _ & _).
    rewrite (@fancy_get_assignment _ _ _ Wsub A). cbn [bind ret].
    rewrite get2_cell by (try assumption; unfold in_range; lia). cbn [bind ret].
    assert (Ls : length rs < Nat.min (nrows costs) (ncols costs)).
    { rewrite (asg_size A). cbn [without_row_col mk_ndarray nrows ncols]. lia. }
    pose proof (@scaled_le B (Datatypes.S (length rs)) _ HB Ls) as Hs.
    destruct (@csum_assignment B _ rs cs HB (@cells_within_without B i j costs Hi Hj Hcw) A)
      as [Es Ws]; [lia | ].
    rewrite Es.
    rewrite (@cadd_exact (Z.of_nat (length rs) * B) B _ _ Ws)
      by (try lia; apply Hcw; unfold in_range; lia).
    eexists. split; [reflexivity | ]. rewrite tadd_comm.
    destruct (@lift_assignment costs i j rs cs Hi Hj A) as (rs' & cs' & A' & I' & C').
    exists rs', cs'. tauto.
Qed.

Lemma combine_map_snd : forall (A B C : Type) (f : B -> C) (l : list A) (l' : list B),
  combine l (map f l') = map (fun p => (fst p, f (snd p))) (combine l l').
Proof.
  intros A B C f. induction l as [ | x l IH]; intros [ | y l']; cbn; try reflexivity.
  f_equal. apply IH.
Qed.

(** An assignment of [costs[:, pc]] is one of [costs], its columns read
    through [pc]. *)
Lemma attained_take_cols : forall (a : ndarray) pc i q v,
  wf_ndarray a -> nrows a <= ncols a -> nrows a <= length pc ->
  NoDup pc -> Forall (in_range (ncols a)) pc ->
  attained (take_cols a pc) i q v ->
  attained a i (Z.to_nat (nth q pc 0%Z)) v.
Proof.
  intros a pc i q v W Hw Hp N R (rs & cs & [L1 L2 S Rr Nc Rc] & I & C).
  cbn [take_cols mk_ndarray nrows ncols] in L1, Rr, Rc.
  set (f := fun x : Z => nth (Z.to_nat x) pc 0%Z).
  assert (Rf : forall x, in_range (length pc) x -> in_range (ncols a) (f x)).
  { intros x Hx. rewrite Forall_forall in R. apply R. apply nth_In.
    unfold in_range in Hx. lia. }
  assert (Hpairs : forall p, In p (combine rs cs) ->
            in_range (nrows a) (fst p) /\ in_range (length pc) (snd p)).
  { intros [r c] Hin. cbn [fst snd]. rewrite Forall_forall in Rr, Rc. split.
    - apply Rr. eapply in_combine_l. exact Hin.
    - apply Rc. eapply in_combine_r. exact Hin. }
  exists rs, (map f cs). split; [ | split].
  - constructor.
    + rewrite L1. lia.
    + rewrite length_map. exact L2.
    + exact S.
    + exact Rr.
    + apply NoDup_map_NoDup_ForallPairs; [ | exact Nc].
      intros x y Hx Hy E. rewrite Forall_forall in Rc.
      pose proof (Rc x Hx) as Bx. pose proof (Rc y Hy) as By.
      unfold in_range in Bx, By. unfold f in E.
      assert (Q : Z.to_nat x = Z.to_nat y).
      { apply (proj1 (NoDup_nth pc 0%Z) N); [lia | lia | exact E]. }
      lia.
    + apply Forall_map. eapply Forall_impl; [ | exact Rc]. exact Rf.
  - unfold includes in *. rewrite combine_map_snd.
    apply in_map_iff. exists (Z.of_nat i, Z.of_nat q). split; [ | exact I].
    cbn [fst snd]. f_equal. unfold f. rewrite !Nat2Z.id.
    destruct (Hpairs _ I) as [_ Hq]. cbn [snd] in Hq.
    specialize (Rf _ Hq). unfold f in Rf. rewrite Nat2Z.id in Rf.
    unfold in_range in Rf. lia.
  - rewrite <- C. unfold assignment_cost. rewrite combine_map_snd, map_map.
    f_equal. apply map_ext_in. intros p Hin. cbn [fst snd].
    destruct (Hpairs _ Hin) as [Hr Hq].
    rewrite take_cols_cell by assumption. reflexivity.
Qed.

(** *** One column list with row [i] set apart *)


Lemma hole_ins : forall c pc i vals,
  i <= length vals -> NoDup vals -> Forall (in_range c) vals -> incl vals pc ->
  hole c pc i (ins i (-1)%Z vals).
Proof.
  intros c pc i vals H N R I.
  assert (Hn : forall k, k < Datatypes.S (length vals) -> k <> i ->
            In (nth k (ins i (-1)%Z vals) 0%Z) vals).
  { intros k Hk Hne. rewrite (ins_nth Z i _ vals k 0%Z H).
    destruct (Nat.ltb_spec k i) as [L | L]; [apply nth_In; lia | ].
    rewrite (proj2 (Nat.eqb_neq k i) Hne). apply nth_In. lia. }
  constructor.
  - rewrite (ins_nth Z i _ vals i 0%Z H), Nat.ltb_irrefl, Nat.eqb_refl. reflexivity.
  - intros k Hk Hne. rewrite ins_length in Hk. rewrite Forall_forall in R.
    apply R. apply Hn; assumption.
  - intros k Hk Hne. rewrite ins_length in Hk. apply I. apply Hn; assumption.
  - apply ins_NoDup; [exact N | ]. intros Hin. rewrite Forall_forall in R.
    specialize (R _ Hin). unfold in_range in R. lia.
Qed.

(** Row [i] takes the column of row [o], and row [o] the fresh column [x]. *)
Lemma hole_reassign : forall c pc i o x cols,
  hole c pc i cols -> i < length cols -> o < length cols -> o <> i ->
  in_range c x ->
  ~ In x (list_upd (list_upd cols i (nth o cols 0%Z)) o (-1)%Z) ->
  let cols2 := list_upd (list_upd (list_upd cols i (nth o cols 0%Z)) o (-1)%Z) o x in
  length cols2 = length cols /\ NoDup cols2 /\ Forall (in_range c) cols2
  /\ nth i cols2 0%Z = nth o cols 0%Z.
Proof.
  intros c pc i o x cols [Ha Hr Hp Hn] Hi Ho Hne Hx Hfresh. cbv zeta.
  set (sj := nth o cols 0%Z) in *.
  set (cols1 := list_upd (list_upd cols i sj) o (-1)%Z) in *.
  assert (L1 : length cols1 = length cols).
  { unfold cols1. rewrite !length_list_upd. reflexivity. }
  assert (E2 : forall k, nth k (list_upd cols1 o x) 0%Z
                 = if k =? o then x else if k =? i then sj else nth k cols 0%Z).
  { intros k. rewrite nth_list_upd, L1, (proj2 (Nat.ltb_lt o _) Ho), andb_true_r.
    destruct (Nat.eqb_spec k o) as [E | E]; [reflexivity | ].
    unfold cols1. rewrite nth_list_upd, length_list_upd, (proj2 (Nat.ltb_lt o _) Ho).
    rewrite (proj2 (Nat.eqb_neq k o) E). cbn [andb].
    rewrite nth_list_upd, (proj2 (Nat.ltb_lt i _) Hi), andb_true_r. reflexivity. }
  assert (F1 : forall k, k < length cols -> k <> o -> k <> i -> nth k cols 0%Z <> x).
  { intros k Hk K1 K2 E. apply Hfresh. rewrite <- E.
    replace (nth k cols 0%Z) with (nth k cols1 0%Z); [apply nth_In; lia | ].
    unfold cols1. rewrite nth_list_upd, length_list_upd, (proj2 (Nat.eqb_neq k o) K1).
    cbn [andb]. rewrite nth_list_upd, (proj2 (Nat.eqb_neq k i) K2). reflexivity. }
  assert (F2 : sj <> x).
  { intros E. apply Hfresh. rewrite <- E.
    replace sj with (nth i cols1 0%Z); [apply nth_In; lia | ].
    unfold cols1. rewrite nth_list_upd, length_list_upd, (proj2 (Nat.eqb_neq i o)) by lia.
    cbn [andb]. rewrite nth_list_upd, Nat.eqb_refl, (proj2 (Nat.ltb_lt i _) Hi).
    reflexivity. }
  pose proof (proj1 (NoDup_nth cols 0%Z) Hn) as Inj.
  split; [rewrite length_list_upd; exact L1 | ]. split; [ | split].
  - apply (NoDup_nth _ 0%Z). rewrite length_list_upd, L1. intros a b Ha' Hb'.
    rewrite !E2.
    destruct (Nat.eqb_spec a o) as [A1 | A1], (Nat.eqb_spec b o) as [B1 | B1];
      try (intros; congruence).
    + destruct (Nat.eqb_spec b i) as [B2 | B2]; intros E.
      * exfalso. apply F2. symmetry. exact E.
      * exfalso. apply (F1 b Hb' B1 B2). symmetry. exact E.
    + destruct (Nat.eqb_spec a i) as [A2 | A2]; intros E.
      * exfalso. apply F2. exact E.
      * exfalso. apply (F1 a Ha' A1 A2). exact E.
    + destruct (Nat.eqb_spec a i) as [A2 | A2], (Nat.eqb_spec b i) as [B2 | B2]; intros E.
      * congruence.
      * exfalso. apply B1. symmetry. apply Inj; [exact Ho | exact Hb' | exact E].
      * exfalso. apply A1. apply Inj; [exact Ha' | exact Ho | exact E].
      * apply Inj; assumption.
  - apply Forall_forall. intros y Hy.
    destruct (In_nth _ _ 0%Z Hy) as [k [Hk Ek]]. rewrite length_list_upd, L1 in Hk.
    rewrite E2 in Ek. subst y.
    destruct (Nat.eqb_spec k o) as [K1 | K1]; [exact Hx | ].
    destruct (Nat.eqb_spec k i) as [K2 | K2]; [apply Hr; [exact Ho | exact Hne] | ].
    apply Hr; assumption.
  - rewrite E2, (proj2 (Nat.eqb_neq i o)) by lia. rewrite Nat.eqb_refl. reflexivity.
Qed.

(** [col_idxs[other_i] = stolen_j; col_idxs[i] = -1] undoes a round. *)
Lemma hole_restore : forall c pc i o cols cols',
  hole c pc i cols -> i < length cols -> o < length cols -> o <> i ->
  length cols' = length cols ->
  (forall k, k <> i -> k <> o -> nth k cols' 0%Z = nth k cols 0%Z) ->
  list_upd (list_upd cols' o (nth o cols 0%Z)) i (-1)%Z = cols.
Proof.
  intros c pc i o cols cols' [Ha _ _ _] Hi Ho Hne L E.
  apply (nth_ext _ _ 0%Z 0%Z); [rewrite !length_list_upd; exact L | ].
  intros k _. rewrite nth_list_upd, length_list_upd, L, (proj2 (Nat.ltb_lt i _) Hi), andb_true_r.
  destruct (Nat.eqb_spec k i) as [K | K]; [subst k; symmetry; exact Ha | ].
  rewrite nth_list_upd, L, (proj2 (Nat.ltb_lt o _) Ho), andb_true_r.
  destruct (Nat.eqb_spec k o) as [K' | K']; [subst k; reflexivity | ].
  apply E; assumption.
Qed.

(** *** Reading columns through the optimum *)

Lemma NoDup_drop_at : forall (A : Type) (l : list A) k, NoDup l -> NoDup (drop_at k l).
Proof.
  intros A l. induction l as [ | x l IH]; intros k N.
  - rewrite drop_at_nil. constructor.
  - inversion N as [ | ? ? Hx Hl]; subst. destruct k as [ | k]; [exact Hl | ].
    change (drop_at (Datatypes.S k) (x :: l)) with (x :: drop_at k l).
    constructor; [ | apply IH; exact Hl].
    intros Hin. apply Hx. eapply In_drop_at. exact Hin.
Qed.

Lemma map_drop_at : forall (A B : Type) (f : A -> B) (l : list A) k,
  map f (drop_at k l) = drop_at k (map f l).
Proof.
  intros A B f l k. unfold drop_at. rewrite map_app, firstn_map, skipn_map. reflexivity.
Qed.

Lemma read_all : forall (cs : list Z),
  map (fun q => nth (Z.to_nat q) cs 0%Z) (arange (length cs)) = cs.
Proof.
  intros cs. unfold arange. rewrite map_map.
  transitivity (map (fun k => nth (k - 0) cs 0%Z) (seq 0 (length cs)));
    [ | apply map_nth_all].
  apply map_ext. intros k. rewrite Nat2Z.id, Nat.sub_0_r. reflexivity.
Qed.

Lemma mapM_list_get_range : forall (l : list Z) idx,
  Forall (in_range (length l)) idx ->
  mapM (list_get l) idx = ret (map (fun q => nth (Z.to_nat q) l 0%Z) idx).
Proof.
  intros l idx H. induction H as [ | q idx Hq _ IH]; cbn [mapM map]; [reflexivity | ].
  rewrite (list_get_range Z l q 0%Z Hq). cbn [bind ret]. rewrite IH. reflexivity.
Qed.

Lemma read_through : forall c (cs qs : list Z),
  NoDup cs -> Forall (in_range c) cs -> NoDup qs -> Forall (in_range (length cs)) qs ->
  NoDup (map (fun q => nth (Z.to_nat q) cs 0%Z) qs)
  /\ Forall (in_range c) (map (fun q => nth (Z.to_nat q) cs 0%Z) qs)
  /\ incl (map (fun q => nth (Z.to_nat q) cs 0%Z) qs) cs.
Proof.
  intros c cs qs N R Nq Rq.
  assert (I : incl (map (fun q => nth (Z.to_nat q) cs 0%Z) qs) cs).
  { intros x Hx. apply in_map_iff in Hx. destruct Hx as [q [E Hq]]. subst x.
    rewrite Forall_forall in Rq. specialize (Rq q Hq). unfold in_range in Rq.
    apply nth_In. lia. }
  split; [ | split; [ | exact I]].
  - apply NoDup_map_NoDup_ForallPairs; [ | exact Nq].
    intros x y Hx Hy E. rewrite Forall_forall in Rq.
    pose proof (Rq x Hx) as Bx. pose proof (Rq y Hy) as By.
    unfold in_range in Bx, By.
    assert (Q : Z.to_nat x = Z.to_nat y).
    { apply (proj1 (NoDup_nth cs 0%Z) N); [lia | lia | exact E]. }
    lia.
  - apply Forall_forall. intros x Hx. rewrite Forall_forall in R. apply R. apply I. exact Hx.
Qed.

(** *** One round of the inner loop *)

Lemma next_best_choice : forall (costs : ndarray) o x y (cols : list Z) (cond : bool),
  wf_ndarray costs -> in_range (nrows costs) o ->
  in_range (ncols costs) x -> in_range (ncols costs) y ->
  exists t : bool,
    (if cond
     then a <- get2 costs o x ;;
          b <- get2 costs o y ;;
          ret (cneq a b || negb (memZ y cols))
     else ret false) = ret t
    /\ (t = true -> cond = true).
Proof.
  intros costs o x y cols cond W Ho Hx Hy. destruct cond.
  - rewrite !get2_cell by assumption. cbn [bind ret].
    eexists. split; [reflexivity | reflexivity].
  - exists false. split; [reflexivity | discriminate].
Qed.

Section Wide.

Variable lap : ndarray -> result (list Z * list Z).
Hypothesis Hlap : lap_spec lap.
Variable costs : ndarray.
Hypothesis W : wf_ndarray costs.
Hypothesis V : valid_costs costs = true.
Hypothesis Hwide : nrows costs <= ncols costs.

(** Every finite entry is at most [B] in magnitude, and as many entries as
    there are rows, and two more, add up within [2^53]. *)
Variable B : Z.
Hypothesis HB : (0 <= B)%Z.
Hypothesis Hcw : cells_within B costs.
Hypothesis Hexact : ((Z.of_nat (nrows costs) + 2) * B <= 9007199254740992)%Z.

Variables best second third pc : list Z.
Hypothesis Lbest : length best = nrows costs.
Hypothesis Rbest : Forall (in_range (ncols costs)) best.
Hypothesis Lsecond : length second = nrows costs.
Hypothesis Rsecond : Forall (in_range (ncols costs)) second.
Hypothesis Lthird : length third = nrows costs.
Hypothesis Rthird : Forall (in_range (ncols costs)) third.
Hypothesis Npc : NoDup pc.
Hypothesis Rpc : Forall (in_range (ncols costs)) pc.
Hypothesis Lpc : nrows costs <= length pc.

Lemma steal_step_sound : forall i o cols (tc : ndarray),
  i < nrows costs -> o < nrows costs -> length cols = nrows costs ->
  hole (ncols costs) pc i cols ->
  wf_ndarray tc -> nrows tc = nrows costs -> ncols tc = ncols costs ->
  exists tc',
    steal_step lap costs (arange (nrows costs)) best second third pc i o (cols, tc)
    = ret (cols, tc')
    /\ ((o = i /\ tc' = tc)
        \/ (o <> i /\ exists v, attained costs i (Z.to_nat (nth o cols 0%Z)) v
                        /\ tc' = upd2 tc i (Z.to_nat (nth o cols 0%Z)) v)).
Proof.
  intros i o cols tc Hi Ho L H Wt Rt Ct.
  assert (Hrows : (Z.of_nat (length (arange (nrows costs))) * B <= 9007199254740992)%Z).
  { unfold arange. rewrite length_map, length_seq. lia. }
  unfold steal_step. rewrite (list_get_nat Z cols o 0%Z) by lia. cbn [bind ret].
  destruct (Nat.eqb_spec o i) as [E | Hne].
  { exists tc. split; [reflexivity | left; split; [exact E | reflexivity]]. }
  set (sj := nth o cols 0%Z).
  assert (Rsj : in_range (ncols costs) sj) by (apply (hole_range _ _ _ _ H); lia).
  rewrite (list_set_nat Z cols i sj) by lia. cbn [bind ret].
  rewrite (list_set_nat Z _ o (-1)%Z) by (rewrite length_list_upd; lia). cbn [bind ret].
  set (cols1 := list_upd (list_upd cols i sj) o (-1)%Z).
  assert (L1 : length cols1 = nrows costs).
  { unfold cols1. rewrite !length_list_upd. exact L. }
  rewrite (list_get_nat Z best o 0%Z) by lia. cbn [bind ret].
  rewrite (list_get_nat Z second o 0%Z) by lia. cbn [bind ret].
  rewrite (list_get_nat Z third o 0%Z) by lia. cbn [bind ret].
  set (bj := nth o best 0%Z). set (sbj := nth o second 0%Z). set (tbj := nth o third 0%Z).
  assert (Rbj : in_range (ncols costs) bj).
  { rewrite Forall_forall in Rbest. apply Rbest. apply nth_In. lia. }
  assert (Rsbj : in_range (ncols costs) sbj).
  { rewrite Forall_forall in Rsecond. apply Rsecond. apply nth_In. lia. }
  assert (Rtbj : in_range (ncols costs) tbj).
  { rewrite Forall_forall in Rthird. apply Rthird. apply nth_In. lia. }
  assert (Ro : in_range (nrows costs) (Z.of_nat o)) by (apply in_range_of_nat; exact Ho).
  assert (Ri : in_range (nrows tc) (Z.of_nat i)) by (apply in_range_of_nat; lia).
  (* what a round that moves row [o] to the free column [x] does *)
  assert (Move : forall x, in_range (ncols costs) x -> memZ x cols1 = false ->
    exists tc',
      (col_idxs <- list_set cols1 (Z.of_nat o) x ;;
       picked <- fancy_get costs (arange (nrows costs)) col_idxs ;;
       total_costs <- set2 tc (Z.of_nat i) sj (csum picked) ;;
       ret (col_idxs, total_costs)) = ret (list_upd cols1 o x, tc')
      /\ exists v, attained costs i (Z.to_nat sj) v /\ tc' = upd2 tc i (Z.to_nat sj) v).
  { intros x Hx Hm.
    assert (Hfresh : ~ In x cols1).
    { intros Hin. apply memZ_In in Hin. congruence. }
    destruct (hole_reassign _ _ i o x cols H ltac:(lia) ltac:(lia) Hne Hx Hfresh)
      as (L2 & N2 & R2 & E2).
    fold sj in L2, N2, R2, E2. fold cols1 in L2, N2, R2, E2.
    rewrite (list_set_nat Z cols1 o x) by lia. cbn [bind ret].
    assert (A2 : is_assignment costs (arange (nrows costs)) (list_upd cols1 o x)).
    { apply full_assignment; [exact Hwide | lia | exact N2 | exact R2]. }
    rewrite (@fancy_get_assignment _ _ _ W A2). cbn [bind ret].
    rewrite (proj1 (@csum_assignment B _ _ _ HB Hcw A2 Hrows)).
    rewrite (set2_range cost tc (Z.of_nat i) sj _ (proj1 Wt) Ri)
      by (rewrite Ct; exact Rsj).
    cbn [bind ret]. rewrite Nat2Z.id. eexists. split; [reflexivity | ].
    eexists. split; [ | reflexivity].
    replace (nrows costs) with (length (list_upd cols1 o x)) at 1 by lia.
    rewrite cost_by_rows.
    apply attained_by_cols; try assumption; [lia | ].
    rewrite E2. unfold in_range in Rsj. lia. }
  assert (Back : forall x,
    list_upd (list_upd (list_upd cols1 o x) o sj) i (-1)%Z = cols).
  { intros x. apply (hole_restore _ _ i o cols _ H); try lia.
    - rewrite length_list_upd. lia.
    - intros k K1 K2. rewrite nth_list_upd, (proj2 (Nat.eqb_neq k o) K2). cbn [andb].
      unfold cols1. rewrite nth_list_upd, (proj2 (Nat.eqb_neq k o) K2). cbn [andb].
      rewrite nth_list_upd, (proj2 (Nat.eqb_neq k i) K1). reflexivity. }
  assert (Back1 : list_upd (list_upd cols1 o sj) i (-1)%Z = cols).
  { apply (hole_restore _ _ i o cols _ H); try lia.
    intros k K1 K2.
    unfold cols1. rewrite nth_list_upd, (proj2 (Nat.eqb_neq k o) K2). cbn [andb].
    rewrite nth_list_upd, (proj2 (Nat.eqb_neq k i) K1). reflexivity. }
  destruct (next_best_choice costs (Z.of_nat o) bj sbj cols1
              (negb (bj =? sj)%Z && negb (memZ bj cols1)) W Ro Rbj Rsbj)
    as [tb [Etb Htb]].
  rewrite Etb. cbn [bind ret]. destruct tb.
  { specialize (Htb eq_refl). apply andb_true_iff in Htb. destruct Htb as [_ Hm].
    apply negb_true_iff in Hm.
    destruct (Move bj Rbj Hm) as [tc' [Em Hv]]. rewrite Em. cbn [bind ret].
    rewrite (list_set_nat Z _ o sj) by (rewrite length_list_upd; lia). cbn [bind ret].
    rewrite (list_set_nat Z _ i (-1)%Z) by (rewrite !length_list_upd; lia). cbn [bind ret].
    rewrite Back. exists tc'. split; [reflexivity | right; split; [exact Hne | exact Hv]]. }
  destruct (next_best_choice costs (Z.of_nat o) sbj tbj cols1
              (negb (memZ sbj cols1)) W Ro Rsbj Rtbj)
    as [ts [Ets Hts]].
  rewrite Ets. cbn [bind ret]. destruct ts.
  { specialize (Hts eq_refl). apply negb_true_iff in Hts.
    destruct (Move sbj Rsbj Hts) as [tc' [Em Hv]]. rewrite Em. cbn [bind ret].
    rewrite (list_set_nat Z _ o sj) by (rewrite length_list_upd; lia). cbn [bind ret].
    rewrite (list_set_nat Z _ i (-1)%Z) by (rewrite !length_list_upd; lia). cbn [bind ret].
    rewrite Back. exists tc'. split; [reflexivity | right; split; [exact Hne | exact Hv]]. }
  (* the constrained solve on the potential columns *)
  rewrite (cols_by_idx_range costs pc Rpc). cbn [bind ret].
  assert (Hin : In sj pc) by (apply (hole_pc _ _ _ _ H); lia).
  destruct (find_index_found sj pc 0 Hin) as [q (Eq & Hq & Enq)].
  rewrite Eq. cbn [bind ret Nat.add].
  destruct (constrained_lsap_cost_attained lap (take_cols costs pc) i q B Hlap
              (take_cols_wf costs pc W) (take_cols_valid costs pc W V Rpc) HB
              (cells_within_take_cols B costs pc Rpc Hcw))
    as [v [Ev Av]]; [ | exact Hi | exact Hq | ].
  { cbn [take_cols mk_ndarray nrows ncols].
    pose proof (@scaled_le B (Nat.min (nrows costs) (length pc)) (nrows costs) HB
                  ltac:(lia)). lia. }
  rewrite Ev. cbn [bind ret].
  rewrite (set2_range cost tc (Z.of_nat i) sj _ (proj1 Wt) Ri) by (rewrite Ct; exact Rsj).
  cbn [bind ret].
  rewrite (list_set_nat Z _ o sj) by lia. cbn [bind ret].
  rewrite (list_set_nat Z _ i (-1)%Z) by (rewrite !length_list_upd; lia). cbn [bind ret].
  rewrite Back1, Nat2Z.id. eexists. split; [reflexivity | ].
  right. split; [exact Hne | ]. exists v. split; [ | reflexivity].
  rewrite <- Enq. apply attained_take_cols; assumption.
Qed.


(** *** The inner loop *)

Lemma steal_loop_sound : forall i cols (tc : ndarray),
  i < nrows costs -> length cols = nrows costs ->
  hole (ncols costs) pc i cols ->
  wf_ndarray tc -> nrows tc = nrows costs -> ncols tc = ncols costs ->
  exists tc',
    for_each (seq 0 (nrows costs))
      (steal_step lap costs (arange (nrows costs)) best second third pc i) (cols, tc)
    = ret (cols, tc')
    /\ wf_ndarray tc' /\ nrows tc' = nrows costs /\ ncols tc' = ncols costs
    /\ (forall k j, k <> i ->
          cell tc' (Z.of_nat k) (Z.of_nat j) = cell tc (Z.of_nat k) (Z.of_nat j))
    /\ (forall j, j < ncols costs ->
          attained costs i j (cell tc (Z.of_nat i) (Z.of_nat j))
          \/ (exists o, o < nrows costs /\ o <> i /\ nth o cols 0%Z = Z.of_nat j) ->
          attained costs i j (cell tc' (Z.of_nat i) (Z.of_nat j))).
Proof.
  intros i cols tc Hi L H Wt Rt Ct.
  destruct (for_each_inv nat (list Z * ndarray)
              (steal_step lap costs (arange (nrows costs)) best second third pc i)
              (seq 0 (nrows costs))
              (fun m st =>
                 fst st = cols /\ wf_ndarray (snd st)
                 /\ nrows (snd st) = nrows costs /\ ncols (snd st) = ncols costs
                 /\ (forall k j, k <> i ->
                       cell (snd st) (Z.of_nat k) (Z.of_nat j)
                       = cell tc (Z.of_nat k) (Z.of_nat j))
                 /\ (forall j, j < ncols costs ->
                       attained costs i j (cell tc (Z.of_nat i) (Z.of_nat j))
                       \/ (exists o, o < m /\ o <> i /\ nth o cols 0%Z = Z.of_nat j) ->
                       attained costs i j (cell (snd st) (Z.of_nat i) (Z.of_nat j))))
              (cols, tc)) as [[cols' tc'] [E I]].
  - cbn [fst snd]. split; [reflexivity | ]. split; [exact Wt | ]. split; [exact Rt | ].
    split; [exact Ct | ]. split; [reflexivity | ].
    intros j Hj [A | [o [Ho _]]]; [exact A | lia].
  - intros m x [cols0 tc0] Hm (E0 & W0 & R0 & C0 & K0 & A0). cbn [fst snd] in *. subst cols0.
    rewrite nth_error_seq in Hm.
    destruct (Nat.ltb_spec m (nrows costs)) as [Lm | Lm]; [ | discriminate].
    inversion Hm; subst x. cbn [Nat.add].
    destruct (steal_step_sound i m cols tc0 Hi Lm L H W0 R0 C0) as [tc1 [E1 D]].
    exists (cols, tc1). split; [exact E1 | ]. cbn [fst snd]. split; [reflexivity | ].
    destruct D as [[Em Et] | [Hne (v & Av & Et)]]; subst tc1.
    + split; [exact W0 | ]. split; [exact R0 | ]. split; [exact C0 | ].
      split; [exact K0 | ].
      intros j Hj [A | [o (Ho & Hoi & Eo)]]; apply (A0 j Hj); [left; exact A | ].
      right. exists o. split; [lia | split; [exact Hoi | exact Eo]].
    + set (sj := nth m cols 0%Z) in *.
      assert (Rsj : in_range (ncols costs) sj) by (apply (hole_range _ _ _ _ H); lia).
      assert (Bj : Z.to_nat sj < ncols tc0) by (unfold in_range in Rsj; lia).
      assert (Bi : i < nrows tc0) by lia.
      split; [apply upd2_wf; exact W0 | ]. split; [exact R0 | ]. split; [exact C0 | ].
      split.
      * intros k j Hk. rewrite (upd2_cell tc0 i _ v _ _ W0 Bi Bj), !Nat2Z.id.
        rewrite (proj2 (Nat.eqb_neq k i) Hk). cbn [andb]. apply K0. exact Hk.
      * intros j Hj Hyp. rewrite (upd2_cell tc0 i _ v _ _ W0 Bi Bj), !Nat2Z.id.
        rewrite Nat.eqb_refl. cbn [andb].
        destruct (Nat.eqb_spec j (Z.to_nat sj)) as [Ej | Ej]; [subst j; exact Av | ].
        apply (A0 j Hj). destruct Hyp as [A | [o (Ho & Hoi & Eo)]]; [left; exact A | ].
        right. exists o. split; [ | split; [exact Hoi | exact Eo]].
        assert (o <> m) by (intros Q; subst o; apply Ej; unfold sj; rewrite Eo; lia).
        lia.
  - rewrite length_seq in I. destruct I as (E0 & W0 & R0 & C0 & K0 & A0).
    cbn [fst snd] in *. subst cols'. exists tc'. split; [exact E | ].
    split; [exact W0 | ]. split; [exact R0 | ]. split; [exact C0 | ].
    split; [exact K0 | exact A0].
Qed.

(** *** The optimum without row [i] *)

Lemma rest_is_finite : forall cs t i,
  i < length cs -> rowsum costs cs = Fin t ->
  exists y, rowsum (drop_row i costs) (drop_at i cs) = Fin y.
Proof.
  intros cs t i Hi E.
  assert (L : i <= length (drop_at i cs)) by (rewrite length_drop_at; lia).
  rewrite <- (ins_drop_at Z i cs 0%Z Hi) in E at 1.
  rewrite (rowsum_ins costs i _ _ L) in E.
  destruct (tadd_Fin_inv _ _ _ E) as (x & y & _ & Ey). exists y. exact Ey.
Qed.

Lemma resolve_without_row : forall cs t i (tc : ndarray),
  length cs = nrows costs -> NoDup cs -> Forall (in_range (ncols costs)) cs ->
  rowsum costs cs = Fin t -> i < nrows costs ->
  wf_ndarray tc -> nrows tc = nrows costs -> ncols tc = ncols costs ->
  exists vals tc1,
    (mi <- one_hot i (nrows costs) ;;
     kept_rows <- rows_by_mask costs (invert mi) ;;
     sub_costs <- cols_by_idx kept_rows cs ;;
     '(sub_row_ind, sub_col_ind) <- lap sub_costs ;;
     picked <- fancy_get sub_costs sub_row_ind sub_col_ind ;;
     vals <- mapM (list_get cs) sub_col_ind ;;
     col_idxs <- set_by_mask (list_upd cs i (-1)%Z) (invert mi) vals ;;
     row_i <- get_row costs (Z.of_nat i) ;;
     total_costs <- set_row tc (Z.of_nat i) (map (fun c => cadd c (csum picked)) row_i) ;;
     ret (col_idxs, total_costs)) = ret (ins i (-1)%Z vals, tc1)
    /\ Datatypes.S (length vals) = nrows costs /\ NoDup vals
    /\ Forall (in_range (ncols costs)) vals /\ incl vals cs
    /\ wf_ndarray tc1 /\ nrows tc1 = nrows costs /\ ncols tc1 = ncols costs
    /\ (forall k j, k <> i ->
          cell tc1 (Z.of_nat k) (Z.of_nat j) = cell tc (Z.of_nat k) (Z.of_nat j))
    /\ (forall j, j < ncols costs -> ~ In (Z.of_nat j) vals ->
          attained costs i j (cell tc1 (Z.of_nat i) (Z.of_nat j))).
Proof.
  intros cs t i tc Lcs Ncs Rcs Et Hi Wt Rt Ct.
  set (f := fun q : Z => nth (Z.to_nat q) cs 0%Z).
  set (sub := take_cols (drop_row i costs) cs).
  pose proof (drop_row_wf costs i W Hi) as Wd.
  pose proof (drop_row_valid costs i V) as Vd.
  assert (Ws : wf_ndarray sub) by (apply take_cols_wf; exact Wd).
  assert (Vs : valid_costs sub = true) by (apply take_cols_valid; assumption).
  assert (Hs : nrows sub <= ncols sub).
  { unfold sub. cbn [take_cols drop_row mk_ndarray nrows ncols]. lia. }
  unfold one_hot. rewrite (proj2 (Nat.ltb_lt _ _) Hi). cbn [bind ret].
  rewrite (rows_by_mask_drop costs i W Hi). cbn [bind ret].
  rewrite (cols_by_idx_range (drop_row i costs) cs Rcs). cbn [bind ret]. fold sub.
  destruct (lap sub) as [e | [srs scs]] eqn:EL.
  { exfalso.
    destruct (@lap_infeasible lap Hlap _ _ Ws Vs EL) as [_ Hall].
    destruct (rest_is_finite cs t i ltac:(lia) Et) as [y Ey].
    set (cs0 := drop_at i (arange (nrows costs))).
    assert (L0 : length cs0 = nrows costs - 1).
    { unfold cs0. rewrite length_drop_at; unfold arange; rewrite length_map, length_seq; lia. }
    assert (R0 : Forall (in_range (length cs)) cs0).
    { apply Forall_forall. intros x Hx. apply In_drop_at in Hx. apply arange_In in Hx.
      rewrite Lcs. exact Hx. }
    assert (A0 : is_assignment sub (arange (nrows sub)) cs0).
    { apply full_assignment; [exact Hs | exact L0 | | exact R0].
      apply NoDup_drop_at. apply StronglySorted_NoDup. apply arange_sorted. }
    specialize (Hall _ _ A0).
    replace (nrows sub) with (length cs0) in Hall by exact L0.
    rewrite cost_by_rows in Hall. unfold sub in Hall.
    rewrite (rowsum_take_cols (drop_row i costs) cs cs0 R0) in Hall
      by (cbn [drop_row mk_ndarray nrows]; lia).
    unfold cs0 in Hall. rewrite map_drop_at in Hall. rewrite <- Lcs in Hall.
    rewrite read_all in Hall. congruence. }
  destruct (@lap_optimal lap Hlap _ _ _ Ws Vs EL) as (A & _ & _).
  pose proof (assignment_rows sub srs scs Hs A) as Ers.
  cbn [bind]. rewrite (@fancy_get_assignment _ _ _ Ws A). cbn [bind ret].
  assert (Hsub : cells_within B sub).
  { apply cells_within_take_cols; [exact Rcs | ].
    apply cells_within_drop_row; assumption. }
  assert (Lsr : Datatypes.S (length srs) = nrows costs).
  { rewrite (asg_size A). unfold sub. cbn [take_cols drop_row mk_ndarray nrows ncols]. lia. }
  pose proof (@scaled_le B (length srs) (nrows costs) HB ltac:(lia)) as Hsr.
  destruct (@csum_assignment B sub srs scs HB Hsub A) as [Ec Wst]; [lia | ].
  rewrite Ec.
  destruct A as [A1 A2 _ _ A5 A6].
  assert (Ls : Datatypes.S (length scs) = nrows costs).
  { rewrite A2, A1. unfold sub. cbn [take_cols drop_row mk_ndarray nrows ncols]. lia. }
  assert (Rs : Forall (in_range (length cs)) scs) by exact A6.
  rewrite (mapM_list_get_range cs scs Rs). cbn [bind ret]. fold f.
  destruct (read_through (ncols costs) cs scs Ncs Rcs A5 Rs) as (Nv & Rv & Iv). fold f in Nv, Rv, Iv.
  set (mask := invert (map (Nat.eqb i) (seq 0 (nrows costs)))).
  assert (Em : set_by_mask (list_upd cs i (-1)%Z) mask (map f scs)
               = ret (ins i (-1)%Z (map f scs))).
  { unfold set_by_mask.
    assert (Lm : length mask = nrows costs).
    { unfold mask, invert. rewrite !length_map, length_seq. reflexivity. }
    rewrite Lm, length_list_upd, Lcs, Nat.eqb_refl. cbn [negb].
    unfold mask. rewrite (count_true_invert_one_hot Hi), length_map.
    replace (nrows costs - 1 =? length scs) with true by (symmetry; apply Nat.eqb_eq; lia).
    pose proof (mask_assign_but_one Z (list_upd cs i (-1)%Z) (map f scs) i 0 0%Z) as Q.
    rewrite length_list_upd, Lcs, length_map, Nat.sub_0_r in Q.
    rewrite nth_list_upd, Nat.eqb_refl, Lcs, (proj2 (Nat.ltb_lt _ _) Hi) in Q.
    cbn [andb] in Q. rewrite Q by lia. reflexivity. }
  rewrite Em. cbn [bind ret].
  assert (Lrow : length (nth i (data costs) []) = ncols costs).
  { destruct W as [Wr Wc]. rewrite Forall_forall in Wc. apply Wc. apply nth_In. lia. }
  unfold get_row. rewrite (@norm_index_of_nat _ _ Hi). cbn [bind ret].
  rewrite (nth_error_nth' (data costs) []) by (destruct W; lia). cbn [bind ret].
  unfold set_row. rewrite (@norm_index_of_nat (nrows tc) i) by lia. cbn [bind ret].
  rewrite length_map, Lrow, Ct, Nat.eqb_refl.
  set (stotal := assignment_cost sub srs scs) in *.
  assert (Etotal : stotal = rowsum (drop_row i costs) (map f scs)).
  { unfold stotal. rewrite Ers.
    replace (nrows sub) with (length scs)
      by (unfold sub; cbn [take_cols drop_row mk_ndarray nrows]; lia).
    rewrite cost_by_rows. unfold sub.
    apply (rowsum_take_cols (drop_row i costs) cs scs Rs).
    cbn [drop_row mk_ndarray nrows]. lia. }
  exists (map f scs). eexists. split; [reflexivity | ].
  split; [rewrite length_map; exact Ls | ]. split; [exact Nv | ].
  split; [exact Rv | ]. split; [exact Iv | ].
  destruct Wt as [Wtr Wtc].
  split; [ | split; [exact Rt | split; [reflexivity | split]]].
  - split; cbn [mk_ndarray nrows ncols data].
    + rewrite length_list_upd. exact Wtr.
    + apply Forall_forall. intros r Hr.
      destruct (@In_list_upd _ _ _ _ _ Hr) as [[E _] | Hin].
      * subst r. rewrite length_map, Lrow. reflexivity.
      * rewrite Forall_forall in Wtc. rewrite <- Ct. apply Wtc. exact Hin.
  - intros k j Hk. unfold cell. cbn [mk_ndarray data]. rewrite !Nat2Z.id.
    rewrite nth_list_upd, (proj2 (Nat.eqb_neq k i) Hk). reflexivity.
  - intros j Hj Hfresh. unfold cell at 1. cbn [mk_ndarray data]. rewrite !Nat2Z.id.
    rewrite nth_list_upd, Nat.eqb_refl, (proj2 (Nat.ltb_lt i _)) by lia. cbn [andb].
    rewrite (@nth_map_lt _ _ (fun c => cadd c stotal) NaN NaN _ j) by lia.
    replace (nth j (nth i (data costs) []) NaN) with (cell costs (Z.of_nat i) (Z.of_nat j))
      by (unfold cell; rewrite !Nat2Z.id; reflexivity).
    rewrite (@cadd_exact B (Z.of_nat (length srs) * B) _ _
               (Hcw _ _ (in_range_of_nat _ _ Hi) (in_range_of_nat _ _ Hj)) Wst) by lia.
    assert (Li : i <= length (map f scs)) by (rewrite length_map; lia).
    rewrite Etotal, <- (rowsum_ins costs i (Z.of_nat j) (map f scs) Li).
    apply attained_by_cols; try assumption.
    + rewrite ins_length, length_map. exact Ls.
    + apply ins_NoDup; assumption.
    + apply Forall_forall. intros x Hx. apply ins_In in Hx.
      destruct Hx as [Hx | Hx]; [subst x; apply in_range_of_nat; exact Hj | ].
      rewrite Forall_forall in Rv. apply Rv. exact Hx.
    + rewrite (ins_nth Z i _ _ i 0%Z Li), Nat.ltb_irrefl, Nat.eqb_refl. reflexivity.
Qed.

(** *** One round of the outer loop *)

Lemma constrain_row_tail : forall cs vals i (tc1 : ndarray),
  length cs = nrows costs -> NoDup cs -> Forall (in_range (ncols costs)) cs ->
  incl cs pc -> i < nrows costs ->
  Datatypes.S (length vals) = nrows costs -> NoDup vals ->
  Forall (in_range (ncols costs)) vals -> incl vals cs ->
  wf_ndarray tc1 -> nrows tc1 = nrows costs -> ncols tc1 = ncols costs ->
  (forall j, j < ncols costs -> ~ In (Z.of_nat j) vals ->
     attained costs i j (cell tc1 (Z.of_nat i) (Z.of_nat j))) ->
  exists tc',
    (free_j <- list_get (setdiff1d cs (ins i (-1)%Z vals)) 0%Z ;;
     col_idxs <- list_set (ins i (-1)%Z vals) (Z.of_nat i) free_j ;;
     picked <- fancy_get costs (arange (nrows costs)) col_idxs ;;
     col_i <- list_get col_idxs (Z.of_nat i) ;;
     total_costs <- set2 tc1 (Z.of_nat i) col_i (csum picked) ;;
     col_idxs <- list_set col_idxs (Z.of_nat i) (-1)%Z ;;
     '(_, total_costs) <-
       for_each (seq 0 (length col_idxs))
         (steal_step lap costs (arange (nrows costs)) best second third pc i)
         (col_idxs, total_costs) ;;
     ret total_costs) = ret tc'
    /\ wf_ndarray tc' /\ nrows tc' = nrows costs /\ ncols tc' = ncols costs
    /\ (forall k j, k <> i ->
          cell tc' (Z.of_nat k) (Z.of_nat j) = cell tc1 (Z.of_nat k) (Z.of_nat j))
    /\ (forall j, j < ncols costs ->
          attained costs i j (cell tc' (Z.of_nat i) (Z.of_nat j))).
Proof.
  intros cs vals i tc1 Lcs Ncs Rcs Ipc Hi Lv Nv Rv Iv Wt Rt Ct Hrow.
  assert (Li : i <= length vals) by lia.
  set (cols := ins i (-1)%Z vals).
  assert (Lc : length cols = nrows costs) by (unfold cols; rewrite ins_length; exact Lv).
  assert (Hne : setdiff1d cs cols <> []).
  { destruct (fresh_column cs vals Ncs ltac:(lia)) as [x [Hx Hnx]].
    assert (Hin : In x (setdiff1d cs cols)).
    { apply setdiff1d_In. split; [exact Hx | ]. unfold cols. intros Q. apply ins_In in Q.
      destruct Q as [Q | Q]; [ | exact (Hnx Q)].
      rewrite Forall_forall in Rcs. specialize (Rcs x Hx). unfold in_range in Rcs. lia. }
    intros Q. rewrite Q in Hin. exact Hin. }
  destruct (list_get_first _ Hne) as [fj [Efj Hfj]].
  apply setdiff1d_In in Hfj. destruct Hfj as [Hfc Hfn].
  assert (Rfj : in_range (ncols costs) fj).
  { rewrite Forall_forall in Rcs. apply Rcs. exact Hfc. }
  assert (Hfv : ~ In fj vals).
  { intros Q. apply Hfn. unfold cols. apply ins_In. right. exact Q. }
  rewrite Efj. cbn [bind ret].
  rewrite (list_set_nat Z cols i fj) by lia. cbn [bind ret].
  assert (Eu : list_upd cols i fj = ins i fj vals) by apply (list_upd_ins Z i _ fj vals Li).
  rewrite Eu. set (cols2 := ins i fj vals).
  assert (L2 : length cols2 = nrows costs) by (unfold cols2; rewrite ins_length; exact Lv).
  assert (N2 : NoDup cols2) by (apply ins_NoDup; assumption).
  assert (R2 : Forall (in_range (ncols costs)) cols2).
  { apply Forall_forall. intros x Hx. apply ins_In in Hx.
    destruct Hx as [Hx | Hx]; [subst x; exact Rfj | ].
    rewrite Forall_forall in Rv. apply Rv. exact Hx. }
  assert (E2 : nth i cols2 0%Z = fj).
  { unfold cols2. rewrite (ins_nth Z i _ _ i 0%Z Li), Nat.ltb_irrefl, Nat.eqb_refl.
    reflexivity. }
  assert (A2 : is_assignment costs (arange (nrows costs)) cols2).
  { apply full_assignment; assumption. }
  rewrite (@fancy_get_assignment _ _ _ W A2). cbn [bind ret].
  assert (Hrows : (Z.of_nat (length (arange (nrows costs))) * B <= 9007199254740992)%Z).
  { unfold arange. rewrite length_map, length_seq. lia. }
  rewrite (proj1 (@csum_assignment B _ _ _ HB Hcw A2 Hrows)).
  rewrite (list_get_nat Z cols2 i 0%Z) by lia. cbn [bind ret]. rewrite E2.
  assert (Ri : in_range (nrows tc1) (Z.of_nat i)) by (apply in_range_of_nat; lia).
  rewrite (set2_range cost tc1 (Z.of_nat i) fj _ (proj1 Wt) Ri) by (rewrite Ct; exact Rfj).
  cbn [bind ret]. rewrite Nat2Z.id.
  rewrite (list_set_nat Z cols2 i (-1)%Z) by lia. cbn [bind ret].
  assert (Eb : list_upd cols2 i (-1)%Z = cols) by apply (list_upd_ins Z i _ (-1)%Z vals Li).
  rewrite Eb, Lc.
  set (v := assignment_cost costs (arange (nrows costs)) cols2).
  assert (Av : attained costs i (Z.to_nat fj) v).
  { unfold v. replace (nrows costs) with (length cols2) at 1 by exact L2.
    rewrite cost_by_rows. apply attained_by_cols; try assumption.
    rewrite E2. unfold in_range in Rfj. lia. }
  set (tc2 := upd2 tc1 i (Z.to_nat fj) v).
  assert (Bj : Z.to_nat fj < ncols tc1) by (unfold in_range in Rfj; lia).
  assert (Bi : i < nrows tc1) by lia.
  assert (H : hole (ncols costs) pc i cols).
  { apply hole_ins; try assumption. intros x Hx. apply Ipc. apply Iv. exact Hx. }
  destruct (steal_loop_sound i cols tc2 Hi Lc H (upd2_wf cost tc1 i _ v Wt) Rt Ct)
    as [tc' (E & W' & R' & C' & K' & A')].
  match goal with
  | |- context [bind ?e _] =>
      let E' := fresh "E" in assert (E' : e = ret (cols, tc')) by exact E; rewrite E'
  end.
  cbn [bind ret]. exists tc'. split; [reflexivity | ].
  split; [exact W' | ]. split; [exact R' | ]. split; [exact C' | ]. split.
  - intros k j Hk. rewrite (K' k j Hk). unfold tc2.
    rewrite (upd2_cell tc1 i _ v _ _ Wt Bi Bj), !Nat2Z.id.
    rewrite (proj2 (Nat.eqb_neq k i) Hk). reflexivity.
  - intros j Hj. apply (A' j Hj).
    destruct (in_dec Z.eq_dec (Z.of_nat j) vals) as [Hin | Hout].
    + right. destruct (In_nth _ _ 0%Z Hin) as [k [Hk Ek]].
      exists (if k <? i then k else Datatypes.S k).
      destruct (Nat.ltb_spec k i) as [Lk | Lk].
      * split; [lia | ]. split; [lia | ]. unfold cols.
        rewrite (ins_nth Z i _ _ k 0%Z Li), (proj2 (Nat.ltb_lt k i) Lk). exact Ek.
      * split; [lia | ]. split; [lia | ]. unfold cols.
        rewrite (ins_nth Z i _ _ (Datatypes.S k) 0%Z Li).
        rewrite (proj2 (Nat.ltb_ge (Datatypes.S k) i)) by lia.
        rewrite (proj2 (Nat.eqb_neq (Datatypes.S k) i)) by lia.
        replace (Datatypes.S k - 1) with k by lia. exact Ek.
    + left. unfold tc2. rewrite (upd2_cell tc1 i _ v _ _ Wt Bi Bj), !Nat2Z.id.
      rewrite Nat.eqb_refl. cbn [andb].
      destruct (Nat.eqb_spec j (Z.to_nat fj)) as [Ej | Ej]; [subst j; exact Av | ].
      apply Hrow; assumption.
Qed.

Lemma constrain_row_sound : forall cs t i (tc : ndarray),
  length cs = nrows costs -> NoDup cs -> Forall (in_range (ncols costs)) cs ->
  incl cs pc -> rowsum costs cs = Fin t -> i < nrows costs ->
  wf_ndarray tc -> nrows tc = nrows costs -> ncols tc = ncols costs ->
  (forall j, j < ncols costs -> ~ In (Z.of_nat j) (drop_at i cs) ->
     attained costs i j (cell tc (Z.of_nat i) (Z.of_nat j))) ->
  exists tc',
    constrain_row lap costs (arange (nrows costs)) cs
      (map (fun rc => cell costs (fst rc) (snd rc)) (combine (arange (nrows costs)) cs))
      best second third pc (i, nth i cs 0%Z) tc = ret tc'
    /\ wf_ndarray tc' /\ nrows tc' = nrows costs /\ ncols tc' = ncols costs
    /\ (forall k j, k <> i ->
          cell tc' (Z.of_nat k) (Z.of_nat j) = cell tc (Z.of_nat k) (Z.of_nat j))
    /\ (forall j, j < ncols costs ->
          attained costs i j (cell tc' (Z.of_nat i) (Z.of_nat j))).
Proof.
  intros cs t i tc Lcs Ncs Rcs Ipc Et Hi Wt Rt Ct Hrow.
  assert (Rf : in_range (ncols costs) (nth i cs 0%Z)).
  { rewrite Forall_forall in Rcs. apply Rcs. apply nth_In. lia. }
  unfold constrain_row. cbv zeta.
  rewrite (list_set_nat Z cs i (-1)%Z) by lia. cbn [bind ret].
  unfold column. rewrite (@norm_index_in_range _ _ Rf). cbn [bind ret].
  unfold broadcast2.
  replace (length (map (fun r => nth (Z.to_nat (nth i cs 0%Z)) r NaN) (data costs))
           =? length (map (fun rc => cell costs (fst rc) (snd rc))
                        (combine (arange (nrows costs)) cs))) with true.
  2:{ symmetry. apply Nat.eqb_eq. rewrite !length_map, length_combine.
      unfold arange. rewrite length_map, length_seq. destruct W. lia. }
  cbn [bind ret].
  match goal with
  | |- context [if existsb ?f ?l then _ else _] => destruct (existsb f l)
  end.
  - destruct (resolve_without_row cs t i tc Lcs Ncs Rcs Et Hi Wt Rt Ct)
      as (vals & tc1 & E & Lv & Nv & Rv & Iv & W1 & R1 & C1 & K1 & A1).
    rewrite E. cbn [bind ret].
    destruct (constrain_row_tail cs vals i tc1 Lcs Ncs Rcs Ipc Hi Lv Nv Rv Iv W1 R1 C1 A1)
      as (tc' & E' & W' & R' & C' & K' & A').
    exists tc'. split; [exact E' | ]. split; [exact W' | ]. split; [exact R' | ].
    split; [exact C' | ]. split; [ | exact A'].
    intros k j Hk. rewrite (K' k j Hk). apply K1. exact Hk.
  - assert (Ec : list_upd cs i (-1)%Z = ins i (-1)%Z (drop_at i cs)).
    { rewrite <- (ins_drop_at Z i cs 0%Z) at 1 by lia.
      apply list_upd_ins. rewrite length_drop_at; lia. }
    rewrite Ec.
    assert (Lv : Datatypes.S (length (drop_at i cs)) = nrows costs)
      by (rewrite length_drop_at; lia).
    assert (Iv : incl (drop_at i cs) cs) by (intros x Hx; eapply In_drop_at; exact Hx).
    assert (Rv : Forall (in_range (ncols costs)) (drop_at i cs)).
    { apply Forall_forall. intros x Hx. rewrite Forall_forall in Rcs. apply Rcs.
      apply Iv. exact Hx. }
    exact (constrain_row_tail cs (drop_at i cs) i tc Lcs Ncs Rcs Ipc Hi Lv
             (NoDup_drop_at Z cs i Ncs) Rv Iv Wt Rt Ct Hrow).
Qed.

(** *** The outer loop and the entries of the optimum *)

Lemma wide_tail : forall cs t,
  length cs = nrows costs -> NoDup cs -> Forall (in_range (ncols costs)) cs ->
  incl cs pc -> rowsum costs cs = Fin t ->
  exists out,
    (total_costs <-
       base_total_costs
         (csum (map (fun rc => cell costs (fst rc) (snd rc))
                    (combine (arange (nrows costs)) cs)))
         (map (fun rc => cell costs (fst rc) (snd rc)) (combine (arange (nrows costs)) cs))
         costs ;;
     total_costs <-
       for_each (enumerate cs)
         (constrain_row lap costs (arange (nrows costs)) cs
            (map (fun rc => cell costs (fst rc) (snd rc))
                 (combine (arange (nrows costs)) cs))
            best second third pc)
         total_costs ;;
     fancy_set total_costs (arange (nrows costs)) cs
       (csum (map (fun rc => cell costs (fst rc) (snd rc))
                  (combine (arange (nrows costs)) cs)))) = ret out
    /\ wf_ndarray out /\ nrows out = nrows costs /\ ncols out = ncols costs
    /\ (forall i j, i < nrows costs -> j < ncols costs ->
          attained costs i j (cell out (Z.of_nat i) (Z.of_nat j)))
    /\ (forall i j, i < nrows costs -> j < ncols costs ->
          includes i j (arange (nrows costs)) cs ->
          cell out (Z.of_nat i) (Z.of_nat j) = Fin t).
Proof.
  intros cs t Lcs Ncs Rcs Ipc Et.
  set (rs := arange (nrows costs)).
  set (ls := map (fun rc => cell costs (fst rc) (snd rc)) (combine rs cs)).
  assert (Lrs : length rs = nrows costs)
    by (unfold rs, arange; rewrite length_map, length_seq; reflexivity).
  assert (Afull : is_assignment costs rs cs) by (apply full_assignment; assumption).
  assert (Hrows : (Z.of_nat (length rs) * B <= 9007199254740992)%Z) by (rewrite Lrs; lia).
  destruct (@csum_assignment B costs rs cs HB Hcw Afull Hrows) as [Ecs Wtot].
  assert (Eas : assignment_cost costs rs cs = Fin t).
  { rewrite <- Et. unfold rs. rewrite <- Lcs. apply cost_by_rows. }
  assert (Etot : csum ls = Fin t) by (unfold ls; rewrite Ecs; exact Eas).
  rewrite Eas, Lrs in Wtot.
  rewrite Etot.
  assert (Lls : length ls = nrows costs).
  { unfold ls. rewrite length_map, length_combine. lia. }
  destruct (base_total_costs_cells (Fin t) ls costs W Lls)
    as (b & Eb & Wb & Rb & Cb & Hb).
  rewrite Eb. cbn [bind ret].
  assert (Els : forall k, k < nrows costs ->
            nth k ls NaN = cell costs (Z.of_nat k) (nth k cs 0%Z)).
  { intros k Hk. unfold ls.
    rewrite (@nth_map_lt _ _ (fun rc => cell costs (fst rc) (snd rc)) NaN (0%Z, 0%Z) _ k)
      by (rewrite length_combine; lia).
    rewrite combine_nth by lia. cbn [fst snd]. unfold rs, arange.
    rewrite (@nth_map_lt _ _ Z.of_nat 0%Z 0 _ k) by (rewrite length_seq; exact Hk).
    rewrite seq_nth by exact Hk. reflexivity. }
  assert (Base : forall k j, k < nrows costs -> j < ncols costs ->
            ~ In (Z.of_nat j) (drop_at k cs) ->
            attained costs k j (cell b (Z.of_nat k) (Z.of_nat j))).
  { intros k j Hk Hj Hfresh. rewrite (Hb k j Hk Hj), (Els k Hk).
    assert (Rk : in_range (ncols costs) (nth k cs 0%Z)).
    { rewrite Forall_forall in Rcs. apply Rcs. apply nth_In. lia. }
    pose proof (Hcw _ _ (in_range_of_nat _ _ Hk) Rk) as W1.
    pose proof (Hcw _ _ (in_range_of_nat _ _ Hk) (in_range_of_nat _ _ Hj)) as W2.
    unfold csub.
    rewrite (@cadd_exact (Z.of_nat (nrows costs) * B) B _ _ Wtot (@cneg_within B _ W1))
      by lia.
    rewrite (@cadd_exact (Z.of_nat (nrows costs) * B + B) B _ _
               (@tadd_within _ _ _ _ Wtot (@cneg_within B _ W1)) W2) by lia.
    rewrite (moved_row_total costs cs k (Z.of_nat j) t ltac:(lia) Et).
    assert (Lk : k <= length (drop_at k cs)) by (rewrite length_drop_at; lia).
    apply attained_by_cols; try assumption.
    - rewrite ins_length, length_drop_at; lia.
    - apply ins_NoDup; [apply NoDup_drop_at; exact Ncs | exact Hfresh].
    - apply Forall_forall. intros x Hx. apply ins_In in Hx.
      destruct Hx as [Hx | Hx]; [subst x; apply in_range_of_nat; exact Hj | ].
      rewrite Forall_forall in Rcs. apply Rcs. eapply In_drop_at. exact Hx.
    - rewrite (ins_nth Z k _ _ k 0%Z Lk), Nat.ltb_irrefl, Nat.eqb_refl. reflexivity. }
  destruct (for_each_inv (nat * Z) ndarray
              (constrain_row lap costs rs cs ls best second third pc)
              (enumerate cs)
              (fun m tc =>
                 wf_ndarray tc /\ nrows tc = nrows costs /\ ncols tc = ncols costs
                 /\ (forall k j, k < m -> j < ncols costs ->
                       attained costs k j (cell tc (Z.of_nat k) (Z.of_nat j)))
                 /\ (forall k j, m <= k ->
                       cell tc (Z.of_nat k) (Z.of_nat j) = cell b (Z.of_nat k) (Z.of_nat j)))
              b) as [tc [Etc I]].
  - split; [exact Wb | ]. split; [exact Rb | ]. split; [exact Cb | ].
    split; [intros k j Hk; lia | reflexivity].
  - intros m [i fj] tc0 Hm (W0 & R0 & C0 & A0 & K0).
    destruct (nth_error_enumerate Z cs m _ Hm) as (Lm & Ei & Ef). cbn [fst snd] in Ei, Ef.
    subst i. rewrite (Ef 0%Z).
    destruct (constrain_row_sound cs t m tc0 Lcs Ncs Rcs Ipc Et ltac:(lia) W0 R0 C0)
      as (tc1 & E1 & W1 & R1 & C1 & K1 & A1).
    { intros j Hj Hfresh. rewrite K0 by lia. apply Base; [lia | exact Hj | exact Hfresh]. }
    exists tc1. split; [exact E1 | ]. split; [exact W1 | ]. split; [exact R1 | ].
    split; [exact C1 | ]. split.
    + intros k j Hk Hj. destruct (Nat.eq_dec k m) as [Q | Q]; [subst k; apply A1; exact Hj | ].
      rewrite (K1 k j Q). apply A0; [lia | exact Hj].
    + intros k j Hk. rewrite (K1 k j) by lia. apply K0. lia.
  - unfold enumerate in I. rewrite length_combine, length_seq, Nat.min_id, Lcs in I.
    destruct I as (W1 & R1 & C1 & A1 & _).
    match goal with
    | |- context [bind ?e _] =>
        let E' := fresh "E" in assert (E' : e = ret tc) by exact Etc; rewrite E'
    end.
    cbn [bind ret].
    destruct (fancy_set_range tc rs cs (Fin t) W1 ltac:(lia))
      as (out & Eo & Wo & Ro & Co & Ho).
    { rewrite R1. apply Forall_forall. intros x Hx. apply arange_In. exact Hx. }
    { rewrite C1. exact Rcs. }
    exists out. split; [exact Eo | ]. split; [exact Wo | ]. split; [lia | ].
    split; [lia | ].
    assert (Hex : forall i j,
              existsb (fun p => (fst p =? Z.of_nat i)%Z && (snd p =? Z.of_nat j)%Z)
                      (combine rs cs) = true <-> includes i j rs cs).
    { intros i j. unfold includes. rewrite existsb_exists. split.
      - intros [[r c] [Hin Q]]. cbn [fst snd] in Q. apply andb_true_iff in Q.
        destruct Q as [Q1 Q2]. apply Z.eqb_eq in Q1, Q2. subst r c. exact Hin.
      - intros Hin. exists (Z.of_nat i, Z.of_nat j). split; [exact Hin | ].
        cbn [fst snd]. rewrite !Z.eqb_refl. reflexivity. }
    split.
    + intros i j Hi Hj.
      rewrite Ho by (apply in_range_of_nat; lia).
      destruct (existsb _ (combine rs cs)) eqn:X.
      * apply Hex in X. exists rs, cs. split; [ | split; [exact X | ]].
        -- apply full_assignment; assumption.
        -- exact Eas.
      * apply A1; assumption.
    + intros i j Hi Hj Hinc. rewrite Ho by (apply in_range_of_nat; lia).
      rewrite (proj2 (Hex i j) Hinc). reflexivity.
Qed.

End Wide.

(** *** The solver on a matrix with at least as many columns as rows *)

Lemma full_wf : forall r c v, wf_ndarray (full r c v).
Proof.
  intros r c v. split; cbn [full mk_ndarray nrows ncols data].
  - apply repeat_length.
  - apply Forall_forall. intros x Hx. apply repeat_spec in Hx. subst x. apply repeat_length.
Qed.

Lemma cell_full : forall r c v i j,
  i < r -> j < c -> cell (full r c v) (Z.of_nat i) (Z.of_nat j) = v.
Proof.
  intros r c v i j Hi Hj. unfold cell, full. cbn [mk_ndarray data]. rewrite !Nat2Z.id.
  rewrite (@nth_repeat_lt _ (repeat v c) [] r i Hi). apply nth_repeat_lt. exact Hj.
Qed.

Lemma some_assignment_through : forall (costs : ndarray) i j,
  i < nrows costs -> j < ncols costs ->
  exists rs cs, is_assignment costs rs cs /\ includes i j rs cs.
Proof.
  intros costs i j Hi Hj.
  destruct (some_assignment (without_row_col i j costs)) as (rs & cs & A).
  destruct (@lift_assignment costs i j rs cs Hi Hj A) as (rs' & cs' & A' & I' & _).
  exists rs', cs'. split; assumption.
Qed.

Lemma wide_sound : forall lap costs B,
  lap_spec lap -> wf_ndarray costs -> valid_costs costs = true ->
  nrows costs <= ncols costs -> 0 < ncols costs ->
  (0 <= B)%Z -> cells_within B costs ->
  ((Z.of_nat (nrows costs) + 2) * B <= 9007199254740992)%Z ->
  exists out,
    constrained_lsap_costs_wide lap costs = ret out
    /\ wf_ndarray out /\ nrows out = nrows costs /\ ncols out = ncols costs
    /\ (forall i j, i < nrows costs -> j < ncols costs ->
          attained costs i j (cell out (Z.of_nat i) (Z.of_nat j)))
    /\ (forall rs cs i j, lap costs = ret (rs, cs) ->
          i < nrows costs -> j < ncols costs -> includes i j rs cs ->
          cell out (Z.of_nat i) (Z.of_nat j) = assignment_cost costs rs cs).
Proof.
  intros lap costs B Hlap W V Hwide Hc HB Hcw Hexact.
  unfold constrained_lsap_costs_wide. cbv zeta.
  destruct (lap costs) as [e | [rs cs]] eqn:EL.
  { destruct (@lap_infeasible lap Hlap _ _ W V EL) as [E Hall]. subst e.
    rewrite String.eqb_refl. exists (full (nrows costs) (ncols costs) PInf).
    split; [reflexivity | ]. split; [apply full_wf | ]. split; [reflexivity | ].
    split; [reflexivity | ]. split; [ | intros; discriminate].
    intros i j Hi Hj. rewrite (cell_full _ _ _ _ _ Hi Hj).
    destruct (some_assignment_through costs i j Hi Hj) as (rs & cs & A & I).
    exists rs, cs. split; [exact A | ]. split; [exact I | ]. apply Hall. exact A. }
  destruct (@lap_optimal lap Hlap _ _ _ W V EL) as (A & Hfin & _).
  pose proof (assignment_rows costs rs cs Hwide A) as Ers. subst rs.
  pose proof (@assignment_cost_valid _ _ _ W V A) as Vt.
  destruct (assignment_cost costs (arange (nrows costs)) cs) as [t | | | ] eqn:Et;
    try discriminate; [ | congruence].
  rewrite (@fancy_get_assignment _ _ _ W A). cbn [bind ret].
  destruct A as [A1 A2 _ A4 Ncs Rcs].
  assert (Lrs : length (arange (nrows costs)) = nrows costs)
    by (unfold arange; rewrite length_map, length_seq; reflexivity).
  assert (Lcs : length cs = nrows costs) by lia.
  assert (Er : rowsum costs cs = Fin t).
  { rewrite <- Et. rewrite <- Lcs. symmetry. apply cost_by_rows. }
  destruct (argmin_axis1_range costs W Hc) as (best & Eb & Lb & Rb).
  rewrite Eb. cbn [bind ret].
  destruct (fancy_set_range costs (arange (nrows costs)) best PInf W ltac:(lia) A4 Rb)
    as (c1 & E1 & W1 & R1 & C1 & _).
  rewrite E1. cbn [bind ret].
  destruct (argmin_axis1_range c1 W1 ltac:(lia)) as (second & Es & Ls & Rs).
  rewrite Es. cbn [bind ret]. rewrite R1 in Ls. rewrite C1 in Rs.
  destruct (fancy_set_range c1 (arange (nrows costs)) second PInf W1 ltac:(lia))
    as (c2 & E2 & W2 & R2 & C2 & _).
  { rewrite R1. exact A4. }
  { rewrite C1. exact Rs. }
  rewrite E2. cbn [bind ret].
  destruct (argmin_axis1_range c2 W2 ltac:(lia)) as (third & Eth & Lt & Rt).
  rewrite Eth. cbn [bind ret]. rewrite R2, R1 in Lt. rewrite C2, C1 in Rt.
  assert (Fin_post : forall out : ndarray,
    (forall i j, i < nrows costs -> j < ncols costs ->
       includes i j (arange (nrows costs)) cs ->
       cell out (Z.of_nat i) (Z.of_nat j) = Fin t) ->
    forall rs cs0 i j, ret (arange (nrows costs), cs) = ret (rs, cs0) ->
      i < nrows costs -> j < ncols costs -> includes i j rs cs0 ->
      cell out (Z.of_nat i) (Z.of_nat j) = assignment_cost costs rs cs0).
  { intros out H rs cs0 i j Q Hi Hj Hinc. inversion Q; subst rs cs0.
    rewrite Et. apply H; assumption. }
  destruct (Nat.ltb_spec (nrows costs) (ncols costs)) as [Lt' | Ge].
  - set (unused := setdiff1d (arange (ncols costs)) cs).
    assert (Ru : Forall (in_range (ncols costs)) unused).
    { apply Forall_forall. intros x Hx. apply setdiff1d_In in Hx.
      apply arange_In. tauto. }
    rewrite (cols_by_idx_range costs unused Ru). cbn [bind ret].
    assert (Hu : 0 < length unused).
    { destruct (fresh_column (arange (ncols costs)) cs) as [x [Hx Hnx]].
      - apply StronglySorted_NoDup. apply arange_sorted.
      - unfold arange. rewrite length_map, length_seq. lia.
      - assert (Hin : In x unused) by (apply setdiff1d_In; tauto).
        destruct unused; [contradiction | cbn; lia]. }
    destruct (argmin_axis1_range (take_cols costs unused) (take_cols_wf costs unused W) Hu)
      as (first & Ef & Lf & Rf).
    rewrite Ef. cbn [bind ret]. cbn [take_cols mk_ndarray nrows ncols] in Lf, Rf.
    rewrite (mapM_list_get_range unused first Rf). cbn [bind ret].
    set (picked := map (fun q => nth (Z.to_nat q) unused 0%Z) first).
    set (pc := union1d cs picked).
    assert (Ipc : incl cs pc).
    { intros x Hx. unfold pc, union1d. apply np_unique_In. apply in_or_app. left. exact Hx. }
    assert (Npc : NoDup pc).
    { apply StronglySorted_NoDup. apply np_unique_sorted. }
    assert (Rpc : Forall (in_range (ncols costs)) pc).
    { apply Forall_forall. intros x Hx. unfold pc, union1d in Hx.
      apply (proj1 (np_unique_In _ _)) in Hx. apply in_app_or in Hx. destruct Hx as [Hx | Hx].
      - rewrite Forall_forall in Rcs. apply Rcs. exact Hx.
      - unfold picked in Hx. apply in_map_iff in Hx. destruct Hx as [q [E Hq]]. subst x.
        rewrite Forall_forall in Ru, Rf. apply Ru. apply nth_In.
        specialize (Rf q Hq). unfold in_range in Rf. lia. }
    assert (Lpc : nrows costs <= length pc).
    { rewrite <- Lcs. apply NoDup_incl_length; assumption. }
    destruct (wide_tail lap Hlap costs W V Hwide B HB Hcw Hexact
                best second third pc Lb Rb Ls Rs Lt Rt
                Npc Rpc Lpc cs t Lcs Ncs Rcs Ipc Er)
      as (out & Eo & Wo & Ro & Co & Ao & Xo).
    exists out. split; [exact Eo | ]. split; [exact Wo | ]. split; [exact Ro | ].
    split; [exact Co | ]. split; [exact Ao | ]. apply Fin_post. exact Xo.
  - cbn [bind ret]. set (pc := arange (ncols costs)).
    assert (Ipc : incl cs pc).
    { intros x Hx. apply arange_In. rewrite Forall_forall in Rcs. apply Rcs. exact Hx. }
    assert (Npc : NoDup pc).
    { apply StronglySorted_NoDup. apply arange_sorted. }
    assert (Rpc : Forall (in_range (ncols costs)) pc).
    { apply Forall_forall. intros x Hx. apply arange_In. exact Hx. }
    assert (Lpc : nrows costs <= length pc).
    { unfold pc, arange. rewrite length_map, length_seq. exact Hwide. }
    destruct (wide_tail lap Hlap costs W V Hwide B HB Hcw Hexact
                best second third pc Lb Rb Ls Rs Lt Rt
                Npc Rpc Lpc cs t Lcs Ncs Rcs Ipc Er)
      as (out & Eo & Wo & Ro & Co & Ao & Xo).
    exists out. split; [exact Eo | ]. split; [exact Wo | ]. split; [exact Ro | ].
    split; [exact Co | ]. split; [exact Ao | ]. apply Fin_post. exact Xo.
Qed.

(** *** Assignments of the transposed matrix *)

Lemma transpose_costs_wf : forall (a : ndarray), wf_ndarray a -> wf_ndarray (transpose a).
Proof.
  intros a [Hr _]. unfold transpose, transpose_with. split; cbn [data nrows ncols].
  - rewrite length_map, length_seq. reflexivity.
  - apply Forall_forall. intros r Hin. apply in_map_iff in Hin.
    destruct Hin as [k [E _]]. subst r. rewrite length_map. exact Hr.
Qed.

Lemma cell_transpose : forall (a : ndarray) r c,
  wf_ndarray a -> in_range (ncols a) r -> in_range (nrows a) c ->
  cell (transpose a) r c = cell a c r.
Proof.
  intros a r c [Hr _] Rr Rc. unfold cell, transpose, transpose_with. cbn [data].
  unfold in_range in Rr, Rc.
  rewrite (@nth_map_seq _ _ [] (ncols a) 0 (Z.to_nat r)) by lia. cbn [Nat.add].
  rewrite (@nth_map_lt _ _ (fun row => nth (Z.to_nat r) row NaN) NaN [] _ (Z.to_nat c))
    by lia.
  reflexivity.
Qed.

Lemma transpose_valid : forall (a : ndarray),
  wf_ndarray a -> valid_costs a = true -> valid_costs (transpose a) = true.
Proof.
  intros a W V. unfold valid_costs. apply forallb_forall. intros row Hrow.
  unfold transpose, transpose_with in Hrow. cbn [data] in Hrow.
  apply in_map_iff in Hrow. destruct Hrow as [j [E Hj]]. subst row. apply in_seq in Hj.
  apply forallb_forall. intros x Hx. apply in_map_iff in Hx.
  destruct Hx as [r [E Hr]]. subst x.
  destruct (In_nth _ _ [] Hr) as [i [Hi Ei]]. subst r.
  destruct W as [Wr Wc].
  replace (nth j (nth i (data a) []) NaN) with (cell a (Z.of_nat i) (Z.of_nat j))
    by (unfold cell; rewrite !Nat2Z.id; reflexivity).
  apply cell_valid; [split; assumption | exact V | | ]; apply in_range_of_nat; lia.
Qed.

Lemma sort_pairs_perm : forall ps, Permutation (fold_right insert_pair [] ps) ps.
Proof.
  induction ps as [ | p ps IH]; cbn [fold_right]; [constructor | ].
  eapply perm_trans; [apply insert_pair_perm | apply perm_skip; exact IH].
Qed.

Lemma sort_pairs_sorted : forall ps,
  NoDup (map fst ps) -> StronglySorted Z.lt (map fst (fold_right insert_pair [] ps)).
Proof.
  induction ps as [ | p ps IH]; intros N; cbn [fold_right]; [constructor | ].
  cbn [map] in N. inversion N as [ | ? ? Hp Hps]; subst.
  apply insert_pair_sorted; [apply IH; exact Hps | ].
  intros Hin. apply Hp. eapply Permutation_in; [ | exact Hin].
  apply Permutation_map. apply sort_pairs_perm.
Qed.

(** An assignment of [a] through [(i, j)], read with rows and columns
    exchanged, is one of a matrix [b] holding the entries of [a]
    transposed. *)
Lemma swap_assignment : forall (a b : ndarray) i j rs cs,
  nrows b = ncols a -> ncols b = nrows a ->
  (forall r c, in_range (nrows a) r -> in_range (ncols a) c -> cell b c r = cell a r c) ->
  is_assignment a rs cs -> includes i j rs cs ->
  exists rs' cs', is_assignment b rs' cs' /\ includes j i rs' cs'
                  /\ assignment_cost b rs' cs' = assignment_cost a rs cs.
Proof.
  intros a b i j rs cs Hr Hc Hcell A I.
  apply is_assignment_matching in A. destruct A as (L1 & L2 & S & Rr & N & Rc).
  set (ps := combine rs cs) in *.
  set (sw := map (fun p : Z * Z => (snd p, fst p)) ps).
  set (ps' := fold_right insert_pair [] sw).
  assert (P : Permutation ps' sw) by apply sort_pairs_perm.
  assert (Ef : map fst sw = map snd ps) by (unfold sw; rewrite map_map; reflexivity).
  assert (Es : map snd sw = map fst ps) by (unfold sw; rewrite map_map; reflexivity).
  exists (map fst ps'), (map snd ps'). split; [ | split].
  - apply matching_is_assignment.
    + unfold matching. split; [ | split; [ | split]].
      * apply sort_pairs_sorted. rewrite Ef. exact N.
      * eapply Permutation_Forall.
        { apply Permutation_sym. apply Permutation_map. exact P. }
        rewrite Ef, Hr. exact Rc.
      * eapply Permutation_NoDup.
        { apply Permutation_sym. apply Permutation_map. exact P. }
        rewrite Es. apply StronglySorted_NoDup. exact S.
      * eapply Permutation_Forall.
        { apply Permutation_sym. apply Permutation_map. exact P. }
        rewrite Es, Hc. exact Rr.
    + rewrite (Permutation_length P). unfold sw, ps. rewrite length_map, length_combine.
      lia.
  - unfold includes in *. rewrite combine_fst_snd.
    eapply Permutation_in; [apply Permutation_sym; exact P | ].
    unfold sw. apply in_map_iff. exists (Z.of_nat i, Z.of_nat j). split; [reflexivity | exact I].
  - unfold assignment_cost. rewrite combine_fst_snd. fold ps.
    rewrite (total_perm (Permutation_map _ P)). unfold sw. rewrite map_map.
    f_equal. apply map_ext_in. intros [r c] Hin. cbn [fst snd]. apply Hcell.
    + rewrite Forall_forall in Rr. apply Rr. change r with (fst (r, c)). apply in_map. exact Hin.
    + rewrite Forall_forall in Rc. apply Rc. change c with (snd (r, c)). apply in_map. exact Hin.
Qed.

Lemma attained_transpose : forall (a : ndarray) i j v,
  wf_ndarray a -> attained (transpose a) j i v -> attained a i j v.
Proof.
  intros a i j v W (rs & cs & A & I & C).
  destruct (swap_assignment (transpose a) a j i rs cs eq_refl eq_refl) as (rs' & cs' & A' & I' & C');
    try assumption.
  - intros r c Hr Hc. symmetry. apply cell_transpose; assumption.
  - exists rs', cs'. split; [exact A' | ]. split; [exact I' | ]. congruence.
Qed.

Lemma min_constrained_transpose : forall (a : ndarray) i j v,
  wf_ndarray a -> is_min_constrained (transpose a) j i v -> is_min_constrained a i j v.
Proof.
  intros a i j v W [Hex Hmin]. split.
  - apply (attained_transpose a i j v W). exact Hex.
  - intros rs cs A I.
    destruct (swap_assignment a (transpose a) i j rs cs eq_refl eq_refl) as (rs' & cs' & A' & I' & C');
      try assumption.
    + intros r c Hr Hc. apply cell_transpose; assumption.
    + rewrite <- C'. apply Hmin; assumption.
Qed.

(** *** The solver on any matrix *)

Lemma cells_within_transpose : forall B (a : ndarray),
  wf_ndarray a -> cells_within B a -> cells_within B (transpose a).
Proof.
  intros B a W H r c Hr Hc. cbn [transpose transpose_with nrows ncols] in Hr, Hc.
  rewrite cell_transpose by assumption. apply H; assumption.
Qed.

Lemma constrained_lsap_costs_entries : forall lap costs,
  lap_spec lap -> wf_ndarray costs -> valid_costs costs = true ->
  exact_costs costs = true ->
  nrows costs <> 0 \/ ncols costs <> 0 ->
  exists out,
    constrained_lsap_costs lap costs = ret out
    /\ wf_ndarray out /\ nrows out = nrows costs /\ ncols out = ncols costs
    /\ forall i j, i < nrows costs -> j < ncols costs ->
         attained costs i j (cell out (Z.of_nat i) (Z.of_nat j)).
Proof.
  intros lap costs Hlap W V X Hne. unfold constrained_lsap_costs.
  destruct (@exact_costs_within costs W X) as (B & HB & Hcw & Hn).
  destruct (Nat.ltb_spec (ncols costs) (nrows costs)) as [Tall | Wide].
  - rewrite Nat.min_r in Hn by lia.
    destruct (wide_sound lap (transpose costs) B Hlap (transpose_costs_wf costs W)
                (transpose_valid costs W V))
      as (t & Et & Wt & Rt & Ct & At & _).
    { cbn [transpose transpose_with nrows ncols]. lia. }
    { cbn [transpose transpose_with nrows ncols]. lia. }
    { exact HB. }
    { apply cells_within_transpose; assumption. }
    { cbn [transpose transpose_with nrows ncols]. exact Hn. }
    cbn [transpose transpose_with nrows ncols] in Rt, Ct.
    rewrite Et. cbn [bind ret]. exists (transpose t).
    split; [reflexivity | ]. split; [apply transpose_costs_wf; exact Wt | ].
    split; [cbn [transpose transpose_with nrows ncols]; exact Ct | ].
    split; [cbn [transpose transpose_with nrows ncols]; exact Rt | ].
    intros i j Hi Hj.
    rewrite (cell_transpose t _ _ Wt)
      by (apply in_range_of_nat; lia).
    apply attained_transpose; [exact W | ]. apply At.
    + cbn [transpose transpose_with nrows ncols]. exact Hj.
    + cbn [transpose transpose_with nrows ncols]. exact Hi.
  - rewrite Nat.min_l in Hn by lia.
    destruct (wide_sound lap costs B Hlap W V Wide ltac:(lia) HB Hcw Hn)
      as (out & Eo & Wo & Ro & Co & Ao & _).
    exists out. split; [exact Eo | ]. split; [exact Wo | ]. split; [exact Ro | ].
    split; [exact Co | exact Ao].
Qed.

Lemma constrained_lsap_cost_bound : forall lap costs i j v rs cs B,
  lap_spec lap -> wf_ndarray costs -> valid_costs costs = true ->
  (0 <= B)%Z -> cells_within B costs ->
  (Z.of_nat (Nat.min (nrows costs) (ncols costs)) * B <= 9007199254740992)%Z ->
  i < nrows costs -> j < ncols costs ->
  constrained_lsap_cost lap i j costs = ret v ->
  is_assignment costs rs cs -> includes i j rs cs ->
  cle v (assignment_cost costs rs cs) = true.
Proof.
  intros lap costs i j v rs' cs' B Hlap W V HB Hcw Hn Hi Hj E A' I'.
  pose proof (@without_row_col_wf i j costs W Hi Hj) as Wsub.
  pose proof (@without_row_col_valid i j costs V) as Vsub.
  assert (Vij : valid_entry (cell costs (Z.of_nat i) (Z.of_nat j)) = true).
  { apply cell_valid; try assumption; unfold in_range; lia. }
  destruct (@lower_assignment costs i j rs' cs' Hi Hj A' I') as (rs0 & cs0 & A0 & C0).
  unfold constrained_lsap_cost in E.
  rewrite constraint_submatrix_eq in E by assumption. cbn [bind ret] in E.
  destruct (lap (without_row_col i j costs)) as [e | [rs cs]] eqn:L.
  - destruct (@lap_infeasible lap Hlap _ _ Wsub Vsub L) as [Q Hall]. subst e.
    rewrite String.eqb_refl in E. inversion E; subst v.
    rewrite C0, (Hall _ _ A0).
    destruct (cell costs (Z.of_nat i) (Z.of_nat j)); cbn in *; congruence.
  - destruct (@lap_optimal lap Hlap _ _ _ Wsub Vsub L) as (A & _ & Opt).
    rewrite (@fancy_get_assignment _ _ _ Wsub A) in E. cbn [bind ret] in E.
    rewrite get2_cell in E by (try assumption; unfold in_range; lia). cbn [bind ret] in E.
    assert (Ls : length rs < Nat.min (nrows costs) (ncols costs)).
    { rewrite (asg_size A). cbn [without_row_col mk_ndarray nrows ncols]. lia. }
    pose proof (@scaled_le B (Datatypes.S (length rs)) _ HB Ls) as Hs.
    destruct (@csum_assignment B _ rs cs HB (@cells_within_without B i j costs Hi Hj Hcw) A)
      as [Es Ws]; [lia | ].
    rewrite Es in E.
    rewrite (@cadd_exact (Z.of_nat (length rs) * B) B _ _ Ws) in E
      by (try lia; apply Hcw; unfold in_range; lia).
    inversion E; subst v.
    rewrite tadd_comm, C0. apply cle_add_mono; try assumption.
    + apply assignment_cost_valid; assumption.
    + apply assignment_cost_valid; assumption.
    + apply Opt. exact A0.
Qed.

Lemma get2_ret_cell : forall (a : ndarray) i j v,
  i < nrows a -> j < ncols a ->
  get2 a (Z.of_nat i) (Z.of_nat j) = ret v -> cell a (Z.of_nat i) (Z.of_nat j) = v.
Proof.
  intros a i j v Hi Hj E. unfold get2 in E.
  rewrite (@norm_index_of_nat _ _ Hi), (@norm_index_of_nat _ _ Hj) in E. cbn [bind ret] in E.
  unfold cell. rewrite !Nat2Z.id.
  destruct (nth_error (data a) i) as [r | ] eqn:Er; [ | discriminate].
  destruct (nth_error r j) as [c | ] eqn:Ec; [ | discriminate].
  inversion E; subst c.
  rewrite (nth_error_nth _ _ [] Er). apply (nth_error_nth _ _ NaN Ec).
Qed.

(** The optimum of a matrix is, for each of its pairs, a cheapest
    assignment through the pair. *)
Lemma optimum_is_min : forall lap (a : ndarray) rs cs i j,
  lap_spec lap -> wf_ndarray a -> valid_costs a = true ->
  lap a = ret (rs, cs) -> includes i j rs cs ->
  is_min_constrained a i j (assignment_cost a rs cs).
Proof.
  intros lap a rs cs i j Hlap W V EL I.
  destruct (@lap_optimal lap Hlap _ _ _ W V EL) as (A & _ & Opt). split.
  - exists rs, cs. split; [exact A | ]. split; [exact I | reflexivity].
  - intros rs' cs' A' _. apply Opt. exact A'.
Qed.

(** Every entry of the result of [constrained_lsap_costs] is the total of
    an assignment that pairs its row with its column.  On a well-formed
    matrix that is not 0 x 0, whose entries are [+inf] or integers small
    enough for the sums of the code to be exact ([exact_costs]), and for
    a solver meeting its contract, the function returns a matrix of the
    shape of its input whose entry [(i, j)] is attained by an assignment
    through [(i, j)].  So on such a matrix no entry is below the
    constrained optimum. *)
Theorem constrained_lsap_costs_attained : forall lap costs,
  lap_spec lap -> wf_ndarray costs -> valid_costs costs = true ->
  exact_costs costs = true ->
  nrows costs <> 0 \/ ncols costs <> 0 ->
  exists out,
    constrained_lsap_costs lap costs = ret out
    /\ wf_ndarray out /\ nrows out = nrows costs /\ ncols out = ncols costs
    /\ forall i j, i < nrows costs -> j < ncols costs ->
         exists rs cs, is_assignment costs rs cs /\ includes i j rs cs
           /\ assignment_cost costs rs cs = cell out (Z.of_nat i) (Z.of_nat j).
Proof.
  intros lap costs Hlap W V X Hne.
  destruct (constrained_lsap_costs_entries lap costs Hlap W V X Hne)
    as (out & E & Wo & Ro & Co & A).
  exists out. split; [exact E | ]. split; [exact Wo | ]. split; [exact Ro | ].
  split; [exact Co | ]. intros i j Hi Hj. exact (A i j Hi Hj).
Qed.

Lemma chain_costs_wf : wf_ndarray chain_costs.
Proof. split; [reflexivity | repeat constructor]. Qed.

Lemma constrained_lsap_costs_attained_witness :
  exact_costs chain_costs = true
  /\ exists out,
    constrained_lsap_costs lap_exhaustive chain_costs = ret out
    /\ wf_ndarray out /\ nrows out = nrows chain_costs /\ ncols out = ncols chain_costs
    /\ forall i j, i < nrows chain_costs -> j < ncols chain_costs ->
         exists rs cs, is_assignment chain_costs rs cs /\ includes i j rs cs
           /\ assignment_cost chain_costs rs cs = cell out (Z.of_nat i) (Z.of_nat j).
Proof.
  split; [reflexivity | ].
  apply (constrained_lsap_costs_attained lap_exhaustive chain_costs lap_exhaustive_spec
           chain_costs_wf eq_refl eq_refl).
  left. cbn. discriminate.
Defined.

(** On a matrix of [+inf] and integers small enough for the sums of the
    code to be exact, the fast solver never reports less than the
    reference implementation of the docstring: when both return, each
    entry of [constrained_lsap_costs(costs)] is at least the entry of the
    matrix built from one [constrained_lsap_cost] per entry. *)
Theorem constrained_lsap_costs_above_naive : forall lap costs fast slow,
  lap_spec lap -> wf_ndarray costs -> valid_costs costs = true ->
  exact_costs costs = true ->
  constrained_lsap_costs lap costs = ret fast ->
  naive_constrained_lsap_costs lap costs = ret slow ->
  forall i j, i < nrows costs -> j < ncols costs ->
    cle (cell slow (Z.of_nat i) (Z.of_nat j)) (cell fast (Z.of_nat i) (Z.of_nat j)) = true.
Proof.
  intros lap costs fast slow Hlap W V X Ef Es i j Hi Hj.
  destruct (constrained_lsap_costs_entries lap costs Hlap W V X ltac:(lia))
    as (out & E & _ & _ & _ & A).
  assert (Q : out = fast) by (rewrite E in Ef; inversion Ef; reflexivity). subst out.
  destruct (@naive_entries lap costs Hlap W V) as (slow0 & Es0 & Hs).
  assert (Q : slow0 = slow) by (rewrite Es0 in Es; inversion Es; reflexivity). subst slow0.
  assert (Sh : nrows slow = nrows costs /\ ncols slow = ncols costs).
  { unfold naive_constrained_lsap_costs in Es.
    destruct (mapM _ (seq 0 (nrows costs))) as [e | rows]; [discriminate | ].
    cbn [bind ret] in Es. inversion Es. split; reflexivity. }
  destruct (@exact_costs_within costs W X) as (B & HB & Hcw & Hn).
  assert (Hn' : (Z.of_nat (Nat.min (nrows costs) (ncols costs)) * B
                 <= 9007199254740992)%Z) by lia.
  destruct (constrained_lsap_cost_attained lap costs i j B Hlap W V HB Hcw Hn' Hi Hj)
    as (v & Ev & _).
  pose proof (Hs i j Hi Hj) as G. rewrite Ev in G. symmetry in G.
  rewrite (get2_ret_cell slow i j v ltac:(lia) ltac:(lia) G).
  destruct (A i j Hi Hj) as (rs & cs & Aa & Ia & Ca). rewrite <- Ca.
  apply (constrained_lsap_cost_bound lap costs i j v rs cs B); assumption.
Qed.

Lemma constrained_lsap_costs_above_naive_witness :
  exact_costs chain_costs = true
  /\ constrained_lsap_costs lap_exhaustive chain_costs
     = ret (mk_ndarray 3 4 [[Fin 5; Fin 106; Fin 101; Fin 15];
                            [Fin 11; Fin 5; Fin 100; Fin 100];
                            [Fin 110; Fin 11; Fin 5; Fin 100]])
  /\ naive_constrained_lsap_costs lap_exhaustive chain_costs
     = ret (mk_ndarray 3 4 [[Fin 5; Fin 106; Fin 101; Fin 11];
                            [Fin 11; Fin 5; Fin 100; Fin 100];
                            [Fin 110; Fin 11; Fin 5; Fin 100]])
  /\ cle (Fin 11) (Fin 15) = true.
Proof.
  split; [reflexivity | ].
  split; [vm_compute; reflexivity | ]. split; [vm_compute; reflexivity | ].
  exact (constrained_lsap_costs_above_naive lap_exhaustive chain_costs
           (mk_ndarray 3 4 [[Fin 5; Fin 106; Fin 101; Fin 15];
                            [Fin 11; Fin 5; Fin 100; Fin 100];
                            [Fin 110; Fin 11; Fin 5; Fin 100]])
           (mk_ndarray 3 4 [[Fin 5; Fin 106; Fin 101; Fin 11];
                            [Fin 11; Fin 5; Fin 100; Fin 100];
                            [Fin 110; Fin 11; Fin 5; Fin 100]])
           lap_exhaustive_spec chain_costs_wf eq_refl eq_refl eq_refl eq_refl 0 3
           ltac:(cbn; lia) ltac:(cbn; lia)).
Defined.

(** On a matrix of [+inf] and integers small enough for the sums of the
    code to be exact, the result is exact on the pairs of the optimum the
    solver found for the matrix (or for its transpose, when there are
    more rows than columns): the entry is the total of that optimum, and
    it is the least total among the assignments through the pair. *)
Theorem constrained_lsap_costs_exact_on_optimum : forall lap costs rs cs fast,
  lap_spec lap -> wf_ndarray costs -> valid_costs costs = true ->
  exact_costs costs = true ->
  lap (normalized costs) = ret (rs, cs) ->
  constrained_lsap_costs lap costs = ret fast ->
  forall i j, i < nrows costs -> j < ncols costs ->
    In (if ncols costs <? nrows costs
        then (Z.of_nat j, Z.of_nat i) else (Z.of_nat i, Z.of_nat j)) (combine rs cs) ->
    cell fast (Z.of_nat i) (Z.of_nat j) = assignment_cost (normalized costs) rs cs
    /\ is_min_constrained costs i j (cell fast (Z.of_nat i) (Z.of_nat j)).
Proof.
  intros lap costs rs cs fast Hlap W V X EL Ef i j Hi Hj Hin.
  destruct (@exact_costs_within costs W X) as (B & HB & Hcw & Hn).
  unfold constrained_lsap_costs in Ef. unfold normalized in *.
  destruct (Nat.ltb_spec (ncols costs) (nrows costs)) as [Tall | Wide].
  - rewrite Nat.min_r in Hn by lia.
    pose proof (transpose_costs_wf costs W) as Wt.
    pose proof (transpose_valid costs W V) as Vt.
    destruct (wide_sound lap (transpose costs) B Hlap Wt Vt)
      as (t & Et & Wo & Ro & Co & _ & Y).
    { cbn [transpose transpose_with nrows ncols]. lia. }
    { cbn [transpose transpose_with nrows ncols]. lia. }
    { exact HB. }
    { apply cells_within_transpose; assumption. }
    { cbn [transpose transpose_with nrows ncols]. exact Hn. }
    rewrite Et in Ef. cbn [bind ret] in Ef. inversion Ef; subst fast.
    cbn [transpose transpose_with nrows ncols] in Ro, Co.
    rewrite (cell_transpose t _ _ Wo) by (apply in_range_of_nat; lia).
    rewrite (Y rs cs j i EL Hj Hi Hin). split; [reflexivity | ].
    apply min_constrained_transpose; [exact W | ].
    apply (optimum_is_min lap (transpose costs) rs cs j i Hlap Wt Vt EL Hin).
  - rewrite Nat.min_l in Hn by lia.
    destruct (wide_sound lap costs B Hlap W V Wide ltac:(lia) HB Hcw Hn)
      as (out & Eo & _ & _ & _ & _ & Y).
    assert (Q : out = fast) by (rewrite Eo in Ef; inversion Ef; reflexivity). subst out.
    rewrite (Y rs cs i j EL Hi Hj Hin). split; [reflexivity | ].
    apply (optimum_is_min lap costs rs cs i j Hlap W V EL Hin).
Qed.

Lemma tall_costs_wf : wf_ndarray tall_costs.
Proof. split; [reflexivity | repeat constructor]. Qed.

Lemma constrained_lsap_costs_exact_on_optimum_witness :
  exact_costs tall_costs = true
  /\ lap_exhaustive (normalized tall_costs) = ret ([0; 1]%Z, [0; 1]%Z)
  /\ constrained_lsap_costs lap_exhaustive tall_costs
     = ret (mk_ndarray 3 2 [[Fin 2; Fin 14]; [Fin 14; Fin 2]; [Fin 6; Fin 6]])
  /\ cell (mk_ndarray 3 2 [[Fin 2; Fin 14]; [Fin 14; Fin 2]; [Fin 6; Fin 6]]) 1%Z 1%Z
     = assignment_cost (normalized tall_costs) [0; 1]%Z [0; 1]%Z
  /\ is_min_constrained tall_costs 1 1
       (cell (mk_ndarray 3 2 [[Fin 2; Fin 14]; [Fin 14; Fin 2]; [Fin 6; Fin 6]]) 1%Z 1%Z).
Proof.
  split; [reflexivity | ].
  split; [vm_compute; reflexivity | ]. split; [vm_compute; reflexivity | ].
  exact (constrained_lsap_costs_exact_on_optimum lap_exhaustive tall_costs
           [0; 1]%Z [0; 1]%Z
           (mk_ndarray 3 2 [[Fin 2; Fin 14]; [Fin 14; Fin 2]; [Fin 6; Fin 6]])
           lap_exhaustive_spec tall_costs_wf eq_refl eq_refl eq_refl eq_refl 1 1
           ltac:(cbn; lia) ltac:(cbn; lia) ltac:(cbn; tauto)).
Defined.
